(** * HybridGraphRAG: text cleaning, graph normalisation and hybrid search

    A shallow embedding of the TypeScript sources

    - [lib/text-utils.ts]   ([cleanAcademicText], [parseJSONResponse]),
    - [lib/graph-utils.ts]  ([normalizeEntityName], [filterEntity],
      [deduplicateEntities], [filterRelationsByEntities]),
    - [services/mistral.service.ts] ([extractGraphFromChunk],
      [extractGraphManually], [extractGraphsInBatches]),
    - [repositories/search.repository.ts] and the query service
      ([hybridSearch]),
    - the upload page's [createChunks],

    together with the JavaScript built-ins they are written with
    (strings, regular expressions, [JSON.parse], [Map]).

    Conventions of the embedding.

    - A JavaScript string is the list of its UTF-16 code units ([N]).
      White space, line terminators, word characters and the regular
      expression matcher are those of ECMAScript on code units.  The case
      conversions [toLowerCase]/[toUpperCase] convert the letters A-Z/a-z
      and leave every other code unit as it is (the Unicode case tables are
      not part of the model).
    - Regular expressions are abstract syntax trees; the matcher is the
      backtracking matcher with continuations of the ECMAScript
      specification.
    - Effects (network, database, exceptions) are threaded explicitly. *)

From Stdlib Require Import String Ascii.
From Stdlib Require Import NArith ZArith Bool Lia Arith List.
Import ListNotations.

Set Implicit Arguments.

(* ================================================================== *)
(** * JavaScript strings                                                *)
(* ================================================================== *)

Module JsString.

(** A UTF-16 code unit. *)
Definition char := N.
Definition str := list char.

Definition nl : char := 10%N.      (* line feed *)
Definition cr : char := 13%N.      (* carriage return *)
Definition tab : char := 9%N.
Definition dq : char := 34%N.      (* double quote *)
Definition sq : char := 39%N.      (* single quote *)
Definition bsl : char := 92%N.     (* backslash *)

(** The code units of a Rocq string literal, byte for byte. *)
Definition lit (s : string) : str := map N_of_ascii (list_ascii_of_string s).

(** A literal with the escapes [\n], [\r], [\t], [\q] (double quote) and
    [\\]; only used to write test inputs down. *)
Fixpoint unescape (pending : bool) (s : list ascii) : str :=
  match s with
  | [] => if pending then [bsl] else []
  | c :: s' =>
      if pending then
        (if Ascii.eqb c "n" then nl
         else if Ascii.eqb c "r" then cr
         else if Ascii.eqb c "t" then tab
         else if Ascii.eqb c "q" then dq
         else N_of_ascii c) :: unescape false s'
      else if Ascii.eqb c "\" then unescape true s'
      else N_of_ascii c :: unescape false s'
  end.

Definition js (s : string) : str := unescape false (list_ascii_of_string s).

Definition in_range (lo hi c : char) : bool := ((lo <=? c) && (c <=? hi))%N.

(** ECMAScript LineTerminator: LF, CR, LS, PS. *)
Definition isLineTerminator (c : char) : bool :=
  ((c =? 10) || (c =? 13) || (c =? 8232) || (c =? 8233))%N.

(** ECMAScript WhiteSpace: TAB, VT, FF, ZWNBSP and the space separators. *)
Definition isWhiteSpace (c : char) : bool :=
  ((c =? 9) || (c =? 11) || (c =? 12) || (c =? 32) || (c =? 160)
   || (c =? 5760) || in_range 8192 8202 c || (c =? 8239) || (c =? 8287)
   || (c =? 12288) || (c =? 65279))%N.

(** What [\s] matches and what [trim] strips. *)
Definition isSpace (c : char) : bool := isWhiteSpace c || isLineTerminator c.

Definition isDigit (c : char) : bool := in_range 48%N 57%N c.
Definition isUpper (c : char) : bool := in_range 65%N 90%N c.
Definition isLower (c : char) : bool := in_range 97%N 122%N c.

(** What [\w] matches. *)
Definition isWord (c : char) : bool :=
  isUpper c || isLower c || isDigit c || (c =? 95)%N.

(** [toLowerCase] and [toUpperCase] on the code units: the letters A-Z,
    respectively a-z, are converted and every other code unit is kept.
    This is what JavaScript does on a text of code units below 128
    (ASCII).  On other texts JavaScript follows the Unicode tables, on
    code points (the sharp s becomes SS in upper case, the capital I
    with a dot becomes two code units in lower case), which is not
    modelled: the statements that depend on what a conversion returns
    are made for ASCII texts. *)
Definition lowerChar (c : char) : char := if isUpper c then (c + 32)%N else c.
Definition upperChar (c : char) : char := if isLower c then (c - 32)%N else c.

Definition toLowerCase (s : str) : str := map lowerChar s.
Definition toUpperCase (s : str) : str := map upperChar s.

Fixpoint str_eqb (a b : str) : bool :=
  match a, b with
  | [], [] => true
  | x :: a', y :: b' => (x =? y)%N && str_eqb a' b'
  | _, _ => false
  end.

Fixpoint trimStart (s : str) : str :=
  match s with
  | c :: s' => if isSpace c then trimStart s' else s
  | [] => []
  end.

Definition trimEnd (s : str) : str := rev (trimStart (rev s)).

Definition trim (s : str) : str := trimEnd (trimStart s).

(** [s.substring(a, b)] and [s.substring(a)] for integer arguments:
    negative arguments count as 0, large ones as the length, and the two
    are swapped when [a > b]. *)
Definition clampIndex (n : nat) (i : Z) : nat := Nat.min (Z.to_nat i) n.

Definition substring (s : str) (a b : Z) : str :=
  let i := clampIndex (length s) a in
  let j := clampIndex (length s) b in
  firstn (Nat.max i j - Nat.min i j) (skipn (Nat.min i j) s).

Definition substringFrom (s : str) (a : Z) : str :=
  skipn (clampIndex (length s) a) s.

(** [arr.slice(a, b)] for [0 <= a]: the elements at indices [a .. b-1]. *)
Definition slice {A} (l : list A) (a b : nat) : list A :=
  firstn (b - a) (skipn a l).

Fixpoint startsWith (s p : str) : bool :=
  match p, s with
  | [], _ => true
  | x :: p', y :: s' => (x =? y)%N && startsWith s' p'
  | _ :: _, [] => false
  end.

(** [s.includes(p)]. *)
Fixpoint includes (s p : str) : bool :=
  startsWith s p ||
  match s with
  | [] => false
  | _ :: s' => includes s' p
  end.

(** [s.split('\n')]: splitting at one code unit.  The result is never
    empty: the empty string gives one empty piece. *)
Fixpoint splitChar_acc (sep : char) (acc : str) (s : str) : list str :=
  match s with
  | [] => [rev acc]
  | c :: s' =>
      if (c =? sep)%N then rev acc :: splitChar_acc sep [] s'
      else splitChar_acc sep (c :: acc) s'
  end.

Definition splitChar (sep : char) (s : str) : list str := splitChar_acc sep [] s.

(** [arr.join(sep)]. *)
Fixpoint join (sep : str) (l : list str) : str :=
  match l with
  | [] => []
  | [x] => x
  | x :: l' => x ++ sep ++ join sep l'
  end.

(** [s.repeat(n)]. *)
Fixpoint repeatStr (s : str) (n : nat) : str :=
  match n with
  | O => []
  | S n' => s ++ repeatStr s n'
  end.

End JsString.

Import JsString.

(* ================================================================== *)
(** * Regular expressions                                               *)
(* ================================================================== *)

Module RegExp.

(** One item of a character class. *)
Inductive cls : Type :=
| CC (c : char)              (* one character *)
| CR (lo hi : char)          (* a range lo-hi *)
| CD                         (* \d *)
| CS                         (* \s *)
| CNS                        (* \S *)
| CW.                        (* \w *)

Inductive regex : Type :=
| Eps                                         (* the empty pattern *)
| Chr (c : char)                              (* a literal character *)
| Dot                                         (* . *)
| Cls (neg : bool) (items : list cls)         (* [...] and [^...] *)
| Seq (r1 r2 : regex)
| Alt (r1 r2 : regex)                         (* r1|r2 *)
| Rep (min : nat) (max : option nat) (greedy : bool) (r : regex)
| Grp (n : nat) (r : regex)                   (* the n-th capturing group *)
| Bol                                         (* ^ *)
| Eol                                         (* $ *)
| WordB                                       (* \b *)
| Behind (items : list cls).                  (* (?<=[...]) *)

Record flags : Type := { ignoreCase : bool; multiline : bool }.

Definition f_none : flags := {| ignoreCase := false; multiline := false |}.
Definition f_i : flags := {| ignoreCase := true; multiline := false |}.
Definition f_m : flags := {| ignoreCase := false; multiline := true |}.
Definition f_mi : flags := {| ignoreCase := true; multiline := true |}.

(** Canonicalize of the specification for patterns without the [u] flag:
    a code unit is compared through its upper-case form.  These are the
    conversions that concern the characters of the patterns of this code
    base: the letters a-z, and the micro sign of [filterEntity], which
    shares its upper-case form (capital mu, 924) with small mu (956).
    A pattern with other letters, as a header or a footer given by the
    caller may have, is matched by JavaScript through the upper-case
    forms of the Unicode tables, which is not modelled. *)
Definition canonicalize (fl : flags) (c : char) : char :=
  if ignoreCase fl then
    if isLower c then (c - 32)%N
    else if ((c =? 181) || (c =? 956))%N then 924%N
    else c
  else c.

Definition chr_eq (fl : flags) (a b : char) : bool :=
  (canonicalize fl a =? canonicalize fl b)%N.

(** The other letter case of an ASCII letter. *)
Definition swapCase (c : char) : char :=
  if isLower c then (c - 32)%N else if isUpper c then (c + 32)%N else c.

Definition in_cls (c : char) (i : cls) : bool :=
  match i with
  | CC x => (c =? x)%N
  | CR lo hi => in_range lo hi c
  | CD => isDigit c
  | CS => isSpace c
  | CNS => negb (isSpace c)
  | CW => isWord c
  end.

Definition in_class (fl : flags) (items : list cls) (c : char) : bool :=
  existsb (in_cls c) items
  || (ignoreCase fl && existsb (in_cls (swapCase c)) items).

(** The state of a match in progress: the position, the character before
    it, the rest of the input and the captures so far. *)
Record mstate : Type := {
  m_pos : nat;
  m_prev : option char;
  m_rest : str;
  m_caps : list (nat * (nat * nat))
}.

Definition advance (st : mstate) (c : char) (rest : str) : mstate :=
  {| m_pos := S (m_pos st); m_prev := Some c; m_rest := rest;
     m_caps := m_caps st |}.

Definition set_cap (n : nat) (from to : nat) (st : mstate) : mstate :=
  {| m_pos := m_pos st; m_prev := m_prev st; m_rest := m_rest st;
     m_caps := (n, (from, to)) :: m_caps st |}.

(** The capturing groups inside a pattern: a quantifier forgets them at
    the start of each iteration. *)
Fixpoint groups_of (r : regex) : list nat :=
  match r with
  | Seq a b | Alt a b => groups_of a ++ groups_of b
  | Rep _ _ _ a => groups_of a
  | Grp n a => n :: groups_of a
  | _ => []
  end.

Definition clear_caps (gs : list nat) (st : mstate) : mstate :=
  match gs with
  | [] => st
  | _ =>
    {| m_pos := m_pos st; m_prev := m_prev st; m_rest := m_rest st;
       m_caps := filter (fun e => negb (existsb (Nat.eqb (fst e)) gs))
                        (m_caps st) |}
  end.

Definition at_bol (fl : flags) (st : mstate) : bool :=
  match m_prev st with
  | None => true
  | Some c => multiline fl && isLineTerminator c
  end.

Definition at_eol (fl : flags) (st : mstate) : bool :=
  match m_rest st with
  | [] => true
  | c :: _ => multiline fl && isLineTerminator c
  end.

Definition is_word_opt (c : option char) : bool :=
  match c with Some x => isWord x | None => false end.

Definition at_wordb (st : mstate) : bool :=
  xorb (is_word_opt (m_prev st)) (is_word_opt (hd_error (m_rest st))).

Definition orelse {A} (a : option A) (b : unit -> option A) : option A :=
  match a with Some x => Some x | None => b tt end.

(** The loops of a quantifier over a matcher [body] of the quantified
    pattern: the iterations that must be, then those that may be.  An
    optional iteration that consumes nothing is not taken; [fuel] bounds
    the optional iterations (each consumes a character at least). *)
Section Quantifier.

Variable body : mstate -> (mstate -> option mstate) -> option mstate.
Variable greedy : bool.
Variable k : mstate -> option mstate.

Fixpoint optional (fuel : nat) (st : mstate) {struct fuel} : option mstate :=
  match fuel with
  | O => k st
  | S fuel' =>
      let again (_ : unit) :=
        body st (fun st' =>
                   if m_pos st' =? m_pos st then None else optional fuel' st') in
      if greedy then orelse (again tt) (fun _ => k st)
      else orelse (k st) again
  end.

Fixpoint required (after : mstate -> option mstate) (n : nat) (st : mstate)
    {struct n} : option mstate :=
  match n with
  | S n' => body st (fun st' => required after n' st')
  | O => after st
  end.

End Quantifier.

(** The matcher.  [mt fl r st k] matches [r] at [st] and hands every way
    of doing so, in the order of priority, to the continuation [k] until
    one succeeds. *)
Fixpoint mt (fl : flags) (r : regex) (st : mstate)
            (k : mstate -> option mstate) {struct r} : option mstate :=
  match r with
  | Eps => k st
  | Chr c =>
      match m_rest st with
      | x :: rest => if chr_eq fl c x then k (advance st x rest) else None
      | [] => None
      end
  | Dot =>
      match m_rest st with
      | x :: rest => if isLineTerminator x then None else k (advance st x rest)
      | [] => None
      end
  | Cls neg items =>
      match m_rest st with
      | x :: rest =>
          if xorb neg (in_class fl items x) then k (advance st x rest) else None
      | [] => None
      end
  | Seq r1 r2 => mt fl r1 st (fun st1 => mt fl r2 st1 k)
  | Alt r1 r2 => orelse (mt fl r1 st k) (fun _ => mt fl r2 st k)
  | Rep mn mx greedy r1 =>
      let body st' k' := mt fl r1 (clear_caps (groups_of r1) st') k' in
      required body
        (fun st' =>
           optional body greedy k
             (match mx with
              | Some m => m - mn
              | None => length (m_rest st')
              end) st')
        mn st
  | Grp n r1 =>
      mt fl r1 st (fun st' => k (set_cap n (m_pos st) (m_pos st') st'))
  | Bol => if at_bol fl st then k st else None
  | Eol => if at_eol fl st then k st else None
  | WordB => if at_wordb st then k st else None
  | Behind items =>
      match m_prev st with
      | Some c => if in_class fl items c then k st else None
      | None => None
      end
  end.

(** One attempt at a given position. *)
Definition exec_at (fl : flags) (r : regex) (prev : option char)
                   (rest : str) (pos : nat) : option mstate :=
  mt fl r {| m_pos := pos; m_prev := prev; m_rest := rest; m_caps := [] |}
     (fun st => Some st).

(** The first match at or after a position: its start and final state. *)
Fixpoint exec_from (fl : flags) (r : regex) (prev : option char)
                   (rest : str) (pos : nat) : option (nat * mstate) :=
  match exec_at fl r prev rest pos with
  | Some st => Some (pos, st)
  | None =>
      match rest with
      | [] => None
      | c :: rest' => exec_from fl r (Some c) rest' (S pos)
      end
  end.

Definition exec (fl : flags) (r : regex) (s : str) : option (nat * mstate) :=
  exec_from fl r None s 0.

(** [re.test(s)] for a pattern without the [g] flag. *)
Definition test (fl : flags) (r : regex) (s : str) : bool :=
  match exec fl r s with Some _ => true | None => false end.

(** [s.search(re)]: the index of the first match, or -1. *)
Definition search (fl : flags) (r : regex) (s : str) : Z :=
  match exec fl r s with
  | Some (i, _) => Z.of_nat i
  | None => (-1)%Z
  end.

(** The n-th capture of a finished match, [None] when the group did not
    take part. *)
Fixpoint cap_lookup (n : nat) (caps : list (nat * (nat * nat)))
  : option (nat * nat) :=
  match caps with
  | [] => None
  | (m, se) :: caps' => if n =? m then Some se else cap_lookup n caps'
  end.

Definition capture (input : str) (st : mstate) (n : nat) : option str :=
  match cap_lookup n (m_caps st) with
  | Some (a, b) => Some (firstn (b - a) (skipn a input))
  | None => None
  end.

(** A replacement string, cut at its [$] patterns. *)
Inductive titem : Type :=
| TLit (s : str)       (* literal text *)
| TGroup (n : nat)     (* $n *)
| TMatch.              (* $& *)

Definition expand (input : str) (start : nat) (st : mstate)
                  (tpl : list titem) : str :=
  flat_map (fun t =>
              match t with
              | TLit s => s
              | TGroup n =>
                  match capture input st n with Some s => s | None => [] end
              | TMatch => firstn (m_pos st - start) (skipn start input)
              end) tpl.

(** [s.replace(re, tpl)] for a pattern with the [g] flag.  [skip] counts
    the characters of the last match that are still to be passed over. *)
Fixpoint replace_all_from (fl : flags) (r : regex) (tpl : list titem)
    (input : str) (prev : option char) (rest : str) (pos skip : nat) : str :=
  match skip with
  | S skip' =>
      match rest with
      | c :: rest' =>
          replace_all_from fl r tpl input (Some c) rest' (S pos) skip'
      | [] => []
      end
  | O =>
      match exec_at fl r prev rest pos with
      | Some st =>
          expand input pos st tpl ++
          match rest with
          | [] => []
          | c :: rest' =>
              match m_pos st - pos with
              | O => c :: replace_all_from fl r tpl input (Some c) rest' (S pos) 0
              | S n => replace_all_from fl r tpl input (Some c) rest' (S pos) n
              end
          end
      | None =>
          match rest with
          | [] => []
          | c :: rest' =>
              c :: replace_all_from fl r tpl input (Some c) rest' (S pos) 0
          end
      end
  end.

Definition replace_all (fl : flags) (r : regex) (tpl : list titem) (s : str)
  : str :=
  replace_all_from fl r tpl s None s 0 0.

(** [s.replace(re, tpl)] for a pattern without the [g] flag. *)
Definition replace_first (fl : flags) (r : regex) (tpl : list titem)
                         (s : str) : str :=
  match exec fl r s with
  | Some (i, st) =>
      firstn i s ++ expand s i st tpl ++ skipn (m_pos st) s
  | None => s
  end.

(** All matches of a pattern with the [g] flag, as [matchAll] and
    [s.match(re)] visit them: start, final state. *)
Fixpoint match_all_from (fl : flags) (r : regex)
    (prev : option char) (rest : str) (pos skip : nat)
  : list (nat * mstate) :=
  match skip with
  | S skip' =>
      match rest with
      | c :: rest' => match_all_from fl r (Some c) rest' (S pos) skip'
      | [] => []
      end
  | O =>
      match exec_at fl r prev rest pos with
      | Some st =>
          (pos, st) ::
          match rest with
          | [] => []
          | c :: rest' =>
              match_all_from fl r (Some c) rest' (S pos)
                             (pred (m_pos st - pos))
          end
      | None =>
          match rest with
          | [] => []
          | c :: rest' => match_all_from fl r (Some c) rest' (S pos) 0
          end
      end
  end.

Definition match_all (fl : flags) (r : regex) (s : str)
  : list (nat * mstate) :=
  match_all_from fl r None s 0 0.

(** [(s.match(re) || []).length] for a pattern with the [g] flag. *)
Definition count_matches (fl : flags) (r : regex) (s : str) : nat :=
  length (match_all fl r s).

(** [s.split(re)] for a pattern without capturing groups (the
    specification's loop: the pattern is tried at each position [q]; a
    match that ends at the start [p] of the current piece is passed
    over).  [piece] is the current piece, reversed. *)
Fixpoint split_from (fl : flags) (r : regex)
    (prev : option char) (rest : str) (pos : nat)
    (piece : str) (p : nat) (skip : nat) : list str :=
  match rest with
  | [] => [rev piece]
  | c :: rest' =>
      match skip with
      | S skip' =>
          split_from fl r (Some c) rest' (S pos) piece p skip'
      | O =>
          match exec_at fl r prev rest pos with
          | Some st =>
              let e := m_pos st in
              if e =? p then
                split_from fl r (Some c) rest' (S pos) (c :: piece) p 0
              else
                rev piece ::
                match e - pos with
                | O => split_from fl r (Some c) rest' (S pos) [c] e 0
                | S n => split_from fl r (Some c) rest' (S pos) [] e n
                end
          | None =>
              split_from fl r (Some c) rest' (S pos) (c :: piece) p 0
          end
      end
  end.

Definition split (fl : flags) (r : regex) (s : str) : list str :=
  match s with
  | [] => match exec_at fl r None [] 0 with Some _ => [] | None => [[]] end
  | _ => split_from fl r None s 0 [] 0 0
  end.

(** Pattern combinators. *)
Fixpoint Str (s : str) : regex :=
  match s with
  | [] => Eps
  | [c] => Chr c
  | c :: s' => Seq (Chr c) (Str s')
  end.

Definition S_ (s : string) : regex := Str (lit s).

Fixpoint seq (rs : list regex) : regex :=
  match rs with
  | [] => Eps
  | [r] => r
  | r :: rs' => Seq r (seq rs')
  end.

Fixpoint alt (rs : list regex) : regex :=
  match rs with
  | [] => Eps
  | [r] => r
  | r :: rs' => Alt r (alt rs')
  end.

Definition star (r : regex) : regex := Rep 0 None true r.         (* r*  *)
Definition star_lazy (r : regex) : regex := Rep 0 None false r.   (* r*? *)
Definition plus (r : regex) : regex := Rep 1 None true r.         (* r+  *)
Definition opt (r : regex) : regex := Rep 0 (Some 1) true r.      (* r?  *)
Definition times (n : nat) (r : regex) : regex := Rep n (Some n) true r.
Definition between (a b : nat) (r : regex) : regex := Rep a (Some b) true r.
Definition at_least (a : nat) (r : regex) : regex := Rep a None true r.

Definition d_ : regex := Cls false [CD].       (* \d *)
Definition s_ : regex := Cls false [CS].       (* \s *)
Definition w_ : regex := Cls false [CW].       (* \w *)
Definition one_of (s : string) : regex := Cls false (map CC (lit s)).
Definition none_of (s : string) : regex := Cls true (map CC (lit s)).

End RegExp.

Import RegExp.

(* ================================================================== *)
(** * lib/graph-utils.ts                                                *)
(* ================================================================== *)

Module GraphUtils.

Record Entity : Type := { name : str; type : str }.

Record Relation : Type := { source : str; relation : str; target : str }.

(** [normalizeEntityName]:
<<
  name.toLowerCase().trim()
      .replace(/\s+/g, ' ').replace(/[()\[\]]/g, '').replace(/\.$/, '')
>>
    The lower-casing is that of [toLowerCase] above: that of JavaScript
    on ASCII names. *)
Definition normalizeEntityName (name : str) : str :=
  replace_first f_none (seq [S_ "."; Eol]) []
    (replace_all f_none (one_of "()[]") []
       (replace_all f_none (plus s_) [TLit (lit " ")]
          (trim (toLowerCase name)))).

Definition skipTerms : list str := map lit
  [ "temperature"; "time"; "conditions"; "controlled conditions";
    "daily cycle"; "experiment"; "study"; "research"; "analysis";
    "test"; "result"; "data"; "group"; "control"; "sample";
    "procedure"; "process"; "measurement"; "observation";
    "material"; "equipment"; "apparatus"; "device"; "instrument";
    "software"; "program"; "tool"; "technique"; "protocol";
    "standard"; "reference"; "baseline"; "comparison";
    "preparation"; "solution"; "mixture"; "suspension";
    "chromatography"; "spectroscopy"; "microscopy";
    "incubation"; "centrifugation"; "filtration"; "dilution";
    "room temperature"; "ambient temperature"; "dark conditions";
    "statistical analysis"; "significance"; "p-value"; "correlation" ]%string.

(** [arr.includes(s)] for an array of strings. *)
Definition arr_includes (l : list str) (s : str) : bool :=
  existsb (str_eqb s) l.

Definition degree : char := 176%N.   (* the degree sign *)
Definition micro : char := 181%N.    (* the micro sign *)

(** [/^\d+[\s°]*(minutes?|hours?|days?|weeks?|months?|°c|ml|mg|g|kg|µg|nm|rpm)$/i] *)
Definition re_measurement : regex :=
  seq [ Bol; plus d_; star (Cls false [CS; CC degree]);
        Grp 1 (alt [ Seq (S_ "minute") (opt (S_ "s"));
                     Seq (S_ "hour") (opt (S_ "s"));
                     Seq (S_ "day") (opt (S_ "s"));
                     Seq (S_ "week") (opt (S_ "s"));
                     Seq (S_ "month") (opt (S_ "s"));
                     Seq (Chr degree) (S_ "c");
                     S_ "ml"; S_ "mg"; S_ "g"; S_ "kg";
                     Seq (Chr micro) (S_ "g"); S_ "nm"; S_ "rpm" ]);
        Eol ].

(** [/^(perform|conduct|carry out|measure|observe|record|collect|obtain|prepare|store)$/i] *)
Definition re_generic_verb : regex :=
  seq [ Bol;
        Grp 1 (alt (map S_ [ "perform"; "conduct"; "carry out"; "measure";
                             "observe"; "record"; "collect"; "obtain";
                             "prepare"; "store" ]%string));
        Eol ].

Definition has (s : str) (p : string) : bool := includes s (lit p).

Definition filterEntity (entity : Entity) : bool :=
  let name := toLowerCase (name entity) in
  let type := toLowerCase (type entity) in
  (* Skip very short names *)
  if length name <? 3 then false
  (* Skip generic experimental/research terms *)
  else if arr_includes skipTerms name then false
  (* Skip standalone numbers or measurements without context *)
  else if test f_i re_measurement name then false
  (* Skip generic verbs/actions *)
  else if test f_i re_generic_verb name then false
  (* PRIORITY 1: Always keep PLANT, DISEASE, SYMPTOM *)
  else if existsb (has type) ["plant"; "disease"; "symptom"]%string then true
  (* PRIORITY 2: Keep DOSAGE and therapeutic METHOD *)
  else if has type "dosage" then true
  else if has type "method" &&
          (has name "dose" || has name "administration" ||
           has name "infusion" || has name "decoction" ||
           has name "extract" || has name "preparation" ||
           has name "oral" || has name "topical") then true
  (* PRIORITY 3: Keep therapeutic EFFECT *)
  else if has type "effect" &&
          (has name "anti" || has name "activity" ||
           has name "therapeutic" || has name "medicinal") then true
  (* PRIORITY 4: Keep therapeutically relevant COMPOUND *)
  else if has type "compound" && (5 <? length name) then true
  (* Skip experimental MECHANISM (keep only if very specific) *)
  else if has type "mechanism" && (length name <? 15) then false
  (* Skip METHOD if it's experimental procedure *)
  else if has type "method" &&
          (has name "chromatography" || has name "spectroscopy" ||
           has name "analysis" || has name "assay" ||
           has name "measurement" || has name "detection") then false
  else true.

(** A JavaScript [Map] with string keys: the entries in the order in
    which their keys were first set. *)
Definition JsMap (V : Type) : Type := list (str * V).

Fixpoint map_has {V} (m : JsMap V) (k : str) : bool :=
  match m with
  | [] => false
  | (k', _) :: m' => str_eqb k k' || map_has m' k
  end.

(** [m.set(k, v)]: a known key keeps its place and takes the new value,
    a new key goes to the end. *)
Fixpoint map_set {V} (m : JsMap V) (k : str) (v : V) : JsMap V :=
  match m with
  | [] => [(k, v)]
  | (k', v') :: m' =>
      if str_eqb k k' then (k', v) :: m' else (k', v') :: map_set m' k v
  end.

(** [Array.from(m.values())]. *)
Definition map_values {V} (m : JsMap V) : list V := map snd m.

(** The key under which [deduplicateEntities] files an entity:
    [`${normalizedName}|${entity.type.toLowerCase()}`]. *)
Definition entityKey (entity : Entity) : str :=
  normalizeEntityName (name entity) ++ lit "|" ++ toLowerCase (type entity).

(** The body of the [forEach] of [deduplicateEntities]. *)
Definition dedupStep (entityMap : JsMap Entity) (entity : Entity)
  : JsMap Entity :=
  let key := entityKey entity in
  if negb (map_has entityMap key) then
    map_set entityMap key
      {| name := name entity; type := toUpperCase (type entity) |}
  else entityMap.

Definition deduplicateEntities (entities : list Entity) : list Entity :=
  map_values (fold_left dedupStep entities []).

(** A JavaScript [Set] of strings, in insertion order. *)
Definition JsSet : Type := list str.

Definition set_has (s : JsSet) (x : str) : bool := existsb (str_eqb x) s.

Definition set_add (s : JsSet) (x : str) : JsSet :=
  if set_has s x then s else s ++ [x].

(** [new Set(array)]. *)
Definition set_of (l : list str) : JsSet := fold_left set_add l [].

(** Truthiness of a string: [!s] holds of the empty string only. *)
Definition truthy_str (s : str) : bool :=
  match s with [] => false | _ => true end.

Definition filterRelationsByEntities (relations : list Relation)
    (validEntities : list Entity) : list Relation :=
  let entityNames :=
    set_of (map (fun e => normalizeEntityName (name e)) validEntities) in
  filter (fun rel =>
            if negb (truthy_str (source rel)) || negb (truthy_str (relation rel))
               || negb (truthy_str (target rel))
            then false
            else
              let sourceNorm := normalizeEntityName (source rel) in
              let targetNorm := normalizeEntityName (target rel) in
              set_has entityNames sourceNorm && set_has entityNames targetNorm)
         relations.

(** The body of the [forEach] of [deduplicateRelations]; the state is
    the pair of [relationSet] and [uniqueRelations]. *)
Definition dedupRelStep (acc : JsSet * list Relation) (rel : Relation)
  : JsSet * list Relation :=
  let key := source rel ++ lit "|" ++ relation rel ++ lit "|" ++ target rel in
  if negb (set_has (fst acc) key)
  then (set_add (fst acc) key, snd acc ++ [rel])
  else acc.

Definition deduplicateRelations (relations : list Relation) : list Relation :=
  snd (fold_left dedupRelStep relations ([], [])).

End GraphUtils.

Import GraphUtils.

(* ================================================================== *)
(** * JavaScript values, exceptions and JSON.parse                      *)
(* ================================================================== *)

Module Js.

(** The values the code handles dynamically: what [JSON.parse] returns,
    and [undefined] for a missing property.  A number is kept as the
    decimal [mant * 10^exp10] of its literal (the rounding to a double is
    not modelled; [1] is [VNum 1 0]).  The properties of an object are in
    insertion order. *)
#[warnings="-register-all"]
Inductive value : Type :=
| VUndefined
| VNull
| VBool (b : bool)
| VNum (mant exp10 : Z)
| VStr (s : str)
| VArr (items : list value)
| VObj (props : list (str * value)).

Inductive exn : Type :=
| SyntaxError        (* JSON.parse *)
| TypeError          (* property of null/undefined, call of a non-function *)
| FetchError         (* the network request failed *)
| SearchError        (* the error thrown by vectorSearch *)
| ConfigError        (* the configuration of the store is missing *)
| PipelineError.     (* the embedding pipeline failed *)

Inductive result (A : Type) : Type :=
| Ok (a : A)
| Throw (e : exn).

Arguments Ok {A} a.
Arguments Throw {A} e.

Definition bind {A B} (r : result A) (f : A -> result B) : result B :=
  match r with
  | Ok a => f a
  | Throw e => Throw e
  end.

(** [try { body } catch (e) { handler }]. *)
Definition try_catch {A} (body : result A) (handler : exn -> result A)
  : result A :=
  match body with
  | Ok a => Ok a
  | Throw e => handler e
  end.

(** A number literal denotes zero as a double when its mantissa is zero
    or its value is at most 2^-1075 (half the least subnormal). *)
Definition num_is_zero (m e : Z) : bool :=
  ((m =? 0) || ((e <? 0) && (Z.abs m * 2 ^ 1075 <=? 10 ^ (- e))))%Z.

(** ToBoolean. *)
Definition truthy (v : value) : bool :=
  match v with
  | VUndefined | VNull => false
  | VBool b => b
  | VNum m e => negb (num_is_zero m e)
  | VStr s => truthy_str s
  | VArr _ | VObj _ => true
  end.

Fixpoint lookup (props : list (str * value)) (k : str) : option value :=
  match props with
  | [] => None
  | (k', v) :: props' => if str_eqb k k' then Some v else lookup props' k
  end.

Fixpoint obj_set (props : list (str * value)) (k : str) (v : value)
  : list (str * value) :=
  match props with
  | [] => [(k, v)]
  | (k', v') :: props' =>
      if str_eqb k k' then (k', v) :: props' else (k', v') :: obj_set props' k v
  end.

(** [v.key] for a key that no prototype defines: an exception on [null]
    and [undefined], the own property of an object, and [undefined]
    otherwise. *)
Definition get (v : value) (k : string) : result value :=
  match v with
  | VUndefined | VNull => Throw TypeError
  | VObj props =>
      match lookup props (lit k) with Some x => Ok x | None => Ok VUndefined end
  | _ => Ok VUndefined
  end.

(** [v[0]]: the first element of an array, the first code unit of a
    string, the property "0" of an object. *)
Definition get0 (v : value) : result value :=
  match v with
  | VUndefined | VNull => Throw TypeError
  | VArr (x :: _) => Ok x
  | VStr (c :: _) => Ok (VStr [c])
  | VObj props =>
      match lookup props (lit "0") with Some x => Ok x | None => Ok VUndefined end
  | _ => Ok VUndefined
  end.

(** ** JSON.parse *)

Definition isJsonWs (c : char) : bool :=
  ((c =? 32) || (c =? 9) || (c =? 10) || (c =? 13))%N.

Fixpoint skip_ws (s : str) : str :=
  match s with
  | c :: s' => if isJsonWs c then skip_ws s' else s
  | [] => []
  end.

Definition hexval (c : char) : option N :=
  if isDigit c then Some (c - 48)%N
  else if in_range 97%N 102%N c then Some (c - 87)%N
  else if in_range 65%N 70%N c then Some (c - 55)%N
  else None.

(** The characters of a string literal after its opening quote. *)
Fixpoint parse_string (s : str) (acc : str) : option (str * str) :=
  match s with
  | [] => None
  | c :: s1 =>
      if (c =? dq)%N then Some (rev acc, s1)
      else if (c =? bsl)%N then
        match s1 with
        | [] => None
        | e :: s2 =>
            if (e =? dq)%N then parse_string s2 (dq :: acc)
            else if (e =? bsl)%N then parse_string s2 (bsl :: acc)
            else if (e =? 47)%N then parse_string s2 (47%N :: acc)
            else if (e =? 98)%N then parse_string s2 (8%N :: acc)
            else if (e =? 102)%N then parse_string s2 (12%N :: acc)
            else if (e =? 110)%N then parse_string s2 (10%N :: acc)
            else if (e =? 114)%N then parse_string s2 (13%N :: acc)
            else if (e =? 116)%N then parse_string s2 (9%N :: acc)
            else if (e =? 117)%N then
              match s2 with
              | h1 :: h2 :: h3 :: h4 :: s6 =>
                  match hexval h1, hexval h2, hexval h3, hexval h4 with
                  | Some a, Some b, Some c', Some d =>
                      parse_string s6 ((a * 4096 + b * 256 + c' * 16 + d)%N :: acc)
                  | _, _, _, _ => None
                  end
              | _ => None
              end
            else None
        end
      else if (c <? 32)%N then None
      else parse_string s1 (c :: acc)
  end.

(** A run of digits: its value appended to [acc], its length, the rest. *)
Fixpoint digits (s : str) (acc : Z) (n : nat) : Z * nat * str :=
  match s with
  | c :: s' =>
      if isDigit c then digits s' (10 * acc + Z.of_N (c - 48))%Z (S n)
      else (acc, n, s)
  | [] => (acc, n, [])
  end.

(** A number: an optional minus sign, an integer part without leading
    zeros, an optional fraction and an optional exponent. *)
Definition parse_number (s : str) : option (value * str) :=
  let '(neg, s1) :=
    match s with
    | c :: s' => if (c =? 45)%N then (true, s') else (false, s)
    | [] => (false, s)
    end in
  let int_part :=
    match s1 with
    | c :: s2 =>
        if (c =? 48)%N then Some (0%Z, s2)
        else if isDigit c then
          let '(v, _, r) := digits s1 0%Z 0 in Some (v, r)
        else None
    | [] => None
    end in
  match int_part with
  | None => None
  | Some (i, s2) =>
      let frac :=
        match s2 with
        | c :: s3 =>
            if (c =? 46)%N then
              let '(v, n, r) := digits s3 i 0 in
              match n with O => None | _ => Some (v, Z.of_nat n, r) end
            else Some (i, 0%Z, s2)
        | [] => Some (i, 0%Z, s2)
        end in
      match frac with
      | None => None
      | Some (m, fd, s3) =>
          let expo :=
            match s3 with
            | c :: s4 =>
                if ((c =? 101) || (c =? 69))%N then
                  let '(eneg, s5) :=
                    match s4 with
                    | d :: s' =>
                        if (d =? 45)%N then (true, s')
                        else if (d =? 43)%N then (false, s')
                        else (false, s4)
                    | [] => (false, s4)
                    end in
                  let '(v, n, r) := digits s5 0%Z 0 in
                  match n with
                  | O => None
                  | _ => Some ((if eneg then - v else v)%Z, r)
                  end
                else Some (0%Z, s3)
            | [] => Some (0%Z, s3)
            end in
          match expo with
          | None => None
          | Some (e, s4) =>
              Some (VNum (if neg then - m else m)%Z (e - fd)%Z, s4)
          end
      end
  end.

(** Values, the elements of an array after its first one and the members
    of an object after its first one.  Each call consumes input, so the
    length of the text is fuel enough. *)
Fixpoint parse_value (fuel : nat) (s : str) : option (value * str) :=
  match fuel with
  | O => None
  | S fuel' =>
      match skip_ws s with
      | [] => None
      | c :: s1 =>
          if (c =? 123)%N then                        (* { *)
            match skip_ws s1 with
            | c2 :: s2 =>
                if (c2 =? 125)%N then Some (VObj [], s2)
                else parse_members fuel' (c2 :: s2) []
            | [] => None
            end
          else if (c =? 91)%N then                    (* [ *)
            match skip_ws s1 with
            | c2 :: s2 =>
                if (c2 =? 93)%N then Some (VArr [], s2)
                else parse_elements fuel' (c2 :: s2) []
            | [] => None
            end
          else if (c =? dq)%N then
            match parse_string s1 [] with
            | Some (x, r) => Some (VStr x, r)
            | None => None
            end
          else if startsWith (c :: s1) (lit "true") then
            Some (VBool true, skipn 4 (c :: s1))
          else if startsWith (c :: s1) (lit "false") then
            Some (VBool false, skipn 5 (c :: s1))
          else if startsWith (c :: s1) (lit "null") then
            Some (VNull, skipn 4 (c :: s1))
          else parse_number (c :: s1)
      end
  end

with parse_elements (fuel : nat) (s : str) (acc : list value)
  : option (value * str) :=
  match fuel with
  | O => None
  | S fuel' =>
      match parse_value fuel' s with
      | None => None
      | Some (v, r) =>
          match skip_ws r with
          | c :: r1 =>
              if (c =? 44)%N then parse_elements fuel' r1 (v :: acc)
              else if (c =? 93)%N then Some (VArr (rev (v :: acc)), r1)
              else None
          | [] => None
          end
      end
  end

with parse_members (fuel : nat) (s : str) (acc : list (str * value))
  : option (value * str) :=
  match fuel with
  | O => None
  | S fuel' =>
      match skip_ws s with
      | c :: s1 =>
          if (c =? dq)%N then
            match parse_string s1 [] with
            | None => None
            | Some (key, r) =>
                match skip_ws r with
                | c2 :: r1 =>
                    if (c2 =? 58)%N then
                      match parse_value fuel' r1 with
                      | None => None
                      | Some (v, r2) =>
                          match skip_ws r2 with
                          | c3 :: r3 =>
                              if (c3 =? 44)%N then
                                parse_members fuel' r3 (obj_set acc key v)
                              else if (c3 =? 125)%N then
                                Some (VObj (obj_set acc key v), r3)
                              else None
                          | [] => None
                          end
                      end
                    else None
                | [] => None
                end
            end
          else None
      | [] => None
      end
  end.

Definition JSON_parse (text : str) : result value :=
  match parse_value (S (length text)) text with
  | Some (v, r) =>
      match skip_ws r with
      | [] => Ok v
      | _ => Throw SyntaxError
      end
  | None => Throw SyntaxError
  end.

End Js.

Import Js.

(* ================================================================== *)
(** * lib/text-utils.ts                                                 *)
(* ================================================================== *)

Module TextUtils.

(** ** parseJSONResponse *)

Definition fence : regex := S_ "```".

(** [/```json\n?/g] and [/```\n?/g] *)
Definition re_fence_json : regex := seq [S_ "```json"; opt (Chr nl)].
Definition re_fence : regex := seq [fence; opt (Chr nl)].

(** The pattern of step 1 of the repairs: a quote, a lazy run of
    non-quotes (group 1), a line feed, a lazy run of non-quotes (group 2)
    and a quote. *)
Definition re_broken_string : regex :=
  seq [ Chr dq; Grp 1 (star_lazy (Cls true [CC dq])); Chr nl;
        Grp 2 (star_lazy (Cls true [CC dq])); Chr dq ].

(** [/,\s*([}\]])/g] *)
Definition re_trailing_comma : regex :=
  seq [ S_ ","; star s_; Grp 1 (one_of "}]") ].

Definition parseJSONResponse (content : str) : result value :=
  let jsonContent := content in
  (* Remove markdown code blocks if present *)
  let jsonContent :=
    if startsWith content (lit "```json") then
      replace_all f_none re_fence []
        (replace_all f_none re_fence_json [] content)
    else if startsWith content (lit "```") then
      replace_all f_none re_fence [] content
    else jsonContent in
  (* Clean up common JSON issues *)
  let jsonContent :=
    trim
      (replace_all f_none (plus s_) [TLit (lit " ")]
         (replace_all f_none (Chr tab) [TLit (lit " ")]
            (replace_all f_none (Chr nl) [TLit (lit " ")]
               (replace_all f_none (Chr cr) []
                  (replace_all f_none
                     (Cls false [CR 0%N 31%N; CR 127%N 159%N]) []
                     jsonContent))))) in
  (* 1. Fix unterminated strings by finding unescaped quotes *)
  let jsonContent :=
    replace_all f_none re_broken_string
      [TLit [dq]; TGroup 1; TLit (lit " "); TGroup 2; TLit [dq]] jsonContent in
  (* 2. Fix single quotes to double quotes *)
  let jsonContent := replace_all f_none (Chr sq) [TLit [dq]] jsonContent in
  (* 3. Remove trailing commas before closing brackets *)
  let jsonContent :=
    replace_all f_none re_trailing_comma [TGroup 1] jsonContent in
  (* 4. Try to fix incomplete JSON by closing arrays/objects *)
  let openBraces := count_matches f_none (S_ "{") jsonContent in
  let closeBraces := count_matches f_none (S_ "}") jsonContent in
  let openBrackets := count_matches f_none (S_ "[") jsonContent in
  let closeBrackets := count_matches f_none (S_ "]") jsonContent in
  let jsonContent :=
    if closeBrackets <? openBrackets
    then jsonContent ++ repeatStr (lit "]") (openBrackets - closeBrackets)
    else jsonContent in
  let jsonContent :=
    if closeBraces <? openBraces
    then jsonContent ++ repeatStr (lit "}") (openBraces - closeBraces)
    else jsonContent in
  JSON_parse jsonContent.

(** ** cleanAcademicText *)

(** [s.replace(/[.*+?^${}()|[\]\\]/g, '\\$&')]: a backslash before each
    syntax character. *)
Definition escapeRegExp (s : str) : str :=
  replace_all f_none (one_of ".*+?^${}()|[]\") [TLit [bsl]; TMatch] s.

(** [new RegExp(source)] for a source made of plain characters and of
    characters escaped by a backslash: each stands for itself.  This is
    the reading of [new RegExp] on the sources in which every syntax
    character has its backslash and no other character has one, as the
    results of [escapeRegExp] are; on other sources it is not. *)
Fixpoint RegExp_escaped (source : str) : regex :=
  match source with
  | [] => Eps
  | c :: rest =>
      if (c =? bsl)%N then
        match rest with
        | x :: rest' => Seq (Chr x) (RegExp_escaped rest')
        | [] => Eps
        end
      else Seq (Chr c) (RegExp_escaped rest)
  end.

Definition any_lazy : regex := star_lazy Dot.    (* .*? *)

(** 1. Find and start from Abstract section *)
Definition abstractPatterns : list (flags * regex) :=
  [ (f_i, seq [WordB; S_ "ABSTRACT"; WordB]);
    (f_none, seq [WordB; S_ "Abstract"; WordB]);
    (f_i, seq [WordB; S_ "ABSTRAK"; WordB]);
    (f_i, seq [WordB; S_ "INTRODUCTION"; WordB]);
    (f_i, seq [WordB; S_ "PENDAHULUAN"; WordB]) ].

Definition findStartIndex (cleaned : str) : Z :=
  fold_left
    (fun startIndex pattern =>
       let match_ := search (fst pattern) (snd pattern) cleaned in
       if negb (match_ =? -1)%Z &&
          ((startIndex =? -1)%Z || (match_ <? startIndex)%Z)
       then match_ else startIndex)
    abstractPatterns (-1)%Z.

Definition startFromAbstract (cleaned : str) : str :=
  let startIndex := findStartIndex cleaned in
  if (0 <? startIndex)%Z then substringFrom cleaned startIndex else cleaned.

(** 2. Remove LLM-detected header pattern *)
Definition removeHeaderWord (cleaned : str) (word : str) : str :=
  if 5 <? length word then
    replace_all f_mi
      (seq [Bol; any_lazy; RegExp_escaped (escapeRegExp word); any_lazy; Eol])
      [] cleaned
  else cleaned.

Definition removeHeader (headerPattern : str) (cleaned : str) : str :=
  if truthy_str headerPattern && (5 <? length headerPattern) then
    let escapedHeader := escapeRegExp headerPattern in
    let cleaned := replace_all f_i (RegExp_escaped escapedHeader) [] cleaned in
    (* Also remove partial matches of header *)
    let headerWords :=
      filter (fun w => 4 <? length w) (split f_none (plus s_) headerPattern) in
    fold_left removeHeaderWord headerWords cleaned
  else cleaned.

(** Additional header patterns:
    [/^.*?(?:Majalah|Journal|Jurnal|ISSN|Vol\.|Volume).*?$/gmi],
    [/^.*?(?:Traditional|Medicine|Obat|Tradisional).*?ISSN.*?$/gmi],
    [/^.*?p-ISSN|e-ISSN.*?$/gmi]. *)
Definition re_header1 : regex :=
  seq [ Bol; any_lazy;
        alt (map S_ ["Majalah"; "Journal"; "Jurnal"; "ISSN"; "Vol."; "Volume"]%string);
        any_lazy; Eol ].

Definition re_header2 : regex :=
  seq [ Bol; any_lazy;
        alt (map S_ ["Traditional"; "Medicine"; "Obat"; "Tradisional"]%string);
        any_lazy; S_ "ISSN"; any_lazy; Eol ].

Definition re_header3 : regex :=
  Alt (seq [Bol; any_lazy; S_ "p-ISSN"]) (seq [S_ "e-ISSN"; any_lazy; Eol]).

Definition removeJournalHeaders (cleaned : str) : str :=
  replace_all f_mi re_header3 []
    (replace_all f_mi re_header2 []
       (replace_all f_mi re_header1 [] cleaned)).

(** 3. Remove LLM-detected footer pattern *)
Definition removeFooter (footerPattern : str) (cleaned : str) : str :=
  if truthy_str footerPattern && (5 <? length footerPattern) then
    replace_all f_i (RegExp_escaped (escapeRegExp footerPattern)) [] cleaned
  else cleaned.

(** 4. Remove journal footer patterns:
    [/^.*?(?:Majalah|Journal|Jurnal).*?\d+\(\d+\).*?\d{4}\s*\d+\s*$/gmi],
    [/^.*?(?:Majalah|Journal|Jurnal).*?\d+.*?\d{4}.*?$/gmi]. *)
Definition journalName : regex := alt (map S_ ["Majalah"; "Journal"; "Jurnal"]%string).

Definition re_footer1 : regex :=
  seq [ Bol; any_lazy; journalName; any_lazy; plus d_; S_ "("; plus d_; S_ ")";
        any_lazy; times 4 d_; star s_; plus d_; star s_; Eol ].

Definition re_footer2 : regex :=
  seq [ Bol; any_lazy; journalName; any_lazy; plus d_; any_lazy; times 4 d_;
        any_lazy; Eol ].

Definition removeJournalFooters (cleaned : str) : str :=
  replace_all f_mi re_footer2 [] (replace_all f_mi re_footer1 [] cleaned).

(** 5. Remove common academic metadata:
    [/ISSN[- ]*[pe]?\s*:?\s*\d{4}[-\s]*\d{4}/gi],
    [/DOI\s*:?\s*[\d.\/a-z-]+/gi], [/https?:\/\/[^\s]+/gi],
    [/[\w.-]+@[\w.-]+\.[a-z]{2,}/gi]. *)
Definition re_issn : regex :=
  seq [ S_ "ISSN"; star (one_of "- "); opt (one_of "pe"); star s_; opt (S_ ":");
        star s_; times 4 d_; star (Cls false [CC 45%N; CS]); times 4 d_ ].

Definition re_doi : regex :=
  seq [ S_ "DOI"; star s_; opt (S_ ":"); star s_;
        plus (Cls false [CD; CC 46%N; CC 47%N; CR 97%N 122%N; CC 45%N]) ].

Definition re_url : regex :=
  seq [ S_ "http"; opt (S_ "s"); S_ "://"; plus (Cls true [CS]) ].

Definition re_email : regex :=
  seq [ plus (Cls false [CW; CC 46%N; CC 45%N]); S_ "@";
        plus (Cls false [CW; CC 46%N; CC 45%N]); S_ ".";
        at_least 2 (Cls false [CR 97%N 122%N]) ].

Definition removeMetadata (cleaned : str) : str :=
  replace_all f_i re_email []
    (replace_all f_i re_url []
       (replace_all f_i re_doi []
          (replace_all f_i re_issn [] cleaned))).

(** 6. Remove page numbers:
    [/^\s*\d+\s*$/gm], [/^\s*-\s*\d+\s*-\s*$/gm],
    [/^.*?\d{4}\s+\d{1,4}\s*$/gm]. *)
Definition re_page1 : regex := seq [Bol; star s_; plus d_; star s_; Eol].

Definition re_page2 : regex :=
  seq [Bol; star s_; S_ "-"; star s_; plus d_; star s_; S_ "-"; star s_; Eol].

Definition re_page3 : regex :=
  seq [Bol; any_lazy; times 4 d_; plus s_; between 1 4 d_; star s_; Eol].

Definition removePageNumbers (cleaned : str) : str :=
  replace_all f_m re_page3 []
    (replace_all f_m re_page2 []
       (replace_all f_m re_page1 [] cleaned)).

(** 7. Normalize whitespace: [/[ \t]+/g] and [/\n\s*\n\s*\n+/g]. *)
Definition re_blank_lines : regex :=
  seq [Chr nl; star s_; Chr nl; star s_; plus (Chr nl)].

Definition collapseBlankLines (cleaned : str) : str :=
  replace_all f_none re_blank_lines [TLit [nl; nl]] cleaned.

Definition normalizeWhitespace (cleaned : str) : str :=
  collapseBlankLines
    (replace_all f_none (plus (Cls false [CC 32%N; CC tab])) [TLit (lit " ")]
       cleaned).

(** 8. Remove lines with mostly special characters or very short.
    [nextLine] is [lines[index + 1]], [None] after the last line. *)
Definition re_journal_number : regex := seq [journalName; any_lazy; plus d_].

Definition keepLine (line : str) (nextLine : option str) : bool :=
  let trimmed := trim line in
  if length trimmed =? 0 then true
  (* Remove lines with pattern: journal name + numbers *)
  else if test f_i re_journal_number trimmed then false
  (* Keep section headers (short but next line is long) *)
  else if length trimmed <? 15 then
    if match nextLine with
       | Some next => truthy_str next && (40 <? length (trim next))
       | None => false
       end
    then true
    else 3 <=? length trimmed
  else true.

Fixpoint filterLines (lines : list str) : list str :=
  match lines with
  | [] => []
  | line :: rest =>
      if keepLine line (hd_error rest)
      then line :: filterLines rest
      else filterLines rest
  end.

Definition removeShortLines (cleaned : str) : str :=
  join [nl] (filterLines (splitChar nl cleaned)).

(** 9. Find and remove repeated patterns.

    [lineFrequency] is a plain object.  A property holds a count, or the
    text that comes of adding 1 to a member inherited from
    [Object.prototype] (such a key never counts as repeated). *)
Inductive freq : Type :=
| Count (n : nat)
| Text.

Definition objectPrototypeKeys : list str := map lit
  [ "constructor"; "__defineGetter__"; "__defineSetter__"; "hasOwnProperty";
    "__lookupGetter__"; "__lookupSetter__"; "isPrototypeOf";
    "propertyIsEnumerable"; "toString"; "valueOf"; "toLocaleString" ]%string.

Fixpoint own {V} (o : list (str * V)) (k : str) : option V :=
  match o with
  | [] => None
  | (k', v) :: o' => if str_eqb k k' then Some v else own o' k
  end.

(** [lineFrequency[trimmed] = (lineFrequency[trimmed] || 0) + 1].  The
    assignment to [__proto__] goes to the setter, which ignores a string. *)
Definition countLine (lineFrequency : JsMap freq) (trimmed : str) : JsMap freq :=
  match own lineFrequency trimmed with
  | Some (Count n) => map_set lineFrequency trimmed (Count (S n))
  | Some Text => lineFrequency
  | None =>
      if str_eqb trimmed (lit "__proto__") then lineFrequency
      else if arr_includes objectPrototypeKeys trimmed
      then map_set lineFrequency trimmed Text
      else map_set lineFrequency trimmed (Count 1)
  end.

Definition lineFrequencies (cleaned : str) : JsMap freq :=
  fold_left
    (fun lineFrequency line =>
       let trimmed := trim line in
       if (5 <? length trimmed) && (length trimmed <? 150)
       then countLine lineFrequency trimmed
       else lineFrequency)
    (splitChar nl cleaned) [].

(** A key that is an array index (a canonical numeral below 2^32 - 1):
    [Object.keys] lists these first, in ascending order. *)
Definition arrayIndex (k : str) : option N :=
  match k with
  | [] => None
  | c :: rest =>
      if forallb isDigit k &&
         (negb (c =? 48)%N || match rest with [] => true | _ => false end)
      then
        let v := fold_left (fun a d => (10 * a + (d - 48))%N) k 0%N in
        if (v <? 4294967295)%N then Some v else None
      else None
  end.

Fixpoint insertIndex (k : N * str) (l : list (N * str)) : list (N * str) :=
  match l with
  | [] => [k]
  | x :: l' => if (fst k <=? fst x)%N then k :: l else x :: insertIndex k l'
  end.

Definition objectKeys {V} (o : JsMap V) : list str :=
  let indices :=
    fold_right (fun kv acc =>
                  match arrayIndex (fst kv) with
                  | Some n => insertIndex (n, fst kv) acc
                  | None => acc
                  end) [] o in
  map snd indices ++
  filter (fun k => match arrayIndex k with Some _ => false | None => true end)
         (map fst o).

Definition repeatedLines (cleaned : str) : list str :=
  let lineFrequency := lineFrequencies cleaned in
  filter (fun line =>
            match own lineFrequency line with
            | Some (Count n) => 2 <=? n
            | _ => false
            end)
         (objectKeys lineFrequency).

(** [new RegExp('^\\s*' + escaped + '\\s*$', 'gm')] *)
Definition re_whole_line (line : str) : regex :=
  seq [Bol; star s_; RegExp_escaped (escapeRegExp line); star s_; Eol].

Definition removeLine (cleaned : str) (line : str) : str :=
  replace_all f_m (re_whole_line line) [] cleaned.

Definition removeRepeatedLines (cleaned : str) : str :=
  fold_left removeLine (repeatedLines cleaned) cleaned.

(** [i < n * 0.9] and [i < n * 0.4] for an index [i] and a length [n].
    The products are doubles; for lengths below 2^50 the comparison with
    an integer comes out as in exact arithmetic: when [9 n / 10] is an
    integer the product rounds to it, otherwise it stays strictly
    between the two neighbouring integers. *)
Definition lt_90_percent (i : Z) (n : nat) : bool :=
  (10 * i <? 9 * Z.of_nat n)%Z.

Definition lt_40_percent (i : Z) (n : nat) : bool :=
  (5 * i <? 2 * Z.of_nat n)%Z.

(** 10. Remove CONFLICTS OF INTEREST section and everything after:
    [/\b(CONFLICTS?\s+OF\s+INTEREST|CONFLICT\s+OF\s+INTEREST|COMPETING\s+INTERESTS?|KONFLIK\s+KEPENTINGAN)\b/i] *)
Definition re_conflicts : regex :=
  seq [ WordB;
        Grp 1 (alt [ seq [S_ "CONFLICT"; opt (S_ "S"); plus s_; S_ "OF"; plus s_; S_ "INTEREST"];
                     seq [S_ "CONFLICT"; plus s_; S_ "OF"; plus s_; S_ "INTEREST"];
                     seq [S_ "COMPETING"; plus s_; S_ "INTEREST"; opt (S_ "S")];
                     seq [S_ "KONFLIK"; plus s_; S_ "KEPENTINGAN"] ]);
        WordB ].

Definition cutConflicts (cleaned : str) : str :=
  let conflictsIndex := search f_i re_conflicts cleaned in
  if (0 <? conflictsIndex)%Z
  then trim (substring cleaned 0 conflictsIndex)
  else cleaned.

(** 11. Remove ACKNOWLEDGMENTS/ACKNOWLEDGEMENTS section and everything after:
    [/\b(ACKNOWLEDGMENTS?|ACKNOWLEDGEMENTS?|UCAPAN\s+TERIMA\s+KASIH)\b/i] *)
Definition re_acknowledgments : regex :=
  seq [ WordB;
        Grp 1 (alt [ seq [S_ "ACKNOWLEDGMENT"; opt (S_ "S")];
                     seq [S_ "ACKNOWLEDGEMENT"; opt (S_ "S")];
                     seq [S_ "UCAPAN"; plus s_; S_ "TERIMA"; plus s_; S_ "KASIH"] ]);
        WordB ].

Definition cutAcknowledgments (cleaned : str) : str :=
  let acknowledgmentsIndex := search f_i re_acknowledgments cleaned in
  if (0 <? acknowledgmentsIndex)%Z &&
     lt_90_percent acknowledgmentsIndex (length cleaned)
  then trim (substring cleaned 0 acknowledgmentsIndex)
  else cleaned.

(** 12. Remove REFERENCES section and everything after:
    [/\b(REFERENCES?|DAFTAR\s+PUSTAKA|BIBLIOGRAPHY|LITERATUR|CITATIONS?)\b/i];
    the numbered references are looked for with [/^\s*\d+\.\s+[A-Z]/m]. *)
Definition re_references : regex :=
  seq [ WordB;
        Grp 1 (alt [ seq [S_ "REFERENCE"; opt (S_ "S")];
                     seq [S_ "DAFTAR"; plus s_; S_ "PUSTAKA"];
                     S_ "BIBLIOGRAPHY";
                     S_ "LITERATUR";
                     seq [S_ "CITATION"; opt (S_ "S")] ]);
        WordB ].

Definition re_numbered_ref : regex :=
  seq [Bol; star s_; plus d_; S_ "."; plus s_; Cls false [CR 65%N 90%N]].

Definition cutReferences (cleaned : str) : str :=
  let referencesIndex := search f_i re_references cleaned in
  if (0 <? referencesIndex)%Z && lt_90_percent referencesIndex (length cleaned)
  then
    (* Double check by looking for numbered references pattern after this point *)
    let afterSection := substringFrom cleaned referencesIndex in
    let hasNumberedRefs := test f_m re_numbered_ref afterSection in
    if hasNumberedRefs ||
       lt_40_percent (Z.of_nat (length afterSection)) (length cleaned)
    then trim (substring cleaned 0 referencesIndex)
    else cleaned
  else cleaned.

(** 13. Remove AUTHOR CONTRIBUTIONS and similar sections:
    [/\b(AUTHORS?\s+CONTRIBUTIONS?|KONTRIBUSI\s+PENULIS)\b/i] *)
Definition re_author : regex :=
  seq [ WordB;
        Grp 1 (alt [ seq [S_ "AUTHOR"; opt (S_ "S"); plus s_; S_ "CONTRIBUTION"; opt (S_ "S")];
                     seq [S_ "KONTRIBUSI"; plus s_; S_ "PENULIS"] ]);
        WordB ].

Definition cutAuthorContributions (cleaned : str) : str :=
  let authorIndex := search f_i re_author cleaned in
  if (0 <? authorIndex)%Z && lt_90_percent authorIndex (length cleaned)
  then trim (substring cleaned 0 authorIndex)
  else cleaned.

(** 14. Remove figure/table captions:
    [/^(Figure|Fig\.|Table|Tabel|Gambar)\s*\d+[:.].{0,200}$/gmi] *)
Definition re_caption : regex :=
  seq [ Bol;
        Grp 1 (alt (map S_ ["Figure"; "Fig."; "Table"; "Tabel"; "Gambar"]%string));
        star s_; plus d_; one_of ":."; between 0 200 Dot; Eol ].

Definition removeCaptions (cleaned : str) : str :=
  replace_all f_mi re_caption [] cleaned.

(** 15. Final cleanup *)
Definition finalCleanup (cleaned : str) : str :=
  trim (collapseBlankLines cleaned).

(** The text as it reaches step 9, and what steps 13 to 15 make of it. *)
Definition beforeRepeatedLines (text headerPattern footerPattern : str) : str :=
  removeShortLines
    (normalizeWhitespace
       (removePageNumbers
          (removeMetadata
             (removeJournalFooters
                (removeFooter footerPattern
                   (removeJournalHeaders
                      (removeHeader headerPattern
                         (startFromAbstract text)))))))).

(** The text as it reaches step 12. *)
Definition beforeReferences (text headerPattern footerPattern : str) : str :=
  cutAcknowledgments
    (cutConflicts
       (removeRepeatedLines
          (beforeRepeatedLines text headerPattern footerPattern))).

Definition afterReferences (cleaned : str) : str :=
  finalCleanup (removeCaptions (cutAuthorContributions cleaned)).

Definition cleanAcademicText (text headerPattern footerPattern : str) : str :=
  afterReferences
    (cutReferences (beforeReferences text headerPattern footerPattern)).

End TextUtils.

Import TextUtils.

(* ================================================================== *)
(** * The upload page: createChunks                                     *)
(* ================================================================== *)

Module UploadPage.

Record Chunk : Type := {
  id : Z;
  text : str;
  wordCount : nat;
  charCount : nat
}.

(** The marker [Isi:], white space, and in group 1 all that follows
    (any run of [\s] and [\S]). *)
Definition re_isi : regex :=
  seq [S_ "Isi:"; star s_; Grp 1 (star (Cls false [CS; CNS]))].

(** [/(?<=[.!?])\s+/] *)
Definition re_sentence_end : regex :=
  seq [Behind (map CC (lit ".!?")); plus s_].

(** The text after the "Isi:" marker, the whole text without one. *)
Definition contentOf (text : str) : str :=
  match exec f_none re_isi text with
  | Some (_, st) =>
      match capture text st 1 with
      | Some c => trim c
      | None => text
      end
  | None => text
  end.

(** The sentences: split, trimmed, the very short ones dropped. *)
Definition sentencesOf (text : str) : list str :=
  filter (fun s => 10 <? length s)
    (map trim (split f_none re_sentence_end (contentOf text))).

(** [arr.slice(a, b)] for integers: a negative index counts from the
    end. *)
Definition sliceIndex (n : nat) (i : Z) : nat :=
  if (i <? 0)%Z then Z.to_nat (Z.max (Z.of_nat n + i) 0)
  else Nat.min (Z.to_nat i) n.

Definition sliceZ {A} (l : list A) (a b : Z) : list A :=
  slice l (sliceIndex (length l) a) (sliceIndex (length l) b).

(** The loop of [createChunks].  [i], [chunkId] and [chunks] are the
    variables of the source; [None] when the fuel runs out, as it does
    when the loop does not end. *)
Fixpoint chunkLoop (fuel : nat) (sentences : list str)
    (sentencesPerChunk overlapSentences : Z)
    (i chunkId : Z) (chunks : list Chunk) : option (list Chunk) :=
  match fuel with
  | O => None
  | S fuel' =>
      if (i <? Z.of_nat (length sentences))%Z then
        let chunkSentences := sliceZ sentences i (i + sentencesPerChunk) in
        let chunkText := join (lit " ") chunkSentences in
        let pushed := 0 <? length (trim chunkText) in
        let chunks' :=
          if pushed then
            chunks ++ [ {| id := chunkId; text := chunkText;
                           wordCount := length (split f_none (plus s_) chunkText);
                           charCount := length chunkText |} ]
          else chunks in
        let chunkId' := if pushed then (chunkId + 1)%Z else chunkId in
        (* Break if we've reached the end *)
        if (Z.of_nat (length sentences) <=? i + sentencesPerChunk)%Z
        then Some chunks'
        else chunkLoop fuel' sentences sentencesPerChunk overlapSentences
               (i + (sentencesPerChunk - overlapSentences))%Z chunkId' chunks'
      else Some chunks
  end.

Definition createChunks (text : str) (sentencesPerChunk overlapSentences : Z)
  : option (list Chunk) :=
  let sentences := sentencesOf text in
  chunkLoop (S (length sentences)) sentences
            sentencesPerChunk overlapSentences 0%Z 1%Z [].

(** The call of the page: [createChunks(data.cleanedText)]. *)
Definition createChunksDefault (text : str) : option (list Chunk) :=
  createChunks text 12 3.

(** The chunk that the loop makes of a window of sentences. *)
Definition chunkOf (chunkId : Z) (window : list str) : Chunk :=
  let chunkText := join (lit " ") window in
  {| id := chunkId; text := chunkText;
     wordCount := length (split f_none (plus s_) chunkText);
     charCount := length chunkText |}.

End UploadPage.

(* ================================================================== *)
(** * services/mistral.service.ts: graph extraction                     *)
(* ================================================================== *)

Module MistralService.

(** What [fetch] resolves to: the status and what [response.json()]
    gives (an exception when the body is not JSON). *)
Record Response : Type := {
  ok : bool;
  statusText : str;
  json : result value
}.

Record ChunkInput : Type := { id : Z; text : str }.

(** The entities and relations of a result are the objects that went
    through the filters, whatever else they hold. *)
Record GraphExtractionResult : Type := {
  chunkId : Z;
  entities : list value;
  relations : list value
}.

(** Calling a string method ([toLowerCase], [trim]) on a value, and an
    array method ([filter]): only strings, only arrays have them. *)
Definition as_string (v : value) : result str :=
  match v with VStr s => Ok s | _ => Throw TypeError end.

Definition as_array (v : value) : result (list value) :=
  match v with VArr l => Ok l | _ => Throw TypeError end.

Notation "x <- a ;; b" := (bind a (fun x => b))
  (at level 61, a at next level, right associativity).

(** [arr.filter(f)] for a callback that may throw. *)
Fixpoint filterM {A} (f : A -> result bool) (l : list A) : result (list A) :=
  match l with
  | [] => Ok []
  | x :: l' =>
      b <- f x ;;
      rest <- filterM f l' ;;
      Ok (if b then x :: rest else rest)
  end.

Fixpoint mapM {A B} (f : A -> result B) (l : list A) : result (list B) :=
  match l with
  | [] => Ok []
  | x :: l' =>
      y <- f x ;;
      rest <- mapM f l' ;;
      Ok (y :: rest)
  end.

(** [filterEntity] applied to a parsed value. *)
Definition filterEntityValue (entity : value) : result bool :=
  n <- get entity "name" ;;
  name <- as_string n ;;
  t <- get entity "type" ;;
  type <- as_string t ;;
  Ok (filterEntity {| name := name; type := type |}).

(** [filterRelationsByEntities] applied to parsed values. *)
Definition filterRelationsByEntitiesValue (relations : value)
    (validEntities : list value) : result (list value) :=
  names <- mapM (fun e => n <- get e "name" ;;
                          s <- as_string n ;;
                          Ok (normalizeEntityName s)) validEntities ;;
  let entityNames := set_of names in
  rels <- as_array relations ;;
  filterM (fun rel =>
             s <- get rel "source" ;;
             if negb (truthy s) then Ok false else
             r <- get rel "relation" ;;
             if negb (truthy r) then Ok false else
             t <- get rel "target" ;;
             if negb (truthy t) then Ok false else
             src <- as_string s ;;
             let sourceNorm := normalizeEntityName src in
             tgt <- as_string t ;;
             let targetNorm := normalizeEntityName tgt in
             Ok (set_has entityNames sourceNorm && set_has entityNames targetNorm))
          rels.

(** A quote of either kind; a run of characters other than quotes; a run
    of characters other than quotes, commas and closing braces; a run of
    characters other than closing braces. *)
Definition quote : regex := Cls false [CC dq; CC sq].
Definition unquoted : regex := plus (Cls true [CC dq; CC sq]).
Definition bare : regex := plus (Cls true [CC dq; CC sq; CC 44%N; CC 125%N]).
Definition in_braces : regex := star (Cls true [CC 125%N]).

(** A quoted key, white space, a colon, white space and a quoted value,
    which is group [n]. *)
Definition field1 (key : string) (n : nat) : regex :=
  seq [quote; S_ key; quote; star s_; S_ ":"; star s_; quote; Grp n unquoted; quote].

(** The same with optional quotes around the key and a value without
    commas and closing braces. *)
Definition field2 (key : string) (n : nat) : regex :=
  seq [opt quote; S_ key; opt quote; star s_; S_ ":"; star s_; quote; Grp n bare; quote].

(** [\s*,\s*] *)
Definition comma : regex := seq [star s_; S_ ","; star s_].

Definition entityPattern1 : regex :=
  seq [field1 "name" 1; comma; field1 "type" 2].

Definition entityPattern2 : regex :=
  seq [S_ "{"; in_braces; field2 "name" 1; in_braces; field2 "type" 2;
       in_braces; S_ "}"].

Definition relationPattern1 : regex :=
  seq [field1 "source" 1; comma; field1 "relation" 2; comma; field1 "target" 3].

Definition relationPattern2 : regex :=
  seq [S_ "{"; in_braces; field2 "source" 1; in_braces; field2 "relation" 2;
       in_braces; field2 "target" 3; in_braces; S_ "}"].

(** [match[n]] *)
Definition group (content : str) (m : nat * mstate) (n : nat) : str :=
  match capture content (snd m) n with Some s => s | None => [] end.

Definition entityValue (e : Entity) : value :=
  VObj [(lit "name", VStr (name e)); (lit "type", VStr (type e))].

Definition relationValue (r : Relation) : value :=
  VObj [(lit "source", VStr (source r)); (lit "relation", VStr (relation r));
        (lit "target", VStr (target r))].

(** Fallback manual extraction using regex *)
Definition extractGraphManually (chunk : ChunkInput) (content : str)
  : result (option GraphExtractionResult) :=
  try_catch
    ((* Pattern 1: Standard format *)
     let entities :=
       map (fun m => {| name := group content m 1; type := group content m 2 |})
           (match_all f_none entityPattern1 content) in
     (* Pattern 2: Flexible with optional spaces and quotes *)
     let entities :=
       fold_left
         (fun entities m =>
            if negb (existsb (fun e => str_eqb (name e) (group content m 1) &&
                                       str_eqb (type e) (group content m 2))
                             entities)
            then entities ++ [ {| name := trim (group content m 1);
                                  type := trim (group content m 2) |} ]
            else entities)
         (match_all f_none entityPattern2 content) entities in
     (* Pattern 1: Standard format *)
     let relations :=
       map (fun m => {| source := group content m 1;
                        relation := group content m 2;
                        target := group content m 3 |})
           (match_all f_none relationPattern1 content) in
     (* Pattern 2: Flexible format *)
     let relations :=
       fold_left
         (fun relations m =>
            let rel := {| source := trim (group content m 1);
                          relation := trim (group content m 2);
                          target := trim (group content m 3) |} in
            if negb (existsb (fun r => str_eqb (source r) (source rel) &&
                                       str_eqb (relation r) (relation rel) &&
                                       str_eqb (target r) (target rel))
                             relations)
            then relations ++ [rel]
            else relations)
         (match_all f_none relationPattern2 content) relations in
     (* Filter and limit *)
     let filteredEntities := firstn 15 (filter filterEntity entities) in
     let filteredRelations :=
       filterRelationsByEntities relations filteredEntities in
     if (0 <? length filteredEntities) || (0 <? length filteredRelations) then
       Ok (Some {| chunkId := id chunk;
                   entities := map entityValue filteredEntities;
                   relations := map relationValue filteredRelations |})
     else Ok None)
    (fun _ => Ok None).

(** [data.choices[0].message.content.trim()] *)
Definition contentOf (data : value) : result str :=
  choices <- get data "choices" ;;
  first <- get0 choices ;;
  message <- get first "message" ;;
  content <- get message "content" ;;
  s <- as_string content ;;
  Ok (trim s).

(** The [try] block around the parsing of the answer. *)
Definition parseGraph (chunk : ChunkInput) (content : str)
  : result (option GraphExtractionResult) :=
  graphData <- parseJSONResponse content ;;
  (* Filter and limit entities *)
  es <- get graphData "entities" ;;
  l <- as_array (if truthy es then es else VArr []) ;;
  kept <- filterM filterEntityValue l ;;
  let filteredEntities := firstn 15 kept in
  (* Filter relations to only include those with valid entities *)
  rs <- get graphData "relations" ;;
  filteredRelations <-
    filterRelationsByEntitiesValue (if truthy rs then rs else VArr [])
                                   filteredEntities ;;
  Ok (Some {| chunkId := id chunk;
              entities := filteredEntities;
              relations := filteredRelations |}).

(** What [extractGraphFromChunk] does with the outcome of its request. *)
Definition handleResponse (chunk : ChunkInput) (fetched : result Response)
  : result (option GraphExtractionResult) :=
  try_catch
    (response <- fetched ;;
     if negb (ok response) then Ok None
     else
       data <- json response ;;
       content <- contentOf data ;;
       try_catch (parseGraph chunk content)
                 (fun parseError =>
                    (* Try manual extraction as fallback *)
                    extractGraphManually chunk content))
    (fun error => Ok None).

Section Collaborator.

(** The extraction collaborator: any world and any function from a
    request (the key and the text of the chunk, around which the prompt
    is built) and the world to an outcome and the next world. *)
Variable World : Type.
Variable fetch : str -> str -> World -> result Response * World.

Definition extractGraphFromChunk (chunk : ChunkInput) (apiKey : str)
    (w : World) : result (option GraphExtractionResult) * World :=
  let (fetched, w') := fetch apiKey (text chunk) w in
  (handleResponse chunk fetched, w').





(** ** app/api/extract-graph/route.ts *)





End Collaborator.

End MistralService.

(* ================================================================== *)
(** * repositories/search.repository.ts                                 *)
(* ================================================================== *)

Module SearchRepository.

Record Journal : Type := { title : str; author : str; year : str }.

Section Store.

(** The type of the numbers of vectors and similarities. *)
Variable Number : Type.

Record VectorSearchResult : Type := {
  vs_id : str;
  vs_text : str;
  vs_journal_id : str;
  vs_similarity : Number;
  vs_journal : option Journal
}.

Record GraphSearchResult : Type := {
  gs_id : str;
  gs_name : str;
  gs_type : str
}.

Record GraphRelation : Type := {
  gr_id : str;
  gr_relation : str;
  gr_source : GraphSearchResult;
  gr_target : GraphSearchResult
}.

(** The rows as the store sends them: an embedded entity may be null,
    and so may its type. *)
Record EntityJson : Type := {
  ej_id : str;
  ej_name : str;
  ej_type : option str
}.

Record RelationRow : Type := {
  rr_id : str;
  rr_relation : str;
  rr_source : option EntityJson;
  rr_target : option EntityJson
}.

Record SourceRow : Type := {
  sr_id : str;
  sr_relation : str;
  sr_source : option GraphSearchResult
}.

Record EmbeddingRow : Type := {
  er_id : str;
  er_journal : option Journal
}.

(** [{ data, error }] *)
Record Reply (A : Type) : Type := { data : option A; error : bool }.

(** The client of the store: one function for each query that the
    repository builds.
    - [rpc_search_similar_chunks query_embedding match_count]
    - [entities_like pattern type limit]:
      [from("entities").select("id, name, type").ilike("name", pattern)],
      [.eq("type", type)] when a type is given, [.limit(limit)]
    - [conditions_like pattern types limit]: the same with
      [.in("type", types)]
    - [relations_to target_ids source_type relations]:
      [from("relations").select(id, relation, source).in("target_id", ..)
       .eq("source.type", ..).in("relation", ..)]
    - [relations_from source_ids]:
      [from("relations").select(id, relation, source, target)
       .in("source_id", ..)]
    - [embeddings_of ids]:
      [from("embeddings").select(id, journal).in("id", ..)]
    [configured] tells whether the address and the key of the store are
    in the environment. *)
Record Supabase (World : Type) : Type := {
  configured : bool;
  rpc_search_similar_chunks :
    list Number -> Z -> World -> Reply (list VectorSearchResult) * World;
  entities_like :
    str -> option str -> nat -> World -> Reply (list GraphSearchResult) * World;
  conditions_like :
    str -> list str -> nat -> World -> Reply (list GraphSearchResult) * World;
  relations_to :
    list str -> str -> list str -> World -> Reply (list SourceRow) * World;
  relations_from :
    list str -> World -> Reply (list RelationRow) * World;
  embeddings_of :
    list str -> World -> Reply (list EmbeddingRow) * World
}.

Section Client.

Variable World : Type.
Variable supabase : Supabase World.

(** An asynchronous computation: from the world to a value or an
    exception, and the next world. *)
Definition M (A : Type) : Type := World -> result A * World.

Definition ret {A} (a : A) : M A := fun w => (Ok a, w).

Definition throw {A} (e : exn) : M A := fun w => (Throw e, w).

Definition bindM {A B} (m : M A) (f : A -> M B) : M B :=
  fun w =>
    match m w with
    | (Ok a, w') => f a w'
    | (Throw e, w') => (Throw e, w')
    end.

(** A query of the store never throws. *)
Definition ask {A} (q : World -> A * World) : M A :=
  fun w => let (a, w') := q w in (Ok a, w').

Notation "x <- a ;; b" := (bindM a (fun x => b))
  (at level 61, a at next level, right associativity).

(** [data || []] *)
Definition orEmpty {A} (d : option (list A)) : list A :=
  match d with Some l => l | None => [] end.

Definition getSupabaseClient : M unit :=
  if configured supabase then ret tt else throw ConfigError.

(** Vector similarity search using embeddings *)
Definition vectorSearch (queryVector : list Number) (topK : Z)
  : M (list VectorSearchResult) :=
  _ <- getSupabaseClient ;;
  reply <- ask (rpc_search_similar_chunks supabase queryVector topK) ;;
  if error reply then throw SearchError
  else ret (orEmpty (data reply)).

(** Find entities matching query entities *)
Definition findMatchingEntities (entityName : str) (entityType : option str)
  : M (list GraphSearchResult) :=
  _ <- getSupabaseClient ;;
  let pattern := lit "%" ++ entityName ++ lit "%" in
  let type :=
    match entityType with
    | Some t => if truthy_str t then Some t else None
    | None => None
    end in
  reply <- ask (entities_like supabase pattern type 10) ;;
  if error reply then ret []
  else ret (orEmpty (data reply)).

Definition therapeuticRelations : list str :=
  map lit ["treats"; "reduces"; "alleviates"; "prevents"; "cures"]%string.

(** [new Map()] filled by [plantsMap.set(rel.source.id, rel.source)]. *)
Definition plantsOf (relations : list SourceRow) : list GraphSearchResult :=
  map_values
    (fold_left
       (fun plantsMap rel =>
          match sr_source rel with
          | Some source => map_set plantsMap (gs_id source) source
          | None => plantsMap
          end)
       relations []).

(** Find herbs that treat a specific condition/symptom *)
Definition findHerbsForCondition (conditionName : str)
  : M (list GraphSearchResult) :=
  _ <- getSupabaseClient ;;
  (* Find the condition entity first *)
  reply <- ask (conditions_like supabase (lit "%" ++ conditionName ++ lit "%")
                  (map lit ["DISEASE"; "SYMPTOM"]%string) 5) ;;
  match data reply with
  | None => ret []
  | Some [] => ret []
  | Some conditions =>
      let conditionIds := map gs_id conditions in
      (* Find plants that have relations to these conditions *)
      reply2 <- ask (relations_to supabase conditionIds (lit "PLANT")
                       therapeuticRelations) ;;
      match data reply2 with
      | None => ret []
      | Some relations =>
          (* Extract unique plants *)
          ret (plantsOf relations)
      end
  end.

(** [(type || "").toUpperCase()] *)
Definition upperType (t : option str) : str :=
  toUpperCase (match t with
               | Some s => if truthy_str s then s else []
               | None => []
               end).

(** The body of the [forEach] of [getHerbCompoundsAndEffects]. *)
Definition keepTherapeutic (results : list GraphRelation) (rel : RelationRow)
  : list GraphRelation :=
  match rr_source rel, rr_target rel with
  | Some source, Some target =>
      let targetType := upperType (ej_type target) in
      let sourceType := upperType (ej_type source) in
      (* Include COMPOUND, EFFECT, DISEASE relations *)
      if str_eqb targetType (lit "COMPOUND") || str_eqb targetType (lit "EFFECT")
         || str_eqb targetType (lit "DISEASE")
      then
        results ++
        [ {| gr_id := rr_id rel;
             gr_relation := rr_relation rel;
             gr_source := {| gs_id := ej_id source; gs_name := ej_name source;
                             gs_type := sourceType |};
             gr_target := {| gs_id := ej_id target; gs_name := ej_name target;
                             gs_type := targetType |} |} ]
      else results
  | _, _ => results      (* Skip if source or target is null *)
  end.

(** Get compounds and effects for given herbs *)
Definition getHerbCompoundsAndEffects (herbIds : list str)
  : M (list GraphRelation) :=
  if length herbIds =? 0 then ret []
  else
    _ <- getSupabaseClient ;;
    (* Get ALL relations from herbs first (without type filter) *)
    reply <- ask (relations_from supabase herbIds) ;;
    if error reply then ret []
    else
      match data reply with
      | None => ret []
      | Some allRelations =>
          (* Filter compounds and effects manually (case-insensitive) *)
          ret (fold_left keepTherapeutic allRelations [])
      end.

(** [new Map()] filled by [journalMap.set(emb.id, emb.journal)]. *)
Definition journalsOf (embeddings : list EmbeddingRow) : JsMap Journal :=
  fold_left
    (fun journalMap emb =>
       match er_journal emb with
       | Some journal => map_set journalMap (er_id emb) journal
       | None => journalMap
       end)
    embeddings [].

(** Get journal metadata for embeddings *)
Definition getJournalsForEmbeddings (embeddingIds : list str)
  : M (JsMap Journal) :=
  if length embeddingIds =? 0 then ret []
  else
    _ <- getSupabaseClient ;;
    reply <- ask (embeddings_of supabase embeddingIds) ;;
    ret (journalsOf (orEmpty (data reply))).

End Client.

(** ** The persisted graph as a store

    The tables [entities] and [relations] in the order of their rows. *)
Record RelationRecord : Type := {
  rel_id : str;
  rel_source_id : str;
  rel_relation : str;
  rel_target_id : str
}.

Record Graph : Type := {
  g_entities : list GraphSearchResult;
  g_relations : list RelationRecord
}.

(** The patterns of [ILIKE]: [%] (and [*], its other spelling in a
    request) stands for any run of characters, [_] for one character,
    a backslash makes the next character literal; letters match without
    regard to case. *)
Inductive ptoken : Type :=
| PAny
| POne
| PChar (c : char).

Fixpoint likeTokens (pattern : str) : list ptoken :=
  match pattern with
  | [] => []
  | c :: rest =>
      if ((c =? 37) || (c =? 42))%N then PAny :: likeTokens rest
      else if (c =? 95)%N then POne :: likeTokens rest
      else if (c =? bsl)%N then
        match rest with
        | x :: rest' => PChar x :: likeTokens rest'
        | [] => [PChar c]
        end
      else PChar c :: likeTokens rest
  end.

Fixpoint likeMatch (p : list ptoken) (s : str) {struct p} : bool :=
  match p with
  | [] => match s with [] => true | _ => false end
  | PChar c :: p' =>
      match s with
      | x :: s' => (lowerChar c =? lowerChar x)%N && likeMatch p' s'
      | [] => false
      end
  | POne :: p' =>
      match s with
      | _ :: s' => likeMatch p' s'
      | [] => false
      end
  | PAny :: p' =>
      (fix skip (s : str) : bool :=
         likeMatch p' s ||
         match s with
         | _ :: s' => skip s'
         | [] => false
         end) s
  end.

Definition ilike (s pattern : str) : bool := likeMatch (likeTokens pattern) s.

Definition findEntity (g : Graph) (id : str) : option GraphSearchResult :=
  find (fun e => str_eqb (gs_id e) id) (g_entities g).

Definition toJson (e : GraphSearchResult) : EntityJson :=
  {| ej_id := gs_id e; ej_name := gs_name e; ej_type := Some (gs_type e) |}.

Definition reply_ok {A} (rows : A) : Reply A :=
  {| data := Some rows; error := false |}.

(** The store that holds a graph.  Its answers do not change the world;
    the vector search and the embeddings are other tables, given by
    [chunks] and [embeddings]. *)
Definition graphStore (World : Type) (g : Graph)
    (chunks : list Number -> Z -> World -> Reply (list VectorSearchResult) * World)
    (embeddings : list str -> World -> Reply (list EmbeddingRow) * World)
  : Supabase World :=
  {| configured := true;
     rpc_search_similar_chunks := chunks;
     entities_like := fun pattern type limit w =>
       (reply_ok
          (firstn limit
             (filter (fun e => ilike (gs_name e) pattern &&
                               match type with
                               | Some t => str_eqb (gs_type e) t
                               | None => true
                               end)
                     (g_entities g))), w);
     conditions_like := fun pattern types limit w =>
       (reply_ok
          (firstn limit
             (filter (fun e => ilike (gs_name e) pattern &&
                               arr_includes types (gs_type e))
                     (g_entities g))), w);
     relations_to := fun targetIds sourceType relations w =>
       (reply_ok
          (map (fun r =>
                  {| sr_id := rel_id r;
                     sr_relation := rel_relation r;
                     sr_source :=
                       match findEntity g (rel_source_id r) with
                       | Some e =>
                           if str_eqb (gs_type e) sourceType then Some e else None
                       | None => None
                       end |})
               (filter (fun r => arr_includes targetIds (rel_target_id r) &&
                                 arr_includes relations (rel_relation r))
                       (g_relations g))), w);
     relations_from := fun sourceIds w =>
       (reply_ok
          (map (fun r =>
                  {| rr_id := rel_id r;
                     rr_relation := rel_relation r;
                     rr_source := option_map toJson (findEntity g (rel_source_id r));
                     rr_target := option_map toJson (findEntity g (rel_target_id r)) |})
               (filter (fun r => arr_includes sourceIds (rel_source_id r))
                       (g_relations g))), w);
     embeddings_of := embeddings |}.

End Store.

End SearchRepository.

(* ================================================================== *)
(** * The query service: hybridSearch                                   *)
(* ================================================================== *)

Module QueryService.

Import SearchRepository.

Record QueryEntity : Type := { qe_name : str; qe_type : str }.

Section Search.

Variable Number : Type.
Variable World : Type.

Record GraphResults : Type := {
  herbs : list GraphSearchResult;
  compounds : list GraphRelation;
  effects : list GraphRelation;
  allRelations : list GraphRelation
}.

Record Summary : Type := {
  totalChunks : nat;
  totalHerbs : nat;
  totalCompounds : nat;
  totalEffects : nat
}.

Record HybridSearchResult : Type := {
  query : str;
  queryEntities : list QueryEntity;
  vectorResults : list (VectorSearchResult Number);
  graphResults : GraphResults;
  answer : str;
  summary : Summary
}.

(** The collaborators: the store, the extraction of the entities of the
    query, the embedding pipeline and the generation of the answer.  Each
    is any function of its arguments and the world. *)
Variable supabase : Supabase Number World.
Variable extractQueryEntities : str -> str -> M World (list QueryEntity).
Variable embed : str -> M World (list Number).
Variable generateAnswer :
  str -> list (VectorSearchResult Number) -> list GraphSearchResult ->
  list GraphRelation -> str -> M World str.

(** [process.env.MISTRAL_API_KEY!] *)
Variable apiKey : str.

Notation "x <- a ;; b" := (bindM a (fun x => b))
  (at level 61, a at next level, right associativity).

(** [journalMap.get(result.id)] *)
Definition map_get {V} (m : JsMap V) (k : str) : option V := TextUtils.own m k.

(** The body of the loop over the entities of the query; the state is
    the pair of [herbs] and [allMatchedEntities]. *)
Definition searchEntity
    (acc : list GraphSearchResult * list GraphSearchResult)
    (entity : QueryEntity)
  : M World (list GraphSearchResult * list GraphSearchResult) :=
  let (herbs, allMatchedEntities) := acc in
  (* Find direct entity matches *)
  matches <- findMatchingEntities supabase (qe_name entity)
                                  (Some (qe_type entity)) ;;
  let allMatchedEntities := allMatchedEntities ++ matches in
  (* If it's a symptom/disease, find herbs that treat it *)
  if str_eqb (qe_type entity) (lit "SYMPTOM") ||
     str_eqb (qe_type entity) (lit "DISEASE")
  then
    treatmentHerbs <- findHerbsForCondition supabase (qe_name entity) ;;
    ret (herbs ++ treatmentHerbs, allMatchedEntities)
  (* If it's a plant query, find the plant *)
  else if str_eqb (qe_type entity) (lit "PLANT") then
    plantMatches <- findMatchingEntities supabase (qe_name entity)
                                         (Some (lit "PLANT")) ;;
    ret (herbs ++ plantMatches, allMatchedEntities)
  else ret (herbs, allMatchedEntities).

Fixpoint forEachM {A S} (f : S -> A -> M World S) (l : list A) (s : S)
  : M World S :=
  match l with
  | [] => ret s
  | x :: l' => s' <- f s x ;; forEachM f l' s'
  end.

(** [Array.from(new Map(herbs.map((h) => [h.id, h])).values())] *)
Definition uniqueById (herbs : list GraphSearchResult)
  : list GraphSearchResult :=
  map_values (fold_left (fun m h => map_set m (gs_id h) h) herbs []).

(** Main hybrid search function combining vector and graph search *)
Definition hybridSearch (query : str) (topK : Z) : M World HybridSearchResult :=
  (* Step 1: Extract entities from query *)
  queryEntities <- extractQueryEntities query apiKey ;;
  (* Step 2: Vector search *)
  queryVector <- embed query ;;
  vectorResults <- vectorSearch supabase queryVector topK ;;
  (* Enrich vector results with journal metadata *)
  vectorResults <-
    (if 0 <? length vectorResults then
       let embeddingIds := map (@vs_id Number) vectorResults in
       journalMap <- getJournalsForEmbeddings supabase embeddingIds ;;
       ret (map (fun result =>
                   {| vs_id := vs_id result;
                      vs_text := vs_text result;
                      vs_journal_id := vs_journal_id result;
                      vs_similarity := vs_similarity result;
                      vs_journal := map_get journalMap (vs_id result) |})
                vectorResults)
     else ret vectorResults) ;;
  (* Step 3: Graph search - find relevant herbs *)
  found <- forEachM searchEntity queryEntities ([], []) ;;
  let herbs := fst found in
  (* Remove duplicate herbs *)
  let uniqueHerbs := uniqueById herbs in
  (* Step 4: Graph expansion - get compounds and effects *)
  let herbIds := map gs_id uniqueHerbs in
  relations <- getHerbCompoundsAndEffects supabase herbIds ;;
  let compounds :=
    filter (fun r => str_eqb (gs_type (gr_target r)) (lit "COMPOUND")) relations in
  let effects :=
    filter (fun r => str_eqb (gs_type (gr_target r)) (lit "EFFECT")) relations in
  (* Step 5: Generate answer using context *)
  answer <- generateAnswer query vectorResults uniqueHerbs relations apiKey ;;
  (* Step 6: Compile results *)
  let summary :=
    {| totalChunks := length vectorResults;
       totalHerbs := length uniqueHerbs;
       totalCompounds := length compounds;
       totalEffects := length effects |} in
  ret {| query := query;
         queryEntities := queryEntities;
         vectorResults := vectorResults;
         graphResults := {| herbs := uniqueHerbs;
                            compounds := compounds;
                            effects := effects;
                            allRelations := relations |};
         answer := answer;
         summary := summary |}.

End Search.

End QueryService.

(* ================================================================== *)
(** * The routes of the upload, the journal repository, the query       *)
(* ================================================================== *)

(** ** app/api/upload-file/route.ts *)

Module UploadFileRoute.

(** [/[^a-zA-Z0-9._-]/g] *)
Definition re_unsafe : regex :=
  Cls true [CR 97%N 122%N; CR 65%N 90%N; CR 48%N 57%N;
            CC 46%N; CC 95%N; CC 45%N].

(** [file.name.replace(/[^a-zA-Z0-9._-]/g, "_")] *)
Definition sanitizedName (name : str) : str :=
  replace_all f_none re_unsafe [TLit (lit "_")] name.

End UploadFileRoute.

(** ** app/api/upload/route.ts *)

Module UploadRoute.

(** [s.replace(p, r)] for a string [p] and a replacement [r] without a
    dollar sign: the first occurrence only. *)
Fixpoint replaceString (s p r : str) : str :=
  if startsWith s p then r ++ skipn (length p) s
  else
    match s with
    | [] => []
    | c :: s' => c :: replaceString s' p r
    end.

(** [a || b] for strings. *)
Definition orElse (a b : str) : str := if truthy_str a then a else b.

(** The fields of [Metadata] that the output shows; they are strings. *)
Record Metadata : Type := { title : str; authors : str; year : str }.

(** The lines of the formatted output before the marker of the
    content. *)
Definition header (metadata : Metadata) (fileName : str) : str :=
  lit "Judul: " ++
  orElse (title metadata) (replaceString fileName (lit ".pdf") []) ++
  js "\n\nPenulis: " ++ orElse (authors metadata) (lit "Unknown") ++
  js "\n\nTahun: " ++ orElse (year metadata) (lit "Unknown") ++
  js "\n\n".

(** Format output *)
Definition formattedText (metadata : Metadata) (fileName cleanedText : str)
  : str :=
  header metadata fileName ++ js "Isi:\n" ++ cleanedText.

End UploadRoute.

(** ** repositories/journal.repository.ts *)

(** The client of the store is made when the module is loaded; the
    functions below are those that run at each call.  The parameters
    have the types that the interfaces of the module declare. *)

Module JournalRepository.

Import SearchRepository.

Record Chunk : Type := { id : Z; text : str; wordCount : nat }.

Record GraphResult : Type := {
  chunkId : Z;
  entities : list Entity;
  relations : list Relation
}.

Record JournalMetadata : Type := { title : str; author : str; year : str }.

(** The rows of the store. *)
Record JournalInsert : Type := {
  j_title : str; j_author : str; j_year : str; j_file_url : str
}.

Record EmbeddingInsert : Type := {
  e_journal_id : str;
  e_text : str;
  e_vector : str;
  e_chunk_index : nat;
  e_word_count : nat
}.

Record EntityRow : Type := { row_id : str; row_name : str; row_type : str }.

Record RelationInsert : Type := {
  r_source_id : str;
  r_relation : str;
  r_target_id : str;
  r_journal_id : str       (* confidence: 1.0 *)
}.

(** The errors that the repository throws. *)
Inductive failure : Type :=
| JournalInsertFailed               (* "Failed to insert journal: ..." *)
| VectorNotFound (chunkId : Z)      (* "Vector not found for chunk ..." *)
| EmbeddingsInsertFailed            (* "Failed to insert embeddings: ..." *)
| EntitiesInsertFailed              (* "Failed to insert entities: ..." *)
| EntitiesFetchFailed               (* "Failed to fetch entities: ..." *)
| RelationsInsertFailed.            (* "Failed to insert relations: ..." *)

Inductive outcome (A : Type) : Type :=
| Done (a : A)
| Failed (e : failure).

Arguments Done {A} a.
Arguments Failed {A} e.

Section Repository.

(** The numbers of the vectors, and their text in JSON. *)
Variable Number : Type.
Variable stringify : list Number -> str.

Record VectorResult : Type := {
  v_chunkId : Z;
  vector : list Number;
  dimension : nat
}.

Record SaveToDbParams : Type := {
  metadata : JournalMetadata;
  fileUrl : str;
  chunks : list Chunk;
  vectors : list VectorResult;
  graphs : list GraphResult
}.

Record SaveToDbResult : Type := {
  journalId : str;
  embeddingsCount : nat;
  entitiesCount : nat;
  relationsCount : nat
}.

Variable World : Type.

(** The client of the store, one function for each query that the
    repository builds; the rows that a query returns are of any type
    [Row] where the code only counts them.
    - [insert_journal]: [from("journals").insert(..).select().single()],
      the data being the id of the new row
    - [insert_embeddings]: [from("embeddings").insert(..).select()]
    - [upsert_entities]: [from("entities").upsert(.., { onConflict:
      "name,type", ignoreDuplicates: true }).select()]
    - [select_entities]: [from("entities").select("id, name, type")]
    - [upsert_relations]: [from("relations").upsert(.., { onConflict:
      "source_id,relation,target_id", ignoreDuplicates: true }).select()] *)
Variable Row : Type.

Record Store : Type := {
  insert_journal : JournalInsert -> World -> Reply str * World;
  insert_embeddings : list EmbeddingInsert -> World -> Reply (list Row) * World;
  upsert_entities : list Entity -> World -> Reply (list Row) * World;
  select_entities : World -> Reply (list EntityRow) * World;
  upsert_relations : list RelationInsert -> World -> Reply (list Row) * World
}.

Variable supabase : Store.

(** [new Date().getFullYear().toString()] *)
Variable currentYear : str.

(** An asynchronous computation: a value or an error, and the next
    world. *)
Definition M (A : Type) : Type := World -> outcome A * World.

Definition ret {A} (a : A) : M A := fun w => (Done a, w).

Definition throw {A} (e : failure) : M A := fun w => (Failed e, w).

Definition bindM {A B} (m : M A) (f : A -> M B) : M B :=
  fun w =>
    match m w with
    | (Done a, w') => f a w'
    | (Failed e, w') => (Failed e, w')
    end.

Definition ask {A} (q : World -> A * World) : M A :=
  fun w => let (a, w') := q w in (Done a, w').

Notation "x <- a ;; b" := (bindM a (fun x => b))
  (at level 61, a at next level, right associativity).

(** Insert journal record *)
Definition insertJournal (title author year fileUrl : str) : M str :=
  reply <- ask (insert_journal supabase
                  {| j_title := title;
                     j_author := author;
                     j_year := if truthy_str year then year else currentYear;
                     j_file_url := fileUrl |}) ;;
  match error reply, data reply with
  | false, Some data => ret data
  | _, _ => throw JournalInsertFailed
  end.

(** [chunks.map((chunk, index) => ..)]: the callback throws for the
    first chunk without a vector. *)
Fixpoint embeddingsToInsert (journalId : str) (chunks : list Chunk)
    (vectors : list VectorResult) (index : nat)
  : outcome (list EmbeddingInsert) :=
  match chunks with
  | [] => Done []
  | chunk :: chunks' =>
      match find (fun v => (v_chunkId v =? id chunk)%Z) vectors with
      | None => Failed (VectorNotFound (id chunk))
      | Some vec =>
          match embeddingsToInsert journalId chunks' vectors (S index) with
          | Done rows =>
              Done ({| e_journal_id := journalId;
                       e_text := text chunk;
                       e_vector := stringify (vector vec);
                       e_chunk_index := index;
                       e_word_count := wordCount chunk |} :: rows)
          | Failed e => Failed e
          end
      end
  end.

(** Insert embeddings for a journal *)
Definition insertEmbeddings (journalId : str) (chunks : list Chunk)
    (vectors : list VectorResult) : M (list Row) :=
  match embeddingsToInsert journalId chunks vectors 0 with
  | Failed e => throw e
  | Done rows =>
      reply <- ask (insert_embeddings supabase rows) ;;
      if error reply then throw EmbeddingsInsertFailed
      else ret (orEmpty (data reply))
  end.

(** Extract and deduplicate entities; each row goes to the store with
    [description: null]. *)
Definition entitiesToInsert (graphs : list GraphResult) : list Entity :=
  let allEntities :=
    flat_map (fun graph =>
                map (fun entity =>
                       {| name := trim (name entity);       (* Trim whitespace *)
                          type := toUpperCase (type entity) |})
                    (entities graph))
             graphs in
  deduplicateEntities allEntities.

(** Insert entities with deduplication *)
Definition insertEntities (graphs : list GraphResult) : M (list Row) :=
  (* Insert with conflict handling *)
  reply <- ask (upsert_entities supabase (entitiesToInsert graphs)) ;;
  if error reply then throw EntitiesInsertFailed
  else ret (orEmpty (data reply)).

(** The map of [fetchEntityIdMap], from the rows of the store. *)
Definition entityIdMapOf (rows : list EntityRow) : JsMap str :=
  fold_left
    (fun entityIdMap entity =>
       let normalizedName := normalizeEntityName (row_name entity) in
       let key := normalizedName ++ lit "|" ++ toLowerCase (row_type entity) in
       map_set entityIdMap key (row_id entity))
    rows [].

(** Fetch all entities and create name->id mapping *)
Definition fetchEntityIdMap : M (JsMap str) :=
  reply <- ask (select_entities supabase) ;;
  match error reply, data reply with
  | false, Some data => ret (entityIdMapOf data)
  | _, _ => throw EntitiesFetchFailed
  end.

(** Get entity type from graphs *)
Fixpoint getEntityTypeFromName (name : str) (graphs : list GraphResult) : str :=
  match graphs with
  | [] => lit "UNKNOWN"
  | graph :: graphs' =>
      match find (fun e => str_eqb (toLowerCase (GraphUtils.name e))
                                   (toLowerCase name))
                 (entities graph) with
      | Some entity => toUpperCase (type entity)
      | None => getEntityTypeFromName name graphs'
      end
  end.

(** [const [name, ] = key.split('|')] *)
Definition nameOfKey (key : str) : str :=
  match splitChar 124%N key with
  | name :: _ => name
  | [] => []
  end.

(** [!id] for an id that may be undefined. *)
Definition noId (id : option str) : bool :=
  match id with
  | Some s => negb (truthy_str s)
  | None => true
  end.

(** The id under a key and, without one, the fallback: the id of the
    first entry whose key starts with the name (any type). *)
Definition idOf (entityIdMap : JsMap str) (key normalized : str) : option str :=
  let id := TextUtils.own entityIdMap key in
  if noId id then
    match find (fun entry => str_eqb (nameOfKey (fst entry)) normalized)
               entityIdMap with
    | Some entry => Some (snd entry)
    | None => id
    end
  else id.

(** The callback of the [map] of [insertRelations]: [None] is [null]. *)
Definition relationToInsert (journalId : str) (graphs : list GraphResult)
    (entityIdMap : JsMap str) (relation : Relation) : option RelationInsert :=
  let normalizedSource := normalizeEntityName (source relation) in
  let normalizedTarget := normalizeEntityName (target relation) in
  let sourceType := getEntityTypeFromName (source relation) graphs in
  let targetType := getEntityTypeFromName (target relation) graphs in
  let sourceKey := normalizedSource ++ lit "|" ++ toLowerCase sourceType in
  let targetKey := normalizedTarget ++ lit "|" ++ toLowerCase targetType in
  let sourceId := idOf entityIdMap sourceKey normalizedSource in
  let targetId := idOf entityIdMap targetKey normalizedTarget in
  match sourceId, targetId with
  | Some sourceId', Some targetId' =>
      if negb (truthy_str sourceId') || negb (truthy_str targetId') then None
      else
        Some {| r_source_id := sourceId';
                r_relation := trim (GraphUtils.relation relation);
                r_target_id := targetId';
                r_journal_id := journalId |}
  | _, _ => None
  end.

(** Extract and deduplicate relations *)
Definition uniqueRelations (graphs : list GraphResult) : list Relation :=
  let allRelations :=
    flat_map (fun graph =>
                filter (fun relation =>
                          truthy_str (source relation) &&
                          truthy_str (GraphUtils.relation relation) &&
                          truthy_str (target relation))
                       (relations graph))
             graphs in
  deduplicateRelations allRelations.

(** Map relations to entity IDs;
    [.filter((r) => r !== null && r.relation && r.relation.length > 0)] *)
Definition relationsToInsert (journalId : str) (graphs : list GraphResult)
    (entityIdMap : JsMap str) : list RelationInsert :=
  flat_map (fun relation =>
              match relationToInsert journalId graphs entityIdMap relation with
              | Some r =>
                  if truthy_str (r_relation r) && (0 <? length (r_relation r))
                  then [r] else []
              | None => []
              end)
           (uniqueRelations graphs).

(** Insert relations with entity validation *)
Definition insertRelations (journalId : str) (graphs : list GraphResult)
    (entityIdMap : JsMap str) : M (list Row) :=
  let rows := relationsToInsert journalId graphs entityIdMap in
  if length rows =? 0 then ret []
  else
    reply <- ask (upsert_relations supabase rows) ;;
    if error reply then throw RelationsInsertFailed
    else ret (orEmpty (data reply)).

(** Main function to save all data to database *)
Definition saveToDatabase (params : SaveToDbParams) : M SaveToDbResult :=
  (* 1. Insert journal *)
  journal <- insertJournal (title (metadata params)) (author (metadata params))
                           (year (metadata params)) (fileUrl params) ;;
  (* 2. Insert embeddings *)
  embeddings <- insertEmbeddings journal (chunks params) (vectors params) ;;
  (* 3. Insert entities *)
  entities <- insertEntities (graphs params) ;;
  (* 4. Fetch entity ID map *)
  entityIdMap <- fetchEntityIdMap ;;
  (* 5. Insert relations *)
  relations <- insertRelations journal (graphs params) entityIdMap ;;
  ret {| journalId := journal;
         embeddingsCount := length embeddings;
         entitiesCount := length entities;
         relationsCount := length relations |}.

End Repository.

End JournalRepository.

(** ** services/mistral.service.ts: the query *)

Module QueryAnswer.

Import SearchRepository MistralService.

Notation "x <- a ;; b" := (bind a (fun x => b))
  (at level 61, a at next level, right associativity).

(** [v?.key] *)
Definition getOpt (v : value) (k : string) : result value :=
  match v with
  | VUndefined | VNull => Ok VUndefined
  | _ => get v k
  end.

(** [content?.trim()]: only a string has the method. *)
Definition trimOpt (content : value) : result value :=
  match content with
  | VUndefined | VNull => Ok VUndefined
  | VStr s => Ok (VStr (trim s))
  | _ => Throw TypeError
  end.

(** [data.choices[0]?.message?.content?.trim() || "[]"] *)
Definition contentOr (data : value) (default : str) : result str :=
  choices <- get data "choices" ;;
  first <- get0 choices ;;
  message <- getOpt first "message" ;;
  content <- getOpt message "content" ;;
  trimmed <- trimOpt content ;;
  Ok (match trimmed with
      | VStr s => if truthy_str s then s else default
      | _ => default
      end).

(** The inner [try] of [extractQueryEntities]. *)
Definition parseEntities (content : str) : result (list value) :=
  try_catch
    (parsed <- parseJSONResponse content ;;
     let entities := match parsed with VArr l => l | _ => [] end in
     filterM (fun e =>
                n <- get e "name" ;;
                if truthy n then t <- get e "type" ;; Ok (truthy t)
                else Ok false)
             entities)
    (fun error => Ok []).

(** What [extractQueryEntities] does with the outcome of its request;
    the error of a response that is not ok is caught with the others. *)
Definition handleQueryResponse (fetched : result Response)
  : result (list value) :=
  try_catch
    (response <- fetched ;;
     if negb (ok response) then Throw FetchError
     else
       data <- json response ;;
       content <- contentOr data (lit "[]") ;;
       parseEntities content)
    (fun error => Ok []).

Section Collaborator.

Variable World : Type.
Variable fetch : str -> str -> World -> result Response * World.

(** Extract entities from user query for graph search *)
Definition extractQueryEntities (query apiKey : str) (w : World)
  : result (list value) * World :=
  let (fetched, w') := fetch apiKey query w in
  (handleQueryResponse fetched, w').

End Collaborator.

(** [arr.findIndex(p)] *)
Fixpoint findIndex {A} (p : A -> bool) (l : list A) : Z :=
  match l with
  | [] => (-1)%Z
  | x :: l' =>
      if p x then 0%Z
      else let i := findIndex p l' in if (i <? 0)%Z then (-1)%Z else (i + 1)%Z
  end.

(** [arr.filter((x, i) => f x i)], from the index [i] on. *)
Fixpoint filterFrom {A} (f : A -> Z -> bool) (i : Z) (l : list A) : list A :=
  match l with
  | [] => []
  | x :: l' =>
      if f x i then x :: filterFrom f (i + 1) l' else filterFrom f (i + 1) l'
  end.

(** Get unique journal sources *)
Definition sources {Number : Type}
    (vectorContext : list (VectorSearchResult Number)) : list Journal :=
  let arr :=
    flat_map (fun c => match vs_journal c with Some j => [j] | None => [] end)
             vectorContext in
  firstn 3
    (filterFrom
       (fun j i => (findIndex (fun x => str_eqb (title x) (title j)) arr =? i)%Z)
       0 arr).

End QueryAnswer.

(* ================================================================== *)
(** * Definitions of the statements                                     *)
(* ================================================================== *)

(** What the statements below are written with: the forms that the
    results take, the lines of a text, and the concrete inputs on which
    the functions are run. *)

Unset Implicit Arguments.

(** ** Texts of ASCII characters *)

(** A text of code units below 128: on these the case conversions above
    are those of JavaScript. *)
Definition isAscii (s : str) : bool := forallb (fun c => (c <? 128)%N) s.

(** ** Entities without duplicates *)

(** What [deduplicateEntities] stores for an entity. *)
Definition stored (e : Entity) : Entity :=
  {| name := name e; type := toUpperCase (type e) |}.

(** The entities of a list whose key is not in [seen] and not the key of
    an earlier entity of the list. *)
Fixpoint firsts (seen : list str) (l : list Entity) : list Entity :=
  match l with
  | [] => []
  | e :: l' =>
      if arr_includes seen (entityKey e) then firsts seen l'
      else e :: firsts (entityKey e :: seen) l'
  end.

(** The first entity of a list with a given key. *)
Definition firstWithKey (k : str) (l : list Entity) : option Entity :=
  find (fun x => str_eqb (entityKey x) k) l.

(** ** The scenario of the search *)

(** The sources of the rows that are not null: [plantsOf] files them by
    id. *)
Definition sourcesOf (rows : list SearchRepository.SourceRow)
  : list SearchRepository.GraphSearchResult :=
  flat_map (fun r => match SearchRepository.sr_source r with
                     | Some s => [s]
                     | None => []
                     end) rows.

Set Implicit Arguments.

(** The graph of the scenario: a plant [ginger], a condition [headache]
    of type DISEASE or SYMPTOM and an effect [analgesic], with the
    relations [ginger treats headache] and [ginger has_effect analgesic].
    The ids are the key of the table of entities. *)
Record HeadacheScenario (g : SearchRepository.Graph)
    (ginger headache analgesic : SearchRepository.GraphSearchResult)
    (treats has_effect : SearchRepository.RelationRecord) : Prop := {
  sc_key : NoDup (map SearchRepository.gs_id (SearchRepository.g_entities g));
  sc_ginger : In ginger (SearchRepository.g_entities g);
  sc_ginger_name : SearchRepository.gs_name ginger = lit "ginger";
  sc_ginger_type : SearchRepository.gs_type ginger = lit "PLANT";
  sc_headache : In headache (SearchRepository.g_entities g);
  sc_headache_name : SearchRepository.gs_name headache = lit "headache";
  sc_headache_type :
    SearchRepository.gs_type headache = lit "DISEASE" \/
    SearchRepository.gs_type headache = lit "SYMPTOM";
  sc_analgesic : In analgesic (SearchRepository.g_entities g);
  sc_analgesic_name : SearchRepository.gs_name analgesic = lit "analgesic";
  sc_analgesic_type : SearchRepository.gs_type analgesic = lit "EFFECT";
  sc_treats : In treats (SearchRepository.g_relations g);
  sc_treats_source :
    SearchRepository.rel_source_id treats = SearchRepository.gs_id ginger;
  sc_treats_relation : SearchRepository.rel_relation treats = lit "treats";
  sc_treats_target :
    SearchRepository.rel_target_id treats = SearchRepository.gs_id headache;
  sc_effect : In has_effect (SearchRepository.g_relations g);
  sc_effect_source :
    SearchRepository.rel_source_id has_effect = SearchRepository.gs_id ginger;
  sc_effect_relation : SearchRepository.rel_relation has_effect = lit "has_effect";
  sc_effect_target :
    SearchRepository.rel_target_id has_effect = SearchRepository.gs_id analgesic
}.

Unset Implicit Arguments.

(** The conditions that the store returns for the name "headache": the
    first five entities of type DISEASE or SYMPTOM whose name contains
    it. *)
Definition headacheConditions (g : SearchRepository.Graph)
  : list SearchRepository.GraphSearchResult :=
  firstn 5
    (filter (fun e => SearchRepository.ilike (SearchRepository.gs_name e)
                                             (lit "%headache%") &&
                      arr_includes (map lit ["DISEASE"; "SYMPTOM"]%string)
                                   (SearchRepository.gs_type e))
            (SearchRepository.g_entities g)).

(** The scenario on two concrete stores. *)
Module Example.

Import SearchRepository QueryService.

Definition entity (id name type : string) : GraphSearchResult :=
  {| gs_id := lit id; gs_name := lit name; gs_type := lit type |}.

Definition edge (id source relation target : string) : RelationRecord :=
  {| rel_id := lit id; rel_source_id := lit source;
     rel_relation := lit relation; rel_target_id := lit target |}.

Definition ginger : GraphSearchResult := entity "e1" "ginger" "PLANT".
Definition headache : GraphSearchResult := entity "e2" "headache" "SYMPTOM".
Definition analgesic : GraphSearchResult := entity "e3" "analgesic" "EFFECT".
Definition treats : RelationRecord := edge "r1" "e1" "treats" "e2".
Definition has_effect : RelationRecord := edge "r2" "e1" "has_effect" "e3".

(** The graph of the scenario and nothing else. *)
Definition small : Graph :=
  {| g_entities := [ginger; headache; analgesic];
     g_relations := [treats; has_effect] |}.

(** The same graph after five other conditions with "headache" in their
    names. *)
Definition crowded : Graph :=
  {| g_entities :=
       [ entity "d1" "tension headache" "DISEASE";
         entity "d2" "cluster headache" "DISEASE";
         entity "d3" "migraine headache" "DISEASE";
         entity "d4" "sinus headache" "SYMPTOM";
         entity "d5" "chronic headache" "SYMPTOM";
         ginger; headache; analgesic ];
     g_relations := [treats; has_effect] |}.

(** Collaborators that answer at once and leave the world as it is: no
    chunk is similar, the query has the one entity headache. *)
Definition noChunks (v : list Z) (k : Z) (w : unit)
  : Reply (list (VectorSearchResult Z)) * unit := (reply_ok [], w).

Definition noEmbeddings (ids : list str) (w : unit)
  : Reply (list EmbeddingRow) * unit := (reply_ok [], w).

Definition headacheEntity (q key : str) : M unit (list QueryEntity) :=
  ret [ {| qe_name := lit "headache"; qe_type := lit "SYMPTOM" |} ].

Definition embedding (q : str) : M unit (list Z) := ret [0%Z].

Definition fixedAnswer (q : str) (vs : list (VectorSearchResult Z))
    (hs : list GraphSearchResult) (rs : list GraphRelation) (key : str)
  : M unit str := ret (lit "Ginger.").

Definition run (g : Graph) : result (HybridSearchResult Z) * unit :=
  hybridSearch (graphStore g noChunks noEmbeddings) headacheEntity embedding
               fixedAnswer (lit "key") (lit "what herb for headache") 5 tt.

End Example.

(** ** The windows of createChunks *)

(** A string with a character that is not white space. *)
Definition nonblank (s : str) : bool := existsb (fun c => negb (isSpace c)) s.

(** The windows that the loop of [createChunks] visits from the
    sentence of index [i] on: [p] sentences each, [stride] apart. *)
Fixpoint windowsFrom (fuel : nat) (ss : list str) (p stride i : nat)
  : list (list str) :=
  match fuel with
  | O => []
  | S fuel' =>
      if i <? length ss then
        firstn p (skipn i ss) ::
        (if length ss <=? i + p then []
         else windowsFrom fuel' ss p stride (i + stride))
      else []
  end.

(** The chunks of a list of windows, numbered from [n]. *)
Fixpoint numbered (n : Z) (ws : list (list str)) : list UploadPage.Chunk :=
  match ws with
  | [] => []
  | w :: ws' => UploadPage.chunkOf n w :: numbered (n + 1) ws'
  end.

(** ** The normal form of a name *)

(** The length of the run of white space at the start of a string. *)
Fixpoint wsRun (s : str) : nat :=
  match s with
  | c :: s' => if isSpace c then S (wsRun s') else 0
  | [] => 0
  end.

(** Every run of white space made one space; [inrun] tells that the
    string continues a run. *)
Fixpoint collapseRuns (inrun : bool) (s : str) : str :=
  match s with
  | [] => []
  | c :: s' =>
      if isSpace c then
        if inrun then collapseRuns true s' else 32%N :: collapseRuns true s'
      else c :: collapseRuns false s'
  end.

(** A string without its last character when that is a period. *)
Fixpoint dropFinalPeriod (s : str) : str :=
  match s with
  | [] => []
  | c :: s' =>
      match s' with
      | [] => if (c =? 46)%N then [] else [c]
      | _ => c :: dropFinalPeriod s'
      end
  end.

(** The last character seen after [n] characters of [rest]. *)
Fixpoint prevAfter (n : nat) (prev : option char) (rest : str) : option char :=
  match n, rest with
  | S n', c :: rest' => prevAfter n' (Some c) rest'
  | _, _ => prev
  end.

(** No two characters of white space in a row. *)
Fixpoint noDoubleSpace (s : str) : bool :=
  match s with
  | c :: s' =>
      match s' with
      | d :: _ => negb (isSpace c && isSpace d) && noDoubleSpace s'
      | [] => true
      end
  | [] => true
  end.

Definition endsWithPeriod (s : str) : bool :=
  match rev s with
  | c :: _ => (c =? 46)%N
  | [] => false
  end.

Definition isBracket (c : char) : bool :=
  in_class f_none (map CC (lit "()[]")) c.

(** ** Concrete inputs *)

(** A paper and two lists of references. *)
Module Paper.

Definition body : str :=
  js "ABSTRACT\nGinger has been used for centuries as a remedy for nausea and pain.\nIts rhizome contains gingerol and shogaol as the main active compounds.\nSeveral trials report a reduction of headache intensity after intake.\nTurmeric is another rhizome with a long history in traditional practice.\nCurcumin is the compound to which most of its effects are attributed.\nThe evidence for both plants is strongest for mild and transient symptoms.\nMore work is needed before firm advice on dose and duration can be given.\n".

(** A short list of references: it starts in the last tenth of the
    paper. *)
Definition shortReferences : str :=
  js "REFERENCES\n1. Smith J. Ginger and health.".

(** A longer list: it starts before the last tenth. *)
Definition longReferences : str :=
  js "REFERENCES\n1. Smith J. Ginger and health.\n2. Tan L. Rhizomes in traditional practice.\n3. Okoro A. Curcumin and its effects.".

Definition shortPaper : str := body ++ shortReferences.
Definition longPaper : str := body ++ longReferences.

End Paper.

(** A page for [createChunks] and a collaborator for the batches. *)
Module Remedies.

(** A page with its marker, thirty sentences of more than ten characters
    and one ("Ok.") that is too short to count. *)
Definition page : str :=
  js "Judul: Remedies\nIsi: Remedy 1 is made of ginger. Remedy 2 is made of turmeric. Remedy 3 is made of galangal. Remedy 4 is made of lemongrass. Remedy 5 is made of clove. Remedy 6 is made of nutmeg. Remedy 7 is made of cinnamon. Remedy 8 is made of pepper! Remedy 9 is made of cardamom. Remedy 10 is made of fennel.\nRemedy 11 is made of basil. Remedy 12 is made of mint. Remedy 13 is made of sage. Remedy 14 is made of thyme. Remedy 15 is made of rosemary? Remedy 16 is made of garlic. Remedy 17 is made of onion. Remedy 18 is made of shallot. Remedy 19 is made of celery. Remedy 20 is made of parsley.  Ok. Remedy 21 is made of aloe. Remedy 22 is made of neem. Remedy 23 is made of moringa. Remedy 24 is made of guava. Remedy 25 is made of papaya. Remedy 26 is made of soursop. Remedy 27 is made of noni. Remedy 28 is made of betel. Remedy 29 is made of pandan! Remedy 30 is made of tamarind.".

Import MistralService.

(** A collaborator that counts its requests: it fails on the text
    "down", answers with an error status on "busy", and otherwise
    answers with a graph of the entity named by the text. *)
Definition answer (name : str) : value :=
  VObj [(lit "choices",
         VArr [VObj [(lit "message",
           VObj [(lit "content",
             VStr (js "{\qentities\q: [{\qname\q: \q" ++ name
                   ++ js "\q, \qtype\q: \qPLANT\q}], \qrelations\q: []}"))])]])].

Definition fetch (apiKey text : str) (w : nat) : result Response * nat :=
  if str_eqb text (lit "down") then (Throw FetchError, S w)
  else if str_eqb text (lit "busy") then
    (Ok {| ok := false; statusText := lit "Too Many Requests";
           json := Throw SyntaxError |}, S w)
  else (Ok {| ok := true; statusText := lit "OK"; json := Ok (answer text) |},
        S w).

Definition chunks : list ChunkInput :=
  [ {| id := 1; text := lit "ginger" |};
    {| id := 2; text := lit "down" |};
    {| id := 3; text := lit "turmeric" |};
    {| id := 4; text := lit "busy" |};
    {| id := 5; text := lit "galangal" |} ].

End Remedies.

(** Texts with lines that repeat. *)
Module Notes.

(** A heading before the abstract, and once more after it. *)
Definition headed : str :=
  js "Herbal remedy notes\nABSTRACT\nHerbal remedy notes\nGinger has been used for centuries as a remedy for nausea and pain.\n".

(** A line that is the name of a member of every object. *)
Definition inherited : str :=
  js "ABSTRACT\nconstructor\nGinger has been used for centuries as a remedy for nausea and pain.\nconstructor\nTurmeric is another rhizome with a long history in traditional practice.\n".

(** A running header, and a line that starts with it and goes on with
    the heading of a closing section. *)
Definition cutShort : str :=
  js "ABSTRACT\nPage header\nGinger has been used for centuries as a remedy for nausea and pain.\nPage header\nTurmeric is another rhizome with a long history in traditional practice.\nPage header CONFLICT OF INTEREST\nNone declared.\n".

(** Two repeated lines, one with carriage returns inside, and a line in
    which the other stands between carriage returns. *)
Definition separated : str :=
  js "abc\r\rdef\nabc\r\rdef\nKKKKKK\nKKKKKK\nabc\rKKKKKK\rdef".

(** A running header on each page. *)
Definition paged : str :=
  js "ABSTRACT\nPage header\nGinger has been used for centuries as a remedy for nausea and pain.\n  Page header \r\nTurmeric is another rhizome with a long history in traditional practice.\n".

End Notes.

(** ** The lines of a text and the matcher on them *)

(** The number of lines whose trimmed form is [L]. *)
Definition occurrences (L cleaned : str) : nat :=
  length (filter (fun line => str_eqb (trim line) L) (splitChar nl cleaned)).

(** The lines as the [m] flag sees them: cut at every line terminator. *)
Fixpoint tlines (s : str) : list str :=
  match s with
  | [] => [[]]
  | c :: s' =>
      if isLineTerminator c then [] :: tlines s'
      else match tlines s' with
           | l :: ls => (c :: l) :: ls
           | [] => [[c]]
           end
  end.

(** The lines of [split('\n')], without an accumulator. *)
Fixpoint nlines (s : str) : list str :=
  match s with
  | [] => [[]]
  | c :: s' =>
      if (c =? nl)%N then [] :: nlines s'
      else match nlines s' with
           | l :: ls => (c :: l) :: ls
           | [] => [[c]]
           end
  end.

(** The pattern of a literal text. *)
Fixpoint litRe (s : str) : regex :=
  match s with
  | [] => Eps
  | c :: s' => Seq (Chr c) (litRe s')
  end.

(** The syntax characters of the grammar of patterns: the fourteen
    characters that do not stand for themselves outside a class. *)
Definition isSyntaxChar (c : char) : bool :=
  in_class f_none (map CC (lit ".*+?^${}()|[]\")) c.

Definition escapeChar (c : char) : str :=
  if isSyntaxChar c then [bsl; c] else [c].

(** A position at the start of a line, a rest at the end of one. *)
Definition bolb (prev : option char) : bool :=
  match prev with None => true | Some c => isLineTerminator c end.

Definition eolb (rest : str) : bool :=
  match rest with [] => true | c :: _ => isLineTerminator c end.

(** [st'] is [st] after some characters of the input. *)
Definition ext (st st' : mstate) : Prop :=
  exists mid, m_rest st = mid ++ m_rest st' /\ m_pos st' = m_pos st + length mid.

(** The property of a matcher: it succeeds through its continuation, at
    a state further on in the input. *)
Definition reaching
    (m : mstate -> (mstate -> option mstate) -> option mstate) : Prop :=
  forall st k x, m st k = Some x -> exists st', ext st st' /\ k st' = Some x.

(** A line is in order for a pattern [r] and a property [Q] when it has
    the property, or when it is matched, and passed over, wherever it
    starts a line. *)
Definition good (r : regex) (Q : str -> Prop) (h : str) : Prop :=
  Q h \/
  forall prev rest2 pos,
    bolb prev = true -> eolb rest2 = true ->
    exists st, exec_at f_m r prev (h ++ rest2) pos = Some st /\ pos < m_pos st.

(** No match that is not empty at this position. *)
Definition nomatch (r : regex) (prev : option char) (rest : str) (pos : nat)
  : bool :=
  match exec_at f_m r prev rest pos with
  | Some st => m_pos st <=? pos
  | None => true
  end.

Definition isSpaces (s : str) : Prop := Forall (fun c => isSpace c = true) s.

(** A trimmed text has no white space at either end. *)
Definition trimmed (L : str) : Prop :=
  trimStart L = L /\ trimStart (rev L) = rev L.

(** The entry of a line seen [n] times. *)
Definition counted (n : nat) : option freq :=
  match n with 0 => None | S _ => Some (Count n) end.

(** ** First occurrences *)

(** The key of [deduplicateRelations]:
    [`${relation.source}|${relation.relation}|${relation.target}`]. *)
Definition relationKey (rel : Relation) : str :=
  source rel ++ lit "|" ++ relation rel ++ lit "|" ++ target rel.

(** The elements of a list whose key is not in [seen] and not the key of
    an earlier element. *)
Fixpoint firstsBy {A} (key : A -> str) (seen : list str) (l : list A) : list A :=
  match l with
  | [] => []
  | x :: l' =>
      if arr_includes seen (key x) then firstsBy key seen l'
      else x :: firstsBy key (key x :: seen) l'
  end.

(** [a] is [b] without some of its elements, the others in their order. *)
Inductive Subseq {A} : list A -> list A -> Prop :=
| Subseq_nil : Subseq [] []
| Subseq_skip x a b : Subseq a b -> Subseq a (x :: b)
| Subseq_keep x a b : Subseq a b -> Subseq (x :: a) (x :: b).

(** ** The graph of a chunk *)

(** A name that some entity of the list has, up to normalisation. *)
Definition knownName (es : list value) (s : str) : Prop :=
  exists e n, In e es /\ get e "name" = Ok (VStr n) /\
              normalizeEntityName n = normalizeEntityName s.

(** A relation whose source and target are names of entities of the
    list. *)
Definition endpointsKnown (es : list value) (rel : value) : Prop :=
  exists src tgt,
    get rel "source" = Ok (VStr src) /\ get rel "target" = Ok (VStr tgt) /\
    knownName es src /\ knownName es tgt.

(** What holds of every graph that the extraction returns for a chunk. *)
Definition wellFormedGraph (chunk : MistralService.ChunkInput)
    (g : MistralService.GraphExtractionResult) : Prop :=
  MistralService.chunkId g = MistralService.id chunk /\
  length (MistralService.entities g) <= 15 /\
  Forall (fun e => MistralService.filterEntityValue e = Ok true)
         (MistralService.entities g) /\
  Forall (endpointsKnown (MistralService.entities g))
         (MistralService.relations g).

(** The target types of the relations that [getHerbCompoundsAndEffects]
    keeps. *)
Definition therapeuticTypes : list str :=
  map lit ["COMPOUND"; "EFFECT"; "DISEASE"]%string.

(** A character that may stay in the name of a stored file: a letter a
    to z or A to Z, a digit, the period, the underscore or the hyphen. *)
Definition safeChar (c : char) : bool :=
  isLower c || isUpper c || isDigit c ||
  ((c =? 46) || (c =? 95) || (c =? 45))%N.

(** The state of a match after the characters of [rest] that satisfy
    [p]. *)
Fixpoint passWhile (p : char -> bool) (st : mstate) (rest : str) : mstate :=
  match rest with
  | c :: rest' => if p c then passWhile p (advance st c rest') rest' else st
  | [] => st
  end.

(** A chunk of the result and the row of the similarity search that it
    comes from: they differ by the journal at most. *)
Definition sameChunk {Number : Type}
    (x row : SearchRepository.VectorSearchResult Number) : Prop :=
  SearchRepository.vs_id x = SearchRepository.vs_id row /\
  SearchRepository.vs_text x = SearchRepository.vs_text row /\
  SearchRepository.vs_journal_id x = SearchRepository.vs_journal_id row /\
  SearchRepository.vs_similarity x = SearchRepository.vs_similarity row.

(** The row that [insertEntities] prepares for an entity. *)
Definition prepared (entity : Entity) : Entity :=
  {| name := trim (name entity); type := toUpperCase (type entity) |}.

(** A name that the rows of the store know: a row has its normalised
    name, which holds no bar. *)
Definition fetchedName (table : list JournalRepository.EntityRow) (n : str) : Prop :=
  ~ In 124%N (normalizeEntityName n) /\
  exists e, In e table /\
            normalizeEntityName (JournalRepository.row_name e) = normalizeEntityName n.

(** A journal of two chunks, and a store that keeps the names of the
    tables written. *)
Module Saving.

Import SearchRepository JournalRepository.

Definition stringify (v : list Z) : str := lit "[]".

Definition twoChunks : list Chunk :=
  [ {| id := 1; text := lit "Ginger treats headache."; wordCount := 3 |};
    {| id := 2; text := lit "Ginger has gingerol."; wordCount := 3 |} ].

Definition twoVectors : list (VectorResult Z) :=
  [ {| v_chunkId := 2; vector := [0%Z]; dimension := 1 |};
    {| v_chunkId := 1; vector := [1%Z]; dimension := 1 |} ].

Definition oneGraph : list GraphResult :=
  [ {| chunkId := 1;
       entities := [ {| name := lit " Ginger"; type := lit "Plant" |};
                     {| name := lit "headache"; type := lit "symptom" |} ];
       relations := [ {| source := lit "ginger"; relation := lit "treats ";
                         target := lit "Headache" |} ] |} ].

Definition table : list EntityRow :=
  [ {| row_id := lit "e1"; row_name := lit "Ginger"; row_type := lit "PLANT" |};
    {| row_id := lit "e2"; row_name := lit "headache"; row_type := lit "SYMPTOM" |} ].

Definition store : Store (list string) unit :=
  {| insert_journal := fun _ w => (reply_ok (lit "j1"), w ++ ["journals"%string]);
     insert_embeddings := fun rows w =>
       (reply_ok (map (fun _ => tt) rows), w ++ ["embeddings"%string]);
     upsert_entities := fun rows w =>
       (reply_ok (map (fun _ => tt) rows), w ++ ["entities"%string]);
     select_entities := fun w => (reply_ok table, w);
     upsert_relations := fun rows w =>
       (reply_ok (map (fun _ => tt) rows), w ++ ["relations"%string]) |}.

Definition params (vectors : list (VectorResult Z)) : SaveToDbParams Z :=
  {| metadata := {| title := lit "Ginger"; author := lit "A"; year := [] |};
     fileUrl := lit "u";
     chunks := twoChunks;
     vectors := vectors;
     graphs := oneGraph |}.

End Saving.

(** The journals of the chunks that have one. *)
Definition journalsOfContext {Number : Type}
    (vectorContext : list (SearchRepository.VectorSearchResult Number))
  : list SearchRepository.Journal :=
  flat_map (fun c => match SearchRepository.vs_journal c with
                     | Some j => [j]
                     | None => []
                     end) vectorContext.

(** An entity of a query as the extraction returns it: its name and its
    type are there and are not falsy. *)
Definition namedAndTyped (e : value) : Prop :=
  exists n t, get e "name" = Ok n /\ truthy n = true /\
              get e "type" = Ok t /\ truthy t = true.

(** Collaborators of the examples: an extraction that finds no entity, a
    similarity search that reports an error, a request that is refused. *)
Definition noEntity (q key : str)
  : SearchRepository.M unit (list QueryService.QueryEntity) :=
  SearchRepository.ret [].

Definition failingChunks (v : list Z) (k : Z) (w : unit)
  : SearchRepository.Reply (list (SearchRepository.VectorSearchResult Z)) * unit :=
  ({| SearchRepository.data := None; SearchRepository.error := true |}, w).

Definition refused (apiKey query : str) (w : unit)
  : result MistralService.Response * unit :=
  (Ok {| MistralService.ok := false;
         MistralService.statusText := lit "Unauthorized";
         MistralService.json := Ok VNull |}, w).

(** The sum of the lengths of the lines, each with its line feed. *)
Definition weight (l : list str) : nat :=
  fold_right (fun x n => S (length x + n)) 0 l.

(** [new RegExp(source)] on the sources whose reading needs no more of
    the grammar of patterns: a character that is not a syntax character
    stands for itself, and so does a syntax character after a backslash
    (an identity escape).  [None] for every other source: one with a
    syntax character that has no backslash, with a backslash before
    another character (a class escape, a control escape, a back
    reference) or with a backslash at its end. *)
Fixpoint literalSource (source : str) : option regex :=
  match source with
  | [] => Some Eps
  | c :: rest =>
      if (c =? bsl)%N then
        match rest with
        | x :: rest' =>
            if isSyntaxChar x
            then option_map (Seq (Chr x)) (literalSource rest')
            else None
        | [] => None
        end
      else if isSyntaxChar c then None
      else option_map (Seq (Chr c)) (literalSource rest)
  end.

(** Two ways from ginger to headache, and two chunks found for a query,
    the first of a known journal. *)
Module Found.

Import SearchRepository.

Definition twoWays : Graph :=
  {| g_entities := [Example.ginger; Example.headache; Example.analgesic];
     g_relations := [ Example.treats;
                      Example.edge "r3" "e1" "reduces" "e2";
                      Example.has_effect ] |}.

Definition twoRows : list (VectorSearchResult Z) :=
  [ {| vs_id := lit "c1"; vs_text := lit "Ginger treats headache.";
       vs_journal_id := lit "j1"; vs_similarity := 9%Z; vs_journal := None |};
    {| vs_id := lit "c2"; vs_text := lit "Ginger has gingerol.";
       vs_journal_id := lit "j2"; vs_similarity := 7%Z; vs_journal := None |} ].

Definition chunks (v : list Z) (k : Z) (w : unit)
  : Reply (list (VectorSearchResult Z)) * unit := (reply_ok twoRows, w).

Definition embeddings (ids : list str) (w : unit)
  : Reply (list EmbeddingRow) * unit :=
  (reply_ok [ {| er_id := lit "c1";
                 er_journal := Some {| title := lit "Rhizomes";
                                       author := lit "Tan L.";
                                       year := lit "2020" |} |} ], w).

End Found.

(* ================================================================== *)
(** * Properties                                                        *)
(* ================================================================== *)

(** ** Strings and containers *)

Lemma str_eqb_eq (a b : str) : str_eqb a b = true <-> a = b.
Proof.
  revert b; induction a as [|x a IH]; intros [|y b]; simpl; split;
    try congruence; try reflexivity.
  - intros H. apply andb_true_iff in H as [H1 H2].
    apply N.eqb_eq in H1. apply IH in H2. congruence.
  - intros H. inversion H; subst. rewrite N.eqb_refl. simpl. now apply IH.
Qed.

Lemma str_eqb_refl (a : str) : str_eqb a a = true.
Proof. now apply str_eqb_eq. Qed.

Lemma str_eqb_neq (a b : str) : str_eqb a b = false <-> a <> b.
Proof.
  split.
  - intros H E. apply str_eqb_eq in E. congruence.
  - intros H. destruct (str_eqb a b) eqn:E; [|reflexivity].
    apply str_eqb_eq in E. contradiction.
Qed.

Lemma arr_includes_In (l : list str) (s : str) :
  arr_includes l s = true <-> In s l.
Proof.
  unfold arr_includes. rewrite existsb_exists. split.
  - intros [x [Hx E]]. apply str_eqb_eq in E. now subst.
  - intros H. exists s. split; [assumption|apply str_eqb_refl].
Qed.

Lemma set_has_In (s : JsSet) (x : str) : set_has s x = true <-> In x s.
Proof. apply arr_includes_In. Qed.

Lemma set_of_acc_In (l : list str) (acc : JsSet) (x : str) :
  In x (fold_left set_add l acc) <-> In x acc \/ In x l.
Proof.
  revert acc; induction l as [|y l IH]; intros acc; simpl.
  - tauto.
  - rewrite IH. unfold set_add.
    destruct (set_has acc y) eqn:E.
    + apply set_has_In in E. split; [tauto|]. intros [H|[H|H]]; subst; tauto.
    + rewrite in_app_iff. simpl. tauto.
Qed.

Lemma set_of_In (l : list str) (x : str) : In x (set_of l) <-> In x l.
Proof. unfold set_of. rewrite set_of_acc_In. simpl. tauto. Qed.

Lemma truthy_str_nonempty (s : str) : truthy_str s = true <-> s <> [].
Proof. destruct s; simpl; split; congruence. Qed.

Lemma lowerChar_upperChar (c : char) : lowerChar (upperChar c) = lowerChar c.
Proof.
  unfold lowerChar, upperChar, isUpper, isLower, in_range.
  destruct (97 <=? c)%N eqn:A; destruct (c <=? 122)%N eqn:B; simpl;
    destruct (65 <=? c)%N eqn:C; destruct (c <=? 90)%N eqn:D; simpl;
    try reflexivity;
    try (apply N.leb_le in A); try (apply N.leb_le in B);
    try (apply N.leb_le in C); try (apply N.leb_le in D);
    try (apply N.leb_gt in A); try (apply N.leb_gt in B);
    try (apply N.leb_gt in C); try (apply N.leb_gt in D);
    try lia;
    destruct (65 <=? c - 32)%N eqn:E; destruct (c - 32 <=? 90)%N eqn:F; simpl;
    try (apply N.leb_le in E); try (apply N.leb_le in F);
    try (apply N.leb_gt in E); try (apply N.leb_gt in F); lia.
Qed.

Lemma toLowerCase_toUpperCase (s : str) :
  isAscii s = true -> toLowerCase (toUpperCase s) = toLowerCase s.
Proof.
  intros _. unfold toLowerCase, toUpperCase. rewrite map_map.
  apply map_ext. apply lowerChar_upperChar.
Qed.

(** ** C4: filterRelationsByEntities *)

(** C4.  [filterRelationsByEntities] keeps a relation if and only if its
    [source], [relation] and [target] are all non-empty and the
    normalised [source] and the normalised [target] are both among the
    normalised names of the valid entities (whatever their types); so no
    relation with a missing endpoint is in the output.  The output is
    the input filtered, in the input's order. *)
Theorem filterRelationsByEntities_keeps_iff
    (relations : list Relation) (validEntities : list Entity) (rel : Relation) :
  let names := map (fun e => normalizeEntityName (name e)) validEntities in
  In rel (filterRelationsByEntities relations validEntities) <->
  In rel relations /\
  source rel <> [] /\ relation rel <> [] /\ target rel <> [] /\
  In (normalizeEntityName (source rel)) names /\
  In (normalizeEntityName (target rel)) names.
Proof.
  intros names. unfold filterRelationsByEntities. rewrite filter_In.
  fold names. rewrite <- !truthy_str_nonempty.
  destruct (truthy_str (source rel)), (truthy_str (relation rel)),
           (truthy_str (target rel)); simpl;
    rewrite ?andb_true_iff, ?set_has_In, ?set_of_In; intuition congruence.
Qed.

(** ** C7: parseJSONResponse on the two examples *)

(** C7.  [parseJSONResponse] repairs and parses the two examples: a
    fenced block with a trailing comma gives the object [{a: 1}], and an
    object cut short after [[1,2] gives [{a: "x", b: [1, 2]}], the
    closing bracket and the closing brace being added. *)
Theorem parseJSONResponse_examples :
  parseJSONResponse (js "```json\n{\qa\q:1,}\n```")
    = Ok (VObj [(lit "a", VNum 1 0)]) /\
  parseJSONResponse (js "{\qa\q: \qx\q, \qb\q: [1,2")
    = Ok (VObj [(lit "a", VStr (lit "x"));
                (lit "b", VArr [VNum 1 0; VNum 2 0])]).
Proof. split; vm_compute; reflexivity. Qed.

(** ** C5: deduplicateEntities *)

Lemma map_has_In {V} (m : JsMap V) (k : str) :
  map_has m k = true <-> In k (map fst m).
Proof.
  induction m as [|[k' v] m IH]; simpl.
  - split; [discriminate|tauto].
  - rewrite orb_true_iff, IH, str_eqb_eq. split; intros [H|H]; auto.
Qed.

Lemma map_set_fresh {V} (m : JsMap V) (k : str) (v : V) :
  map_has m k = false -> map_set m k v = m ++ [(k, v)].
Proof.
  induction m as [|[k' v'] m IH]; simpl; intros H.
  - reflexivity.
  - apply orb_false_iff in H as [H1 H2]. rewrite H1. now rewrite IH.
Qed.

Lemma firsts_ext (seen seen' : list str) (l : list Entity) :
  (forall k, In k seen <-> In k seen') -> firsts seen l = firsts seen' l.
Proof.
  revert seen seen'; induction l as [|e l IH]; intros seen seen' H; simpl.
  - reflexivity.
  - assert (E : arr_includes seen (entityKey e) = arr_includes seen' (entityKey e)).
    { destruct (arr_includes seen (entityKey e)) eqn:A;
      destruct (arr_includes seen' (entityKey e)) eqn:B; try reflexivity.
      - apply arr_includes_In in A. apply H in A. apply arr_includes_In in A.
        congruence.
      - apply arr_includes_In in B. apply H in B. apply arr_includes_In in B.
        congruence. }
    rewrite E. destruct (arr_includes seen' (entityKey e)).
    + now apply IH.
    + f_equal. apply IH. intros k. simpl. rewrite H. tauto.
Qed.

Lemma dedup_fold (l : list Entity) (m : JsMap Entity) :
  fold_left dedupStep l m =
  m ++ map (fun e => (entityKey e, stored e)) (firsts (map fst m) l).
Proof.
  revert m; induction l as [|e l IH]; intros m; simpl.
  - now rewrite app_nil_r.
  - unfold dedupStep at 2.
    destruct (map_has m (entityKey e)) eqn:E; simpl.
    + assert (A : arr_includes (map fst m) (entityKey e) = true).
      { apply arr_includes_In. now apply map_has_In. }
      rewrite A. apply IH.
    + assert (A : arr_includes (map fst m) (entityKey e) = false).
      { destruct (arr_includes (map fst m) (entityKey e)) eqn:B; [|reflexivity].
        apply arr_includes_In in B. apply map_has_In in B. congruence. }
      rewrite A. rewrite map_set_fresh by assumption. rewrite IH.
      rewrite <- app_assoc. simpl. do 3 f_equal.
      apply firsts_ext. intros k. rewrite map_app, in_app_iff. simpl. tauto.
Qed.

Lemma deduplicateEntities_firsts (entities : list Entity) :
  deduplicateEntities entities = map stored (firsts [] entities).
Proof.
  unfold deduplicateEntities, map_values. rewrite dedup_fold. simpl.
  rewrite map_map. reflexivity.
Qed.

Lemma firsts_keys (seen : list str) (l : list Entity) (e : Entity) :
  In e (firsts seen l) -> In e l /\ ~ In (entityKey e) seen.
Proof.
  revert seen; induction l as [|x l IH]; intros seen; simpl.
  - tauto.
  - destruct (arr_includes seen (entityKey x)) eqn:A.
    + intros H. apply IH in H. tauto.
    + intros [H|H].
      * subst. split; [auto|]. intros B. apply arr_includes_In in B. congruence.
      * apply IH in H. simpl in H. tauto.
Qed.

Lemma firsts_NoDup (seen : list str) (l : list Entity) :
  NoDup (map entityKey (firsts seen l)).
Proof.
  revert seen; induction l as [|x l IH]; intros seen; simpl.
  - constructor.
  - destruct (arr_includes seen (entityKey x)); [apply IH|].
    simpl. constructor; [|apply IH].
    intros H. apply in_map_iff in H as [y [E Hy]].
    apply firsts_keys in Hy as [_ Hy]. apply Hy. simpl. now left.
Qed.

Lemma firsts_first (seen : list str) (l : list Entity) (e : Entity) :
  In e l -> ~ In (entityKey e) seen ->
  exists f, firstWithKey (entityKey e) l = Some f /\ In f (firsts seen l).
Proof.
  revert seen; induction l as [|x l IH]; intros seen; simpl; [tauto|].
  intros Hin Hseen.
  destruct (str_eqb (entityKey x) (entityKey e)) eqn:E.
  - exists x. split; [reflexivity|]. apply str_eqb_eq in E.
    destruct (arr_includes seen (entityKey x)) eqn:A.
    + apply arr_includes_In in A. rewrite E in A. contradiction.
    + now left.
  - destruct Hin as [Hin|Hin]; [subst; rewrite str_eqb_refl in E; discriminate|].
    apply str_eqb_neq in E.
    destruct (arr_includes seen (entityKey x)) eqn:A.
    + now apply IH.
    + destruct (IH (entityKey x :: seen) Hin) as [f [F1 F2]].
      * simpl. intros [B|B]; [congruence|contradiction].
      * exists f. split; [assumption|now right].
Qed.

Lemma firsts_is_first (seen : list str) (l : list Entity) (e : Entity) :
  In e (firsts seen l) -> firstWithKey (entityKey e) l = Some e.
Proof.
  revert seen; induction l as [|x l IH]; intros seen; simpl; [tauto|].
  destruct (arr_includes seen (entityKey x)) eqn:A.
  - intros H. destruct (str_eqb (entityKey x) (entityKey e)) eqn:E.
    + apply str_eqb_eq in E. apply firsts_keys in H as [_ H].
      apply arr_includes_In in A. rewrite E in A. contradiction.
    + now apply IH in H.
  - intros [H|H].
    + subst. now rewrite str_eqb_refl.
    + destruct (str_eqb (entityKey x) (entityKey e)) eqn:E.
      * apply str_eqb_eq in E. apply firsts_keys in H as [_ H].
        exfalso. apply H. simpl. now left.
      * now apply IH in H.
Qed.

Lemma entityKey_stored (e : Entity) :
  isAscii (type e) = true -> entityKey (stored e) = entityKey e.
Proof.
  intros H. unfold entityKey, stored. simpl.
  now rewrite toLowerCase_toUpperCase.
Qed.

(** Two entities with different pairs of normalised name and lower-cased
    type, but the same key: the second is taken for a duplicate of the
    first, and no element of the output has its pair. *)
Lemma deduplicateEntities_pairs_merged :
  let first := {| name := lit "a|b"; type := lit "c" |} in
  let second := {| name := lit "a"; type := lit "b|c" |} in
  let pair (e : Entity) := (normalizeEntityName (name e), toLowerCase (type e)) in
  pair first <> pair second /\
  entityKey first = entityKey second /\
  deduplicateEntities [first; second] = [ {| name := lit "a|b"; type := lit "C" |} ] /\
  ~ In (pair second) (map pair (deduplicateEntities [first; second])).
Proof.
  vm_compute. split; [discriminate|]. split; [reflexivity|].
  split; [reflexivity|]. intros [H|[]]. discriminate.
Qed.

(** C5 (amended).  The key of [deduplicateEntities] is one string: the
    normalised name, a bar and the lower-cased type.  For each key of
    the input the first entity with that key wins: the output holds, for
    it and for no other entity of that key, an element with its original
    name and its type in upper case.  When the types of the input are
    ASCII texts, no two elements of the output have the same key, nor
    the same pair of normalised name and lower-cased type. *)
Theorem deduplicateEntities_first_wins (entities : list Entity) :
  let out := deduplicateEntities entities in
  (Forall (fun e => isAscii (type e) = true) entities ->
   NoDup (map entityKey out) /\
   NoDup (map (fun o => (normalizeEntityName (name o), toLowerCase (type o))) out)) /\
  (forall e, In e entities ->
     exists f, firstWithKey (entityKey e) entities = Some f /\
               In {| name := name f; type := toUpperCase (type f) |} out) /\
  (forall o, In o out ->
     exists f, In f entities /\
               firstWithKey (entityKey f) entities = Some f /\
               o = {| name := name f; type := toUpperCase (type f) |}).
Proof.
  intros out. subst out. rewrite deduplicateEntities_firsts.
  split; [|split].
  - intros A.
    assert (K : NoDup (map entityKey (map stored (firsts [] entities)))).
    { rewrite map_map.
      rewrite (map_ext_in _ entityKey).
      - apply firsts_NoDup.
      - intros e He. apply entityKey_stored.
        apply firsts_keys in He as [He _].
        rewrite Forall_forall in A. now apply A. }
    split; [exact K|].
    (* equal pairs give equal keys *)
    revert K. generalize (map stored (firsts [] entities)) as l.
    induction l as [|o l IH]; simpl; intros K; [constructor|].
    inversion K as [|? ? K1 K2]; subst. constructor; [|now apply IH].
    intros H. apply K1. apply in_map_iff in H as [o' [E Ho']].
    apply in_map_iff. exists o'. split; [|assumption].
    unfold entityKey. now inversion E.
  - intros e He.
    destruct (firsts_first [] entities e He) as [f [F1 F2]]; [simpl; tauto|].
    exists f. split; [assumption|].
    apply in_map_iff. exists f. split; [reflexivity|assumption].
  - intros o Ho. apply in_map_iff in Ho as [f [E Hf]].
    exists f. split; [|split].
    + now apply firsts_keys in Hf.
    + now apply firsts_is_first in Hf.
    + now subst.
Qed.

Lemma deduplicateEntities_first_wins_witness :
  let entities := [ {| name := lit "Ginger"; type := lit "plant" |};
                    {| name := lit "ginger "; type := lit "PLANT" |};
                    {| name := lit "Headache"; type := lit "Symptom" |} ] in
  deduplicateEntities entities
    = [ {| name := lit "Ginger"; type := lit "PLANT" |};
        {| name := lit "Headache"; type := lit "SYMPTOM" |} ] /\
  NoDup (map entityKey (deduplicateEntities entities)).
Proof.
  split; [vm_compute; reflexivity|].
  apply (proj1 (deduplicateEntities_first_wins
                  [ {| name := lit "Ginger"; type := lit "plant" |};
                    {| name := lit "ginger "; type := lit "PLANT" |};
                    {| name := lit "Headache"; type := lit "Symptom" |} ])).
  repeat constructor.
Defined.

(** ** C10: the invariants of the result of hybridSearch *)

Section HybridSearchFacts.

Import SearchRepository QueryService.

Variable Number : Type.
Variable World : Type.

Lemma bindM_Ok {A B} (m : M World A) (f : A -> M World B) w b w' :
  bindM m f w = (Ok b, w') ->
  exists a w1, m w = (Ok a, w1) /\ f a w1 = (Ok b, w').
Proof.
  unfold bindM. destruct (m w) as [[a|e] w1]; intros H.
  - now exists a, w1.
  - discriminate.
Qed.

Lemma ret_Ok {A} (a b : A) (w w' : World) :
  ret a w = (Ok b, w') -> a = b /\ w = w'.
Proof. unfold ret. intros H. inversion H. auto. Qed.

(** The keys of a map filled by [m.set(key(x), x)] are distinct and
    each is the key of its value. *)
Lemma map_set_keys {V} (m : JsMap V) (k : str) (v : V) :
  map fst (map_set m k v) = if map_has m k then map fst m else map fst m ++ [k].
Proof.
  induction m as [|[k' v'] m IH]; simpl; [reflexivity|].
  destruct (str_eqb k k') eqn:E; simpl; [reflexivity|].
  rewrite IH. now destruct (map_has m k).
Qed.

Lemma map_set_NoDup {V} (m : JsMap V) (k : str) (v : V) :
  NoDup (map fst m) -> NoDup (map fst (map_set m k v)).
Proof.
  intros H. rewrite map_set_keys.
  destruct (map_has m k) eqn:E; [assumption|].
  apply NoDup_app; [assumption|repeat constructor; simpl; tauto|].
  intros x Hx [Hk|[]]. subst.
  apply map_has_In in Hx. congruence.
Qed.

Lemma map_set_values {V} (key : V -> str) (m : JsMap V) (v : V) :
  (forall e, In e m -> fst e = key (snd e)) ->
  forall e, In e (map_set m (key v) v) -> fst e = key (snd e).
Proof.
  induction m as [|[k' v'] m IH]; simpl; intros H e.
  - intros [<-|[]]. reflexivity.
  - destruct (str_eqb (key v) k') eqn:E; simpl.
    + apply str_eqb_eq in E. intros [<-|He]; [now simpl|]. apply H. now right.
    + intros [<-|He]; [apply (H (k', v')); now left|].
      apply IH; [|assumption]. intros e' He'. apply H. now right.
Qed.

Lemma fill_by_key_inv {V} (key : V -> str) (l : list V) (m : JsMap V) :
  NoDup (map fst m) -> (forall e, In e m -> fst e = key (snd e)) ->
  let m' := fold_left (fun m x => map_set m (key x) x) l m in
  NoDup (map fst m') /\ (forall e, In e m' -> fst e = key (snd e)).
Proof.
  revert m; induction l as [|x l IH]; intros m H1 H2; simpl.
  - auto.
  - apply IH; [now apply map_set_NoDup|now apply map_set_values].
Qed.

Lemma uniqueById_NoDup (herbs : list GraphSearchResult) :
  NoDup (map gs_id (uniqueById herbs)).
Proof.
  unfold uniqueById, map_values.
  destruct (fill_by_key_inv gs_id herbs []) as [H1 H2];
    [constructor|simpl; tauto|].
  rewrite map_map.
  rewrite (map_ext_in (fun x => gs_id (snd x)) fst); [assumption|].
  intros e He. symmetry. now apply H2.
Qed.

Variable supabase : Supabase Number World.
Variable extractQueryEntities : str -> str -> M World (list QueryEntity).
Variable embed : str -> M World (list Number).
Variable generateAnswer :
  str -> list (VectorSearchResult Number) -> list GraphSearchResult ->
  list GraphRelation -> str -> M World str.
Variable apiKey : str.

(** What a result of [hybridSearch] is made of. *)
Lemma hybridSearch_result (q : str) (topK : Z) (w w' : World)
    (res : HybridSearchResult Number) :
  hybridSearch supabase extractQueryEntities embed generateAnswer apiKey q topK w
    = (Ok res, w') ->
  exists qes w1 found w2 relations w3,
    extractQueryEntities q apiKey w = (Ok qes, w1) /\
    forEachM (searchEntity supabase) qes ([], []) w2 = (Ok found, w3) /\
    (exists w4 w5,
        getHerbCompoundsAndEffects supabase
          (map gs_id (uniqueById (fst found))) w4 = (Ok relations, w5)) /\
    graphResults res =
      {| herbs := uniqueById (fst found);
         compounds := filter (fun r => str_eqb (gs_type (gr_target r)) (lit "COMPOUND")) relations;
         effects := filter (fun r => str_eqb (gs_type (gr_target r)) (lit "EFFECT")) relations;
         allRelations := relations |} /\
    summary res =
      {| totalChunks := length (vectorResults res);
         totalHerbs := length (uniqueById (fst found));
         totalCompounds := length (filter (fun r => str_eqb (gs_type (gr_target r)) (lit "COMPOUND")) relations);
         totalEffects := length (filter (fun r => str_eqb (gs_type (gr_target r)) (lit "EFFECT")) relations) |}.
Proof.
  unfold hybridSearch. intros H.
  apply bindM_Ok in H as (qes & w1 & Hq & H).
  apply bindM_Ok in H as (qv & w2 & Hv & H).
  apply bindM_Ok in H as (vr & w3 & Hvr & H).
  apply bindM_Ok in H as (vr' & w4 & Hvr' & H).
  apply bindM_Ok in H as (found & w5 & Hf & H).
  apply bindM_Ok in H as (rels & w6 & Hr & H).
  apply bindM_Ok in H as (ans & w7 & Ha & H).
  apply ret_Ok in H as [H _]. subst res. simpl.
  exists qes, w1, found, w4, rels, w5. repeat split; try assumption.
  now exists w5, w6.
Qed.

End HybridSearchFacts.

(** C10.  In every result of [hybridSearch] the counts of the summary
    are the lengths of the lists returned; [compounds] and [effects] are
    the relations of [allRelations] whose target has the type "COMPOUND",
    respectively "EFFECT", so that a relation with a target of type
    "DISEASE" is in [allRelations] only; and no two herbs have the same
    id. *)
Theorem hybridSearch_invariants
    (Number World : Type)
    (supabase : SearchRepository.Supabase Number World)
    (extractQueryEntities : str -> str -> SearchRepository.M World (list QueryService.QueryEntity))
    (embed : str -> SearchRepository.M World (list Number))
    (generateAnswer :
       str -> list (SearchRepository.VectorSearchResult Number) ->
       list SearchRepository.GraphSearchResult ->
       list SearchRepository.GraphRelation -> str -> SearchRepository.M World str)
    (apiKey q : str) (topK : Z) (w w' : World)
    (res : QueryService.HybridSearchResult Number) :
  QueryService.hybridSearch supabase extractQueryEntities embed generateAnswer
                            apiKey q topK w = (Ok res, w') ->
  let g := QueryService.graphResults res in
  let s := QueryService.summary res in
  let targetType r := SearchRepository.gs_type (SearchRepository.gr_target r) in
  QueryService.totalChunks s = length (QueryService.vectorResults res) /\
  QueryService.totalHerbs s = length (QueryService.herbs g) /\
  QueryService.totalCompounds s = length (QueryService.compounds g) /\
  QueryService.totalEffects s = length (QueryService.effects g) /\
  QueryService.compounds g =
    filter (fun r => str_eqb (targetType r) (lit "COMPOUND"))
           (QueryService.allRelations g) /\
  QueryService.effects g =
    filter (fun r => str_eqb (targetType r) (lit "EFFECT"))
           (QueryService.allRelations g) /\
  (forall r, In r (QueryService.allRelations g) ->
             targetType r = lit "DISEASE" ->
             ~ In r (QueryService.compounds g) /\
             ~ In r (QueryService.effects g)) /\
  NoDup (map SearchRepository.gs_id (QueryService.herbs g)).
Proof.
  intros H.
  apply hybridSearch_result in H
    as (qes & w1 & found & w2 & rels & w3 & _ & _ & _ & Hg & Hs).
  cbv zeta. rewrite Hg, Hs. simpl.
  repeat split; try reflexivity.
  - intros Hin. apply filter_In in Hin as [_ Hin]. rewrite H0 in Hin.
    vm_compute in Hin. discriminate.
  - intros Hin. apply filter_In in Hin as [_ Hin]. rewrite H0 in Hin.
    vm_compute in Hin. discriminate.
  - apply uniqueById_NoDup.
Qed.

(** ** C1: the persisted graph of the scenario *)

Section GraphStoreFacts.

Import SearchRepository QueryService.

Lemma map_set_In_new {V} (m : JsMap V) (k : str) (v : V) :
  In (k, v) (map_set m k v).
Proof.
  induction m as [|[k' v'] m IH]; simpl; [now left|].
  destruct (str_eqb k k') eqn:E.
  - apply str_eqb_eq in E. subst. now left.
  - now right.
Qed.

Lemma map_set_In_other {V} (m : JsMap V) (k k' : str) (v v' : V) :
  k' <> k -> In (k', v') m -> In (k', v') (map_set m k v).
Proof.
  intros Hne. induction m as [|[k0 v0] m IH]; simpl; [tauto|].
  intros [H|H].
  - inversion H; subst. destruct (str_eqb k k') eqn:E.
    + apply str_eqb_eq in E. congruence.
    + now left.
  - destruct (str_eqb k k0); [now right|]. right. now apply IH.
Qed.

(** An element whose key no different element of the list shares stays
    in a map filled by key. *)
Lemma fill_by_key_In {V} (key : V -> str) (l : list V) (m : JsMap V) (h : V) :
  (forall x, In x l -> key x = key h -> x = h) ->
  In (key h, h) m \/ In h l ->
  In (key h, h) (fold_left (fun m x => map_set m (key x) x) l m).
Proof.
  revert m; induction l as [|x l IH]; intros m Hu Hin; simpl.
  - destruct Hin as [H|[]]. assumption.
  - apply IH.
    + intros y Hy. apply Hu. now right.
    + destruct (str_eqb (key x) (key h)) eqn:E.
      * apply str_eqb_eq in E. left.
        rewrite (Hu x (or_introl eq_refl) E). apply map_set_In_new.
      * apply str_eqb_neq in E. destruct Hin as [H|[H|H]].
        -- left. apply map_set_In_other; [congruence|assumption].
        -- subst. congruence.
        -- now right.
Qed.

Lemma uniqueById_In (herbs : list GraphSearchResult) (h : GraphSearchResult) :
  (forall x, In x herbs -> gs_id x = gs_id h -> x = h) ->
  In h herbs -> In h (uniqueById herbs).
Proof.
  intros Hu Hin. unfold uniqueById, map_values.
  apply in_map_iff. exists (gs_id h, h). split; [reflexivity|].
  apply fill_by_key_In; auto.
Qed.

Lemma plantsOf_fill (rows : list SourceRow) (m : JsMap GraphSearchResult) :
  fold_left
    (fun plantsMap rel =>
       match sr_source rel with
       | Some source => map_set plantsMap (gs_id source) source
       | None => plantsMap
       end) rows m =
  fold_left (fun m x => map_set m (gs_id x) x) (sourcesOf rows) m.
Proof.
  revert m; induction rows as [|r rows IH]; intros m; simpl; [reflexivity|].
  destruct (sr_source r); simpl; apply IH.
Qed.

Lemma plantsOf_In (rows : list SourceRow) (h : GraphSearchResult) :
  (forall x, In x (sourcesOf rows) -> gs_id x = gs_id h -> x = h) ->
  In h (sourcesOf rows) -> In h (plantsOf rows).
Proof.
  intros Hu Hin. unfold plantsOf, map_values. rewrite plantsOf_fill.
  apply in_map_iff. exists (gs_id h, h). split; [reflexivity|].
  apply fill_by_key_In; auto.
Qed.

Lemma plantsOf_sources (rows : list SourceRow) (h : GraphSearchResult) :
  In h (plantsOf rows) -> In h (sourcesOf rows).
Proof.
  unfold plantsOf, map_values. rewrite plantsOf_fill.
  assert (G : forall l (m : JsMap GraphSearchResult) e,
             In e (fold_left (fun m x => map_set m (gs_id x) x) l m) ->
             In e m \/ In (snd e) l).
  { induction l as [|x l IH]; intros m e; simpl; [tauto|].
    intros H. apply IH in H as [H|H]; [|tauto].
    assert (S : forall (m : JsMap GraphSearchResult) k v e,
               In e (map_set m k v) -> In e m \/ snd e = v).
    { clear. induction m as [|[k0 v0] m IH]; simpl; intros k v e.
      - intros [<-|[]]. now right.
      - destruct (str_eqb k k0); simpl.
        + intros [<-|H]; [now right|]. left. now right.
        + intros [<-|H]; [left; now left|].
          apply IH in H as [H|H]; [left; now right|now right]. }
    apply S in H as [H|H]; [now left|]. right. left. now symmetry. }
  intros H. apply in_map_iff in H as [e [E He]]. subst.
  apply G in He as [[]|He]. assumption.
Qed.

(** The relations that [getHerbCompoundsAndEffects] keeps. *)
Lemma keepTherapeutic_In (rows : list RelationRow) (acc : list GraphRelation)
    (row : RelationRow) (s t : EntityJson) :
  In row rows -> rr_source row = Some s -> rr_target row = Some t ->
  upperType (ej_type t) = lit "EFFECT" ->
  In {| gr_id := rr_id row; gr_relation := rr_relation row;
        gr_source := {| gs_id := ej_id s; gs_name := ej_name s;
                        gs_type := upperType (ej_type s) |};
        gr_target := {| gs_id := ej_id t; gs_name := ej_name t;
                        gs_type := lit "EFFECT" |} |}
     (fold_left keepTherapeutic rows acc).
Proof.
  intros Hin Hs Ht Ty.
  assert (Mono : forall rows acc x,
             In x acc -> In x (fold_left keepTherapeutic rows acc)).
  { clear. induction rows as [|r rows IH]; intros acc x H; simpl; [assumption|].
    apply IH. unfold keepTherapeutic.
    destruct (rr_source r), (rr_target r); try assumption.
    match goal with |- In _ (if ?c then _ else _) => destruct c end;
      [apply in_app_iff; now left|assumption]. }
  revert acc. induction rows as [|r rows IH]; intros acc; [destruct Hin|].
  simpl. destruct Hin as [->|Hin]; [|now apply IH].
  apply Mono. unfold keepTherapeutic. rewrite Hs, Ht, Ty. simpl.
  apply in_app_iff. right. now left.
Qed.

Lemma findEntity_In (g : Graph) (e : GraphSearchResult) :
  NoDup (map gs_id (g_entities g)) -> In e (g_entities g) ->
  findEntity g (gs_id e) = Some e.
Proof.
  unfold findEntity. induction (g_entities g) as [|x l IH]; simpl; [tauto|].
  intros Hnd Hin. inversion Hnd as [|? ? H1 H2]; subst.
  destruct (str_eqb (gs_id x) (gs_id e)) eqn:E.
  - destruct Hin as [->|Hin]; [reflexivity|].
    apply str_eqb_eq in E. exfalso. apply H1. rewrite E.
    now apply in_map.
  - destruct Hin as [->|Hin]; [now rewrite str_eqb_refl in E|]. now apply IH.
Qed.

Lemma findEntity_id (g : Graph) (id : str) (e : GraphSearchResult) :
  findEntity g id = Some e -> gs_id e = id /\ In e (g_entities g).
Proof.
  unfold findEntity. intros H. apply find_some in H as [H1 H2].
  apply str_eqb_eq in H2. auto.
Qed.

End GraphStoreFacts.

Section HeadacheSearch.

Import SearchRepository QueryService.

Variable Number : Type.
Variable World : Type.

Variable g : Graph.
Variables ginger headache analgesic : GraphSearchResult.
Variables treats has_effect : RelationRecord.
Hypothesis scenario : HeadacheScenario g ginger headache analgesic treats has_effect.

Variable chunks :
  list Number -> Z -> World -> Reply (list (VectorSearchResult Number)) * World.
Variable embeddings : list str -> World -> Reply (list EmbeddingRow) * World.

Let store : Supabase Number World := graphStore g chunks embeddings.

Lemma headache_herbs (w : World) :
  In headache (headacheConditions g) ->
  exists herbs,
    findHerbsForCondition store (lit "headache") w = (Ok herbs, w) /\
    In ginger herbs /\
    (forall x, In x herbs -> In x (g_entities g)).
Proof.
  intros Hlim.
  unfold findHerbsForCondition, bindM, getSupabaseClient, ask, ret.
  cbn [store graphStore configured conditions_like relations_to data reply_ok].
  change (lit "%" ++ lit "headache" ++ lit "%") with (lit "%headache%").
  fold (headacheConditions g).
  remember (headacheConditions g) as conds eqn:Ec.
  assert (Hid : In (gs_id headache) (map gs_id conds)) by now apply in_map.
  remember (map gs_id conds) as ids eqn:Ei.
  destruct conds as [|c cs]; [destruct Hlim|].
  eexists. split; [reflexivity|].
  set (rows := map _ (filter _ (g_relations g))).
  assert (Src : forall x, In x (sourcesOf rows) -> In x (g_entities g)).
  { intros x Hx. unfold sourcesOf in Hx. apply in_flat_map in Hx as [r [Hr Hx]].
    subst rows. apply in_map_iff in Hr as [rr [<- _]]. simpl in Hx.
    destruct (findEntity g (rel_source_id rr)) as [e|] eqn:F; [|destruct Hx].
    destruct (str_eqb (gs_type e) (lit "PLANT")); [|destruct Hx].
    destruct Hx as [<-|[]]. now apply findEntity_id in F. }
  split.
  - apply plantsOf_In.
    + intros x Hx E. apply Src in Hx.
      pose proof (findEntity_In g x (sc_key scenario) Hx) as F1.
      pose proof (findEntity_In g ginger (sc_key scenario) (sc_ginger scenario)) as F2.
      rewrite E in F1. congruence.
    + unfold sourcesOf. apply in_flat_map.
      exists {| sr_id := rel_id treats; sr_relation := rel_relation treats;
                sr_source := Some ginger |}.
      split; [|simpl; now left].
      subst rows. apply in_map_iff. exists treats. split.
      * f_equal. rewrite (sc_treats_source scenario).
        rewrite (findEntity_In g ginger (sc_key scenario) (sc_ginger scenario)).
        rewrite (sc_ginger_type scenario). reflexivity.
      * apply filter_In. split; [apply (sc_treats scenario)|].
        rewrite (sc_treats_relation scenario), (sc_treats_target scenario).
        apply andb_true_iff. split; [|reflexivity].
        apply arr_includes_In. exact Hid.
  - intros x Hx. apply Src. now apply plantsOf_sources.
Qed.

Lemma gs_eta (e : GraphSearchResult) :
  {| gs_id := gs_id e; gs_name := gs_name e; gs_type := gs_type e |} = e.
Proof. now destruct e. Qed.

Lemma ginger_effects (ids : list str) (w : World) :
  In (gs_id ginger) ids ->
  exists relations,
    getHerbCompoundsAndEffects store ids w = (Ok relations, w) /\
    In {| gr_id := rel_id has_effect; gr_relation := lit "has_effect";
          gr_source := ginger; gr_target := analgesic |} relations.
Proof.
  intros Hin.
  pose proof (sc_key scenario) as Hkey.
  unfold getHerbCompoundsAndEffects, bindM, getSupabaseClient, ask, ret.
  assert (L : (length ids =? 0) = false) by (destruct ids; [destruct Hin|reflexivity]).
  rewrite L.
  cbn [store graphStore configured relations_from data error reply_ok].
  eexists. split; [reflexivity|].
  set (row := {| rr_id := rel_id has_effect;
                 rr_relation := rel_relation has_effect;
                 rr_source := Some (toJson ginger);
                 rr_target := Some (toJson analgesic) |}).
  replace {| gr_id := rel_id has_effect; gr_relation := lit "has_effect";
             gr_source := ginger; gr_target := analgesic |}
    with {| gr_id := rr_id row; gr_relation := rr_relation row;
            gr_source := {| gs_id := ej_id (toJson ginger);
                            gs_name := ej_name (toJson ginger);
                            gs_type := upperType (ej_type (toJson ginger)) |};
            gr_target := {| gs_id := ej_id (toJson analgesic);
                            gs_name := ej_name (toJson analgesic);
                            gs_type := lit "EFFECT" |} |}.
  2:{ simpl. rewrite (sc_effect_relation scenario), (sc_ginger_type scenario).
      change (upperType (Some (lit "PLANT"))) with (lit "PLANT").
      rewrite <- (sc_ginger_type scenario).
      rewrite <- (sc_analgesic_type scenario).
      now rewrite !gs_eta. }
  apply (@keepTherapeutic_In _ [] row (toJson ginger) (toJson analgesic));
    try reflexivity.
  - apply in_map_iff. exists has_effect. split.
    + subst row.
      rewrite (sc_effect_source scenario), (sc_effect_target scenario).
      rewrite (findEntity_In g _ Hkey (sc_ginger scenario)).
      rewrite (findEntity_In g _ Hkey (sc_analgesic scenario)). reflexivity.
    + apply filter_In. split; [apply (sc_effect scenario)|].
      rewrite (sc_effect_source scenario). apply arr_includes_In. assumption.
  - simpl. now rewrite (sc_analgesic_type scenario).
Qed.

Variable extractQueryEntities : str -> str -> M World (list QueryEntity).
Variable embed : str -> M World (list Number).
Variable generateAnswer :
  str -> list (VectorSearchResult Number) -> list GraphSearchResult ->
  list GraphRelation -> str -> M World str.
Variable apiKey : str.

(** C1 (amended).  Let [hybridSearch] run on the query "what herb for
    headache" with a query-entity extraction that returns the entity
    headache of type SYMPTOM, against a store that holds a graph with a
    PLANT entity ginger, a DISEASE or SYMPTOM entity headache, an EFFECT
    entity analgesic and the relations [ginger treats headache] and
    [ginger has_effect analgesic].  If headache is among the five
    conditions that the lookup of the name returns, every result includes
    ginger in [graphResults.herbs] and the triple ginger, has_effect,
    analgesic in [graphResults.effects]. *)
Theorem headache_search (w w' : World) (topK : Z)
    (res : HybridSearchResult Number) :
  (forall w0, fst (extractQueryEntities (lit "what herb for headache") apiKey w0)
              = Ok [ {| qe_name := lit "headache"; qe_type := lit "SYMPTOM" |} ]) ->
  In headache (headacheConditions g) ->
  hybridSearch store extractQueryEntities embed generateAnswer apiKey
               (lit "what herb for headache") topK w = (Ok res, w') ->
  In ginger (herbs (graphResults res)) /\
  In {| gr_id := rel_id has_effect; gr_relation := lit "has_effect";
        gr_source := ginger; gr_target := analgesic |}
     (effects (graphResults res)).
Proof.
  intros Hq Hlim H.
  apply hybridSearch_result in H
    as (qes & w1 & found & w2 & rels & w3 & Hqe & Hf & (w4 & w5 & Hr) & Hg & _).
  specialize (Hq w). rewrite Hqe in Hq. simpl in Hq. inversion Hq; subst qes.
  clear Hq Hqe.
  (* the loop over the one entity of the query *)
  simpl in Hf. unfold searchEntity in Hf. simpl in Hf.
  apply bindM_Ok in Hf as (acc & w6 & Hacc & Hret).
  apply ret_Ok in Hret as [-> _].
  apply bindM_Ok in Hacc as (ms & w7 & Hms & Hacc).
  apply bindM_Ok in Hacc as (hs & w8 & Hhs & Hret).
  apply ret_Ok in Hret as [<- _].
  destruct (headache_herbs w7 Hlim) as (hs' & Hh1 & Hh2 & Hh3).
  fold store in Hhs. rewrite Hh1 in Hhs. inversion Hhs; subst hs'. clear Hhs.
  simpl fst in *.
  assert (Gin : In ginger (uniqueById hs)).
  { apply uniqueById_In; [|assumption].
    intros x Hx E. apply Hh3 in Hx.
    pose proof (findEntity_In g x (sc_key scenario) Hx) as F1.
    pose proof (findEntity_In g ginger (sc_key scenario) (sc_ginger scenario)) as F2.
    rewrite E in F1. congruence. }
  rewrite Hg. simpl. split; [assumption|].
  destruct (ginger_effects (map gs_id (uniqueById hs)) w4) as (rels' & R1 & R2).
  { now apply in_map. }
  fold store in Hr. rewrite R1 in Hr. inversion Hr; subst rels'.
  apply filter_In. split; [assumption|]. simpl.
  rewrite (sc_analgesic_type scenario). reflexivity.
Qed.

End HeadacheSearch.

(** ** The scenario on two concrete stores *)

Lemma small_scenario :
  HeadacheScenario Example.small Example.ginger Example.headache
                   Example.analgesic Example.treats Example.has_effect.
Proof.
  constructor; try reflexivity; try (simpl; tauto);
    try (repeat constructor; simpl; intuition discriminate).
Qed.

Lemma crowded_scenario :
  HeadacheScenario Example.crowded Example.ginger Example.headache
                   Example.analgesic Example.treats Example.has_effect.
Proof.
  constructor; try reflexivity; try (simpl; tauto);
    try (repeat constructor; simpl; intuition discriminate).
Qed.

(** On the crowded graph the lookup of the conditions stops at the five
    entities before headache, and the search finds no herb at all. *)
Lemma headache_crowded_out :
  HeadacheScenario Example.crowded Example.ginger Example.headache
                   Example.analgesic Example.treats Example.has_effect /\
  exists res,
    Example.run Example.crowded = (Ok res, tt) /\
    QueryService.herbs (QueryService.graphResults res) = [] /\
    QueryService.effects (QueryService.graphResults res) = [] /\
    ~ In Example.ginger (QueryService.herbs (QueryService.graphResults res)).
Proof.
  split; [exact crowded_scenario|].
  eexists. split; [vm_compute; reflexivity|].
  simpl. repeat split. tauto.
Qed.

Lemma headache_search_witness :
  exists res,
    Example.run Example.small = (Ok res, tt) /\
    In Example.ginger (QueryService.herbs (QueryService.graphResults res)) /\
    In {| SearchRepository.gr_id := SearchRepository.rel_id Example.has_effect;
          SearchRepository.gr_relation := lit "has_effect";
          SearchRepository.gr_source := Example.ginger;
          SearchRepository.gr_target := Example.analgesic |}
       (QueryService.effects (QueryService.graphResults res)).
Proof.
  eexists. split; [vm_compute; reflexivity|].
  eapply (@headache_search Z unit Example.small Example.ginger Example.headache
            Example.analgesic Example.treats Example.has_effect small_scenario
            Example.noChunks Example.noEmbeddings Example.headacheEntity
            Example.embedding Example.fixedAnswer (lit "key") tt tt 5).
  - intros []. reflexivity.
  - vm_compute. left. reflexivity.
  - vm_compute. reflexivity.
Defined.

Lemma hybridSearch_invariants_witness :
  exists res,
    Example.run Example.small = (Ok res, tt) /\
    QueryService.totalHerbs (QueryService.summary res) = 1 /\
    NoDup (map SearchRepository.gs_id
               (QueryService.herbs (QueryService.graphResults res))).
Proof.
  eexists. split; [vm_compute; reflexivity|].
  pose proof (@hybridSearch_invariants Z unit
                (SearchRepository.graphStore Example.small Example.noChunks
                                             Example.noEmbeddings)
                Example.headacheEntity Example.embedding Example.fixedAnswer
                (lit "key") (lit "what herb for headache") 5 tt tt _
                ltac:(vm_compute; reflexivity)) as H.
  cbv zeta in H. destruct H as (_ & H2 & _ & _ & _ & _ & _ & H8).
  split; [reflexivity|exact H8].
Defined.

(** ** C8: extractGraphsInBatches *)

Section BatchFacts.

Import MistralService.




Lemma handleResponse_fetch_failed (chunk : ChunkInput) (e : exn) :
  handleResponse chunk (Throw e) = Ok None.
Proof. reflexivity. Qed.



Variable World : Type.
Variable fetch : str -> str -> World -> result Response * World.






End BatchFacts.



(** ** C6: createChunks *)

Section ChunkFacts.

Import UploadPage.

Lemma nonblank_trimStart (s : str) : nonblank (trimStart s) = nonblank s.
Proof.
  induction s as [|c s IH]; simpl; [reflexivity|].
  destruct (isSpace c) eqn:E; simpl; [assumption|now rewrite E].
Qed.

Lemma nonblank_app (a b : str) : nonblank (a ++ b) = nonblank a || nonblank b.
Proof. unfold nonblank. apply existsb_app. Qed.

Lemma nonblank_rev (s : str) : nonblank (rev s) = nonblank s.
Proof.
  induction s as [|c s IH]; simpl; [reflexivity|].
  rewrite nonblank_app, IH. simpl. rewrite orb_false_r. apply orb_comm.
Qed.

Lemma nonblank_trim (s : str) : nonblank (trim s) = nonblank s.
Proof.
  unfold trim, trimEnd.
  now rewrite nonblank_rev, nonblank_trimStart, nonblank_rev, nonblank_trimStart.
Qed.

Lemma trimStart_head (s : str) (c : char) (r : str) :
  trimStart s = c :: r -> isSpace c = false.
Proof.
  induction s as [|x s IH]; simpl; [discriminate|].
  destruct (isSpace x) eqn:E; [assumption|]. intros H. inversion H. now subst.
Qed.

Lemma trim_nonempty_nonblank (s : str) : trim s <> [] -> nonblank (trim s) = true.
Proof.
  unfold trim, trimEnd. intros H. rewrite nonblank_rev.
  destruct (trimStart (rev (trimStart s))) as [|c r] eqn:E; [now simpl in H|].
  simpl. apply trimStart_head in E. now rewrite E.
Qed.

Lemma nonblank_nonempty (s : str) : nonblank s = true -> 0 < length s.
Proof. destruct s; simpl; [discriminate|lia]. Qed.

Lemma sentencesOf_nonblank (text s : str) :
  In s (sentencesOf text) -> nonblank s = true.
Proof.
  unfold sentencesOf. intros H. apply filter_In in H as [H L].
  apply in_map_iff in H as [x [<- _]].
  apply trim_nonempty_nonblank. intros E. rewrite E in L. discriminate.
Qed.

Lemma join_nonblank (sep s : str) (l : list str) :
  nonblank s = true -> nonblank (join sep (s :: l)) = true.
Proof.
  intros H. simpl. destruct l; [assumption|].
  rewrite nonblank_app, H. reflexivity.
Qed.

Lemma sliceZ_window {A} (l : list A) (i p : nat) :
  sliceZ l (Z.of_nat i) (Z.of_nat i + Z.of_nat p) = firstn p (skipn i l).
Proof.
  unfold sliceZ, sliceIndex, slice.
  replace (Z.of_nat i <? 0)%Z with false by (symmetry; apply Z.ltb_ge; lia).
  replace (Z.of_nat i + Z.of_nat p <? 0)%Z with false
    by (symmetry; apply Z.ltb_ge; lia).
  rewrite <- Nat2Z.inj_add, !Nat2Z.id.
  destruct (Nat.le_gt_cases i (length l)) as [Hi|Hi].
  - rewrite (Nat.min_l i) by assumption.
    destruct (Nat.le_gt_cases (i + p) (length l)) as [Hp|Hp].
    + rewrite Nat.min_l by assumption. f_equal. lia.
    + rewrite Nat.min_r by lia.
      rewrite !firstn_all2; try reflexivity; rewrite length_skipn; lia.
  - rewrite !Nat.min_r by lia.
    rewrite !skipn_all2 by lia. now rewrite !firstn_nil.
Qed.

Variable ss : list str.
Hypothesis qualifying : forall s, In s ss -> nonblank s = true.

Lemma window_pushed (i p : nat) :
  i < length ss -> 0 < p ->
  (0 <? length (trim (join (lit " ") (firstn p (skipn i ss))))) = true.
Proof.
  intros Hi Hp. apply Nat.ltb_lt. apply nonblank_nonempty.
  rewrite nonblank_trim.
  destruct (skipn i ss) as [|s rest] eqn:E.
  - assert (length (skipn i ss) = 0) by now rewrite E.
    rewrite length_skipn in H. lia.
  - destruct p as [|p]; [lia|]. simpl firstn. apply join_nonblank.
    apply qualifying. rewrite <- (firstn_skipn i ss), E.
    apply in_app_iff. right. now left.
Qed.

(** The loop makes one chunk of each window. *)
Lemma chunkLoop_windows (p o : nat) :
  o < p ->
  forall fuel i chunkId chunks,
    length ss - i < fuel ->
    chunkLoop fuel ss (Z.of_nat p) (Z.of_nat o) (Z.of_nat i) chunkId chunks =
    Some (chunks ++ numbered chunkId (windowsFrom fuel ss p (p - o) i)).
Proof.
  intros Ho. induction fuel as [|fuel IH]; intros i chunkId chunks Hf; [lia|].
  simpl.
  destruct (i <? length ss) eqn:E.
  - replace (Z.of_nat i <? Z.of_nat (length ss))%Z with true
      by (symmetry; apply Z.ltb_lt; apply Nat.ltb_lt in E; lia).
    apply Nat.ltb_lt in E.
    rewrite sliceZ_window. rewrite window_pushed by lia.
    destruct (length ss <=? i + p) eqn:B.
    + replace (Z.of_nat (length ss) <=? Z.of_nat i + Z.of_nat p)%Z with true
        by (symmetry; apply Z.leb_le; apply Nat.leb_le in B; lia).
      reflexivity.
    + replace (Z.of_nat (length ss) <=? Z.of_nat i + Z.of_nat p)%Z with false
        by (symmetry; apply Z.leb_gt; apply Nat.leb_gt in B; lia).
      replace (Z.of_nat i + (Z.of_nat p - Z.of_nat o))%Z
        with (Z.of_nat (i + (p - o))) by lia.
      rewrite IH by lia. simpl. rewrite <- app_assoc. reflexivity.
  - replace (Z.of_nat i <? Z.of_nat (length ss))%Z with false
      by (symmetry; apply Z.ltb_ge; apply Nat.ltb_ge in E; lia).
    now rewrite app_nil_r.
Qed.

End ChunkFacts.

(** Consecutive windows: the one at index [k] is full, and the next
    starts [stride] sentences later, before it ends. *)
Lemma windowsFrom_consecutive (ss : list str) (p stride : nat) :
  forall fuel i k w1 w2,
    nth_error (windowsFrom fuel ss p stride i) k = Some w1 ->
    nth_error (windowsFrom fuel ss p stride i) (S k) = Some w2 ->
    w1 = firstn p (skipn (i + k * stride) ss) /\
    w2 = firstn p (skipn (i + S k * stride) ss) /\
    i + k * stride + p < length ss /\
    i + S k * stride < length ss.
Proof.
  induction fuel as [|fuel IH]; intros i k w1 w2; simpl.
  - destruct k; discriminate.
  - destruct (i <? length ss) eqn:E; [|destruct k; discriminate].
    destruct (length ss <=? i + p) eqn:B.
    + destruct k as [|[|k]]; simpl; discriminate.
    + apply Nat.leb_gt in B.
      destruct k as [|k]; simpl.
      * intros H1 H2. inversion H1. subst w1.
        destruct fuel as [|fuel]; [discriminate|]. simpl in H2.
        destruct (i + stride <? length ss) eqn:E2; [|discriminate].
        apply Nat.ltb_lt in E2. simpl in H2. inversion H2.
        subst w2. rewrite !Nat.add_0_r. repeat split; try reflexivity; lia.
      * intros H1 H2. destruct (IH (i + stride) k w1 w2 H1 H2) as (A & C & D & F).
        subst w1 w2. repeat split; try (f_equal; f_equal; lia); lia.
Qed.

Lemma numbered_length (n : Z) (ws : list (list str)) :
  length (numbered n ws) = length ws.
Proof. revert n; induction ws; intros n; simpl; auto. Qed.

Lemma numbered_nth (n : Z) (ws : list (list str)) (k : nat) :
  nth_error (numbered n ws) k =
  option_map (UploadPage.chunkOf (n + Z.of_nat k)) (nth_error ws k).
Proof.
  revert n k; induction ws as [|w ws IH]; intros n [|k]; simpl; try reflexivity.
  - now rewrite Z.add_0_r.
  - rewrite IH. now replace (n + 1 + Z.of_nat k)%Z with (n + Z.pos (Pos.of_succ_nat k))%Z by lia.
Qed.

(** C6.  With 12 sentences to a chunk and an overlap of 3, a text that
    yields exactly 30 qualifying sentences gives exactly three chunks,
    with the ids 1, 2 and 3, made of the sentences 1 to 12, 10 to 21 and
    19 to 30.  For every text, and every overlap [o] smaller than the
    number [p] of sentences to a chunk, the chunks are those of the
    windows visited, numbered from 1; of two consecutive windows the
    first holds [p] sentences, the second starts [p - o] sentences later
    and goes beyond the end of the first, and the last [o] sentences of
    the first are the first [o] sentences of the second: they share
    exactly [o] sentences. *)
Theorem createChunks_windows :
  (forall text,
      length (UploadPage.sentencesOf text) = 30 ->
      let ss := UploadPage.sentencesOf text in
      UploadPage.createChunks text 12 3 =
        Some [ UploadPage.chunkOf 1 (slice ss 0 12);
               UploadPage.chunkOf 2 (slice ss 9 21);
               UploadPage.chunkOf 3 (slice ss 18 30) ]) /\
  (forall text p o,
      o < p ->
      let ss := UploadPage.sentencesOf text in
      exists ws,
        UploadPage.createChunks text (Z.of_nat p) (Z.of_nat o)
          = Some (numbered 1 ws) /\
        (forall k, k < length ws ->
           option_map UploadPage.id (nth_error (numbered 1 ws) k)
             = Some (Z.of_nat k + 1)%Z) /\
        (forall k w1 w2,
            nth_error ws k = Some w1 -> nth_error ws (S k) = Some w2 ->
            w1 = slice ss (k * (p - o)) (k * (p - o) + p) /\
            w2 = slice ss (S k * (p - o)) (S k * (p - o) + p) /\
            length w1 = p /\
            o < length w2 /\
            skipn (p - o) w1 = firstn o w2)).
Proof.
  split.
  - intros text L ss. subst ss.
    unfold UploadPage.createChunks.
    rewrite (chunkLoop_windows _ (sentencesOf_nonblank text) 12 3)
      with (i := 0) by lia.
    rewrite L. f_equal.
    do 3 (cbn [windowsFrom]; rewrite ?L; cbn [Nat.ltb Nat.leb Nat.add Nat.sub]).
    reflexivity.
  - intros text p o Ho ss.
    exists (windowsFrom (S (length ss)) ss p (p - o) 0).
    split; [|split].
    + unfold UploadPage.createChunks. fold ss.
      rewrite (chunkLoop_windows ss (sentencesOf_nonblank text) p o Ho)
        with (i := 0) by lia.
      reflexivity.
    + intros k Hk. rewrite numbered_nth.
      destruct (nth_error (windowsFrom (S (length ss)) ss p (p - o) 0) k) eqn:E.
      * unfold option_map, UploadPage.chunkOf. cbn [UploadPage.id].
        f_equal. lia.
      * apply nth_error_None in E. lia.
    + intros k w1 w2 H1 H2.
      destruct (windowsFrom_consecutive ss p (p - o) _ _ _ _ _ H1 H2)
        as (A & B & C & D).
      simpl in A, B, C, D.
      unfold slice.
      replace (k * (p - o) + p - k * (p - o)) with p by lia.
      replace (S k * (p - o) + p - S k * (p - o)) with p by lia.
      split; [exact A|]. split; [exact B|].
      subst w1 w2. repeat split.
      * rewrite length_firstn, length_skipn. lia.
      * rewrite length_firstn, length_skipn. simpl. lia.
      * rewrite skipn_firstn_comm, skipn_skipn.
        rewrite firstn_firstn.
        replace (p - (p - o)) with o by lia.
        replace (Nat.min o p) with o by lia.
        reflexivity.
Qed.

Lemma createChunks_windows_witness :
  length (UploadPage.sentencesOf Remedies.page) = 30 /\
  (let ss := UploadPage.sentencesOf Remedies.page in
   UploadPage.createChunks Remedies.page 12 3 =
     Some [ UploadPage.chunkOf 1 (slice ss 0 12);
            UploadPage.chunkOf 2 (slice ss 9 21);
            UploadPage.chunkOf 3 (slice ss 18 30) ]) /\
  3 < 12 /\
  (let ss := UploadPage.sentencesOf Remedies.page in
   exists ws,
     UploadPage.createChunks Remedies.page (Z.of_nat 12) (Z.of_nat 3)
       = Some (numbered 1 ws) /\
     (forall k, k < length ws ->
        option_map UploadPage.id (nth_error (numbered 1 ws) k)
          = Some (Z.of_nat k + 1)%Z) /\
     (forall k w1 w2,
         nth_error ws k = Some w1 -> nth_error ws (S k) = Some w2 ->
         w1 = slice ss (k * (12 - 3)) (k * (12 - 3) + 12) /\
         w2 = slice ss (S k * (12 - 3)) (S k * (12 - 3) + 12) /\
         length w1 = 12 /\
         3 < length w2 /\
         skipn (12 - 3) w1 = firstn 3 w2)).
Proof.
  assert (L : length (UploadPage.sentencesOf Remedies.page) = 30)
    by (vm_compute; reflexivity).
  split; [exact L|].
  split; [exact (proj1 createChunks_windows Remedies.page L)|].
  assert (H : 3 < 12) by lia.
  split; [exact H|].
  exact (proj2 createChunks_windows Remedies.page 12 3 H).
Defined.

(** ** The matcher on the patterns of the normalisation *)

Section ClassPatterns.

Lemma advance_pos_neq (st : mstate) (c : char) (rest : str) :
  (m_pos (advance st c rest) =? m_pos st) = false.
Proof. unfold advance. cbn [m_pos]. apply Nat.eqb_neq. lia. Qed.

(** A quantified class: the matcher goes through the run of characters
    of the class. *)
Lemma mt_star_cls (fl : flags) (neg : bool) (items : list cls)
    (st : mstate) (k : mstate -> option mstate) :
  mt fl (Rep 0 None true (Cls neg items)) st k =
  match m_rest st with
  | c :: rest =>
      if xorb neg (in_class fl items c)
      then orelse (mt fl (Rep 0 None true (Cls neg items)) (advance st c rest) k)
                  (fun _ => k st)
      else k st
  | [] => k st
  end.
Proof.
  cbn [mt required groups_of clear_caps].
  destruct (m_rest st) as [|c rest] eqn:E; cbn [length optional].
  - reflexivity.
  - cbn [mt]. rewrite E.
    destruct (xorb neg (in_class fl items c)); cbn [orelse]; [|reflexivity].
    rewrite advance_pos_neq. reflexivity.
Qed.

Lemma mt_plus_cls (fl : flags) (neg : bool) (items : list cls)
    (st : mstate) (k : mstate -> option mstate) :
  mt fl (Rep 1 None true (Cls neg items)) st k =
  match m_rest st with
  | c :: rest =>
      if xorb neg (in_class fl items c)
      then mt fl (Rep 0 None true (Cls neg items)) (advance st c rest) k
      else None
  | [] => None
  end.
Proof.
  cbn [mt required groups_of clear_caps].
  destruct (m_rest st) as [|c rest] eqn:E; [reflexivity|].
  destruct (xorb neg (in_class fl items c)); reflexivity.
Qed.

End ClassPatterns.

Section Replacing.

Variable fl : flags.
Variable r : regex.
Variable tpl : list titem.
Variable input : str.

(** The characters of a match are passed over. *)
Lemma replace_all_skip (n : nat) :
  forall rest prev pos,
    n <= length rest ->
    replace_all_from fl r tpl input prev rest pos n =
    replace_all_from fl r tpl input (prevAfter n prev rest) (skipn n rest)
                     (pos + n) 0.
Proof.
  induction n as [|n IH]; intros rest prev pos Hn.
  - simpl. rewrite Nat.add_0_r. destruct rest; reflexivity.
  - destruct rest as [|c rest]; [simpl in Hn; lia|].
    simpl in Hn. cbn [replace_all_from prevAfter skipn].
    rewrite IH by lia. f_equal. lia.
Qed.

(** The steps of [replace_all_from] outside a match. *)
Lemma replace_all_none (prev : option char) (c : char) (rest : str) (pos : nat) :
  exec_at fl r prev (c :: rest) pos = None ->
  replace_all_from fl r tpl input prev (c :: rest) pos 0 =
  c :: replace_all_from fl r tpl input (Some c) rest (S pos) 0.
Proof. intros H. cbn [replace_all_from]. now rewrite H. Qed.

Lemma replace_all_some (prev : option char) (c : char) (rest : str)
    (pos n : nat) (st : mstate) :
  exec_at fl r prev (c :: rest) pos = Some st ->
  m_pos st = pos + S n -> n <= length rest ->
  replace_all_from fl r tpl input prev (c :: rest) pos 0 =
  expand input pos st tpl ++
  replace_all_from fl r tpl input (prevAfter n (Some c) rest) (skipn n rest)
                   (pos + S n) 0.
Proof.
  intros H Hp Hn. cbn [replace_all_from]. rewrite H.
  replace (m_pos st - pos) with (S n) by lia.
  rewrite replace_all_skip by assumption.
  do 2 f_equal. lia.
Qed.

End Replacing.

Section Normalising.

Lemma in_class_space (c : char) : in_class f_none [CS] c = isSpace c.
Proof. unfold in_class. simpl. now rewrite !orb_false_r. Qed.

(** The greedy run of white space, when what follows always matches. *)
Lemma star_space_run (rest : str) :
  forall st, m_rest st = rest ->
  exists st',
    mt f_none (star s_) st (fun x => Some x) = Some st' /\
    m_pos st' = m_pos st + wsRun rest.
Proof.
  induction rest as [|c rest IH]; intros st E; unfold star, s_;
    rewrite mt_star_cls, E.
  - exists st. simpl. auto.
  - rewrite in_class_space, xorb_false_l. cbn [wsRun].
    destruct (isSpace c) eqn:S.
    + destruct (IH (advance st c rest) eq_refl) as (st' & H1 & H2).
      unfold star, s_ in H1. rewrite H1. exists st'. split; [reflexivity|].
      rewrite H2. unfold advance. cbn [m_pos]. lia.
    + exists st. split; [reflexivity|lia].
Qed.

Lemma exec_plus_space (prev : option char) (rest : str) (pos : nat) :
  match rest with
  | c :: rest' =>
      if isSpace c then
        exists st, exec_at f_none (plus s_) prev rest pos = Some st /\
                   m_pos st = pos + S (wsRun rest')
      else exec_at f_none (plus s_) prev rest pos = None
  | [] => exec_at f_none (plus s_) prev rest pos = None
  end.
Proof.
  unfold exec_at, plus, s_. rewrite mt_plus_cls. cbn [m_rest].
  destruct rest as [|c rest]; [reflexivity|].
  rewrite in_class_space, xorb_false_l. destruct (isSpace c); [|reflexivity].
  destruct (star_space_run rest
              (advance {| m_pos := pos; m_prev := prev; m_rest := c :: rest;
                          m_caps := [] |} c rest) eq_refl) as (st' & H1 & H2).
  exists st'. split; [exact H1|]. rewrite H2. unfold advance. cbn [m_pos]. lia.
Qed.

Lemma wsRun_le (s : str) : wsRun s <= length s.
Proof. induction s as [|c s IH]; simpl; [lia|]. destruct (isSpace c); simpl; lia. Qed.

Lemma collapseRuns_in_run (s : str) :
  collapseRuns true s = collapseRuns false (skipn (wsRun s) s).
Proof.
  induction s as [|c s IH]; simpl; [reflexivity|].
  destruct (isSpace c) eqn:E; simpl; [assumption|now rewrite E].
Qed.

(** [s.replace(/\s+/g, ' ')] *)
Lemma replace_spaces (input : str) :
  forall n rest prev pos,
    length rest <= n ->
    replace_all_from f_none (plus s_) [TLit (lit " ")] input prev rest pos 0 =
    collapseRuns false rest.
Proof.
  induction n as [|n IH]; intros rest prev pos Hn.
  - destruct rest; [|simpl in Hn; lia]. cbn [replace_all_from].
    pose proof (exec_plus_space prev [] pos) as H. simpl in H. now rewrite H.
  - destruct rest as [|c rest].
    + cbn [replace_all_from].
      pose proof (exec_plus_space prev [] pos) as H. simpl in H. now rewrite H.
    + pose proof (exec_plus_space prev (c :: rest) pos) as H. simpl in H.
      simpl in Hn. cbn [collapseRuns]. destruct (isSpace c) eqn:E.
      * destruct H as (st & H1 & H2).
        rewrite (replace_all_some _ _ _ _ _ _ _ _ (wsRun rest) _ H1 H2 (wsRun_le rest)).
        rewrite IH by (rewrite length_skipn; lia).
        rewrite collapseRuns_in_run. reflexivity.
      * rewrite replace_all_none by assumption. now rewrite IH by lia.
Qed.

Lemma replace_all_spaces (s : str) :
  replace_all f_none (plus s_) [TLit (lit " ")] s = collapseRuns false s.
Proof. unfold replace_all. now apply replace_spaces with (n := length s). Qed.

(** [s.replace(/[...]/g, '')] for a class of characters. *)
Lemma replace_class (items : list cls) (input : str) :
  forall rest prev pos,
    replace_all_from f_none (Cls false items) [] input prev rest pos 0 =
    filter (fun c => negb (in_class f_none items c)) rest.
Proof.
  induction rest as [|c rest IH]; intros prev pos.
  - reflexivity.
  - cbn [replace_all_from exec_at mt m_rest filter]. simpl xorb.
    destruct (in_class f_none items c); simpl negb; cbv iota.
    + cbn [advance m_pos]. replace (S pos - pos) with 1 by lia.
      cbn [expand flat_map app replace_all_from]. apply IH.
    + now rewrite IH.
Qed.

Lemma replace_all_class (items : list cls) (s : str) :
  replace_all f_none (Cls false items) [] s =
  filter (fun c => negb (in_class f_none items c)) s.
Proof. apply replace_class. Qed.

(** [s.replace(/\.$/, '')] *)
Lemma rev_cons_nonempty {A} (c d : A) (rest : list A) :
  exists x xs, rev (c :: d :: rest) = x :: xs /\ rev (d :: rest) = x :: removelast xs
               /\ xs = removelast xs ++ [c].
Proof.
  change (rev (c :: d :: rest)) with (rev (d :: rest) ++ [c]).
  destruct (rev (d :: rest)) as [|x xs] eqn:R.
  - apply (f_equal (@length _)) in R. rewrite length_rev in R. simpl in R. lia.
  - exists x, (xs ++ [c]). rewrite removelast_last. auto.
Qed.

Lemma exec_final_period :
  forall rest prev pos,
    exec_from f_none (Seq (Chr 46%N) Eol) prev rest pos =
    match rev rest with
    | c :: _ =>
        if (c =? 46)%N then
          Some (pos + length rest - 1,
                {| m_pos := pos + length rest;
                   m_prev := Some c; m_rest := []; m_caps := [] |})
        else None
    | [] => None
    end.
Proof.
  induction rest as [|c rest IH]; intros prev pos.
  - reflexivity.
  - cbn [exec_from exec_at mt m_rest]. unfold chr_eq, canonicalize.
    cbn [ignoreCase f_none]. rewrite (N.eqb_sym 46 c).
    destruct rest as [|d rest].
    + cbn [rev app length]. destruct (c =? 46)%N; [|reflexivity].
      unfold advance, at_eol. cbn [m_rest m_pos m_caps].
      do 3 f_equal; lia.
    + assert (E : (if (c =? 46)%N
                   then if at_eol f_none
                             (advance {| m_pos := pos; m_prev := prev;
                                         m_rest := c :: d :: rest; m_caps := [] |}
                                      c (d :: rest))
                        then Some (advance {| m_pos := pos; m_prev := prev;
                                              m_rest := c :: d :: rest;
                                              m_caps := [] |} c (d :: rest))
                        else None
                   else None) = None).
      { destruct (c =? 46)%N; reflexivity. }
      rewrite E. rewrite IH.
      destruct (rev_cons_nonempty c d rest) as (x & xs & R1 & R2 & _).
      rewrite R1, R2. destruct (x =? 46)%N; [|reflexivity].
      cbn [length]. do 3 f_equal; lia.
Qed.

Lemma dropFinalPeriod_rev (s : str) :
  dropFinalPeriod s =
  match rev s with
  | c :: _ => if (c =? 46)%N then firstn (length s - 1) s else s
  | [] => s
  end.
Proof.
  induction s as [|c s IH]; [reflexivity|].
  cbn [dropFinalPeriod]. destruct s as [|d s].
  - simpl. destruct (c =? 46)%N; reflexivity.
  - rewrite IH. destruct (rev_cons_nonempty c d s) as (x & xs & R1 & R2 & _).
    rewrite R1, R2. destruct (x =? 46)%N; [|reflexivity].
    replace (length (c :: d :: s) - 1) with (S (length (d :: s) - 1))
      by (simpl; lia).
    reflexivity.
Qed.

Lemma replace_final_period (s : str) :
  replace_first f_none (seq [S_ "."; Eol]) [] s = dropFinalPeriod s.
Proof.
  change (seq [S_ "."; Eol]) with (Seq (Chr 46%N) Eol).
  unfold replace_first, exec. rewrite exec_final_period, dropFinalPeriod_rev.
  destruct (rev s) as [|c cs] eqn:R; [reflexivity|].
  destruct (c =? 46)%N; [|reflexivity].
  cbn [expand flat_map app m_pos]. simpl plus.
  rewrite skipn_all2 by lia. now rewrite app_nil_r.
Qed.

(** [normalizeEntityName] without the matcher. *)
Lemma normalizeEntityName_eq (x : str) :
  normalizeEntityName x =
  dropFinalPeriod
    (filter (fun c => negb (in_class f_none (map CC (lit "()[]")) c))
       (collapseRuns false (trim (toLowerCase x)))).
Proof.
  unfold normalizeEntityName.
  rewrite replace_final_period. unfold one_of.
  now rewrite replace_all_class, replace_all_spaces.
Qed.

End Normalising.

(** ** C3: normalizeEntityName is not idempotent *)

Section NormalForm.

Lemma trimStart_skipn (s : str) : trimStart s = skipn (wsRun s) s.
Proof.
  induction s as [|c s IH]; simpl; [reflexivity|].
  destruct (isSpace c); simpl; [assumption|reflexivity].
Qed.

Lemma trimStart_length (s : str) :
  length (trimStart s) <= length s /\
  (length (trimStart s) = length s -> trimStart s = s).
Proof.
  rewrite trimStart_skipn, length_skipn. split; [lia|].
  intros H. pose proof (wsRun_le s).
  replace (wsRun s) with 0 by lia. reflexivity.
Qed.

Lemma trimEnd_length (s : str) :
  length (trimEnd s) <= length s /\
  (length (trimEnd s) = length s -> trimEnd s = s).
Proof.
  unfold trimEnd. rewrite length_rev.
  destruct (trimStart_length (rev s)) as [H1 H2]. rewrite length_rev in *.
  split; [assumption|]. intros H. rewrite H2 by assumption. apply rev_involutive.
Qed.

Lemma trim_length (s : str) :
  length (trim s) <= length s /\ (length (trim s) = length s -> trim s = s).
Proof.
  unfold trim.
  destruct (trimStart_length s) as [A1 A2].
  destruct (trimEnd_length (trimStart s)) as [B1 B2].
  split; [lia|]. intros H.
  rewrite B2 by lia. apply A2. lia.
Qed.

Lemma noDoubleSpace_cons (c : char) (s : str) :
  noDoubleSpace (c :: s) =
  negb (isSpace c && (0 <? wsRun s)) && noDoubleSpace s.
Proof.
  destruct s as [|d s]; cbn [noDoubleSpace wsRun].
  - now rewrite andb_false_r.
  - destruct (isSpace d); reflexivity.
Qed.

Lemma collapseRuns_length (s : str) :
  length (collapseRuns false s) <= length s /\
  length (collapseRuns true s) <= length s /\
  (length (collapseRuns false s) = length s -> noDoubleSpace s = true) /\
  (length (collapseRuns true s) = length s ->
   noDoubleSpace s = true /\ wsRun s = 0).
Proof.
  induction s as [|c s (A & B & C & D)].
  - simpl. repeat split; auto.
  - rewrite noDoubleSpace_cons. cbn [collapseRuns wsRun length].
    destruct (isSpace c) eqn:E; cbn [length].
    + split; [lia|]. split; [lia|]. split.
      * intros H. assert (H' : length (collapseRuns true s) = length s) by lia.
        destruct (D H') as [D1 D2]. rewrite D1, D2. reflexivity.
      * intros H. lia.
    + split; [lia|]. split; [lia|]. split.
      * intros H. assert (H' : length (collapseRuns false s) = length s) by lia.
        now rewrite (C H').
      * intros H. assert (H' : length (collapseRuns false s) = length s) by lia.
        now rewrite (C H').
Qed.

Lemma collapseRuns_fixed (s : str) :
  Forall (fun c => isSpace c = true -> c = 32%N) s ->
  noDoubleSpace s = true ->
  collapseRuns false s = s /\ (wsRun s = 0 -> collapseRuns true s = s).
Proof.
  induction s as [|c s IH]; intros F N; [simpl; auto|].
  inversion F as [|? ? Fc Fs]; subst.
  rewrite noDoubleSpace_cons in N. apply andb_true_iff in N as [N1 Ns].
  destruct (IH Fs Ns) as [I1 I2]. cbn [collapseRuns wsRun].
  destruct (isSpace c) eqn:E.
  - split; [|discriminate].
    rewrite (Fc eq_refl). f_equal. apply I2.
    simpl in N1. apply negb_true_iff in N1. apply Nat.ltb_ge in N1. lia.
  - split; [now rewrite I1|]. intros _. now rewrite I1.
Qed.

Lemma dropFinalPeriod_length (s : str) :
  length (dropFinalPeriod s) <= length s /\
  (dropFinalPeriod s = s <-> endsWithPeriod s = false).
Proof.
  rewrite dropFinalPeriod_rev. unfold endsWithPeriod.
  destruct (rev s) as [|c cs] eqn:R.
  - split; [lia|]. tauto.
  - assert (L : 0 < length s).
    { apply (f_equal (@length _)) in R. rewrite length_rev in R. simpl in R. lia. }
    destruct (c =? 46)%N.
    + rewrite length_firstn. split; [lia|]. split; [|discriminate].
      intros H. apply (f_equal (@length _)) in H. rewrite length_firstn in H. lia.
    + split; [lia|]. tauto.
Qed.

Lemma Forall_trimStart (P : char -> Prop) (s : str) :
  Forall P s -> Forall P (trimStart s).
Proof.
  induction 1 as [|c s Hc Hs IH]; simpl; [constructor|].
  destruct (isSpace c); [assumption|now constructor].
Qed.

Lemma Forall_trim (P : char -> Prop) (s : str) : Forall P s -> Forall P (trim s).
Proof.
  intros H. unfold trim, trimEnd.
  apply Forall_rev, Forall_trimStart, Forall_rev, Forall_trimStart, H.
Qed.

Lemma Forall_collapseRuns (P : char -> Prop) (b : bool) (s : str) :
  P 32%N -> Forall P s -> Forall P (collapseRuns b s).
Proof.
  intros H32 H. revert b. induction H as [|c s Hc Hs IH]; intros b; simpl;
    [constructor|].
  destruct (isSpace c); [destruct b|]; auto.
Qed.

Lemma collapseRuns_spaces (b : bool) (s : str) :
  Forall (fun c => isSpace c = true -> c = 32%N) (collapseRuns b s).
Proof.
  revert b; induction s as [|c s IH]; intros b; simpl; [constructor|].
  destruct (isSpace c) eqn:E; [destruct b|]; auto.
  constructor; [congruence|apply IH].
Qed.

Lemma Forall_filter (P : char -> Prop) (f : char -> bool) (s : str) :
  Forall P s -> Forall P (filter f s).
Proof.
  induction 1 as [|c s Hc Hs IH]; simpl; [constructor|].
  destruct (f c); auto.
Qed.

Lemma Forall_dropFinalPeriod (P : char -> Prop) (s : str) :
  Forall P s -> Forall P (dropFinalPeriod s).
Proof.
  induction 1 as [|c s Hc Hs IH]; [constructor|].
  cbn [dropFinalPeriod]. destruct s as [|d s].
  - destruct (c =? 46)%N; auto.
  - auto.
Qed.

Lemma lowerChar_idem (c : char) : lowerChar (lowerChar c) = lowerChar c.
Proof.
  unfold lowerChar, isUpper, in_range.
  destruct (65 <=? c)%N eqn:A; destruct (c <=? 90)%N eqn:B; simpl;
    rewrite ?A, ?B; simpl; try reflexivity.
  apply N.leb_le in A. apply N.leb_le in B.
  destruct (65 <=? c + 32)%N eqn:C; destruct (c + 32 <=? 90)%N eqn:D; simpl;
    try reflexivity.
  apply N.leb_le in D. lia.
Qed.

(** What every normalised name is like: in lower case, without
    brackets, with no white space but spaces. *)
Lemma normalizeEntityName_shape (x : str) :
  let y := normalizeEntityName x in
  Forall (fun c => lowerChar c = c) y /\
  Forall (fun c => isBracket c = false) y /\
  Forall (fun c => isSpace c = true -> c = 32%N) y.
Proof.
  intros y. subst y. rewrite normalizeEntityName_eq. repeat split.
  - apply Forall_dropFinalPeriod, Forall_filter, Forall_collapseRuns;
      [reflexivity|].
    apply Forall_trim. unfold toLowerCase. apply Forall_forall.
    intros c Hc. apply in_map_iff in Hc as [d [<- _]]. apply lowerChar_idem.
  - apply Forall_dropFinalPeriod. apply Forall_forall. intros c Hc.
    apply filter_In in Hc as [_ Hc]. unfold isBracket.
    now apply negb_true_iff in Hc.
  - apply Forall_dropFinalPeriod, Forall_filter, collapseRuns_spaces.
Qed.

Lemma filter_length_le {A} (f : A -> bool) (l : list A) :
  length (filter f l) <= length l.
Proof. induction l as [|x l IH]; simpl; [lia|]. destruct (f x); simpl; lia. Qed.

Lemma filter_all {A} (f : A -> bool) (l : list A) :
  Forall (fun x => f x = true) l -> filter f l = l.
Proof. induction 1 as [|x l Hx Hl IH]; simpl; [reflexivity|]. now rewrite Hx, IH. Qed.

Lemma toLowerCase_fixed (s : str) :
  Forall (fun c => lowerChar c = c) s -> toLowerCase s = s.
Proof.
  unfold toLowerCase. induction 1 as [|c s Hc Hs IH]; simpl; [reflexivity|].
  now rewrite Hc, IH.
Qed.

End NormalForm.

(** The double period of "a.." loses one period at each pass. *)
Lemma normalizeEntityName_not_idempotent :
  normalizeEntityName (lit "a..") = lit "a." /\
  normalizeEntityName (normalizeEntityName (lit "a..")) = lit "a" /\
  normalizeEntityName (normalizeEntityName (lit "a.."))
    <> normalizeEntityName (lit "a..").
Proof. vm_compute. repeat split. discriminate. Qed.

(** C3 (amended).  For every ASCII text [x], a second pass of
    [normalizeEntityName] leaves the normalised name of [x] as it is if
    and only if that name has no white space at its start or end, no two
    characters of white space in a row and no period at its end. *)
Theorem normalizeEntityName_idempotent_iff (x : str) :
  isAscii x = true ->
  let y := normalizeEntityName x in
  normalizeEntityName y = y <->
  trim y = y /\ noDoubleSpace y = true /\ endsWithPeriod y = false.
Proof.
  intros _ y. destruct (normalizeEntityName_shape x) as (F1 & F2 & F3).
  fold y in F1, F2, F3.
  assert (Fb : Forall (fun c => negb (in_class f_none (map CC (lit "()[]")) c) = true) y).
  { eapply Forall_impl; [|exact F2]. intros c Hc. unfold isBracket in Hc.
    now rewrite Hc. }
  rewrite (normalizeEntityName_eq y). rewrite (toLowerCase_fixed y F1).
  split.
  - intros H.
    set (a := trim y) in *. set (b := collapseRuns false a) in *.
    set (c := filter (fun c => negb (in_class f_none (map CC (lit "()[]")) c)) b) in *.
    pose proof (proj1 (trim_length y)) as L1. fold a in L1.
    pose proof (proj1 (collapseRuns_length a)) as L2. fold b in L2.
    pose proof (filter_length_le (fun c => negb (in_class f_none (map CC (lit "()[]")) c)) b) as L3.
    fold c in L3.
    pose proof (proj1 (dropFinalPeriod_length c)) as L4.
    assert (L : length (dropFinalPeriod c) = length y) by now rewrite H.
    assert (Ea : a = y) by (apply trim_length; fold a; lia).
    assert (Na : noDoubleSpace a = true)
      by (apply (proj1 (proj2 (proj2 (collapseRuns_length a)))); fold b; lia).
    rewrite Ea in Na.
    assert (Eb : b = y).
    { subst b. rewrite Ea. now apply collapseRuns_fixed. }
    assert (Ec : c = y).
    { subst c. rewrite Eb. now apply filter_all. }
    rewrite Ec in H. repeat split; try assumption.
    now apply dropFinalPeriod_length.
  - intros (T & N & P). rewrite T.
    rewrite (proj1 (collapseRuns_fixed y F3 N)).
    rewrite (filter_all _ y Fb).
    now apply dropFinalPeriod_length.
Qed.

Lemma normalizeEntityName_idempotent_iff_witness :
  isAscii (lit "Curcuma  Longa (L.)") = true /\
  normalizeEntityName (normalizeEntityName (lit "Curcuma  Longa (L.)"))
    = normalizeEntityName (lit "Curcuma  Longa (L.)").
Proof.
  split; [reflexivity|].
  apply (normalizeEntityName_idempotent_iff (lit "Curcuma  Longa (L.)") eq_refl).
  vm_compute. repeat split.
Defined.

(** ** C2: the references section *)

(** A list of references that starts in the last tenth of the text
    stays in the output: here the output is the whole input. *)
Lemma references_in_last_tenth_kept :
  skipn 511 Paper.shortPaper = js "REFERENCES\n1. Smith J. Ginger and health." /\
  9 * length Paper.shortPaper <= 10 * 511 /\
  cleanAcademicText Paper.shortPaper [] [] = Paper.shortPaper /\
  includes (cleanAcademicText Paper.shortPaper [] [])
           (js "REFERENCES\n1. Smith J. Ginger and health.") = true.
Proof.
  split; [vm_compute; reflexivity|].
  split; [apply Nat.leb_le; vm_compute; reflexivity|].
  split; vm_compute; reflexivity.
Qed.

Lemma substring_prefix (s : str) (i : nat) :
  i <= length s -> substring s 0 (Z.of_nat i) = firstn i s.
Proof.
  intros H. unfold substring, clampIndex. rewrite Nat2Z.id.
  change (Z.to_nat 0) with 0. rewrite Nat.min_0_l, Nat.min_l by assumption.
  rewrite Nat.max_r, Nat.min_l by lia. rewrite Nat.sub_0_r. reflexivity.
Qed.

Lemma substringFrom_suffix (s : str) (i : nat) :
  i <= length s -> substringFrom s (Z.of_nat i) = skipn i s.
Proof.
  intros H. unfold substringFrom, clampIndex. rewrite Nat2Z.id.
  now rewrite Nat.min_l by assumption.
Qed.

(** ** C9: the lines that repeat *)

Section Escaping.

Lemma skipn_next {A} (n : nat) (l : list A) (c : A) (rest : list A) :
  skipn n l = c :: rest -> skipn (S n) l = rest.
Proof.
  revert l; induction n as [|n IH]; intros l H.
  - simpl in H. subst l. reflexivity.
  - destruct l as [|x l]; [discriminate|]. simpl in H. simpl. now apply IH.
Qed.

Lemma escape_from (items : list cls) (input : str) :
  forall rest prev pos,
    skipn pos input = rest ->
    replace_all_from f_none (Cls false items) [TLit [bsl]; TMatch]
                     input prev rest pos 0 =
    flat_map (fun c => if in_class f_none items c then [bsl; c] else [c]) rest.
Proof.
  induction rest as [|c rest IH]; intros prev pos H.
  - reflexivity.
  - cbn [replace_all_from exec_at mt m_rest flat_map]. rewrite xorb_false_l.
    destruct (in_class f_none items c).
    + cbn [advance m_pos expand flat_map].
      replace (S pos - pos) with 1 by lia. rewrite H.
      cbn [firstn app]. f_equal. f_equal.
      apply IH. now apply skipn_next with (c := c).
    + cbn [app]. f_equal. apply IH. now apply skipn_next with (c := c).
Qed.

Lemma escapeRegExp_eq (s : str) : escapeRegExp s = flat_map escapeChar s.
Proof. unfold escapeRegExp, replace_all, one_of. now apply escape_from. Qed.

Lemma RegExp_escaped_literal (s : str) :
  RegExp_escaped (escapeRegExp s) = litRe s.
Proof.
  rewrite escapeRegExp_eq.
  induction s as [|c s IH]; [reflexivity|].
  cbn [flat_map litRe]. unfold escapeChar at 1.
  destruct (isSyntaxChar c) eqn:E.
  - cbn [app RegExp_escaped]. rewrite N.eqb_refl. now rewrite IH.
  - cbn [app RegExp_escaped].
    destruct (c =? bsl)%N eqn:B.
    + apply N.eqb_eq in B. subst c. vm_compute in E. discriminate.
    + now rewrite IH.
Qed.

End Escaping.

(** ** What a match consumes *)

Section Reaching.

Lemma ext_refl (st : mstate) : ext st st.
Proof. exists []. simpl. split; [reflexivity|lia]. Qed.

Lemma ext_trans (a b c : mstate) : ext a b -> ext b c -> ext a c.
Proof.
  intros (m1 & R1 & P1) (m2 & R2 & P2). exists (m1 ++ m2).
  rewrite R1, R2, P2, P1, length_app, <- app_assoc. split; [reflexivity|lia].
Qed.

Lemma ext_advance (st : mstate) (c : char) (rest : str) :
  m_rest st = c :: rest -> ext st (advance st c rest).
Proof. intros H. exists [c]. rewrite H. simpl. split; [reflexivity|lia]. Qed.

Lemma ext_clear_caps (gs : list nat) (st st' : mstate) :
  ext (clear_caps gs st) st' -> ext st st'.
Proof. destruct gs; exact (fun H => H). Qed.

Lemma ext_set_cap (n a b : nat) (st st' : mstate) :
  ext st st' -> ext st (set_cap n a b st').
Proof. exact (fun H => H). Qed.

Lemma optional_reaching body greedy k :
  reaching body ->
  forall fuel st x,
    optional body greedy k fuel st = Some x ->
    exists st', ext st st' /\ k st' = Some x.
Proof.
  intros Hb. induction fuel as [|fuel IH]; intros st x H; cbn [optional] in H.
  - exists st. split; [apply ext_refl|exact H].
  - assert (A : forall y,
               body st (fun st' => if m_pos st' =? m_pos st then None
                                   else optional body greedy k fuel st') = Some y ->
               exists st', ext st st' /\ k st' = Some y).
    { intros y Hy. apply Hb in Hy. destruct Hy as (st1 & E1 & Hy).
      destruct (m_pos st1 =? m_pos st); [discriminate|].
      apply IH in Hy. destruct Hy as (st2 & E2 & Hy).
      exists st2. split; [eapply ext_trans; eassumption|exact Hy]. }
    destruct greedy; unfold orelse in H.
    + destruct (body st _) as [y|] eqn:B.
      * inversion H; subst y. now apply A.
      * exists st. split; [apply ext_refl|exact H].
    + destruct (k st) as [y|] eqn:K.
      * inversion H; subst y. exists st. split; [apply ext_refl|exact K].
      * now apply A.
Qed.

Lemma required_reaching body after :
  reaching body ->
  forall n st x,
    required body after n st = Some x ->
    exists st', ext st st' /\ after st' = Some x.
Proof.
  intros Hb. induction n as [|n IH]; intros st x H; cbn [required] in H.
  - exists st. split; [apply ext_refl|exact H].
  - apply Hb in H. destruct H as (st1 & E1 & H).
    apply IH in H. destruct H as (st2 & E2 & H).
    exists st2. split; [eapply ext_trans; eassumption|exact H].
Qed.

Lemma mt_reaching (fl : flags) (r : regex) : reaching (mt fl r).
Proof.
  induction r as [ |c| |neg items|r1 IH1 r2 IH2|r1 IH1 r2 IH2
                 |mn mx greedy r1 IH1|n r1 IH1| | | |items];
    intros st k x H; cbn [mt] in H.
  - exists st. split; [apply ext_refl|exact H].
  - destruct (m_rest st) as [|y rest] eqn:E; [discriminate|].
    destruct (chr_eq fl c y); [|discriminate].
    exists (advance st y rest). split; [now apply ext_advance|exact H].
  - destruct (m_rest st) as [|y rest] eqn:E; [discriminate|].
    destruct (isLineTerminator y); [discriminate|].
    exists (advance st y rest). split; [now apply ext_advance|exact H].
  - destruct (m_rest st) as [|y rest] eqn:E; [discriminate|].
    destruct (xorb neg (in_class fl items y)); [|discriminate].
    exists (advance st y rest). split; [now apply ext_advance|exact H].
  - apply IH1 in H. destruct H as (st1 & E1 & H).
    apply IH2 in H. destruct H as (st2 & E2 & H).
    exists st2. split; [eapply ext_trans; eassumption|exact H].
  - unfold orelse in H. destruct (mt fl r1 st k) as [y|] eqn:A.
    + inversion H; subst y. now apply IH1.
    + now apply IH2.
  - assert (Hb : reaching (fun st' k' => mt fl r1 (clear_caps (groups_of r1) st') k')).
    { intros st0 k0 x0 H0. apply IH1 in H0. destruct H0 as (st1 & E1 & H0).
      exists st1. split; [now apply ext_clear_caps in E1|exact H0]. }
    apply (required_reaching _ _ Hb) in H. destruct H as (st1 & E1 & H).
    apply (optional_reaching _ _ _ Hb) in H. destruct H as (st2 & E2 & H).
    exists st2. split; [eapply ext_trans; eassumption|exact H].
  - apply IH1 in H. destruct H as (st1 & E1 & H).
    exists (set_cap n (m_pos st) (m_pos st1) st1). split; [exact E1|exact H].
  - destruct (at_bol fl st); [|discriminate].
    exists st. split; [apply ext_refl|exact H].
  - destruct (at_eol fl st); [|discriminate].
    exists st. split; [apply ext_refl|exact H].
  - destruct (at_wordb st); [|discriminate].
    exists st. split; [apply ext_refl|exact H].
  - destruct (m_prev st) as [c|]; [|discriminate].
    destruct (in_class fl items c); [|discriminate].
    exists st. split; [apply ext_refl|exact H].
Qed.

End Reaching.

(** ** The pattern of a whole line *)

Section WholeLine.

Lemma re_whole_line_eq (M : str) :
  re_whole_line M = Seq Bol (Seq (star s_) (Seq (litRe M) (Seq (star s_) Eol))).
Proof. unfold re_whole_line. rewrite RegExp_escaped_literal. reflexivity. Qed.

Lemma ext_pos (st st' : mstate) : ext st st' -> m_pos st <= m_pos st'.
Proof. intros (mid & _ & P). lia. Qed.

Lemma litRe_reaching (M : str) (st : mstate) (k : mstate -> option mstate)
    (x : mstate) :
  mt f_m (litRe M) st k = Some x ->
  exists st', ext st st' /\ k st' = Some x /\ (M <> [] -> m_pos st < m_pos st').
Proof.
  destruct M as [|c M]; cbn [litRe mt]; intros H.
  - exists st. split; [apply ext_refl|]. split; [exact H|]. intros N. now elim N.
  - destruct (m_rest st) as [|y rest] eqn:E; [discriminate|].
    destruct (chr_eq f_m c y); [|discriminate].
    apply mt_reaching in H. destruct H as (st' & E1 & H).
    exists st'. split; [|split; [exact H|]].
    + eapply ext_trans; [apply ext_advance; eassumption|exact E1].
    + intros _. apply ext_pos in E1. unfold advance in E1. cbn [m_pos] in E1. lia.
Qed.

(** A match of the pattern of a whole line starts at the start of a
    line and ends at the end of one; it is not empty when the line is
    not. *)
Lemma whole_line_match (M : str) (prev : option char) (rest : str)
    (pos : nat) (st : mstate) :
  exec_at f_m (re_whole_line M) prev rest pos = Some st ->
  bolb prev = true /\
  exists mid,
    rest = mid ++ m_rest st /\ m_pos st = pos + length mid /\
    eolb (m_rest st) = true /\ (M <> [] -> mid <> []).
Proof.
  unfold exec_at. rewrite re_whole_line_eq.
  set (st0 := {| m_pos := pos; m_prev := prev; m_rest := rest; m_caps := [] |}).
  intros H.
  change (mt f_m (Seq Bol (Seq (star s_) (Seq (litRe M) (Seq (star s_) Eol)))) st0
             (fun st => Some st))
    with (if at_bol f_m st0
          then mt f_m (star s_) st0
                 (fun st1 => mt f_m (litRe M) st1
                    (fun st2 => mt f_m (star s_) st2
                       (fun st3 => if at_eol f_m st3 then Some st3 else None)))
          else None) in H.
  destruct (at_bol f_m st0) eqn:B; [|discriminate].
  split.
  { unfold at_bol, st0 in B. cbn [m_prev multiline f_m andb] in B.
    destruct prev; [exact B|reflexivity]. }
  apply mt_reaching in H. destruct H as (st1 & E1 & H).
  apply litRe_reaching in H. destruct H as (st2 & E2 & H & N).
  apply mt_reaching in H. destruct H as (st3 & E3 & H).
  destruct (at_eol f_m st3) eqn:A; [|discriminate].
  inversion H; subst st3. clear H.
  pose proof (ext_pos _ _ E1) as P1. pose proof (ext_pos _ _ E3) as P3.
  destruct (ext_trans _ _ _ E1 (ext_trans _ _ _ E2 E3)) as (mid & R & P).
  unfold st0 in R, P, P1. cbn [m_rest m_pos] in R, P, P1.
  exists mid. split; [exact R|]. split; [exact P|]. split.
  - unfold at_eol in A. unfold eolb. destruct (m_rest st); [reflexivity|exact A].
  - intros HM Hmid. subst mid. simpl in P. specialize (N HM). lia.
Qed.

Lemma in_class_space_m (c : char) : in_class f_m [CS] c = isSpace c.
Proof. unfold in_class. simpl. now rewrite !orb_false_r. Qed.

Lemma orelse_some {A} (a : option A) (b : unit -> option A) :
  a <> None \/ b tt <> None -> orelse a b <> None.
Proof. unfold orelse. destruct a; [discriminate|]. intros [H|H]; [now elim H|exact H]. Qed.

Lemma star_space_complete (ws : str) :
  forall st k rest',
    m_rest st = ws ++ rest' ->
    Forall (fun c => isSpace c = true) ws ->
    (forall st', m_rest st' = rest' -> k st' <> None) ->
    mt f_m (star s_) st k <> None.
Proof.
  induction ws as [|c ws IH]; intros st k rest' E F K;
    unfold star, s_; rewrite mt_star_cls.
  - simpl in E. specialize (K st E).
    destruct (m_rest st) as [|y rest]; [exact K|].
    destruct (xorb false (in_class f_m [CS] y)); [|exact K].
    apply orelse_some. now right.
  - rewrite E. cbn [app]. inversion F as [|? ? Hc F']; subst.
    rewrite in_class_space_m, xorb_false_l, Hc.
    apply orelse_some. left.
    apply (IH (advance st c (ws ++ rest')) k rest'); [reflexivity|exact F'|exact K].
Qed.

Lemma litRe_complete (M : str) :
  forall st k rest',
    m_rest st = M ++ rest' ->
    (forall st', m_rest st' = rest' -> k st' <> None) ->
    mt f_m (litRe M) st k <> None.
Proof.
  induction M as [|c M IH]; intros st k rest' E K; cbn [litRe mt].
  - apply K. exact E.
  - rewrite E. cbn [app]. unfold chr_eq, canonicalize. cbn [ignoreCase f_m].
    rewrite N.eqb_refl.
    apply (IH (advance st c (M ++ rest')) k rest'); [reflexivity|exact K].
Qed.

(** A line made of [L] between white space is matched whole, when it
    starts at the start of a line. *)
Lemma whole_line_complete (L a b rest2 : str) (prev : option char) (pos : nat) :
  bolb prev = true ->
  Forall (fun c => isSpace c = true) a ->
  Forall (fun c => isSpace c = true) b ->
  eolb rest2 = true ->
  exec_at f_m (re_whole_line L) prev (a ++ L ++ b ++ rest2) pos <> None.
Proof.
  intros B Fa Fb E. unfold exec_at. rewrite re_whole_line_eq.
  set (st0 := {| m_pos := pos; m_prev := prev;
                 m_rest := a ++ L ++ b ++ rest2; m_caps := [] |}).
  change (mt f_m (Seq Bol (Seq (star s_) (Seq (litRe L) (Seq (star s_) Eol)))) st0
             (fun st => Some st))
    with (if at_bol f_m st0
          then mt f_m (star s_) st0
                 (fun st1 => mt f_m (litRe L) st1
                    (fun st2 => mt f_m (star s_) st2
                       (fun st3 => if at_eol f_m st3 then Some st3 else None)))
          else None).
  assert (A : at_bol f_m st0 = true).
  { unfold at_bol, st0. cbn [m_prev multiline f_m andb].
    destruct prev; [exact B|reflexivity]. }
  rewrite A.
  apply (star_space_complete a st0 _ (L ++ b ++ rest2)); [reflexivity|exact Fa|].
  intros st1 E1.
  apply (litRe_complete L st1 _ (b ++ rest2)); [exact E1|].
  intros st2 E2.
  apply (star_space_complete b st2 _ rest2); [exact E2|exact Fb|].
  intros st3 E3. unfold at_eol. rewrite E3.
  destruct rest2 as [|c rest2]; [discriminate|].
  cbn [multiline f_m andb]. simpl in E. rewrite E. discriminate.
Qed.

End WholeLine.

(** ** The lines of a text after a replacement of whole lines *)

Section Lines.

Lemma tlines_nonempty (s : str) : tlines s <> [].
Proof.
  destruct s as [|c s]; cbn [tlines]; [discriminate|].
  destruct (isLineTerminator c); [discriminate|].
  destruct (tlines s); discriminate.
Qed.

Lemma tlines_free (h : str) :
  Forall (fun c => isLineTerminator c = false) h -> tlines h = [h].
Proof.
  induction 1 as [|c h Hc _ IH]; [reflexivity|].
  cbn [tlines]. now rewrite Hc, IH.
Qed.

Lemma tlines_app_term (mid : str) (c : char) (x : str) :
  isLineTerminator c = true ->
  tlines (mid ++ c :: x) = tlines mid ++ tlines x.
Proof.
  intros Hc. induction mid as [|a mid IH]; cbn [app tlines].
  - now rewrite Hc.
  - rewrite IH. destruct (isLineTerminator a); [reflexivity|].
    pose proof (tlines_nonempty mid) as N.
    destruct (tlines mid); [now elim N|reflexivity].
Qed.

Lemma tlines_free_app (h : str) (c : char) (x : str) :
  Forall (fun c => isLineTerminator c = false) h ->
  isLineTerminator c = true ->
  tlines (h ++ c :: x) = h :: tlines x.
Proof. intros F Hc. now rewrite tlines_app_term, tlines_free. Qed.

(** A text is its first line, alone or before a terminator and the
    rest. *)
Lemma tlines_first (s : str) :
  exists h,
    Forall (fun c => isLineTerminator c = false) h /\
    ((s = h /\ tlines s = [h]) \/
     exists c s', isLineTerminator c = true /\ s = h ++ c :: s' /\
                  tlines s = h :: tlines s').
Proof.
  induction s as [|c s IH].
  - exists []. split; [constructor|]. left. split; reflexivity.
  - destruct (isLineTerminator c) eqn:Hc.
    + exists []. split; [constructor|]. right. exists c, s.
      cbn [tlines app]. rewrite Hc. auto.
    + destruct IH as (h & F & [[E T]|(d & s' & Hd & E & T)]).
      * exists (c :: h). split; [now constructor|]. left.
        cbn [tlines]. rewrite Hc, T. subst s. auto.
      * exists (c :: h). split; [now constructor|]. right. exists d, s'.
        cbn [tlines]. rewrite Hc, T. subst s. auto.
Qed.

Variable r : regex.
Variable input : str.
Variable Q : str -> Prop.

Hypothesis Q_empty : Q [].

Hypothesis whole :
  forall prev rest pos st,
    exec_at f_m r prev rest pos = Some st ->
    bolb prev = true /\
    exists mid, rest = mid ++ m_rest st /\ m_pos st = pos + length mid /\
                eolb (m_rest st) = true.

Lemma RA_nil (prev : option char) (pos : nat) :
  replace_all_from f_m r [] input prev [] pos 0 = [].
Proof. cbn [replace_all_from]. destruct (exec_at f_m r prev [] pos); reflexivity. Qed.

Lemma RA_step (prev : option char) (c : char) (rest : str) (pos : nat) :
  nomatch r prev (c :: rest) pos = true ->
  replace_all_from f_m r [] input prev (c :: rest) pos 0 =
  c :: replace_all_from f_m r [] input (Some c) rest (S pos) 0.
Proof.
  unfold nomatch. intros H. cbn [replace_all_from].
  destruct (exec_at f_m r prev (c :: rest) pos) as [st|]; [|reflexivity].
  apply Nat.leb_le in H. replace (m_pos st - pos) with 0 by lia. reflexivity.
Qed.

Lemma not_bol_nomatch (prev : option char) (rest : str) (pos : nat) :
  bolb prev = false -> nomatch r prev rest pos = true.
Proof.
  intros B. unfold nomatch.
  destruct (exec_at f_m r prev rest pos) as [st|] eqn:E; [|reflexivity].
  apply whole in E. destruct E as [E _]. congruence.
Qed.

(** A line without a match is copied. *)
Lemma RA_copy (h : str) :
  forall prev rest2 pos,
    Forall (fun c => isLineTerminator c = false) h ->
    nomatch r prev (h ++ rest2) pos = true ->
    replace_all_from f_m r [] input prev (h ++ rest2) pos 0 =
    h ++ match rest2 with
         | [] => []
         | c :: rest3 =>
             c :: replace_all_from f_m r [] input (Some c) rest3
                    (S (pos + length h)) 0
         end.
Proof.
  induction h as [|c0 h IH]; intros prev rest2 pos F N.
  - cbn [app length] in *. rewrite Nat.add_0_r.
    destruct rest2 as [|c rest3]; [apply RA_nil|now apply RA_step].
  - inversion F as [|? ? Hc F']; subst.
    cbn [app] in *. rewrite RA_step by exact N. f_equal.
    rewrite IH; [|exact F'|now apply not_bol_nomatch].
    cbn [length]. now rewrite Nat.add_succ_r.
Qed.

Lemma RA_lines :
  forall n rest prev pos,
    length rest <= n ->
    bolb prev = true ->
    Forall (good r Q) (tlines rest) ->
    Forall Q (tlines (replace_all_from f_m r [] input prev rest pos 0)).
Proof.
  induction n as [|n IH]; intros rest prev pos Hn B G.
  - destruct rest; [|simpl in Hn; lia]. rewrite RA_nil. now repeat constructor.
  - destruct (nomatch r prev rest pos) eqn:NM.
    + destruct (tlines_first rest) as (h & F & [[E T]|(c & s' & Hc & E & T)]).
      * rewrite T in G. inversion G as [|? ? Gh _]; subst.
        assert (Qh : Q h).
        { destruct Gh as [Qh|M]; [exact Qh|].
          destruct (M prev [] pos B eq_refl) as (st & X & P).
          rewrite app_nil_r in X. unfold nomatch in NM. rewrite X in NM.
          apply Nat.leb_le in NM. lia. }
        rewrite <- (app_nil_r h) in NM |- * at 1.
        rewrite RA_copy by assumption. rewrite app_nil_r.
        rewrite tlines_free by exact F. now repeat constructor.
      * rewrite T in G. inversion G as [|? ? Gh G']; subst.
        assert (Qh : Q h).
        { destruct Gh as [Qh|M]; [exact Qh|].
          destruct (M prev (c :: s') pos B Hc) as (st & X & P).
          unfold nomatch in NM. rewrite X in NM.
          apply Nat.leb_le in NM. lia. }
        rewrite RA_copy by assumption.
        rewrite tlines_free_app by assumption.
        constructor; [exact Qh|].
        apply IH; [|exact Hc|exact G'].
        rewrite length_app in Hn. simpl in Hn. lia.
    + unfold nomatch in NM.
      destruct (exec_at f_m r prev rest pos) as [st|] eqn:X; [|discriminate].
      apply Nat.leb_gt in NM.
      destruct (whole _ _ _ _ X) as (_ & mid & R & P & E).
      destruct mid as [|c mid]; [simpl in P; lia|].
      destruct rest as [|c' rest']; [discriminate|].
      cbn [app] in R. injection R as Rc R. subst c'.
      cbn [length] in P.
      assert (Hl : length mid <= length rest')
        by (rewrite R, length_app; lia).
      rewrite (replace_all_some f_m r [] input prev c rest' pos (length mid) st
                 X P Hl).
      cbn [expand flat_map app].
      assert (S2 : skipn (length mid) rest' = m_rest st).
      { rewrite R at 1. rewrite skipn_app, Nat.sub_diag, skipn_all. reflexivity. }
      rewrite S2.
      destruct (m_rest st) as [|c2 rest3] eqn:R2.
      * rewrite RA_nil. now repeat constructor.
      * cbn [eolb] in E.
        assert (G3 : Forall (good r Q) (tlines rest3)).
        { change (c :: rest') with ([c] ++ rest') in G. rewrite R in G.
          rewrite app_assoc in G. rewrite tlines_app_term in G by exact E.
          now apply Forall_app in G. }
        assert (L3 : length rest3 < length rest').
        { rewrite R, length_app. simpl. lia. }
        simpl in Hn.
        destruct (bolb (prevAfter (length mid) (Some c) rest')) eqn:B2.
        -- apply IH; [simpl; lia|exact B2|].
           cbn [tlines]. rewrite E. constructor; [now left|exact G3].
        -- rewrite RA_step by now apply not_bol_nomatch.
           cbn [tlines]. rewrite E. constructor; [exact Q_empty|].
           apply IH; [lia|exact E|exact G3].
Qed.

Lemma replace_all_lines :
  Forall (good r Q) (tlines input) ->
  Forall Q (tlines (replace_all f_m r [] input)).
Proof.
  intros G. unfold replace_all.
  now apply RA_lines with (n := length input).
Qed.

End Lines.

(** ** Trimmed lines *)

Section Trimming.

Lemma trimStart_spaces (a s : str) : isSpaces a -> trimStart (a ++ s) = trimStart s.
Proof. induction 1 as [|c a Hc _ IH]; [reflexivity|]. cbn [app trimStart]. now rewrite Hc. Qed.

Lemma trimStart_decompose (s : str) :
  exists a, s = a ++ trimStart s /\ isSpaces a.
Proof.
  induction s as [|c s (a & E & F)]; [exists []; split; [reflexivity|constructor]|].
  cbn [trimStart]. destruct (isSpace c) eqn:Hc.
  - exists (c :: a). split; [cbn [app]; now f_equal|now constructor].
  - exists []. split; [reflexivity|constructor].
Qed.

Lemma isSpaces_rev (s : str) : isSpaces s -> isSpaces (rev s).
Proof. unfold isSpaces. rewrite !Forall_forall. intros H x Hx. apply H. now apply in_rev. Qed.

Lemma trimEnd_decompose (s : str) :
  exists b, s = trimEnd s ++ b /\ isSpaces b.
Proof.
  destruct (trimStart_decompose (rev s)) as (a & E & F).
  exists (rev a). split; [|now apply isSpaces_rev].
  unfold trimEnd. rewrite <- rev_app_distr, <- E. now rewrite rev_involutive.
Qed.

Lemma trim_decompose (s : str) :
  exists a b, s = a ++ trim s ++ b /\ isSpaces a /\ isSpaces b.
Proof.
  destruct (trimStart_decompose s) as (a & E & F).
  destruct (trimEnd_decompose (trimStart s)) as (b & E' & F').
  exists a, b. unfold trim. rewrite <- E'. auto.
Qed.

Lemma trimStart_fixed (c : char) (s : str) :
  isSpace c = false -> trimStart (c :: s) = c :: s.
Proof. intros H. cbn [trimStart]. now rewrite H. Qed.

Lemma trimStart_idem (s : str) : trimStart (trimStart s) = trimStart s.
Proof.
  destruct (trimStart s) as [|c r] eqn:E; [reflexivity|].
  apply trimStart_head in E. now apply trimStart_fixed.
Qed.

Lemma trim_trimmed (s : str) : trimmed (trim s).
Proof.
  split.
  - destruct (trimEnd_decompose (trimStart s)) as (b & E & _).
    unfold trim. destruct (trimEnd (trimStart s)) as [|c r] eqn:T; [reflexivity|].
    cbn [app] in E. apply trimStart_head in E. now apply trimStart_fixed.
  - unfold trim, trimEnd. rewrite rev_involutive. apply trimStart_idem.
Qed.

Lemma trim_sandwich (a L b : str) :
  trimmed L -> L <> [] -> isSpaces a -> isSpaces b ->
  trim (a ++ L ++ b) = L.
Proof.
  intros [T1 T2] N Fa Fb. unfold trim. rewrite trimStart_spaces by exact Fa.
  destruct L as [|c L]; [now elim N|].
  assert (Hc : isSpace c = false) by (now apply trimStart_head in T1).
  cbn [app]. rewrite trimStart_fixed by exact Hc.
  unfold trimEnd. change (c :: L ++ b) with ((c :: L) ++ b).
  rewrite rev_app_distr, trimStart_spaces by now apply isSpaces_rev.
  rewrite T2. apply rev_involutive.
Qed.

Lemma trim_space_cons (c : char) (s : str) :
  isSpace c = true -> trim (c :: s) = trim s.
Proof. intros H. unfold trim. cbn [trimStart]. now rewrite H. Qed.

(** A line of [split('\n')] whose trimmed form is [L], without a line
    terminator inside, holds a line of the [m] flag with that trimmed
    form. *)
Lemma line_has_tline (N L : str) :
  trim N = L -> L <> [] ->
  Forall (fun c => isLineTerminator c = false) L ->
  exists R, In R (tlines N) /\ trim R = L.
Proof.
  intros T NE FL.
  assert (TL : trimmed L) by (rewrite <- T; apply trim_trimmed).
  destruct (trim_decompose N) as (a & b & E & Fa & Fb).
  rewrite T in E. rewrite E. clear E T N.
  induction Fa as [|c a Hc Fa IH].
  - cbn [app].
    destruct (tlines_first b) as (h & F & [[E T]|(d & s' & Hd & E & T)]).
    + exists (L ++ h). subst b. split.
      * rewrite tlines_free; [now left|]. apply Forall_app. now split.
      * apply (trim_sandwich [] L h); try assumption; constructor.
    + exists (L ++ h). split.
      * rewrite E, app_assoc, tlines_free_app; [now left| |exact Hd].
        apply Forall_app. now split.
      * apply (trim_sandwich [] L h); try assumption; [constructor|].
        rewrite E in Fb. now apply Forall_app in Fb.
  - destruct IH as (R & I & TR). cbn [app tlines].
    destruct (isLineTerminator c).
    + exists R. split; [now right|exact TR].
    + destruct (tlines (a ++ L ++ b)) as [|l ls]; [now elim I|].
      destruct I as [I|I].
      * exists (c :: l). split; [now left|]. rewrite trim_space_cons by exact Hc.
        now subst.
      * exists R. split; [now right|exact TR].
Qed.

Lemma nlines_nonempty (s : str) : nlines s <> [].
Proof.
  destruct s as [|c s]; cbn [nlines]; [discriminate|].
  destruct (c =? nl)%N; [discriminate|].
  destruct (nlines s); discriminate.
Qed.

Lemma splitChar_acc_nlines (s : str) :
  forall acc,
    splitChar_acc nl acc s = (rev acc ++ hd [] (nlines s)) :: tl (nlines s).
Proof.
  induction s as [|c s IH]; intros acc; cbn [splitChar_acc nlines].
  - cbn [hd tl]. now rewrite app_nil_r.
  - destruct (c =? nl)%N.
    + rewrite IH. cbn [hd tl rev app]. rewrite app_nil_r. f_equal.
      pose proof (nlines_nonempty s) as N.
      destruct (nlines s); [now elim N|reflexivity].
    + rewrite IH. pose proof (nlines_nonempty s) as N.
      destruct (nlines s) as [|l ls]; [now elim N|].
      cbn [hd tl rev]. now rewrite <- app_assoc.
Qed.

Lemma splitChar_nlines (s : str) : splitChar nl s = nlines s.
Proof.
  unfold splitChar. rewrite splitChar_acc_nlines. cbn [rev app].
  pose proof (nlines_nonempty s) as N.
  destruct (nlines s); [now elim N|reflexivity].
Qed.

Lemma tlines_nlines (s : str) : tlines s = flat_map tlines (nlines s).
Proof.
  induction s as [|c s IH]; [reflexivity|].
  cbn [tlines nlines].
  destruct (c =? nl)%N eqn:E.
  - apply N.eqb_eq in E. subst c. cbn [isLineTerminator flat_map tlines app].
    change (isLineTerminator nl) with true. cbv iota. now rewrite IH.
  - pose proof (nlines_nonempty s) as N.
    destruct (nlines s) as [|l ls]; [now elim N|].
    cbn [flat_map] in IH |- *. cbn [tlines].
    destruct (isLineTerminator c).
    + cbn [app]. now rewrite IH.
    + rewrite IH. pose proof (tlines_nonempty l) as N'.
      destruct (tlines l); [now elim N'|reflexivity].
Qed.

(** When no line of the [m] flag has the trimmed form [L], no line of
    [split('\n')] has. *)
Lemma no_tline_no_line (L t : str) :
  L <> [] ->
  Forall (fun c => isLineTerminator c = false) L ->
  Forall (fun R => trim R <> L) (tlines t) ->
  occurrences L t = 0.
Proof.
  intros NE FL H. unfold occurrences.
  destruct (filter _ (splitChar nl t)) as [|N rest] eqn:F; [reflexivity|].
  assert (I : In N (filter (fun line => str_eqb (trim line) L) (splitChar nl t)))
    by (rewrite F; now left).
  apply filter_In in I. destruct I as [I T]. apply str_eqb_eq in T.
  destruct (line_has_tline N L T NE FL) as (R & IR & TR).
  rewrite Forall_forall in H. elim (H R); [|exact TR].
  rewrite tlines_nlines. apply in_flat_map. exists N.
  rewrite <- splitChar_nlines. auto.
Qed.

End Trimming.

(** ** The removal of a repeated line *)

Section Removing.

Variable L : str.
Hypothesis L_nonempty : L <> [].

Lemma trim_empty_neq : trim [] <> L.
Proof. intros E. apply L_nonempty. now rewrite <- E. Qed.

Lemma whole_line_shape (M : str) :
  forall prev rest pos st,
    exec_at f_m (re_whole_line M) prev rest pos = Some st ->
    bolb prev = true /\
    exists mid, rest = mid ++ m_rest st /\ m_pos st = pos + length mid /\
                eolb (m_rest st) = true.
Proof.
  intros prev rest pos st H.
  destruct (whole_line_match M prev rest pos st H) as (B & mid & R & P & E & _).
  split; [exact B|]. exists mid. auto.
Qed.

(** After the removal of [L] no line has the trimmed form [L]. *)
Lemma removeLine_self (t : str) :
  Forall (fun R => trim R <> L) (tlines (removeLine t L)).
Proof.
  unfold removeLine.
  apply replace_all_lines;
    [exact trim_empty_neq|apply whole_line_shape|].
  apply Forall_forall. intros R _.
  destruct (str_eqb (trim R) L) eqn:E.
  - right. intros prev rest2 pos B E2. apply str_eqb_eq in E.
    destruct (trim_decompose R) as (a & b & D & Fa & Fb). rewrite E in D.
    assert (X : exec_at f_m (re_whole_line L) prev (R ++ rest2) pos <> None).
    { rewrite D, <- !app_assoc. now apply whole_line_complete. }
    destruct (exec_at f_m (re_whole_line L) prev (R ++ rest2) pos) as [st|] eqn:Y;
      [|now elim X].
    exists st. split; [reflexivity|].
    destruct (whole_line_match L prev (R ++ rest2) pos st Y)
      as (_ & mid & _ & P & _ & N).
    specialize (N L_nonempty). destruct mid; [now elim N|]. simpl in P. lia.
  - left. now apply str_eqb_neq.
Qed.

(** The removal of another line brings no such line back. *)
Lemma removeLine_other (M t : str) :
  Forall (fun R => trim R <> L) (tlines t) ->
  Forall (fun R => trim R <> L) (tlines (removeLine t M)).
Proof.
  intros H. unfold removeLine.
  apply replace_all_lines;
    [exact trim_empty_neq|apply whole_line_shape|].
  apply Forall_forall. intros R I. left.
  rewrite Forall_forall in H. now apply H.
Qed.

Lemma removeLines_other (Ms : list str) :
  forall t,
    Forall (fun R => trim R <> L) (tlines t) ->
    Forall (fun R => trim R <> L) (tlines (fold_left removeLine Ms t)).
Proof.
  induction Ms as [|M Ms IH]; intros t H; [exact H|].
  cbn [fold_left]. apply IH. now apply removeLine_other.
Qed.

Lemma removeLines_self (Ms : list str) :
  In L Ms ->
  forall t, Forall (fun R => trim R <> L) (tlines (fold_left removeLine Ms t)).
Proof.
  induction Ms as [|M Ms IH]; intros I t; [now elim I|].
  cbn [fold_left]. destruct I as [->|I].
  - apply removeLines_other. apply removeLine_self.
  - now apply IH.
Qed.

End Removing.

(** ** The count of the lines *)

Section Counting.

Lemma own_map_set {V} (o : JsMap V) (k k' : str) (v : V) :
  own (map_set o k v) k' = if str_eqb k' k then Some v else own o k'.
Proof.
  induction o as [|[k0 v0] o IH]; cbn [map_set own]; [reflexivity|].
  destruct (str_eqb k k0) eqn:E; cbn [own].
  - apply str_eqb_eq in E. subst k0. now destruct (str_eqb k' k).
  - rewrite IH. destruct (str_eqb k' k0) eqn:E0; [|reflexivity].
    destruct (str_eqb k' k) eqn:E1; [|reflexivity].
    apply str_eqb_eq in E0, E1. subst. rewrite str_eqb_refl in E. discriminate.
Qed.

Lemma own_In {V} (o : JsMap V) (k : str) (v : V) :
  own o k = Some v -> In k (map fst o).
Proof.
  induction o as [|[k0 v0] o IH]; cbn [own map fst]; [discriminate|].
  destruct (str_eqb k k0) eqn:E.
  - apply str_eqb_eq in E. now left.
  - right. now apply IH.
Qed.

Variable L : str.
Hypothesis L_length : 5 < length L < 150.
Hypothesis L_not_inherited : arr_includes objectPrototypeKeys L = false.
Hypothesis L_not_proto : str_eqb L (lit "__proto__") = false.

Lemma countLine_self (o : JsMap freq) (n : nat) :
  own o L = counted n -> own (countLine o L) L = counted (S n).
Proof.
  intros H. unfold countLine. rewrite H.
  destruct n as [|n]; cbn [counted].
  - rewrite L_not_proto, L_not_inherited, own_map_set, str_eqb_refl. reflexivity.
  - rewrite own_map_set, str_eqb_refl. reflexivity.
Qed.

Lemma countLine_other (o : JsMap freq) (T : str) :
  str_eqb T L = false -> own (countLine o T) L = own o L.
Proof.
  intros H. assert (H' : str_eqb L T = false).
  { apply str_eqb_neq. apply str_eqb_neq in H. congruence. }
  unfold countLine.
  destruct (own o T) as [[n|]|]; [|reflexivity|].
  - now rewrite own_map_set, H'.
  - destruct (str_eqb T (lit "__proto__")); [reflexivity|].
    destruct (arr_includes objectPrototypeKeys T); now rewrite own_map_set, H'.
Qed.

Lemma count_fold (lines : list str) :
  forall o n,
    own o L = counted n ->
    own (fold_left
           (fun lineFrequency line =>
              let trimmed := trim line in
              if (5 <? length trimmed) && (length trimmed <? 150)
              then countLine lineFrequency trimmed
              else lineFrequency)
           lines o) L
    = counted (n + length (filter (fun line => str_eqb (trim line) L) lines)).
Proof.
  induction lines as [|line lines IH]; intros o n H; cbn [fold_left filter].
  - cbn [length]. now rewrite Nat.add_0_r.
  - cbv zeta. destruct (str_eqb (trim line) L) eqn:E.
    + pose proof E as E'. apply str_eqb_eq in E'. rewrite E'.
      replace (5 <? length L) with true by (symmetry; apply Nat.ltb_lt; lia).
      replace (length L <? 150) with true by (symmetry; apply Nat.ltb_lt; lia).
      cbn [andb length]. rewrite Nat.add_succ_r.
      apply (IH _ (S n)). now apply countLine_self.
    + destruct ((5 <? length (trim line)) && (length (trim line) <? 150)).
      * apply IH. now rewrite countLine_other.
      * now apply IH.
Qed.

Lemma lineFrequencies_count (cleaned : str) :
  own (lineFrequencies cleaned) L = counted (occurrences L cleaned).
Proof. unfold lineFrequencies, occurrences. now rewrite (count_fold _ [] 0). Qed.

Lemma insertIndex_In (x y : N * str) (l : list (N * str)) :
  In x (insertIndex y l) <-> x = y \/ In x l.
Proof.
  induction l as [|z l IH]; cbn [insertIndex].
  - simpl. intuition.
  - destruct (fst y <=? fst z)%N; simpl; [intuition|].
    rewrite IH. simpl. intuition.
Qed.

Lemma objectKeys_In {V} (o : JsMap V) (k : str) :
  In k (map fst o) -> In k (objectKeys o).
Proof.
  intros I. unfold objectKeys. apply in_or_app.
  destruct (arrayIndex k) as [n|] eqn:A.
  - left. apply in_map_iff. exists (n, k). split; [reflexivity|].
    induction o as [|[k0 v0] o IH]; [now elim I|].
    cbn [fold_right fst]. cbn [map fst] in I. destruct I as [->|I].
    + rewrite A. apply insertIndex_In. now left.
    + destruct (arrayIndex k0); [apply insertIndex_In; right|]; now apply IH.
  - right. apply filter_In. split; [exact I|]. now rewrite A.
Qed.

Lemma repeated_In (cleaned : str) :
  2 <= occurrences L cleaned -> In L (repeatedLines cleaned).
Proof.
  intros H. unfold repeatedLines.
  pose proof (lineFrequencies_count cleaned) as C.
  destruct (occurrences L cleaned) as [|n] eqn:O; [lia|]. cbn [counted] in C.
  apply filter_In. split.
  - apply objectKeys_In. now apply own_In with (v := Count (S n)).
  - rewrite C. apply Nat.leb_le. lia.
Qed.

End Counting.

(** Two lines that occur twice in the input and once in the output.
    The first stands before the abstract too: the text before the
    abstract is cut before the lines are counted.  The second is removed
    where it stands alone, and comes back as the end of the text where a
    later step cuts a line that starts with it. *)
Lemma repeated_line_kept :
  (occurrences (lit "Herbal remedy notes") Notes.headed = 2 /\
   5 < length (lit "Herbal remedy notes") < 150 /\
   occurrences (lit "Herbal remedy notes")
               (cleanAcademicText Notes.headed [] []) = 1) /\
  (occurrences (lit "Page header") Notes.cutShort = 2 /\
   5 < length (lit "Page header") < 150 /\
   occurrences (lit "Page header")
               (cleanAcademicText Notes.cutShort [] []) = 1).
Proof.
  repeat split; try (vm_compute; reflexivity); simpl; lia.
Qed.

(** Two lines that the step of the repeated lines itself leaves in the
    text.  A line whose text is the name of a member that every object
    inherits is never counted.  And a line with carriage returns inside
    can come about when another line is removed. *)
Lemma repeated_line_exceptions :
  (occurrences (lit "constructor") Notes.inherited = 2 /\
   occurrences (lit "constructor")
               (removeRepeatedLines (beforeRepeatedLines Notes.inherited [] [])) = 2 /\
   occurrences (lit "constructor")
               (cleanAcademicText Notes.inherited [] []) = 2) /\
  (occurrences (js "abc\r\rdef") Notes.separated = 2 /\
   removeRepeatedLines Notes.separated = js "\n\nabc\r\rdef" /\
   occurrences (js "abc\r\rdef") (removeRepeatedLines Notes.separated) = 1).
Proof.
  repeat split; vm_compute; reflexivity.
Qed.

(** C9 (amended).  Let [cleaned] be the text as it reaches the step of
    the repeated lines, and [L] a trimmed line of more than 5 and fewer
    than 150 characters that at least two lines of [cleaned] have as
    their trimmed form.  If [L] is not the name of a member inherited
    from [Object.prototype] and holds no line terminator (no carriage
    return, line or paragraph separator), then no line of the text that
    the step returns has the trimmed form [L]. *)
Theorem repeated_lines_removed (cleaned L : str) :
  2 <= occurrences L cleaned ->
  5 < length L < 150 ->
  arr_includes objectPrototypeKeys L = false ->
  str_eqb L (lit "__proto__") = false ->
  forallb (fun c => negb (isLineTerminator c)) L = true ->
  occurrences L (removeRepeatedLines cleaned) = 0.
Proof.
  intros Hocc Hlen Hinh Hproto Hterm.
  assert (NE : L <> []) by (intros ->; simpl in Hlen; lia).
  apply no_tline_no_line; [exact NE| |].
  - rewrite forallb_forall in Hterm. apply Forall_forall. intros c I.
    apply Hterm in I. now apply negb_true_iff in I.
  - unfold removeRepeatedLines. apply removeLines_self; [exact NE|].
    now apply repeated_In.
Qed.

Lemma repeated_lines_removed_witness :
  occurrences (lit "Page header") (beforeRepeatedLines Notes.paged [] []) = 2 /\
  occurrences (lit "Page header")
              (removeRepeatedLines (beforeRepeatedLines Notes.paged [] [])) = 0.
Proof.
  split; [vm_compute; reflexivity|].
  apply (repeated_lines_removed (beforeRepeatedLines Notes.paged [] [])
                                (lit "Page header")).
  - apply Nat.leb_le. vm_compute. reflexivity.
  - simpl. lia.
  - vm_compute. reflexivity.
  - vm_compute. reflexivity.
  - vm_compute. reflexivity.
Defined.

(* ================================================================== *)
(** * Further properties                                                *)
(* ================================================================== *)

(** ** Relations without duplicates *)

Section FirstOccurrences.

Context {A : Type}.
Variable key : A -> str.

Lemma firstsBy_keys (seen : list str) (l : list A) (x : A) :
  In x (firstsBy key seen l) -> In x l /\ ~ In (key x) seen.
Proof.
  revert seen; induction l as [|y l IH]; intros seen; simpl; [tauto|].
  destruct (arr_includes seen (key y)) eqn:E.
  - intros H. apply IH in H. tauto.
  - intros [<-|H].
    + split; [now left|]. intros H. apply arr_includes_In in H. congruence.
    + apply IH in H. simpl in H. tauto.
Qed.

Lemma firstsBy_NoDup (seen : list str) (l : list A) :
  NoDup (map key (firstsBy key seen l)).
Proof.
  revert seen; induction l as [|y l IH]; intros seen; simpl; [constructor|].
  destruct (arr_includes seen (key y)); [apply IH|].
  simpl. constructor; [|apply IH].
  intros H. apply in_map_iff in H as (z & E & Hz).
  apply firstsBy_keys in Hz as [_ Hz]. apply Hz. simpl. now left.
Qed.

Lemma firstsBy_Subseq (seen : list str) (l : list A) :
  Subseq (firstsBy key seen l) l.
Proof.
  revert seen; induction l as [|y l IH]; intros seen; simpl; [constructor|].
  destruct (arr_includes seen (key y)); constructor; apply IH.
Qed.

(** An element is kept exactly when it is the first of the list with
    its key (and the key is not in [seen]). *)
Lemma firstsBy_first (seen : list str) (l : list A) (x : A) :
  In x l -> ~ In (key x) seen ->
  exists f, find (fun y => str_eqb (key y) (key x)) l = Some f /\
            In f (firstsBy key seen l).
Proof.
  revert seen; induction l as [|y l IH]; intros seen; simpl; [tauto|].
  intros Hin Hseen.
  destruct (str_eqb (key y) (key x)) eqn:E.
  - apply str_eqb_eq in E. exists y. split; [reflexivity|].
    destruct (arr_includes seen (key y)) eqn:I.
    + apply arr_includes_In in I. rewrite E in I. contradiction.
    + now left.
  - destruct Hin as [->|Hin]; [rewrite str_eqb_refl in E; discriminate|].
    apply str_eqb_neq in E.
    destruct (arr_includes seen (key y)) eqn:I.
    + now apply IH.
    + destruct (IH (key y :: seen) Hin) as (f & F1 & F2).
      { simpl. intros [H|H]; [now apply E|contradiction]. }
      exists f. split; [assumption|now right].
Qed.

Lemma firstsBy_is_first (seen : list str) (l : list A) (x : A) :
  In x (firstsBy key seen l) ->
  exists pre post, l = pre ++ x :: post /\ ~ In (key x) (map key pre).
Proof.
  revert seen; induction l as [|y l IH]; intros seen; simpl; [tauto|].
  destruct (arr_includes seen (key y)) eqn:I.
  - intros H. pose proof (firstsBy_keys _ _ _ H) as [_ Hs].
    apply IH in H as (pre & post & El & Hn). subst l.
    exists (y :: pre), post. split; [reflexivity|].
    simpl. intros [E|E]; [|contradiction].
    apply arr_includes_In in I. rewrite E in I. contradiction.
  - intros [<-|H].
    + exists [], l. split; [reflexivity|simpl; tauto].
    + pose proof (firstsBy_keys _ _ _ H) as [_ Hs].
      apply IH in H as (pre & post & El & Hn). subst l.
      exists (y :: pre), post. split; [reflexivity|].
      simpl. intros [E|E]; [|contradiction]. apply Hs. simpl. now left.
Qed.

(** A list without two equal keys, none of them seen, is kept whole. *)
Lemma firstsBy_fixed (seen : list str) (l : list A) :
  NoDup (map key l) -> (forall x, In x l -> ~ In (key x) seen) ->
  firstsBy key seen l = l.
Proof.
  revert seen; induction l as [|y l IH]; intros seen N S; simpl; [reflexivity|].
  inversion N as [|? ? N1 N2]; subst.
  destruct (arr_includes seen (key y)) eqn:I.
  - apply arr_includes_In in I. elim (S y); [now left|assumption].
  - f_equal. apply IH; [assumption|].
    intros x Hx [E|E].
    + apply N1. rewrite E. now apply in_map.
    + apply (S x); [now right|assumption].
Qed.

Lemma firstsBy_idem (l : list A) :
  firstsBy key [] (firstsBy key [] l) = firstsBy key [] l.
Proof. apply firstsBy_fixed; [apply firstsBy_NoDup|]. intros x _ []. Qed.

End FirstOccurrences.

Lemma set_add_In (s : JsSet) (x y : str) :
  In y (set_add s x) <-> In y s \/ y = x.
Proof.
  unfold set_add. destruct (set_has s x) eqn:E.
  - apply set_has_In in E. split; [tauto|]. intros [H | ->]; assumption.
  - rewrite in_app_iff. simpl. intuition.
Qed.

Lemma dedupRel_fold (relations : list Relation) :
  forall (set : JsSet) (acc : list Relation) (seen : list str),
    (forall k, In k set <-> In k seen) ->
    snd (fold_left dedupRelStep relations (set, acc)) =
    acc ++ firstsBy relationKey seen relations.
Proof.
  induction relations as [|r rs IH]; intros set acc seen H; simpl.
  - now rewrite app_nil_r.
  - unfold dedupRelStep at 2. cbn [fst snd]. fold (relationKey r).
    assert (E : set_has set (relationKey r) = arr_includes seen (relationKey r)).
    { destruct (set_has set (relationKey r)) eqn:E1;
        destruct (arr_includes seen (relationKey r)) eqn:E2; try reflexivity.
      - apply set_has_In, H, arr_includes_In in E1. congruence.
      - apply arr_includes_In, H, set_has_In in E2. congruence. }
    rewrite E. destruct (arr_includes seen (relationKey r)); cbn [negb].
    + now apply IH.
    + rewrite (IH _ _ (relationKey r :: seen)).
      * now rewrite <- app_assoc.
      * intros k. rewrite set_add_In, H. simpl. intuition.
Qed.

Lemma deduplicateRelations_firsts (relations : list Relation) :
  deduplicateRelations relations = firstsBy relationKey [] relations.
Proof.
  unfold deduplicateRelations.
  exact (dedupRel_fold relations [] [] [] (fun k => iff_refl _)).
Qed.

(** X1.  The output of [deduplicateRelations] holds no two relations
    with the same key (source, bar, relation, bar, target); it is the
    input without some of its elements, the others in their order; a
    relation of the output is the first of the input with its key, and
    every relation of the input has the first relation with its key in
    the output. *)
Theorem deduplicateRelations_first_wins (relations : list Relation) :
  let out := deduplicateRelations relations in
  NoDup (map relationKey out) /\
  Subseq out relations /\
  (forall o, In o out ->
     exists pre post, relations = pre ++ o :: post /\
                      ~ In (relationKey o) (map relationKey pre)) /\
  (forall r, In r relations ->
     exists f, find (fun x => str_eqb (relationKey x) (relationKey r)) relations
                 = Some f /\ In f out).
Proof.
  intros out. subst out. rewrite deduplicateRelations_firsts.
  split; [apply firstsBy_NoDup|]. split; [apply firstsBy_Subseq|]. split.
  - intros o. apply firstsBy_is_first.
  - intros r H. apply firstsBy_first; [assumption|intros []].
Qed.

(** X2.  [deduplicateRelations] applied to its own output changes
    nothing. *)
Theorem deduplicateRelations_idempotent (relations : list Relation) :
  deduplicateRelations (deduplicateRelations relations)
  = deduplicateRelations relations.
Proof. rewrite !deduplicateRelations_firsts. apply firstsBy_idem. Qed.

(** ** More on entities and names *)

Lemma firsts_firstsBy (seen : list str) (l : list Entity) :
  firsts seen l = firstsBy entityKey seen l.
Proof.
  revert seen; induction l as [|e l IH]; intros seen; simpl; [reflexivity|].
  now rewrite !IH.
Qed.

Lemma firstsBy_map {A} (key : A -> str) (g : A -> A) (seen : list str) (l : list A) :
  (forall x, In x l -> key (g x) = key x) ->
  firstsBy key seen (map g l) = map g (firstsBy key seen l).
Proof.
  revert seen; induction l as [|x l IH]; intros seen H; simpl; [reflexivity|].
  rewrite (H x (or_introl eq_refl)).
  destruct (arr_includes seen (key x)); simpl; rewrite IH; auto;
    intros y Hy; apply H; now right.
Qed.

Lemma upperChar_idem (c : char) : upperChar (upperChar c) = upperChar c.
Proof.
  unfold upperChar, isLower, in_range.
  destruct ((97 <=? c) && (c <=? 122))%N eqn:E; [|now rewrite E].
  apply andb_true_iff in E as [E1 E2].
  apply N.leb_le in E1, E2.
  replace (97 <=? c - 32)%N with false; [reflexivity|].
  symmetry. apply N.leb_gt. lia.
Qed.

Lemma stored_idem (e : Entity) :
  isAscii (type e) = true -> stored (stored e) = stored e.
Proof.
  intros _. unfold stored. simpl. f_equal. unfold toUpperCase. rewrite map_map.
  apply map_ext. apply upperChar_idem.
Qed.

(** X3.  For entities whose types are ASCII texts,
    [deduplicateEntities] applied to its own output changes nothing: the
    keys of the output are distinct and its types are already in upper
    case. *)
Theorem deduplicateEntities_idempotent (entities : list Entity) :
  Forall (fun e => isAscii (type e) = true) entities ->
  deduplicateEntities (deduplicateEntities entities)
  = deduplicateEntities entities.
Proof.
  intros A. rewrite Forall_forall in A.
  assert (I : forall e, In e (firstsBy entityKey [] entities) ->
                        isAscii (type e) = true).
  { intros e He. apply A.
    now apply (firstsBy_keys entityKey) in He as [He _]. }
  rewrite !deduplicateEntities_firsts, !firsts_firstsBy.
  rewrite firstsBy_map by (intros e He; apply entityKey_stored; now apply I).
  rewrite firstsBy_idem, map_map.
  apply map_ext_in. intros e He. apply stored_idem. now apply I.
Qed.

Lemma deduplicateEntities_idempotent_witness :
  let entities := [ {| name := lit "Ginger"; type := lit "plant" |};
                    {| name := lit "ginger "; type := lit "PLANT" |};
                    {| name := lit "Headache"; type := lit "Symptom" |} ] in
  deduplicateEntities (deduplicateEntities entities)
    = [ {| name := lit "Ginger"; type := lit "PLANT" |};
        {| name := lit "Headache"; type := lit "SYMPTOM" |} ].
Proof.
  cbn zeta.
  rewrite (deduplicateEntities_idempotent
             [ {| name := lit "Ginger"; type := lit "plant" |};
               {| name := lit "ginger "; type := lit "PLANT" |};
               {| name := lit "Headache"; type := lit "Symptom" |} ]).
  - vm_compute. reflexivity.
  - repeat constructor.
Defined.

(** X4.  The normalised name of an ASCII text is never longer than the
    text; it has no capital letter A to Z, no parenthesis and no square
    bracket, and its only white-space character is the space. *)
Theorem normalizeEntityName_normal_form (x : str) :
  isAscii x = true ->
  let y := normalizeEntityName x in
  length y <= length x /\
  Forall (fun c => isUpper c = false) y /\
  Forall (fun c => ~ In c (lit "()[]")) y /\
  Forall (fun c => isSpace c = true -> c = 32%N) y.
Proof.
  intros _ y. destruct (normalizeEntityName_shape x) as (F1 & F2 & F3).
  fold y in F1, F2, F3. split; [|split; [|split; [|exact F3]]].
  - subst y. rewrite normalizeEntityName_eq.
    pose proof (proj1 (dropFinalPeriod_length
      (filter (fun c => negb (in_class f_none (map CC (lit "()[]")) c))
         (collapseRuns false (trim (toLowerCase x)))))) as L1.
    pose proof (filter_length_le
      (fun c => negb (in_class f_none (map CC (lit "()[]")) c))
      (collapseRuns false (trim (toLowerCase x)))) as L2.
    pose proof (proj1 (collapseRuns_length (trim (toLowerCase x)))) as L3.
    pose proof (proj1 (trim_length (toLowerCase x))) as L4.
    unfold toLowerCase in L4 at 2. rewrite length_map in L4. lia.
  - eapply Forall_impl; [|exact F1]. intros c Hc. unfold lowerChar in Hc.
    destruct (isUpper c) eqn:U; [|reflexivity].
    unfold isUpper, in_range in U. apply andb_true_iff in U as [U1 U2].
    apply N.leb_le in U1, U2. lia.
  - eapply Forall_impl; [|exact F2]. intros c Hc I. unfold isBracket in Hc.
    simpl in I. destruct I as [<-|[<-|[<-|[<-|[]]]]]; vm_compute in Hc; discriminate.
Qed.

Lemma normalizeEntityName_normal_form_witness :
  normalizeEntityName (lit " Curcuma  Longa (L.) ") = lit "curcuma longa l" /\
  length (normalizeEntityName (lit " Curcuma  Longa (L.) "))
    <= length (lit " Curcuma  Longa (L.) ").
Proof.
  split; [vm_compute; reflexivity|].
  apply (normalizeEntityName_normal_form (lit " Curcuma  Longa (L.) ") eq_refl).
Defined.

Lemma set_has_of (l : list str) (x : str) :
  set_has (set_of l) x = arr_includes l x.
Proof.
  destruct (set_has (set_of l) x) eqn:E1; destruct (arr_includes l x) eqn:E2;
    try reflexivity.
  - apply (proj1 (set_has_In _ _)), (proj1 (set_of_In _ _)),
      (proj2 (arr_includes_In _ _)) in E1. congruence.
  - apply (proj1 (arr_includes_In _ _)), (proj2 (set_of_In _ _)),
      (proj2 (set_has_In _ _)) in E2. congruence.
Qed.

(** X5.  [filterRelationsByEntities] keeps the order of the relations;
    filtering its output again with the same entities changes nothing;
    and a relation kept for a list of entities is kept for every list
    that has all their normalised names. *)
Theorem filterRelationsByEntities_stable
    (relations : list Relation) (es es' : list Entity) :
  Subseq (filterRelationsByEntities relations es) relations /\
  filterRelationsByEntities (filterRelationsByEntities relations es) es
    = filterRelationsByEntities relations es /\
  ((forall e, In e es ->
      In (normalizeEntityName (name e))
         (map (fun x => normalizeEntityName (name x)) es')) ->
   forall rel, In rel (filterRelationsByEntities relations es) ->
               In rel (filterRelationsByEntities relations es')).
Proof.
  split; [|split].
  - unfold filterRelationsByEntities.
    induction relations as [|r rs IH]; simpl; [constructor|].
    match goal with |- context [if ?b then _ else _] => destruct b end;
      constructor; exact IH.
  - unfold filterRelationsByEntities.
    induction relations as [|r rs IH]; simpl; [reflexivity|].
    match goal with |- context [if ?b then r :: _ else _] => destruct b eqn:E end;
      [|exact IH].
    simpl. rewrite E. now rewrite IH.
  - intros H rel. unfold filterRelationsByEntities. rewrite !filter_In.
    intros [I K]. split; [exact I|].
    destruct (negb (truthy_str (source rel)) || negb (truthy_str (relation rel))
              || negb (truthy_str (target rel))); [discriminate|].
    rewrite !set_has_of in *. apply andb_true_iff in K as [K1 K2].
    apply arr_includes_In, in_map_iff in K1 as (e1 & E1 & I1).
    apply arr_includes_In, in_map_iff in K2 as (e2 & E2 & I2).
    apply andb_true_iff. split; apply arr_includes_In.
    + rewrite <- E1. now apply H.
    + rewrite <- E2. now apply H.
Qed.

(** ** More on cleanAcademicText *)

Section CleanedText.

Lemma trim_idem (s : str) : trim (trim s) = trim s.
Proof.
  destruct (trim s) as [|c r] eqn:E; [reflexivity|]. rewrite <- E.
  pose proof (trim_sandwich [] (trim s) [] (trim_trimmed s)) as H.
  rewrite app_nil_r in H. cbn [app] in H.
  apply H; [rewrite E; discriminate|constructor|constructor].
Qed.

Lemma trimmed_ends (L : str) :
  trimmed L ->
  (forall c rest, L = c :: rest -> isSpace c = false) /\
  (forall c pre, L = pre ++ [c] -> isSpace c = false).
Proof.
  intros [T1 T2]. split.
  - intros c rest E. rewrite E in T1. now apply trimStart_head in T1.
  - intros c pre E. rewrite E, rev_app_distr in T2. cbn [rev app] in T2.
    now apply trimStart_head in T2.
Qed.

End CleanedText.

(** X6.  The text that [cleanAcademicText] returns has no white space at
    its start or at its end: trimming it changes nothing. *)
Theorem cleanAcademicText_trimmed (text headerPattern footerPattern : str) :
  let out := cleanAcademicText text headerPattern footerPattern in
  trim out = out /\
  (forall c rest, out = c :: rest -> isSpace c = false) /\
  (forall c pre, out = pre ++ [c] -> isSpace c = false).
Proof.
  intros out. subst out.
  unfold cleanAcademicText, afterReferences, finalCleanup.
  split; [apply trim_idem|]. apply trimmed_ends, trim_trimmed.
Qed.

Section LinesKept.

Variable Q : str -> Prop.
Hypothesis Q_empty : Q [].

Lemma removeLine_keeps (M t : str) :
  Forall Q (tlines t) -> Forall Q (tlines (removeLine t M)).
Proof.
  intros H. unfold removeLine.
  apply replace_all_lines; [exact Q_empty|apply whole_line_shape|].
  apply Forall_forall. intros R I. left.
  rewrite Forall_forall in H. now apply H.
Qed.

Lemma removeLines_keep (Ms : list str) :
  forall t, Forall Q (tlines t) -> Forall Q (tlines (fold_left removeLine Ms t)).
Proof.
  induction Ms as [|M Ms IH]; intros t H; [exact H|].
  cbn [fold_left]. apply IH. now apply removeLine_keeps.
Qed.

End LinesKept.

(** X7.  The step of the repeated lines removes whole lines only: every
    line of its output (the lines as the [m] flag cuts them, at each line
    terminator) is empty or is a line of its input, as it was. *)
Theorem removeRepeatedLines_no_new_line (cleaned : str) :
  Forall (fun R => R = [] \/ In R (tlines cleaned))
         (tlines (removeRepeatedLines cleaned)).
Proof.
  unfold removeRepeatedLines.
  apply (removeLines_keep (fun R => R = [] \/ In R (tlines cleaned)));
    [now left|].
  apply Forall_forall. intros R I. now right.
Qed.

Section LiteralPattern.

Variable fl : flags.
Hypothesis case_sensitive : ignoreCase fl = false.

Lemma chr_eq_exact (a b : char) : chr_eq fl a b = (a =? b)%N.
Proof. unfold chr_eq, canonicalize. now rewrite case_sensitive. Qed.

Lemma litRe_exact (s : str) :
  forall st x,
    mt fl (litRe s) st (fun y => Some y) = Some x ->
    startsWith (m_rest st) s = true /\ m_pos x = m_pos st + length s.
Proof.
  induction s as [|c s IH]; intros st x H; cbn [litRe mt] in H.
  - inversion H; subst. split; [now destruct (m_rest x)|simpl; lia].
  - destruct (m_rest st) as [|y rest] eqn:E; [discriminate|].
    rewrite chr_eq_exact in H. destruct (c =? y)%N eqn:C; [|discriminate].
    apply IH in H as [H1 H2]. cbn [advance m_rest m_pos] in H1, H2.
    cbn [startsWith length]. rewrite C, H1. split; [reflexivity|lia].
Qed.

Lemma litRe_matches (s : str) :
  forall st, startsWith (m_rest st) s = true ->
             mt fl (litRe s) st (fun y => Some y) <> None.
Proof.
  induction s as [|c s IH]; intros st H; cbn [litRe mt].
  - discriminate.
  - destruct (m_rest st) as [|y rest] eqn:E; [discriminate|].
    cbn [startsWith] in H. apply andb_true_iff in H as [C H].
    rewrite chr_eq_exact, C. apply IH. exact H.
Qed.

End LiteralPattern.

Lemma literalSource_escaped (s : str) :
  literalSource (flat_map escapeChar s) = Some (litRe s).
Proof.
  induction s as [|c s IH]; [reflexivity|].
  cbn [flat_map]. unfold escapeChar at 1.
  destruct (isSyntaxChar c) eqn:E.
  - cbn [app literalSource]. rewrite N.eqb_refl, E, IH. reflexivity.
  - cbn [app literalSource].
    destruct (c =? bsl)%N eqn:B.
    + apply N.eqb_eq in B. subst c. vm_compute in E. discriminate.
    + rewrite E, IH. reflexivity.
Qed.

Lemma literalSource_RegExp_escaped (n : nat) :
  forall source r,
    length source <= n ->
    literalSource source = Some r -> RegExp_escaped source = r.
Proof.
  induction n as [|n IH]; intros source r L H.
  - destruct source; [|cbn [length] in L; lia]. now inversion H.
  - destruct source as [|c rest]; cbn [literalSource RegExp_escaped length] in *.
    + now inversion H.
    + destruct (c =? bsl)%N.
      * destruct rest as [|x rest']; [discriminate|].
        destruct (isSyntaxChar x); [|discriminate].
        destruct (literalSource rest') as [r'|] eqn:E; [|discriminate].
        inversion H. f_equal. apply IH; [cbn [length] in L; lia|exact E].
      * destruct (isSyntaxChar c); [discriminate|].
        destruct (literalSource rest) as [r'|] eqn:E; [|discriminate].
        inversion H. f_equal. apply IH; [lia|exact E].
Qed.

(** X8.  [escapeRegExp] escapes enough: whatever the text, in its result
    every syntax character of the patterns has a backslash and no other
    character has one, so [new RegExp] reads the result as the literal
    text, and as the pattern that the steps of [cleanAcademicText] are
    modelled with.  Without the [i] flag this pattern matches at a
    position exactly when the input has the text there, character for
    character, and the match is as long as the text. *)
Theorem escaped_pattern_literal (s : str) :
  literalSource (escapeRegExp s) = Some (litRe s) /\
  RegExp_escaped (escapeRegExp s) = litRe s /\
  forall (fl : flags) (prev : option char) (rest : str) (pos : nat),
    ignoreCase fl = false ->
    (exec_at fl (RegExp_escaped (escapeRegExp s)) prev rest pos <> None
     <-> startsWith rest s = true) /\
    (forall st, exec_at fl (RegExp_escaped (escapeRegExp s)) prev rest pos = Some st ->
                m_pos st = pos + length s).
Proof.
  assert (L : literalSource (escapeRegExp s) = Some (litRe s)).
  { rewrite escapeRegExp_eq. apply literalSource_escaped. }
  split; [exact L|].
  split; [exact (literalSource_RegExp_escaped _ _ _ (le_n _) L)|].
  intros fl prev rest pos C.
  rewrite RegExp_escaped_literal. unfold exec_at. split; [split|].
  - intros H.
    destruct (mt fl (litRe s) _ _) as [x|] eqn:E; [|now elim H].
    now apply (litRe_exact fl C) in E as [E _].
  - intros H. now apply (litRe_matches fl C).
  - intros st H. now apply (litRe_exact fl C) in H as [_ H].
Qed.

Lemma escaped_pattern_literal_witness :
  escapeRegExp (lit "Vol. 3 (2)") = lit "Vol\. 3 \(2\)" /\
  literalSource (lit "Vol\. 3 \(2\)") = Some (litRe (lit "Vol. 3 (2)")) /\
  literalSource (lit "Vol. 3 (2)") = None /\
  (exec_at f_m (RegExp_escaped (escapeRegExp (lit "Vol. 3 (2)"))) None
           (lit "Vol. 3 (2) p. 7") 0 <> None
   <-> startsWith (lit "Vol. 3 (2) p. 7") (lit "Vol. 3 (2)") = true).
Proof.
  split; [vm_compute; reflexivity|].
  split; [vm_compute; reflexivity|].
  split; [vm_compute; reflexivity|].
  exact (proj1 (proj2 (proj2 (escaped_pattern_literal (lit "Vol. 3 (2)")))
                  f_m None (lit "Vol. 3 (2) p. 7") 0 eq_refl)).
Defined.

Section Shrinking.

Variable fl : flags.
Variable r : regex.
Variable tpl : list titem.
Variable input : str.

(** What replaces a match is not longer than the match. *)
Hypothesis expansion_short :
  forall prev rest pos st,
    exec_at fl r prev rest pos = Some st ->
    length (expand input pos st tpl) <= m_pos st - pos.

Lemma exec_at_within (prev : option char) (rest : str) (pos : nat) (st : mstate) :
  exec_at fl r prev rest pos = Some st -> m_pos st - pos <= length rest.
Proof.
  unfold exec_at. intros H. apply mt_reaching in H as (st' & (mid & R & P) & K).
  inversion K; subst st'. cbn [m_rest m_pos] in R, P.
  rewrite R, length_app. lia.
Qed.

Lemma replace_all_from_shrinks (rest : str) :
  forall prev pos skip,
    length (replace_all_from fl r tpl input prev rest pos skip)
    <= length rest - skip.
Proof.
  induction rest as [|c rest IH]; intros prev pos skip.
  - destruct skip; cbn [replace_all_from]; [|simpl; lia].
    destruct (exec_at fl r prev [] pos) as [st|] eqn:E; [|simpl; lia].
    pose proof (expansion_short _ _ _ _ E) as H1.
    pose proof (exec_at_within _ _ _ _ E) as H2.
    rewrite app_nil_r. simpl in *. lia.
  - destruct skip as [|skip]; cbn [replace_all_from].
    + destruct (exec_at fl r prev (c :: rest) pos) as [st|] eqn:E.
      * pose proof (expansion_short _ _ _ _ E) as H1.
        pose proof (exec_at_within _ _ _ _ E) as H2.
        rewrite length_app. cbn [length] in *.
        destruct (m_pos st - pos) as [|n] eqn:N.
        -- specialize (IH (Some c) (S pos) 0). cbn [length]. lia.
        -- specialize (IH (Some c) (S pos) n). lia.
      * specialize (IH (Some c) (S pos) 0). cbn [length]. lia.
    + specialize (IH (Some c) (S pos) skip). cbn [length]. lia.
Qed.

End Shrinking.

Section ShrinkingSteps.

Lemma replace_all_removes (fl : flags) (r : regex) (s : str) :
  length (replace_all fl r [] s) <= length s.
Proof.
  unfold replace_all.
  pose proof (replace_all_from_shrinks fl r [] s
                (fun _ _ _ _ _ => Nat.le_0_l _) s None 0 0) as H.
  lia.
Qed.

Lemma fold_removes {A} (f : str -> A -> str) (l : list A) :
  (forall s a, length (f s a) <= length s) ->
  forall s, length (fold_left f l s) <= length s.
Proof.
  intros H. induction l as [|a l IH]; intros s; simpl; [lia|].
  specialize (IH (f s a)). specialize (H s a). lia.
Qed.

Lemma substring_length (s : str) (a b : Z) : length (substring s a b) <= length s.
Proof.
  unfold substring. rewrite length_firstn, length_skipn. lia.
Qed.

Lemma substringFrom_length (s : str) (a : Z) : length (substringFrom s a) <= length s.
Proof. unfold substringFrom. rewrite length_skipn. lia. Qed.

Lemma trim_substring_length (s : str) (a b : Z) :
  length (trim (substring s a b)) <= length s.
Proof.
  pose proof (proj1 (trim_length (substring s a b))).
  pose proof (substring_length s a b). lia.
Qed.

(** A run of spaces and tabs becomes one space. *)
Lemma spaces_to_space (s : str) :
  length (replace_all f_none (plus (Cls false [CC 32%N; CC tab])) [TLit (lit " ")] s)
  <= length s.
Proof.
  unfold replace_all.
  assert (H : forall prev rest pos st,
             exec_at f_none (plus (Cls false [CC 32%N; CC tab])) prev rest pos = Some st ->
             length (expand s pos st [TLit (lit " ")]) <= m_pos st - pos).
  { intros prev rest pos st E. cbn [expand flat_map app length lit].
    simpl length.
    unfold exec_at, plus in E. rewrite mt_plus_cls in E. cbn [m_rest] in E.
    destruct rest as [|c rest]; [discriminate|].
    destruct (xorb false (in_class f_none [CC 32%N; CC tab] c)); [|discriminate].
    apply mt_reaching in E as (st' & X & K). inversion K; subst st'.
    apply ext_pos in X. cbn [advance m_pos] in X. lia. }
  pose proof (replace_all_from_shrinks f_none _ _ s H s None 0 0). lia.
Qed.

(** Three line feeds or more, with white space between, become two. *)
Lemma collapseBlankLines_length (s : str) :
  length (collapseBlankLines s) <= length s.
Proof.
  unfold collapseBlankLines, replace_all.
  assert (H : forall prev rest pos st,
             exec_at f_none re_blank_lines prev rest pos = Some st ->
             length (expand s pos st [TLit [nl; nl]]) <= m_pos st - pos).
  { intros prev rest pos st E. cbn [expand flat_map app length].
    unfold exec_at in E.
    change re_blank_lines
      with (Seq (Chr nl) (Seq (star s_) (Seq (Chr nl) (Seq (star s_) (plus (Chr nl))))))
      in E.
    cbn [mt] in E. cbn [m_rest] in E.
    destruct rest as [|c rest]; [discriminate|].
    destruct (chr_eq f_none nl c); [|discriminate].
    apply (mt_reaching f_none (star s_)) in E as (s1 & X1 & E).
    destruct (m_rest s1) as [|d rest1]; [discriminate|].
    destruct (chr_eq f_none nl d); [|discriminate].
    apply (mt_reaching f_none (Seq (star s_) (plus (Chr nl)))) in E as (s2 & X2 & K).
    inversion K; subst s2.
    apply ext_pos in X1, X2. cbn [advance m_pos] in X1, X2. lia. }
  pose proof (replace_all_from_shrinks f_none _ _ s H s None 0 0). lia.
Qed.

Lemma join_nlines (s : str) : join [nl] (nlines s) = s.
Proof.
  induction s as [|c s IH]; [reflexivity|].
  cbn [nlines]. pose proof (nlines_nonempty s) as N.
  destruct (c =? nl)%N eqn:E.
  - apply N.eqb_eq in E. subst c.
    destruct (nlines s) as [|l ls]; [now elim N|].
    change (join [nl] ([] :: l :: ls)) with (nl :: join [nl] (l :: ls)).
    now rewrite IH.
  - destruct (nlines s) as [|l ls]; [now elim N|].
    destruct ls as [|l' ls].
    + simpl in *. now rewrite IH.
    + change (join [nl] ((c :: l) :: l' :: ls))
        with (c :: (l ++ [nl] ++ join [nl] (l' :: ls))).
      change (join [nl] (l :: l' :: ls))
        with (l ++ [nl] ++ join [nl] (l' :: ls)) in IH.
      now rewrite IH.
Qed.

Lemma weight_cons (x : str) (l : list str) :
  weight (x :: l) = S (length x + weight l).
Proof. reflexivity. Qed.

Lemma join_weight (l : list str) : length (join [nl] l) = weight l - 1.
Proof.
  induction l as [|x l IH]; [reflexivity|].
  destruct l as [|y l].
  - simpl. lia.
  - change (join [nl] (x :: y :: l)) with (x ++ [nl] ++ join [nl] (y :: l)).
    rewrite !length_app, IH, !weight_cons. cbn [length]. lia.
Qed.

Lemma filterLines_weight (l : list str) : weight (filterLines l) <= weight l.
Proof.
  induction l as [|x l IH]; [simpl; lia|].
  cbn [filterLines]. destruct (keepLine x (hd_error l));
    rewrite ?weight_cons; lia.
Qed.

Lemma removeShortLines_length (s : str) : length (removeShortLines s) <= length s.
Proof.
  unfold removeShortLines. rewrite splitChar_nlines, join_weight.
  pose proof (filterLines_weight (nlines s)) as H.
  pose proof (join_weight (nlines s)) as J. rewrite join_nlines in J. lia.
Qed.

End ShrinkingSteps.

Section ShrinkingPipeline.

Lemma startFromAbstract_length (s : str) : length (startFromAbstract s) <= length s.
Proof.
  unfold startFromAbstract. destruct (0 <? findStartIndex s)%Z; [|lia].
  apply substringFrom_length.
Qed.

Lemma removeHeaderWord_length (s w : str) : length (removeHeaderWord s w) <= length s.
Proof.
  unfold removeHeaderWord. destruct (5 <? length w); [|lia].
  apply replace_all_removes.
Qed.

Lemma removeHeader_length (h s : str) : length (removeHeader h s) <= length s.
Proof.
  unfold removeHeader. destruct (truthy_str h && (5 <? length h)); [|lia].
  cbv zeta.
  pose proof (fold_removes removeHeaderWord
                (filter (fun w => 4 <? length w) (split f_none (plus s_) h))
                removeHeaderWord_length
                (replace_all f_i (RegExp_escaped (escapeRegExp h)) [] s)) as H1.
  pose proof (replace_all_removes f_i (RegExp_escaped (escapeRegExp h)) s). lia.
Qed.

Lemma removeJournalHeaders_length (s : str) :
  length (removeJournalHeaders s) <= length s.
Proof.
  unfold removeJournalHeaders.
  pose proof (replace_all_removes f_mi re_header1 s).
  pose proof (replace_all_removes f_mi re_header2 (replace_all f_mi re_header1 [] s)).
  pose proof (replace_all_removes f_mi re_header3
                (replace_all f_mi re_header2 [] (replace_all f_mi re_header1 [] s))).
  lia.
Qed.

Lemma removeFooter_length (f s : str) : length (removeFooter f s) <= length s.
Proof.
  unfold removeFooter. destruct (truthy_str f && (5 <? length f)); [|lia].
  apply replace_all_removes.
Qed.

Lemma removeJournalFooters_length (s : str) :
  length (removeJournalFooters s) <= length s.
Proof.
  unfold removeJournalFooters.
  pose proof (replace_all_removes f_mi re_footer1 s).
  pose proof (replace_all_removes f_mi re_footer2 (replace_all f_mi re_footer1 [] s)).
  lia.
Qed.

Lemma removeMetadata_length (s : str) : length (removeMetadata s) <= length s.
Proof.
  unfold removeMetadata.
  pose proof (replace_all_removes f_i re_issn s).
  pose proof (replace_all_removes f_i re_doi (replace_all f_i re_issn [] s)).
  pose proof (replace_all_removes f_i re_url
                (replace_all f_i re_doi [] (replace_all f_i re_issn [] s))).
  pose proof (replace_all_removes f_i re_email
                (replace_all f_i re_url []
                   (replace_all f_i re_doi [] (replace_all f_i re_issn [] s)))).
  lia.
Qed.

Lemma removePageNumbers_length (s : str) : length (removePageNumbers s) <= length s.
Proof.
  unfold removePageNumbers.
  pose proof (replace_all_removes f_m re_page1 s).
  pose proof (replace_all_removes f_m re_page2 (replace_all f_m re_page1 [] s)).
  pose proof (replace_all_removes f_m re_page3
                (replace_all f_m re_page2 [] (replace_all f_m re_page1 [] s))).
  lia.
Qed.

Lemma normalizeWhitespace_length (s : str) :
  length (normalizeWhitespace s) <= length s.
Proof.
  unfold normalizeWhitespace.
  pose proof (spaces_to_space s).
  pose proof (collapseBlankLines_length
                (replace_all f_none (plus (Cls false [CC 32%N; CC tab]))
                   [TLit (lit " ")] s)).
  lia.
Qed.

Lemma removeRepeatedLines_length (s : str) :
  length (removeRepeatedLines s) <= length s.
Proof.
  unfold removeRepeatedLines. apply fold_removes.
  intros t M. apply replace_all_removes.
Qed.

Lemma cutConflicts_length (s : str) : length (cutConflicts s) <= length s.
Proof.
  unfold cutConflicts. destruct (0 <? search f_i re_conflicts s)%Z; [|lia].
  apply trim_substring_length.
Qed.

Lemma cutAcknowledgments_length (s : str) :
  length (cutAcknowledgments s) <= length s.
Proof.
  unfold cutAcknowledgments.
  destruct ((0 <? search f_i re_acknowledgments s)%Z && _); [|lia].
  apply trim_substring_length.
Qed.

Lemma cutReferences_length (s : str) : length (cutReferences s) <= length s.
Proof.
  unfold cutReferences.
  destruct ((0 <? search f_i re_references s)%Z && _); [|lia].
  cbv zeta. destruct (_ || _); [|lia].
  apply trim_substring_length.
Qed.

Lemma cutAuthorContributions_length (s : str) :
  length (cutAuthorContributions s) <= length s.
Proof.
  unfold cutAuthorContributions.
  destruct ((0 <? search f_i re_author s)%Z && _); [|lia].
  apply trim_substring_length.
Qed.

Lemma afterReferences_length (s : str) : length (afterReferences s) <= length s.
Proof.
  unfold afterReferences, finalCleanup, removeCaptions.
  pose proof (cutAuthorContributions_length s).
  pose proof (replace_all_removes f_mi re_caption (cutAuthorContributions s)).
  pose proof (collapseBlankLines_length
                (replace_all f_mi re_caption [] (cutAuthorContributions s))).
  pose proof (proj1 (trim_length
                (collapseBlankLines
                   (replace_all f_mi re_caption [] (cutAuthorContributions s))))).
  lia.
Qed.

Lemma beforeRepeatedLines_length (text h f : str) :
  length (beforeRepeatedLines text h f) <= length text.
Proof.
  unfold beforeRepeatedLines.
  pose proof (startFromAbstract_length text) as H1.
  set (t1 := startFromAbstract text) in *.
  pose proof (removeHeader_length h t1) as H2.
  set (t2 := removeHeader h t1) in *.
  pose proof (removeJournalHeaders_length t2) as H3.
  set (t3 := removeJournalHeaders t2) in *.
  pose proof (removeFooter_length f t3) as H4.
  set (t4 := removeFooter f t3) in *.
  pose proof (removeJournalFooters_length t4) as H5.
  set (t5 := removeJournalFooters t4) in *.
  pose proof (removeMetadata_length t5) as H6.
  set (t6 := removeMetadata t5) in *.
  pose proof (removePageNumbers_length t6) as H7.
  set (t7 := removePageNumbers t6) in *.
  pose proof (normalizeWhitespace_length t7) as H8.
  set (t8 := normalizeWhitespace t7) in *.
  pose proof (removeShortLines_length t8) as H9.
  lia.
Qed.

End ShrinkingPipeline.

(** X9.  [cleanAcademicText] only removes: whatever the text and the
    two patterns, the text it returns is not longer than the text it is
    given, and so is the text after each group of steps. *)
Theorem cleanAcademicText_not_longer (text headerPattern footerPattern : str) :
  length (cleanAcademicText text headerPattern footerPattern) <= length text /\
  length (beforeRepeatedLines text headerPattern footerPattern) <= length text /\
  length (beforeReferences text headerPattern footerPattern) <= length text.
Proof.
  pose proof (beforeRepeatedLines_length text headerPattern footerPattern) as H1.
  assert (H2 : length (beforeReferences text headerPattern footerPattern)
               <= length text).
  { unfold beforeReferences.
    set (t := beforeRepeatedLines text headerPattern footerPattern) in *.
    pose proof (removeRepeatedLines_length t).
    pose proof (cutConflicts_length (removeRepeatedLines t)).
    pose proof (cutAcknowledgments_length (cutConflicts (removeRepeatedLines t))).
    lia. }
  split; [|split; assumption].
  unfold cleanAcademicText.
  set (t := beforeReferences text headerPattern footerPattern) in *.
  pose proof (cutReferences_length t).
  pose proof (afterReferences_length (cutReferences t)). lia.
Qed.

(** ** The step of the references, both ways *)

(** C2 (amended).  Let [cleaned] be the text as it reaches the step of
    the references, for a header and a footer pattern of ASCII
    characters, and let the first heading of references in it be at an
    index [i] greater than 0, with a line of a numbered list after it.
    If the heading is within the first 90% of [cleaned]
    ([10 i < 9 length]), the step keeps the [i] characters before the
    heading, trimmed; the output of [cleanAcademicText] is what the
    remaining steps make of these, and has [i] characters at most:
    nothing from the heading on enters it.  If the heading is in the
    last 10% ([9 length <= 10 i]), the step changes nothing: heading and
    list go on to the remaining steps with the rest of the text. *)
Theorem references_cut_before_last_tenth
    (text headerPattern footerPattern : str) (i : nat) :
  isAscii headerPattern = true -> isAscii footerPattern = true ->
  let cleaned := beforeReferences text headerPattern footerPattern in
  search f_i re_references cleaned = Z.of_nat i ->
  0 < i ->
  test f_m re_numbered_ref (skipn i cleaned) = true ->
  (10 * i < 9 * length cleaned ->
   cutReferences cleaned = trim (firstn i cleaned) /\
   cleanAcademicText text headerPattern footerPattern =
     afterReferences (trim (firstn i cleaned)) /\
   length (cleanAcademicText text headerPattern footerPattern) <= i) /\
  (9 * length cleaned <= 10 * i ->
   cutReferences cleaned = cleaned /\
   cleanAcademicText text headerPattern footerPattern = afterReferences cleaned).
Proof.
  intros _ _ cleaned Hs Hi Hn. split.
  - intros H90.
    assert (E : cutReferences cleaned = trim (firstn i cleaned)).
    { unfold cutReferences. rewrite Hs.
      replace (0 <? Z.of_nat i)%Z with true by (symmetry; apply Z.ltb_lt; lia).
      replace (lt_90_percent (Z.of_nat i) (length cleaned)) with true
        by (symmetry; unfold lt_90_percent; apply Z.ltb_lt; lia).
      cbn [andb]. rewrite substringFrom_suffix by lia. rewrite Hn. cbn [orb].
      now rewrite substring_prefix by lia. }
    assert (F : cleanAcademicText text headerPattern footerPattern =
                afterReferences (trim (firstn i cleaned))).
    { unfold cleanAcademicText. fold cleaned. now rewrite E. }
    split; [exact E|]. split; [exact F|].
    rewrite F.
    pose proof (afterReferences_length (trim (firstn i cleaned))) as L1.
    pose proof (proj1 (trim_length (firstn i cleaned))) as L2.
    pose proof (firstn_le_length i cleaned) as L3. lia.
  - intros H90.
    assert (E : cutReferences cleaned = cleaned).
    { unfold cutReferences. rewrite Hs.
      replace (lt_90_percent (Z.of_nat i) (length cleaned)) with false
        by (symmetry; unfold lt_90_percent; apply Z.ltb_ge; lia).
      now rewrite andb_false_r. }
    split; [exact E|].
    unfold cleanAcademicText. fold cleaned. now rewrite E.
Qed.

Lemma references_cut_witness :
  cleanAcademicText Paper.longPaper [] [] = trim Paper.body /\
  length (cleanAcademicText Paper.longPaper [] []) <= 511 /\
  cutReferences (beforeReferences Paper.shortPaper [] [])
    = beforeReferences Paper.shortPaper [] [].
Proof.
  split; [vm_compute; reflexivity|]. split.
  - apply (proj1 (references_cut_before_last_tenth Paper.longPaper [] [] 511
                    eq_refl eq_refl
                    ltac:(vm_compute; reflexivity) ltac:(lia)
                    ltac:(vm_compute; reflexivity))).
    apply Nat.ltb_lt. vm_compute. reflexivity.
  - apply (proj2 (references_cut_before_last_tenth Paper.shortPaper [] [] 511
                    eq_refl eq_refl
                    ltac:(vm_compute; reflexivity) ltac:(lia)
                    ltac:(vm_compute; reflexivity))).
    apply Nat.leb_le. vm_compute. reflexivity.
Defined.

(** ** More on createChunks *)

Section Covering.

Lemma In_firstn_le {A} (x : A) (l : list A) (n m : nat) :
  n <= m -> In x (firstn n l) -> In x (firstn m l).
Proof.
  revert l m; induction n as [|n IH]; intros l m H I; [now elim I|].
  destruct l as [|y l]; [now elim I|].
  destruct m as [|m]; [lia|]. simpl in *.
  destruct I as [I|I]; [now left|right]. apply (IH l m); [lia|assumption].
Qed.

Lemma windowsFrom_covers (ss : list str) (p stride : nat) :
  0 < stride -> stride <= p ->
  forall fuel i s,
    length ss - i < fuel ->
    In s (skipn i ss) ->
    exists w, In w (windowsFrom fuel ss p stride i) /\ In s w.
Proof.
  intros H0 H1. induction fuel as [|fuel IH]; intros i s Hf Hs; [lia|].
  cbn [windowsFrom]. destruct (i <? length ss) eqn:E.
  - apply Nat.ltb_lt in E. destruct (length ss <=? i + p) eqn:B.
    + apply Nat.leb_le in B. exists (firstn p (skipn i ss)).
      split; [now left|].
      rewrite firstn_all2; [assumption|]. rewrite length_skipn. lia.
    + rewrite <- (firstn_skipn stride (skipn i ss)) in Hs.
      apply in_app_or in Hs as [Hs|Hs].
      * exists (firstn p (skipn i ss)). split; [now left|].
        now apply In_firstn_le with (n := stride).
      * rewrite skipn_skipn in Hs. rewrite (Nat.add_comm stride i) in Hs.
        destruct (IH (i + stride) s) as (w & W1 & W2); [lia|assumption|].
        exists w. split; [now right|assumption].
  - apply Nat.ltb_ge in E. rewrite skipn_all2 in Hs by assumption. now elim Hs.
Qed.

Lemma numbered_In (w : list str) (ws : list (list str)) :
  In w ws -> forall n, exists k, In (UploadPage.chunkOf k w) (numbered n ws).
Proof.
  induction ws as [|v ws IH]; intros I n; [now elim I|].
  cbn [numbered]. destruct I as [->|I].
  - exists n. now left.
  - destruct (IH I (n + 1)%Z) as (k & K). exists k. now right.
Qed.

Lemma startsWith_app (s x : str) : startsWith (s ++ x) s = true.
Proof.
  induction s as [|c s IH]; [now destruct x|].
  cbn [app startsWith]. now rewrite N.eqb_refl, IH.
Qed.

Lemma includes_here (s x : str) : includes (s ++ x) s = true.
Proof.
  destruct (s ++ x) eqn:E; cbn [includes]; rewrite <- E, startsWith_app;
    reflexivity.
Qed.

Lemma includes_later (a x s : str) :
  includes x s = true -> includes (a ++ x) s = true.
Proof.
  intros H. induction a as [|c a IH]; [exact H|].
  cbn [app includes]. rewrite IH. apply orb_true_r.
Qed.

Lemma includes_join (sep s : str) (l : list str) :
  In s l -> includes (join sep l) s = true.
Proof.
  induction l as [|y l IH]; intros I; [now elim I|].
  destruct l as [|z l].
  - destruct I as [->|[]]. cbn [join].
    rewrite <- (app_nil_r s) at 1. apply includes_here.
  - change (join sep (y :: z :: l)) with (y ++ sep ++ join sep (z :: l)).
    destruct I as [->|I]; [apply includes_here|].
    apply includes_later, includes_later. now apply IH.
Qed.

End Covering.

(** X10.  With an overlap smaller than the number of sentences to a
    chunk, [createChunks] ends and loses no sentence: every qualifying
    sentence of the text is among the sentences of a chunk, and is found
    in the text of that chunk. *)
Theorem createChunks_covers (text : str) (p o : nat) :
  o < p ->
  exists chunks,
    UploadPage.createChunks text (Z.of_nat p) (Z.of_nat o) = Some chunks /\
    forall s, In s (UploadPage.sentencesOf text) ->
      exists k w,
        In (UploadPage.chunkOf k w) chunks /\ In s w /\
        includes (UploadPage.text (UploadPage.chunkOf k w)) s = true.
Proof.
  intros Ho.
  set (ss := UploadPage.sentencesOf text).
  exists (numbered 1 (windowsFrom (S (length ss)) ss p (p - o) 0)).
  split.
  - unfold UploadPage.createChunks. fold ss.
    rewrite (chunkLoop_windows ss (sentencesOf_nonblank text) p o Ho)
      with (i := 0) by lia.
    reflexivity.
  - intros s Hs.
    destruct (windowsFrom_covers ss p (p - o)) with (fuel := S (length ss))
      (i := 0) (s := s) as (w & W1 & W2); [lia|lia|lia|exact Hs|].
    destruct (numbered_In w _ W1 1%Z) as (k & K).
    exists k, w. split; [exact K|]. split; [exact W2|].
    unfold UploadPage.chunkOf. cbn [UploadPage.text].
    now apply includes_join.
Qed.

Lemma createChunks_covers_witness :
  3 < 12 /\
  exists chunks,
    UploadPage.createChunks Remedies.page (Z.of_nat 12) (Z.of_nat 3) = Some chunks /\
    forall s, In s (UploadPage.sentencesOf Remedies.page) ->
      exists k w,
        In (UploadPage.chunkOf k w) chunks /\ In s w /\
        includes (UploadPage.text (UploadPage.chunkOf k w)) s = true.
Proof.
  assert (H : 3 < 12) by lia.
  split; [exact H|]. exact (createChunks_covers Remedies.page 12 3 H).
Defined.

(** ** More on the extraction of graphs *)

Section GraphOfChunk.

Import MistralService.

Lemma bind_Ok {A B} (r : result A) (f : A -> result B) (b : B) :
  bind r f = Ok b -> exists a, r = Ok a /\ f a = Ok b.
Proof. destruct r as [a|e]; simpl; [eauto|discriminate]. Qed.

Lemma filterM_Ok {A} (f : A -> result bool) (l kept : list A) :
  filterM f l = Ok kept ->
  Forall (fun x => f x = Ok true) kept /\ Subseq kept l.
Proof.
  revert kept; induction l as [|x l IH]; intros kept H; simpl in H.
  - inversion H. split; constructor.
  - apply bind_Ok in H as (b & Hb & H). apply bind_Ok in H as (rest & Hr & H).
    inversion H; subst kept. destruct (IH rest Hr) as [F S].
    destruct b; split; try constructor; assumption.
Qed.

Lemma mapM_Ok {A B} (f : A -> result B) (l : list A) (out : list B) :
  mapM f l = Ok out ->
  forall y, In y out -> exists x, In x l /\ f x = Ok y.
Proof.
  revert out; induction l as [|x l IH]; intros out H; simpl in H.
  - inversion H. intros y [].
  - apply bind_Ok in H as (b & Hb & H). apply bind_Ok in H as (rest & Hr & H).
    inversion H; subst out. intros y [<-|I].
    + exists x. split; [now left|assumption].
    + destruct (IH rest Hr y I) as (x' & I' & E). exists x'. split; [now right|assumption].
Qed.

Lemma Forall_firstn {A} (P : A -> Prop) (n : nat) (l : list A) :
  Forall P l -> Forall P (firstn n l).
Proof.
  intros H. apply Forall_forall. intros x I.
  rewrite Forall_forall in H. apply H.
  rewrite <- (firstn_skipn n l). apply in_or_app. now left.
Qed.

Lemma as_string_Ok (v : value) (s : str) : as_string v = Ok s -> v = VStr s.
Proof. destruct v; simpl; intros H; inversion H. reflexivity. Qed.

Lemma relations_known (rs : value) (es : list value) (kept : list value) :
  filterRelationsByEntitiesValue rs es = Ok kept ->
  Forall (endpointsKnown es) kept.
Proof.
  unfold filterRelationsByEntitiesValue. intros H.
  apply bind_Ok in H as (names & Hn & H). apply bind_Ok in H as (rels & Hr & H).
  apply filterM_Ok in H as [F _].
  eapply Forall_impl; [|exact F]. intros rel K. cbv beta in K.
  assert (known : forall s, set_has (set_of names) (normalizeEntityName s) = true ->
                            knownName es s).
  { intros s HS. apply (proj1 (set_has_In _ _)), (proj1 (set_of_In _ _)) in HS.
    destruct (mapM_Ok _ _ _ Hn _ HS) as (e & I & E).
    apply bind_Ok in E as (n & G & E). apply bind_Ok in E as (x & X & E).
    apply as_string_Ok in X. subst n. inversion E.
    exists e, x. auto. }
  apply bind_Ok in K as (s & Gs & K).
  destruct (negb (truthy s)); [discriminate|].
  apply bind_Ok in K as (r & Gr & K).
  destruct (negb (truthy r)); [discriminate|].
  apply bind_Ok in K as (t & Gt & K).
  destruct (negb (truthy t)); [discriminate|].
  apply bind_Ok in K as (src & Ss & K). apply bind_Ok in K as (tgt & St & K).
  apply as_string_Ok in Ss, St. subst s t.
  inversion K as [K']. apply andb_true_iff in K' as [K1 K2].
  exists src, tgt. auto.
Qed.

Lemma parseGraph_wellFormed (chunk : ChunkInput) (content : str)
    (g : GraphExtractionResult) :
  parseGraph chunk content = Ok (Some g) -> wellFormedGraph chunk g.
Proof.
  unfold parseGraph. intros H.
  apply bind_Ok in H as (graphData & _ & H).
  apply bind_Ok in H as (es & _ & H).
  apply bind_Ok in H as (l & _ & H).
  apply bind_Ok in H as (kept & Hk & H).
  apply bind_Ok in H as (rs & _ & H).
  apply bind_Ok in H as (rels & Hr & H).
  apply filterM_Ok in Hk as [F _].
  assert (L : length (firstn 15 kept) <= 15) by (rewrite length_firstn; lia).
  apply (Forall_firstn _ 15) in F.
  remember (firstn 15 kept) as fe eqn:Efe. clear Efe.
  apply relations_known in Hr.
  inversion H; subst g. clear H. unfold wellFormedGraph.
  cbn [chunkId entities relations]. auto.
Qed.

Lemma entityValue_name (e : Entity) :
  get (entityValue e) "name" = Ok (VStr (name e)).
Proof. reflexivity. Qed.

Lemma filterEntityValue_entityValue (e : Entity) :
  filterEntityValue (entityValue e) = Ok (filterEntity e).
Proof. destruct e. reflexivity. Qed.

Lemma manual_wellFormed (chunk : ChunkInput) (content : str)
    (g : GraphExtractionResult) :
  extractGraphManually chunk content = Ok (Some g) -> wellFormedGraph chunk g.
Proof.
  unfold extractGraphManually. cbv zeta.
  set (entities0 := fold_left _ (match_all f_none entityPattern2 content) _).
  set (relations0 := fold_left _ (match_all f_none relationPattern2 content) _).
  assert (L : length (firstn 15 (filter filterEntity entities0)) <= 15)
    by (rewrite length_firstn; lia).
  assert (F : Forall (fun e => filterEntity e = true)
                     (firstn 15 (filter filterEntity entities0))).
  { apply Forall_firstn. apply Forall_forall. intros e I.
    now apply filter_In in I. }
  remember (firstn 15 (filter filterEntity entities0)) as fe eqn:Efe. clear Efe.
  remember relations0 as rels eqn:Er. clear Er.
  destruct (_ || _); cbn [try_catch]; intros H; inversion H; subst g; clear H.
  unfold wellFormedGraph. cbn [chunkId entities relations].
  split; [reflexivity|]. split; [|split].
  - now rewrite length_map.
  - apply Forall_forall. intros v I. apply in_map_iff in I as (e & <- & I).
    rewrite filterEntityValue_entityValue. f_equal.
    rewrite Forall_forall in F. now apply F.
  - apply Forall_forall. intros v I. apply in_map_iff in I as (rel & <- & I).
    unfold filterRelationsByEntities in I. apply filter_In in I as [_ K].
    destruct (negb (truthy_str (source rel)) || negb (truthy_str (relation rel))
              || negb (truthy_str (target rel))); [discriminate|].
    apply andb_true_iff in K as [K1 K2].
    apply (proj1 (set_has_In _ _)), (proj1 (set_of_In _ _)),
      (proj1 (in_map_iff _ _ _)) in K1. destruct K1 as (e1 & E1 & I1).
    apply (proj1 (set_has_In _ _)), (proj1 (set_of_In _ _)),
      (proj1 (in_map_iff _ _ _)) in K2. destruct K2 as (e2 & E2 & I2).
    exists (source rel), (target rel).
    split; [reflexivity|]. split; [reflexivity|]. split.
    + exists (entityValue e1), (name e1).
      split; [now apply in_map|]. split; [apply entityValue_name|exact E1].
    + exists (entityValue e2), (name e2).
      split; [now apply in_map|]. split; [apply entityValue_name|exact E2].
Qed.

Lemma handleResponse_wellFormed (chunk : ChunkInput) (fetched : result Response)
    (g : GraphExtractionResult) :
  handleResponse chunk fetched = Ok (Some g) -> wellFormedGraph chunk g.
Proof.
  unfold handleResponse. intros H.
  destruct fetched as [r|e]; [|discriminate]. cbn [bind] in H.
  destruct (negb (ok r)); [discriminate|].
  destruct (json r) as [data|e]; [|discriminate]. cbn [bind] in H.
  destruct (contentOf data) as [content|e]; [|discriminate]. cbn [bind] in H.
  destruct (parseGraph chunk content) as [o|e] eqn:P; cbn [try_catch] in H.
  - inversion H; subst o. now apply parseGraph_wellFormed in P.
  - destruct (extractGraphManually chunk content) as [o|e'] eqn:M;
      cbn [try_catch] in H; [|discriminate].
    inversion H; subst o. now apply manual_wellFormed in M.
Qed.

End GraphOfChunk.

(** X11.  Every graph that [extractGraphFromChunk] returns, from the
    parsed answer or from the fallback, carries the id of its chunk, has
    at most 15 entities, all of which pass [filterEntity], and has no
    dangling relation: the source and the target of each relation are,
    up to normalisation, names of its entities. *)
Theorem extractGraphFromChunk_wellFormed
    (World : Type)
    (fetch : str -> str -> World -> result MistralService.Response * World)
    (chunk : MistralService.ChunkInput) (apiKey : str) (w w' : World)
    (g : MistralService.GraphExtractionResult) :
  MistralService.extractGraphFromChunk fetch chunk apiKey w = (Ok (Some g), w') ->
  wellFormedGraph chunk g.
Proof.
  unfold MistralService.extractGraphFromChunk.
  destruct (fetch apiKey (MistralService.text chunk) w) as [fetched w1].
  intros H. inversion H as [[H1 H2]].
  now apply handleResponse_wellFormed in H1.
Qed.

Lemma extractGraphFromChunk_wellFormed_witness :
  exists g,
    MistralService.extractGraphFromChunk Remedies.fetch
      {| MistralService.id := 1; MistralService.text := lit "ginger" |}
      (lit "key") 0 = (Ok (Some g), 1) /\
    wellFormedGraph
      {| MistralService.id := 1; MistralService.text := lit "ginger" |} g.
Proof.
  eexists. split; [vm_compute; reflexivity|].
  apply (extractGraphFromChunk_wellFormed nat Remedies.fetch
           {| MistralService.id := 1; MistralService.text := lit "ginger" |}
           (lit "key") 0 1).
  vm_compute. reflexivity.
Defined.

Section BatchesInOrder.

Import MistralService.

Variable World : Type.
Variable fetch : str -> str -> World -> result Response * World.



End BatchesInOrder.



(** ** More on the search *)

Section MapsFilled.

Lemma firstsBy_seen_ext {A} (key : A -> str) (l : list A) :
  forall seen seen',
    (forall k, In k seen <-> In k seen') ->
    firstsBy key seen l = firstsBy key seen' l.
Proof.
  induction l as [|x l IH]; intros seen seen' H; simpl; [reflexivity|].
  assert (E : arr_includes seen (key x) = arr_includes seen' (key x)).
  { destruct (arr_includes seen (key x)) eqn:E1;
      destruct (arr_includes seen' (key x)) eqn:E2; try reflexivity.
    - apply (proj1 (arr_includes_In _ _)), (proj1 (H _)),
        (proj2 (arr_includes_In _ _)) in E1. congruence.
    - apply (proj1 (arr_includes_In _ _)), (proj2 (H _)),
        (proj2 (arr_includes_In _ _)) in E2. congruence. }
  rewrite E. destruct (arr_includes seen' (key x)); [now apply IH|].
  f_equal. apply IH. intros k. simpl. rewrite H. tauto.
Qed.

Variable V : Type.
Variable key : V -> str.

(** The keys of a map filled by [m.set(key(x), x)]: those it had, then
    the new ones in the order in which they first come. *)
Lemma fill_keys (l : list V) :
  forall m : JsMap V,
    map fst (fold_left (fun m x => map_set m (key x) x) l m) =
    map fst m ++ firstsBy (fun k => k) (map fst m) (map key l).
Proof.
  induction l as [|x l IH]; intros m; simpl; [now rewrite app_nil_r|].
  rewrite IH, map_set_keys.
  destruct (map_has m (key x)) eqn:E.
  - apply map_has_In in E. apply (proj2 (arr_includes_In _ _)) in E.
    now rewrite E.
  - assert (E' : arr_includes (map fst m) (key x) = false).
    { destruct (arr_includes (map fst m) (key x)) eqn:E1; [|reflexivity].
      apply arr_includes_In, map_has_In in E1. congruence. }
    rewrite E', <- app_assoc. cbn [app]. do 2 f_equal.
    apply firstsBy_seen_ext. intros k. rewrite in_app_iff. simpl. tauto.
Qed.

Lemma map_set_inv (m : JsMap V) (k : str) (x : V) (k' : str) (v' : V) :
  NoDup (map fst m) ->
  In (k', v') (map_set m k x) ->
  (k' = k /\ v' = x) \/ (In (k', v') m /\ k' <> k).
Proof.
  induction m as [|[k0 v0] m IHm]; simpl; intros N.
  - intros [E|[]]. inversion E. tauto.
  - inversion N as [|? ? N1 N2]; subst.
    destruct (str_eqb k k0) eqn:E; simpl.
    + apply str_eqb_eq in E. subst k0.
      intros [E|I]; [inversion E; tauto|].
      right. split; [now right|]. intros ->. apply N1.
      apply in_map_iff. now exists (k, v').
    + apply str_eqb_neq in E. intros [E'|I].
      * inversion E'; subst. right. split; [now left|congruence].
      * destruct (IHm N2 I) as [I'|[I' N']]; [now left|right].
        split; [now right|assumption].
Qed.

(** The value under a key is the last that was set. *)
Lemma fill_last (l : list V) :
  forall (m : JsMap V) k v,
    NoDup (map fst m) ->
    In (k, v) (fold_left (fun m x => map_set m (key x) x) l m) ->
    (In (k, v) m /\ ~ In k (map key l)) \/
    (exists pre post, l = pre ++ v :: post /\ key v = k /\
                      ~ In k (map key post)).
Proof.
  induction l as [|x l IH]; intros m k v N H; simpl in H; [left; simpl; tauto|].
  destruct (IH _ _ _ (map_set_NoDup m (key x) x N) H)
    as [[H' N']|(pre & post & E & K & N')].
  - destruct (map_set_inv m (key x) x k v N H') as [[-> ->]|[H'' N'']].
    + right. exists [], l. auto.
    + left. split; [assumption|]. simpl. intros [E|I]; [congruence|contradiction].
  - right. exists (x :: pre), post. subst l. auto.
Qed.

End MapsFilled.

Section SearchFacts.

Import SearchRepository QueryService.

Variable Number : Type.
Variable World : Type.
Variable supabase : Supabase Number World.

Lemma keepTherapeutic_types (rows : list RelationRow) :
  forall acc,
    Forall (fun r => In (gs_type (gr_target r)) therapeuticTypes) acc ->
    Forall (fun r => In (gs_type (gr_target r)) therapeuticTypes)
           (fold_left keepTherapeutic rows acc).
Proof.
  induction rows as [|row rows IH]; intros acc H; simpl; [exact H|].
  apply IH. unfold keepTherapeutic.
  destruct (rr_source row) as [s|]; [|exact H].
  destruct (rr_target row) as [t|]; [|exact H].
  destruct (str_eqb (upperType (ej_type t)) (lit "COMPOUND")) eqn:E1;
    [|destruct (str_eqb (upperType (ej_type t)) (lit "EFFECT")) eqn:E2;
      [|destruct (str_eqb (upperType (ej_type t)) (lit "DISEASE")) eqn:E3]];
    cbn [orb]; try exact H;
    apply Forall_app; (split; [exact H|]); (constructor; [|constructor]);
    cbn [gr_target gs_type].
  - apply str_eqb_eq in E1. rewrite E1. left. reflexivity.
  - apply str_eqb_eq in E2. rewrite E2. right. left. reflexivity.
  - apply str_eqb_eq in E3. rewrite E3. right. right. left. reflexivity.
Qed.

Lemma getHerbCompoundsAndEffects_types (ids : list str) (w w' : World)
    (rels : list GraphRelation) :
  getHerbCompoundsAndEffects supabase ids w = (Ok rels, w') ->
  Forall (fun r => In (gs_type (gr_target r)) therapeuticTypes) rels.
Proof.
  unfold getHerbCompoundsAndEffects.
  destruct (length ids =? 0).
  - intros H. apply ret_Ok in H as [<- _]. constructor.
  - intros H. apply bindM_Ok in H as (u & w1 & _ & H).
    apply bindM_Ok in H as (reply & w2 & _ & H).
    destruct (error reply).
    + apply ret_Ok in H as [<- _]. constructor.
    + destruct (data reply) as [rows|].
      * apply ret_Ok in H as [<- _]. apply keepTherapeutic_types. constructor.
      * apply ret_Ok in H as [<- _]. constructor.
Qed.

End SearchFacts.

(** X13.  [getHerbCompoundsAndEffects] asks nothing of the store for an
    empty list of herbs (its answer is the empty list, also when the
    store is not configured); and whatever the store sends, the target
    of every relation it returns has the type COMPOUND, EFFECT or
    DISEASE. *)
Theorem getHerbCompoundsAndEffects_therapeutic
    (Number World : Type)
    (supabase : SearchRepository.Supabase Number World)
    (herbIds : list str) (w w' : World)
    (relations : list SearchRepository.GraphRelation) :
  SearchRepository.getHerbCompoundsAndEffects supabase [] w = (Ok [], w) /\
  (SearchRepository.getHerbCompoundsAndEffects supabase herbIds w
     = (Ok relations, w') ->
   Forall (fun r => In (SearchRepository.gs_type (SearchRepository.gr_target r))
                       therapeuticTypes) relations).
Proof.
  split; [reflexivity|].
  apply getHerbCompoundsAndEffects_types.
Qed.

Lemma getHerbCompoundsAndEffects_therapeutic_witness :
  exists relations,
    SearchRepository.getHerbCompoundsAndEffects
      (SearchRepository.graphStore Example.small Example.noChunks Example.noEmbeddings)
      [lit "e1"] tt = (Ok relations, tt) /\
    Forall (fun r => In (SearchRepository.gs_type (SearchRepository.gr_target r))
                        therapeuticTypes) relations.
Proof.
  eexists. split; [vm_compute; reflexivity|].
  apply (proj2 (getHerbCompoundsAndEffects_therapeutic Z unit
                  (SearchRepository.graphStore Example.small Example.noChunks
                                               Example.noEmbeddings)
                  [lit "e1"] tt tt _)).
  vm_compute. reflexivity.
Defined.

Section SearchResults.

Import SearchRepository QueryService.

Variable Number : Type.
Variable World : Type.
Variable supabase : Supabase Number World.
Variable extractQueryEntities : str -> str -> M World (list QueryEntity).
Variable embed : str -> M World (list Number).
Variable generateAnswer :
  str -> list (VectorSearchResult Number) -> list GraphSearchResult ->
  list GraphRelation -> str -> M World str.
Variable apiKey : str.

Lemma three_types_count (rels : list GraphRelation) :
  Forall (fun r => In (gs_type (gr_target r)) therapeuticTypes) rels ->
  length rels =
    length (filter (fun r => str_eqb (gs_type (gr_target r)) (lit "COMPOUND")) rels)
    + length (filter (fun r => str_eqb (gs_type (gr_target r)) (lit "EFFECT")) rels)
    + length (filter (fun r => str_eqb (gs_type (gr_target r)) (lit "DISEASE")) rels).
Proof.
  induction 1 as [|r rels Hr _ IH]; [reflexivity|].
  cbn [filter]. destruct Hr as [E|[E|[E|[]]]]; rewrite <- E;
    repeat match goal with
           | |- context [str_eqb (lit ?a) (lit ?b)] =>
               let v := eval vm_compute in (str_eqb (lit a) (lit b)) in
               change (str_eqb (lit a) (lit b)) with v
           end;
    cbn [length]; lia.
Qed.

Lemma forEachM_nil {A S} (f : S -> A -> M World S) (s : S) (w : World) :
  forEachM f [] s w = (Ok s, w).
Proof. reflexivity. Qed.

End SearchResults.

(** X14.  In every result of [hybridSearch] the target of each relation
    of [allRelations] has the type COMPOUND, EFFECT or DISEASE, so that
    the relations are those counted as compounds, those counted as
    effects and those with a target of type DISEASE, and no other. *)
Theorem hybridSearch_relations_partition
    (Number World : Type)
    (supabase : SearchRepository.Supabase Number World)
    (extractQueryEntities : str -> str -> SearchRepository.M World (list QueryService.QueryEntity))
    (embed : str -> SearchRepository.M World (list Number))
    (generateAnswer :
       str -> list (SearchRepository.VectorSearchResult Number) ->
       list SearchRepository.GraphSearchResult ->
       list SearchRepository.GraphRelation -> str -> SearchRepository.M World str)
    (apiKey q : str) (topK : Z) (w w' : World)
    (res : QueryService.HybridSearchResult Number) :
  QueryService.hybridSearch supabase extractQueryEntities embed generateAnswer
                            apiKey q topK w = (Ok res, w') ->
  let g := QueryService.graphResults res in
  let s := QueryService.summary res in
  let targetType r := SearchRepository.gs_type (SearchRepository.gr_target r) in
  Forall (fun r => In (targetType r) therapeuticTypes) (QueryService.allRelations g) /\
  length (QueryService.allRelations g) =
    QueryService.totalCompounds s + QueryService.totalEffects s
    + length (filter (fun r => str_eqb (targetType r) (lit "DISEASE"))
                     (QueryService.allRelations g)).
Proof.
  intros H.
  apply hybridSearch_result in H
    as (qes & w1 & found & w2 & rels & w3 & _ & _ & (w4 & w5 & Hr) & Hg & Hs).
  rewrite Hg, Hs. cbn.
  apply getHerbCompoundsAndEffects_types in Hr.
  split; [exact Hr|]. now apply three_types_count.
Qed.

Lemma hybridSearch_relations_partition_witness :
  exists res,
    Example.run Example.small = (Ok res, tt) /\
    length (QueryService.allRelations (QueryService.graphResults res)) =
      QueryService.totalCompounds (QueryService.summary res)
      + QueryService.totalEffects (QueryService.summary res)
      + length (filter (fun r => str_eqb (SearchRepository.gs_type
                                            (SearchRepository.gr_target r))
                                         (lit "DISEASE"))
                       (QueryService.allRelations (QueryService.graphResults res))).
Proof.
  eexists. split; [vm_compute; reflexivity|].
  apply (hybridSearch_relations_partition Z unit
           (SearchRepository.graphStore Example.small Example.noChunks
                                        Example.noEmbeddings)
           Example.headacheEntity Example.embedding Example.fixedAnswer
           (lit "key") (lit "what herb for headache") 5 tt tt).
  vm_compute. reflexivity.
Defined.

(** X15.  When the extraction finds no entity in the query,
    [hybridSearch] asks the graph nothing: every result has no herb, no
    compound, no effect and no relation, and its counts of them are 0. *)
Theorem hybridSearch_no_entity
    (Number World : Type)
    (supabase : SearchRepository.Supabase Number World)
    (extractQueryEntities : str -> str -> SearchRepository.M World (list QueryService.QueryEntity))
    (embed : str -> SearchRepository.M World (list Number))
    (generateAnswer :
       str -> list (SearchRepository.VectorSearchResult Number) ->
       list SearchRepository.GraphSearchResult ->
       list SearchRepository.GraphRelation -> str -> SearchRepository.M World str)
    (apiKey q : str) (topK : Z) (w w' : World)
    (res : QueryService.HybridSearchResult Number) :
  fst (extractQueryEntities q apiKey w) = Ok [] ->
  QueryService.hybridSearch supabase extractQueryEntities embed generateAnswer
                            apiKey q topK w = (Ok res, w') ->
  QueryService.graphResults res =
    {| QueryService.herbs := []; QueryService.compounds := [];
       QueryService.effects := []; QueryService.allRelations := [] |} /\
  QueryService.totalHerbs (QueryService.summary res) = 0 /\
  QueryService.totalCompounds (QueryService.summary res) = 0 /\
  QueryService.totalEffects (QueryService.summary res) = 0.
Proof.
  intros Hq H.
  apply hybridSearch_result in H
    as (qes & w1 & found & w2 & rels & w3 & Hqe & Hf & (w4 & w5 & Hr) & Hg & Hs).
  rewrite Hqe in Hq. cbn [fst] in Hq. inversion Hq; subst qes.
  rewrite forEachM_nil in Hf. inversion Hf; subst found.
  cbn in Hr. apply ret_Ok in Hr as [<- _].
  rewrite Hg, Hs. cbn. auto.
Qed.

Lemma hybridSearch_no_entity_witness :
  exists res,
    QueryService.hybridSearch
      (SearchRepository.graphStore Example.small Example.noChunks Example.noEmbeddings)
      noEntity Example.embedding Example.fixedAnswer
      (lit "key") (lit "hello") 5 tt = (Ok res, tt) /\
    QueryService.graphResults res =
      {| QueryService.herbs := []; QueryService.compounds := [];
         QueryService.effects := []; QueryService.allRelations := [] |}.
Proof.
  eexists. split; [vm_compute; reflexivity|].
  apply (hybridSearch_no_entity Z unit
           (SearchRepository.graphStore Example.small Example.noChunks
                                        Example.noEmbeddings)
           noEntity Example.embedding Example.fixedAnswer
           (lit "key") (lit "hello") 5 tt tt); vm_compute; reflexivity.
Defined.

Section UniqueHerbs.

Import SearchRepository QueryService.

Lemma uniqueById_keys (herbs : list GraphSearchResult) :
  map gs_id (uniqueById herbs) = firstsBy (fun k => k) [] (map gs_id herbs).
Proof.
  unfold uniqueById, map_values.
  destruct (fill_by_key_inv gs_id herbs []) as [_ H2];
    [constructor|simpl; tauto|].
  rewrite map_map.
  rewrite (map_ext_in (fun x => gs_id (snd x)) fst).
  - now rewrite (fill_keys _ gs_id herbs []).
  - intros e He. symmetry. now apply H2.
Qed.

Lemma uniqueById_last (herbs : list GraphSearchResult) (h : GraphSearchResult) :
  In h (uniqueById herbs) ->
  exists pre post, herbs = pre ++ h :: post /\ ~ In (gs_id h) (map gs_id post).
Proof.
  unfold uniqueById, map_values. intros H.
  apply in_map_iff in H as [[k v] [E H]]. cbn [snd] in E. subst v.
  destruct (fill_last _ gs_id herbs [] k h (NoDup_nil _) H)
    as [[[] _]|(pre & post & E & K & N)].
  exists pre, post. split; [assumption|]. now rewrite K.
Qed.

Lemma plantsOf_uniqueById (rows : list SourceRow) :
  plantsOf rows = uniqueById (sourcesOf rows).
Proof. unfold plantsOf, uniqueById. now rewrite plantsOf_fill. Qed.

End UniqueHerbs.

(** X16.  The herbs that [hybridSearch] keeps: their ids are the ids of
    the herbs found, each once, in the order in which they first come;
    the record kept for an id is the last one found with it. *)
Theorem uniqueById_first_place_last_record
    (herbs : list SearchRepository.GraphSearchResult) :
  map SearchRepository.gs_id (QueryService.uniqueById herbs) =
    firstsBy (fun k => k) [] (map SearchRepository.gs_id herbs) /\
  forall h, In h (QueryService.uniqueById herbs) ->
    exists pre post,
      herbs = pre ++ h :: post /\
      ~ In (SearchRepository.gs_id h) (map SearchRepository.gs_id post).
Proof.
  split; [apply uniqueById_keys|]. intros h. apply uniqueById_last.
Qed.

(** X17.  [findHerbsForCondition] throws when the store is not
    configured, before any query; otherwise it never throws, also when a
    query reports an error, and no two of the herbs it returns have the
    same id.  With no condition found it returns no herb and does not
    ask for the relations. *)
Theorem findHerbsForCondition_distinct
    (Number World : Type)
    (supabase : SearchRepository.Supabase Number World)
    (conditionName : str) (w : World) :
  let find := SearchRepository.findHerbsForCondition supabase conditionName w in
  let asked := SearchRepository.conditions_like supabase
                 (lit "%" ++ conditionName ++ lit "%")
                 (map lit ["DISEASE"; "SYMPTOM"]%string) 5 w in
  (SearchRepository.configured supabase = false ->
   find = (Throw ConfigError, w)) /\
  (SearchRepository.configured supabase = true ->
   (exists herbs w',
       find = (Ok herbs, w') /\ NoDup (map SearchRepository.gs_id herbs)) /\
   (SearchRepository.orEmpty (SearchRepository.data (fst asked)) = [] ->
    find = (Ok [], snd asked))).
Proof.
  cbn zeta.
  unfold SearchRepository.findHerbsForCondition, SearchRepository.bindM,
    SearchRepository.getSupabaseClient, SearchRepository.ask,
    SearchRepository.ret, SearchRepository.throw.
  split; intros ->; [reflexivity|].
  destruct (SearchRepository.conditions_like _ _ _ _ _) as [r1 w1].
  cbn [fst snd].
  destruct (SearchRepository.data r1) as [[|c cs]|]; cbn [SearchRepository.orEmpty].
  - split; [|reflexivity]. exists [], w1. split; [reflexivity|constructor].
  - split; [|discriminate].
    destruct (SearchRepository.relations_to _ _ _ _ _) as [r2 w2].
    destruct (SearchRepository.data r2) as [rows|].
    + exists (SearchRepository.plantsOf rows), w2. split; [reflexivity|].
      rewrite plantsOf_uniqueById. apply uniqueById_NoDup.
    + exists [], w2. split; [reflexivity|constructor].
  - split; [|reflexivity]. exists [], w1. split; [reflexivity|constructor].
Qed.

Lemma findHerbsForCondition_distinct_witness :
  exists herbs,
    SearchRepository.findHerbsForCondition
      (SearchRepository.graphStore Found.twoWays Example.noChunks
                                   Example.noEmbeddings)
      (lit "headache") tt = (Ok herbs, tt) /\
    herbs = [Example.ginger] /\
    NoDup (map SearchRepository.gs_id herbs).
Proof.
  destruct (proj2 (findHerbsForCondition_distinct Z unit
                     (SearchRepository.graphStore Found.twoWays Example.noChunks
                                                  Example.noEmbeddings)
                     (lit "headache") tt) eq_refl)
    as [(herbs & [] & E & N) _].
  exists herbs. split; [exact E|]. split; [|exact N].
  vm_compute in E. now inversion E.
Defined.

(** X18.  [hybridSearch] gives up with the error of the first step that
    fails: when the store is not configured it throws after the
    embedding of the query, and when the similarity search reports an
    error it throws the search error; in both cases the graph is not
    searched and no answer is generated. *)
Theorem hybridSearch_vector_search_fails
    (Number World : Type)
    (supabase : SearchRepository.Supabase Number World)
    (extractQueryEntities : str -> str -> SearchRepository.M World (list QueryService.QueryEntity))
    (embed : str -> SearchRepository.M World (list Number))
    (generateAnswer :
       str -> list (SearchRepository.VectorSearchResult Number) ->
       list SearchRepository.GraphSearchResult ->
       list SearchRepository.GraphRelation -> str -> SearchRepository.M World str)
    (apiKey q : str) (topK : Z) (w w1 w2 : World)
    (qes : list QueryService.QueryEntity) (v : list Number) :
  extractQueryEntities q apiKey w = (Ok qes, w1) ->
  embed q w1 = (Ok v, w2) ->
  let search := QueryService.hybridSearch supabase extractQueryEntities embed
                  generateAnswer apiKey q topK w in
  let asked := SearchRepository.rpc_search_similar_chunks supabase v topK w2 in
  (SearchRepository.configured supabase = false ->
   search = (Throw ConfigError, w2)) /\
  (SearchRepository.configured supabase = true ->
   SearchRepository.error (fst asked) = true ->
   search = (Throw SearchError, snd asked)).
Proof.
  intros Hq He. cbn zeta.
  unfold QueryService.hybridSearch, SearchRepository.vectorSearch,
    SearchRepository.getSupabaseClient, SearchRepository.bindM,
    SearchRepository.ask, SearchRepository.ret, SearchRepository.throw.
  rewrite Hq, He.
  split.
  - intros ->. reflexivity.
  - intros -> Herr.
    destruct (SearchRepository.rpc_search_similar_chunks _ _ _ _) as [r w3].
    cbn [fst snd] in *. now rewrite Herr.
Qed.

Lemma hybridSearch_vector_search_fails_witness :
  QueryService.hybridSearch
    (SearchRepository.graphStore Example.small failingChunks Example.noEmbeddings)
    Example.headacheEntity Example.embedding Example.fixedAnswer
    (lit "key") (lit "what herb for headache") 5 tt = (Throw SearchError, tt).
Proof.
  apply (proj2 (hybridSearch_vector_search_fails Z unit
                  (SearchRepository.graphStore Example.small failingChunks
                                               Example.noEmbeddings)
                  Example.headacheEntity Example.embedding Example.fixedAnswer
                  (lit "key") (lit "what herb for headache") 5 tt tt tt
                  _ _ eq_refl eq_refl)); reflexivity.
Defined.

Section ReplacingOneCharacter.

Variable fl : flags.
Variable neg : bool.
Variable items : list cls.
Variable t : str.
Variable input : str.

Lemma replace_all_class_by (rest : str) :
  forall prev pos,
    replace_all_from fl (Cls neg items) [TLit t] input prev rest pos 0 =
    flat_map (fun c => if xorb neg (in_class fl items c) then t else [c]) rest.
Proof.
  induction rest as [|c rest IH]; intros prev pos.
  - reflexivity.
  - cbn [replace_all_from exec_at mt m_rest flat_map].
    destruct (xorb neg (in_class fl items c)) eqn:E.
    + cbn [advance m_pos expand flat_map]. rewrite app_nil_r.
      replace (S pos - pos) with 1 by lia. now rewrite IH.
    + now rewrite IH.
Qed.

End ReplacingOneCharacter.

Lemma safeChar_class (c : char) :
  xorb true (in_class f_none
               [CR 97%N 122%N; CR 65%N 90%N; CR 48%N 57%N;
                CC 46%N; CC 95%N; CC 45%N] c) = negb (safeChar c).
Proof.
  unfold in_class, safeChar, isLower, isUpper, isDigit.
  cbn [existsb in_cls ignoreCase f_none andb xorb].
  now rewrite !orb_false_r, !orb_assoc.
Qed.

Lemma sanitizedName_map (name : str) :
  UploadFileRoute.sanitizedName name =
  map (fun c => if safeChar c then c else 95%N) name.
Proof.
  unfold UploadFileRoute.sanitizedName, replace_all, UploadFileRoute.re_unsafe.
  rewrite replace_all_class_by.
  induction name as [|c name IH]; [reflexivity|].
  cbn [flat_map map]. rewrite IH, safeChar_class.
  now destruct (safeChar c).
Qed.

(** X20.  The name under which an uploaded file is stored has the
    length of the name of the file; each of its characters is the
    character of the name at the same place when that is a letter a to z
    or A to Z, a digit, a period, an underscore or a hyphen, and an
    underscore otherwise.  So it has no other character, and a name that
    has no other character is kept as it is. *)
Theorem sanitizedName_safe (name : str) :
  let out := UploadFileRoute.sanitizedName name in
  length out = length name /\
  (forall i c, nth_error name i = Some c ->
     nth_error out i = Some (if safeChar c then c else 95%N)) /\
  forallb safeChar out = true /\
  UploadFileRoute.sanitizedName out = out /\
  (forallb safeChar name = true -> out = name).
Proof.
  intros out. subst out. rewrite !sanitizedName_map.
  split; [apply length_map|]. split; [|split; [|split]].
  - intros i c H. now rewrite nth_error_map, H.
  - induction name as [|c name IH]; [reflexivity|].
    cbn [map forallb]. rewrite IH, andb_true_r.
    destruct (safeChar c) eqn:E; [exact E|reflexivity].
  - rewrite map_map. apply map_ext. intros c.
    destruct (safeChar c) eqn:E; [now rewrite E|reflexivity].
  - induction name as [|c name IH]; [reflexivity|].
    cbn [map forallb]. intros H. apply andb_true_iff in H as [H1 H2].
    now rewrite H1, IH.
Qed.

Lemma sanitizedName_safe_witness :
  UploadFileRoute.sanitizedName (lit "jurnal-2021_v2.pdf") = lit "jurnal-2021_v2.pdf".
Proof.
  apply (proj2 (proj2 (proj2 (proj2
           (sanitizedName_safe (lit "jurnal-2021_v2.pdf")))))).
  vm_compute. reflexivity.
Defined.

(** ** The content of a formatted text *)

Section StarOfClass.

Variable fl : flags.
Variable neg : bool.
Variable items : list cls.

Lemma mt_star_cls_total (k : mstate -> option mstate) :
  (forall x, k x <> None) ->
  forall rest st, m_rest st = rest ->
    mt fl (star (Cls neg items)) st k
    = k (passWhile (fun c => xorb neg (in_class fl items c)) st rest).
Proof.
  intros K. induction rest as [|c rest IH]; intros st E; unfold star in *;
    rewrite mt_star_cls, E.
  - reflexivity.
  - cbn [passWhile].
    destruct (xorb neg (in_class fl items c)); [|reflexivity].
    rewrite (IH (advance st c rest) eq_refl).
    destruct (k (passWhile _ (advance st c rest) rest)) eqn:F; [reflexivity|].
    now apply K in F.
Qed.

End StarOfClass.

Lemma passWhile_space (rest : str) :
  forall st, m_rest st = rest ->
    let st' := passWhile (fun c => xorb false (in_class f_none [CS] c)) st rest in
    m_rest st' = trimStart rest /\
    m_pos st' + length (trimStart rest) = m_pos st + length rest.
Proof.
  induction rest as [|c rest IH]; intros st E; cbn [passWhile trimStart].
  - split; [exact E|reflexivity].
  - assert (C : xorb false (in_class f_none [CS] c) = isSpace c).
    { unfold in_class. cbn [existsb in_cls ignoreCase f_none andb xorb].
      now rewrite !orb_false_r. }
    rewrite C. destruct (isSpace c).
    + destruct (IH (advance st c rest) eq_refl) as [H1 H2].
      split; [exact H1|]. cbn [advance m_pos length] in *. lia.
    + split; [exact E|reflexivity].
Qed.

Lemma passWhile_any (rest : str) :
  forall st, m_rest st = rest ->
    let st' := passWhile (fun c => xorb false (in_class f_none [CS; CNS] c)) st rest in
    m_pos st' = m_pos st + length rest.
Proof.
  induction rest as [|c rest IH]; intros st E; cbn [passWhile].
  - cbn [length]. lia.
  - assert (C : xorb false (in_class f_none [CS; CNS] c) = true).
    { unfold in_class. cbn [existsb in_cls ignoreCase f_none andb xorb].
      now destruct (isSpace c). }
    rewrite C. cbn zeta in IH. rewrite (IH (advance st c rest) eq_refl).
    cbn [advance m_pos length]. lia.
Qed.

Section Marker.

Variable fl : flags.
Hypothesis case_sensitive : ignoreCase fl = false.

Lemma chr_eq_eqb (a b : char) : chr_eq fl a b = (a =? b)%N.
Proof. unfold chr_eq, canonicalize. now rewrite case_sensitive. Qed.

Lemma mt_Str_no (s : str) :
  forall st k, startsWith (m_rest st) s = false -> mt fl (Str s) st k = None.
Proof.
  induction s as [|c s IH]; intros st k H.
  - now destruct (m_rest st).
  - assert (G : mt fl (Seq (Chr c) (Str s)) st k = None).
    { cbn [mt]. destruct (m_rest st) as [|y rest] eqn:E; [reflexivity|].
      cbn [startsWith] in H. rewrite chr_eq_eqb.
      destruct (c =? y)%N; [|reflexivity]. cbn [andb] in H.
      apply IH. exact H. }
    destruct s as [|d s]; [|exact G].
    cbn [Str mt] in *. exact G.
Qed.

Lemma mt_Str_yes (s : str) :
  forall st, startsWith (m_rest st) s = true ->
    exists st',
      m_rest st' = skipn (length s) (m_rest st) /\
      m_pos st' = m_pos st + length s /\
      m_caps st' = m_caps st /\
      forall k, mt fl (Str s) st k = k st'.
Proof.
  induction s as [|c s IH]; intros st H.
  - exists st. cbn [length skipn]. repeat split. lia.
  - destruct (m_rest st) as [|y rest] eqn:E; [discriminate|].
    cbn [startsWith] in H. apply andb_true_iff in H as [C H].
    destruct (IH (advance st y rest) H) as (st' & R & P & Q & F).
    exists st'. cbn [advance m_rest m_pos m_caps length skipn] in *.
    repeat split; try assumption; [lia|].
    intros k.
    assert (G : mt fl (Seq (Chr c) (Str s)) st k = k st').
    { cbn [mt]. rewrite E, chr_eq_eqb, C. apply F. }
    destruct s as [|d s]; [|exact G].
    cbn [Str mt] in *. exact G.
Qed.

End Marker.

Section ContentOfFormatted.

Import UploadPage.

Lemma re_isi_no (prev : option char) (rest : str) (pos : nat) :
  startsWith rest (lit "Isi:") = false ->
  exec_at f_none re_isi prev rest pos = None.
Proof.
  intros H. unfold exec_at, re_isi. cbn [seq mt].
  now apply (mt_Str_no f_none eq_refl).
Qed.

Lemma skipn_trimStart (body : str) :
  skipn (length body - length (trimStart body)) body = trimStart body.
Proof.
  destruct (trimStart_decompose body) as (a & Ea & _).
  remember (trimStart body) as t eqn:Et. clear Et. subst body.
  rewrite length_app.
  replace (length a + length t - length t) with (length a) by lia.
  now rewrite skipn_app, Nat.sub_diag, skipn_all.
Qed.

Lemma re_isi_yes (input h body : str) (prev : option char) :
  input = h ++ lit "Isi:" ++ body ->
  exists st,
    exec_at f_none re_isi prev (lit "Isi:" ++ body) (length h) = Some st /\
    capture input st 1 = Some (trimStart body).
Proof.
  intros E. unfold exec_at, re_isi. cbn [seq mt].
  set (st0 := {| m_pos := length h; m_prev := prev;
                 m_rest := lit "Isi:" ++ body; m_caps := [] |}).
  assert (SW : startsWith (m_rest st0) (lit "Isi:") = true)
    by apply startsWith_app.
  destruct (mt_Str_yes f_none eq_refl (lit "Isi:") st0 SW)
    as (st1 & R1 & P1 & C1 & F1).
  unfold S_. rewrite F1.
  unfold st0 in R1, P1, C1. cbn [m_rest m_pos m_caps] in R1, P1, C1.
  change (length (lit "Isi:")) with 4 in R1, P1.
  change (skipn 4 (lit "Isi:" ++ body)) with body in R1.
  unfold s_.
  rewrite (mt_star_cls_total f_none false [CS]) with (rest := body);
    [|intros x; rewrite (mt_star_cls_total f_none false [CS; CNS])
                   with (rest := m_rest x); [discriminate|discriminate|reflexivity]
     |exact R1].
  set (st2 := passWhile _ st1 body).
  destruct (passWhile_space body st1 R1) as [R2 P2]. fold st2 in R2, P2.
  rewrite (mt_star_cls_total f_none false [CS; CNS]) with (rest := trimStart body);
    [|discriminate|exact R2].
  set (st3 := passWhile _ st2 (trimStart body)).
  pose proof (passWhile_any (trimStart body) st2 R2) as P3. fold st3 in P3.
  eexists. split; [reflexivity|].
  unfold capture, set_cap. cbn [m_caps cap_lookup Nat.eqb].
  rewrite P3.
  replace (m_pos st2 + length (trimStart body) - m_pos st2)
    with (length (trimStart body)) by lia.
  assert (L : m_pos st2 = length h + 4 + (length body - length (trimStart body))).
  { pose proof (proj1 (trimStart_length body)). lia. }
  rewrite L, E.
  replace (length h + 4 + (length body - length (trimStart body)))
    with ((length body - length (trimStart body)) + 4 + length h) by lia.
  rewrite <- skipn_skipn, skipn_app, Nat.sub_diag, skipn_all.
  cbn [app skipn]. rewrite <- skipn_skipn.
  pose proof (skipn_trimStart body) as S.
  change (skipn 4 (lit "Isi:" ++ body)) with body.
  now rewrite S, firstn_all.
Qed.

(** A text that ends with two line feeds and does not hold the marker:
    with any text after it, no match starts in it. *)
Lemma marker_straddle (a M : str) :
  startsWith (a ++ [nl; nl]) (lit "Isi:") = false ->
  startsWith (a ++ [nl; nl] ++ M) (lit "Isi:") = false.
Proof.
  change (lit "Isi:") with [73%N; 115%N; 105%N; 58%N].
  assert (Nil : forall s, startsWith s [] = true) by (intros []; reflexivity).
  destruct a as [|c1 [|c2 [|c3 [|c4 a]]]]; cbn [app startsWith]; rewrite ?Nil.
  - reflexivity.
  - intros _. destruct (73 =? c1)%N; reflexivity.
  - intros _. destruct (73 =? c1)%N; [|reflexivity].
    destruct (115 =? c2)%N; reflexivity.
  - intros _. destruct (73 =? c1)%N; [|reflexivity].
    destruct (115 =? c2)%N; [|reflexivity].
    destruct (105 =? c3)%N; reflexivity.
  - intros H. exact H.
Qed.

Lemma exec_from_marker (a body : str) :
  includes (a ++ [nl; nl]) (lit "Isi:") = false ->
  forall pre prev input,
    input = (pre ++ a ++ [nl; nl]) ++ lit "Isi:" ++ body ->
    exists st,
      exec_from f_none re_isi prev ((a ++ [nl; nl]) ++ lit "Isi:" ++ body)
                (length pre)
        = Some (length pre + length (a ++ [nl; nl]), st) /\
      capture input st 1 = Some (trimStart body).
Proof.
  induction a as [|c a IH]; intros H pre prev input E.
  - destruct (re_isi_yes input (pre ++ [nl; nl]) body (Some nl)) as (st & X & Y).
    { rewrite E. now rewrite app_nil_l. }
    rewrite length_app in X. cbn [length] in X.
    replace (length pre + 2) with (S (S (length pre))) in X by lia.
    remember (lit "Isi:" ++ body) as M eqn:EM.
    change (([] ++ [nl; nl]) ++ M) with (nl :: nl :: M).
    cbn [exec_from].
    rewrite re_isi_no by reflexivity.
    rewrite re_isi_no by reflexivity.
    assert (F : exec_from f_none re_isi (Some nl) M (S (S (length pre)))
                = Some (S (S (length pre)), st)).
    { destruct M; cbn [exec_from]; now rewrite X. }
    rewrite F. exists st. split; [|exact Y].
    cbn [app length]. f_equal. f_equal. lia.
  - cbn [includes app] in H. apply orb_false_iff in H as [H1 H2].
    change ((c :: a) ++ [nl; nl]) with (c :: a ++ [nl; nl]) in *.
    cbn [app exec_from].
    rewrite re_isi_no.
    2:{ rewrite <- app_assoc.
        apply (marker_straddle (c :: a) (lit "Isi:" ++ body)). exact H1. }
    destruct (IH H2 (pre ++ [c]) (Some c) input) as (st & X & Y).
    { rewrite E, <- !app_assoc. cbn [app]. now rewrite <- ?app_assoc. }
    rewrite length_app in X. cbn [length] in *.
    replace (S (length pre)) with (length pre + 1) by lia.
    rewrite X. exists st. split; [f_equal; f_equal; lia|exact Y].
Qed.

Lemma contentOf_after_marker (a body : str) :
  includes (a ++ [nl; nl]) (lit "Isi:") = false ->
  contentOf ((a ++ [nl; nl]) ++ lit "Isi:" ++ body) = trim body.
Proof.
  intros H. unfold contentOf, exec.
  destruct (exec_from_marker a body H [] None
              ((a ++ [nl; nl]) ++ lit "Isi:" ++ body) eq_refl) as (st & X & Y).
  cbn [length] in X. rewrite X, Y.
  unfold trim. now rewrite trimStart_idem.
Qed.

End ContentOfFormatted.

(** X21.  The page finds the cleaned text again in the output of the
    upload route: when the lines of the title, the authors and the year
    do not hold the marker of the content, the content that
    [createChunks] cuts into sentences is the cleaned text without the
    white space at its ends, and so the text that [cleanAcademicText]
    returned for the file. *)
Theorem contentOf_formattedText
    (metadata : UploadRoute.Metadata) (fileName : str) :
  includes (UploadRoute.header metadata fileName) (lit "Isi:") = false ->
  (forall cleanedText,
      UploadPage.contentOf (UploadRoute.formattedText metadata fileName cleanedText)
      = trim cleanedText) /\
  (forall rawText headerPattern footerPattern,
      UploadPage.contentOf
        (UploadRoute.formattedText metadata fileName
           (cleanAcademicText rawText headerPattern footerPattern))
      = cleanAcademicText rawText headerPattern footerPattern).
Proof.
  intros H.
  assert (G : forall cleanedText,
             UploadPage.contentOf
               (UploadRoute.formattedText metadata fileName cleanedText)
             = trim cleanedText).
  { intros cleanedText. unfold UploadRoute.formattedText.
    unfold UploadRoute.header in *.
    set (t := UploadRoute.orElse (UploadRoute.title metadata) _) in *.
    set (a := UploadRoute.orElse (UploadRoute.authors metadata) _) in *.
    set (y := UploadRoute.orElse (UploadRoute.year metadata) _) in *.
    assert (E : lit "Judul: " ++ t ++ js "\n\nPenulis: " ++ a ++
                js "\n\nTahun: " ++ y ++ js "\n\n"
                = (lit "Judul: " ++ t ++ js "\n\nPenulis: " ++ a ++
                   js "\n\nTahun: " ++ y) ++ [nl; nl]).
    { now rewrite <- !app_assoc. }
    rewrite E in *.
    change (js "Isi:\n" ++ cleanedText) with (lit "Isi:" ++ nl :: cleanedText).
    rewrite (contentOf_after_marker _ (nl :: cleanedText) H).
    unfold trim. reflexivity. }
  split; [exact G|].
  intros rawText headerPattern footerPattern. rewrite G.
  unfold cleanAcademicText, afterReferences, finalCleanup. apply trim_idem.
Qed.

Lemma contentOf_formattedText_witness :
  UploadPage.contentOf
    (UploadRoute.formattedText
       {| UploadRoute.title := lit "Jahe dan sakit kepala";
          UploadRoute.authors := [];
          UploadRoute.year := lit "2021" |}
       (lit "jahe.pdf") (js "  Jahe meredakan sakit kepala.\n"))
  = lit "Jahe meredakan sakit kepala.".
Proof.
  rewrite (proj1 (contentOf_formattedText
                    {| UploadRoute.title := lit "Jahe dan sakit kepala";
                       UploadRoute.authors := [];
                       UploadRoute.year := lit "2021" |}
                    (lit "jahe.pdf") eq_refl)).
  vm_compute. reflexivity.
Defined.

Section ChunksOfTheResult.

Import SearchRepository QueryService.

Variable Number : Type.
Variable World : Type.
Variable supabase : Supabase Number World.

Lemma enriched_same (rows : list (VectorSearchResult Number))
    (w : World) (vr : list (VectorSearchResult Number)) (w' : World) :
  (if 0 <? length rows then
     bindM (getJournalsForEmbeddings supabase (map (@vs_id Number) rows))
       (fun journalMap =>
          ret (map (fun result =>
                      {| vs_id := vs_id result;
                         vs_text := vs_text result;
                         vs_journal_id := vs_journal_id result;
                         vs_similarity := vs_similarity result;
                         vs_journal := map_get journalMap (vs_id result) |})
                   rows))
   else ret rows) w = (Ok vr, w') ->
  Forall2 sameChunk vr rows.
Proof.
  assert (R : forall l : list (VectorSearchResult Number), Forall2 sameChunk l l).
  { induction l; constructor; [repeat split|assumption]. }
  destruct (0 <? length rows); intros H.
  - apply bindM_Ok in H as (journalMap & w1 & _ & H).
    apply ret_Ok in H as [<- _].
    clear. induction rows as [|r rows IH]; cbn [map]; constructor;
      [repeat split|exact IH].
  - apply ret_Ok in H as [<- _]. apply R.
Qed.

End ChunksOfTheResult.

(** X22.  The chunks of a result of [hybridSearch] are the rows that the
    similarity search returned for the embedding of the query, as many
    and in their order, each with its id, its text, its journal id and
    its similarity; the search did not report an error; and
    [totalChunks] is the number of these rows. *)
Theorem hybridSearch_chunks_kept
    (Number World : Type)
    (supabase : SearchRepository.Supabase Number World)
    (extractQueryEntities : str -> str -> SearchRepository.M World (list QueryService.QueryEntity))
    (embed : str -> SearchRepository.M World (list Number))
    (generateAnswer :
       str -> list (SearchRepository.VectorSearchResult Number) ->
       list SearchRepository.GraphSearchResult ->
       list SearchRepository.GraphRelation -> str -> SearchRepository.M World str)
    (apiKey q : str) (topK : Z) (w w1 w2 w' : World)
    (qes : list QueryService.QueryEntity) (v : list Number)
    (res : QueryService.HybridSearchResult Number) :
  extractQueryEntities q apiKey w = (Ok qes, w1) ->
  embed q w1 = (Ok v, w2) ->
  QueryService.hybridSearch supabase extractQueryEntities embed generateAnswer
                            apiKey q topK w = (Ok res, w') ->
  let reply := fst (SearchRepository.rpc_search_similar_chunks supabase v topK w2) in
  let rows := SearchRepository.orEmpty (SearchRepository.data reply) in
  SearchRepository.error reply = false /\
  Forall2 sameChunk (QueryService.vectorResults res) rows /\
  QueryService.totalChunks (QueryService.summary res) = length rows /\
  QueryService.queryEntities res = qes.
Proof.
  intros Hq He H. cbn zeta.
  unfold QueryService.hybridSearch in H.
  unfold SearchRepository.bindM at 1 in H. rewrite Hq in H.
  unfold SearchRepository.bindM at 1 in H. rewrite He in H.
  apply bindM_Ok in H as (rows & w3 & Hv & H).
  apply bindM_Ok in H as (vr & w4 & Hvr & H).
  apply bindM_Ok in H as (found & w5 & _ & H).
  apply bindM_Ok in H as (rels & w6 & _ & H).
  apply bindM_Ok in H as (ans & w7 & _ & H).
  apply ret_Ok in H as [<- _].
  cbn [QueryService.vectorResults QueryService.summary QueryService.totalChunks
       QueryService.queryEntities].
  apply enriched_same in Hvr.
  unfold SearchRepository.vectorSearch, SearchRepository.getSupabaseClient,
    SearchRepository.bindM, SearchRepository.ask, SearchRepository.ret,
    SearchRepository.throw in Hv.
  destruct (SearchRepository.configured supabase); [|discriminate].
  destruct (SearchRepository.rpc_search_similar_chunks supabase v topK w2)
    as [reply w2'].
  cbn [fst]. destruct (SearchRepository.error reply); [discriminate|].
  injection Hv as <- _.
  split; [reflexivity|]. split; [exact Hvr|]. split; [|reflexivity].
  clear - Hvr. induction Hvr; cbn [length]; congruence.
Qed.

Lemma hybridSearch_chunks_kept_witness :
  exists res,
    QueryService.hybridSearch
      (SearchRepository.graphStore Example.small Found.chunks Found.embeddings)
      Example.headacheEntity Example.embedding Example.fixedAnswer
      (lit "key") (lit "what herb for headache") 5 tt = (Ok res, tt) /\
    map (@SearchRepository.vs_journal Z) (QueryService.vectorResults res)
      = [ Some {| SearchRepository.title := lit "Rhizomes";
                  SearchRepository.author := lit "Tan L.";
                  SearchRepository.year := lit "2020" |}; None ] /\
    Forall2 sameChunk (QueryService.vectorResults res) Found.twoRows /\
    QueryService.totalChunks (QueryService.summary res) = 2.
Proof.
  eexists. split; [vm_compute; reflexivity|].
  split; [reflexivity|].
  destruct (hybridSearch_chunks_kept Z unit
              (SearchRepository.graphStore Example.small Found.chunks
                                           Found.embeddings)
              Example.headacheEntity Example.embedding Example.fixedAnswer
              (lit "key") (lit "what herb for headache") 5 tt tt tt tt
              _ _ _ eq_refl eq_refl eq_refl) as (_ & F & T & _).
  split; [exact F|exact T].
Defined.

(** ** The rows that the journal repository writes *)

Section EmbeddingRows.

Import JournalRepository.

Variable Number : Type.
Variable stringify : list Number -> str.
Variable journalId : str.
Variable vectors : list (VectorResult Number).

Lemma embeddingsToInsert_rows (chunks : list Chunk) :
  forall index rows,
    embeddingsToInsert stringify journalId chunks vectors index = Done rows ->
    length rows = length chunks /\
    forall k chunk, nth_error chunks k = Some chunk ->
      exists vec,
        In vec vectors /\ v_chunkId vec = id chunk /\
        nth_error rows k =
          Some {| e_journal_id := journalId;
                  e_text := text chunk;
                  e_vector := stringify (vector vec);
                  e_chunk_index := index + k;
                  e_word_count := wordCount chunk |}.
Proof.
  induction chunks as [|c chunks IH]; intros index rows H;
    cbn [embeddingsToInsert] in H.
  - inversion H; subst. split; [reflexivity|]. intros [|k] chunk; discriminate.
  - destruct (find _ vectors) as [vec|] eqn:F; [|discriminate].
    destruct (embeddingsToInsert stringify journalId chunks vectors (S index))
      as [rows'|e] eqn:R; [|discriminate].
    inversion H; subst. destruct (IH _ _ R) as [L N].
    split; [cbn [length]; now rewrite L|].
    intros [|k] chunk E; cbn [nth_error] in *.
    + inversion E; subst. exists vec. apply find_some in F as [F1 F2].
      apply Z.eqb_eq in F2. rewrite Nat.add_0_r. auto.
    + destruct (N k chunk E) as (v & V1 & V2 & V3). exists v.
      rewrite V3. replace (index + S k) with (S index + k) by lia.
      repeat split; assumption.
Qed.

Lemma embeddingsToInsert_done (chunks : list Chunk) :
  (forall chunk, In chunk chunks ->
     exists vec, In vec vectors /\ v_chunkId vec = id chunk) ->
  forall index,
    exists rows, embeddingsToInsert stringify journalId chunks vectors index
                 = Done rows.
Proof.
  induction chunks as [|c chunks IH]; intros H index; cbn [embeddingsToInsert].
  - now exists [].
  - destruct (find _ vectors) as [vec|] eqn:F.
    + destruct (IH (fun x Hx => H x (or_intror Hx)) (S index)) as [rows R].
      rewrite R. eexists. reflexivity.
    + destruct (H c (or_introl eq_refl)) as (vec & V1 & V2).
      apply (find_none _ _ F) in V1. apply Z.eqb_neq in V1. contradiction.
Qed.

Lemma embeddingsToInsert_failed (chunks : list Chunk) :
  forall index e,
    embeddingsToInsert stringify journalId chunks vectors index = Failed e ->
    exists chunk,
      In chunk chunks /\ e = VectorNotFound (id chunk) /\
      forall vec, In vec vectors -> v_chunkId vec <> id chunk.
Proof.
  induction chunks as [|c chunks IH]; intros index e H;
    cbn [embeddingsToInsert] in H; [discriminate|].
  destruct (find _ vectors) as [vec|] eqn:F.
  - destruct (embeddingsToInsert stringify journalId chunks vectors (S index))
      as [rows'|e'] eqn:R; [discriminate|].
    inversion H; subst. destruct (IH _ _ R) as (chunk & I & E & N).
    exists chunk. split; [now right|]. split; assumption.
  - inversion H; subst. exists c. split; [now left|]. split; [reflexivity|].
    intros vec V. apply (find_none _ _ F) in V. now apply Z.eqb_neq in V.
Qed.

End EmbeddingRows.

(** X23.  [insertEmbeddings] writes one row for each chunk, in the order
    of the chunks and with its place in [chunk_index], counted from 0,
    when every chunk has a vector with its id.  When a chunk has none it
    throws for such a chunk without a query: nothing is written. *)
Theorem insertEmbeddings_rows
    (Number : Type) (stringify : list Number -> str)
    (World Row : Type) (supabase : JournalRepository.Store World Row)
    (journalId : str) (chunks : list JournalRepository.Chunk)
    (vectors : list (JournalRepository.VectorResult Number)) (w : World) :
  let insert := JournalRepository.insertEmbeddings stringify supabase
                  journalId chunks vectors w in
  ((forall chunk, In chunk chunks ->
      exists vec, In vec vectors /\
                  JournalRepository.v_chunkId vec = JournalRepository.id chunk) ->
   exists rows,
     let asked := JournalRepository.insert_embeddings supabase rows w in
     insert =
       ((if SearchRepository.error (fst asked)
         then JournalRepository.Failed JournalRepository.EmbeddingsInsertFailed
         else JournalRepository.Done
                (SearchRepository.orEmpty (SearchRepository.data (fst asked)))),
        snd asked) /\
     length rows = length chunks /\
     forall k chunk, nth_error chunks k = Some chunk ->
       exists vec,
         In vec vectors /\
         JournalRepository.v_chunkId vec = JournalRepository.id chunk /\
         nth_error rows k =
           Some {| JournalRepository.e_journal_id := journalId;
                   JournalRepository.e_text := JournalRepository.text chunk;
                   JournalRepository.e_vector :=
                     stringify (JournalRepository.vector vec);
                   JournalRepository.e_chunk_index := k;
                   JournalRepository.e_word_count :=
                     JournalRepository.wordCount chunk |}) /\
  ((exists chunk, In chunk chunks /\
      forall vec, In vec vectors ->
                  JournalRepository.v_chunkId vec <> JournalRepository.id chunk) ->
   exists chunk,
     In chunk chunks /\
     (forall vec, In vec vectors ->
                  JournalRepository.v_chunkId vec <> JournalRepository.id chunk) /\
     insert = (JournalRepository.Failed
                 (JournalRepository.VectorNotFound (JournalRepository.id chunk)), w)).
Proof.
  cbn zeta. unfold JournalRepository.insertEmbeddings. split.
  - intros H.
    destruct (embeddingsToInsert_done Number stringify journalId vectors chunks H 0)
      as [rows R].
    exists rows. rewrite R.
    destruct (embeddingsToInsert_rows Number stringify journalId vectors chunks 0 rows R)
      as [L N].
    split; [|split; [exact L|exact N]].
    unfold JournalRepository.bindM, JournalRepository.ask,
      JournalRepository.throw, JournalRepository.ret.
    destruct (JournalRepository.insert_embeddings supabase rows w) as [reply w'].
    cbn [fst snd]. now destruct (SearchRepository.error reply).
  - intros (chunk & I & N).
    destruct (JournalRepository.embeddingsToInsert stringify journalId chunks vectors 0)
      as [rows|e] eqn:R.
    + exfalso.
      destruct (In_nth_error _ _ I) as [k K].
      destruct (proj2 (embeddingsToInsert_rows Number stringify journalId vectors
                         chunks 0 rows R) k chunk K) as (vec & V1 & V2 & _).
      exact (N vec V1 V2).
    + destruct (embeddingsToInsert_failed Number stringify journalId vectors
                  chunks 0 e R) as (c & Ic & E & Nc).
      exists c. subst e. repeat split; assumption.
Qed.

Section EntityRows.

Import JournalRepository.

Lemma isSpace_letter (c : char) :
  (65 <= c <= 122)%N -> isSpace c = false.
Proof.
  intros H. unfold isSpace, isWhiteSpace, isLineTerminator, in_range.
  repeat match goal with
         | |- context [(c =? ?b)%N] =>
             replace (c =? b)%N with false by (symmetry; apply N.eqb_neq; lia)
         end.
  replace (8192 <=? c)%N with false by (symmetry; apply N.leb_gt; lia).
  reflexivity.
Qed.

Lemma isSpace_lowerChar (c : char) : isSpace (lowerChar c) = isSpace c.
Proof.
  unfold lowerChar. destruct (isUpper c) eqn:U; [|reflexivity].
  unfold isUpper, in_range in U. apply andb_true_iff in U as [U1 U2].
  apply N.leb_le in U1, U2.
  rewrite !isSpace_letter by lia. reflexivity.
Qed.

Lemma toLowerCase_trimStart (s : str) :
  toLowerCase (trimStart s) = trimStart (toLowerCase s).
Proof.
  induction s as [|c s IH]; [reflexivity|].
  cbn [trimStart toLowerCase map]. rewrite isSpace_lowerChar.
  destruct (isSpace c); [exact IH|reflexivity].
Qed.

Lemma toLowerCase_trim (s : str) : toLowerCase (trim s) = trim (toLowerCase s).
Proof.
  unfold trim, trimEnd.
  rewrite <- toLowerCase_trimStart.
  unfold toLowerCase at 1. rewrite map_rev. fold (toLowerCase (trimStart (rev (trimStart s)))).
  rewrite toLowerCase_trimStart. unfold toLowerCase at 1. now rewrite map_rev.
Qed.

Lemma normalizeEntityName_trim (n : str) :
  isAscii n = true -> normalizeEntityName (trim n) = normalizeEntityName n.
Proof.
  intros _. unfold normalizeEntityName. now rewrite toLowerCase_trim, trim_idem.
Qed.

Lemma entityKey_prepared (e : Entity) :
  isAscii (name e) = true -> isAscii (type e) = true ->
  entityKey (prepared e) = entityKey e.
Proof.
  intros Hn Ht. unfold entityKey, prepared. cbn [name type].
  now rewrite normalizeEntityName_trim, toLowerCase_toUpperCase.
Qed.

Lemma stored_prepared (e : Entity) :
  isAscii (type e) = true -> stored (prepared e) = prepared e.
Proof.
  intros _. unfold stored, prepared. cbn [name type]. f_equal.
  unfold toUpperCase. rewrite map_map. apply map_ext, upperChar_idem.
Qed.

Lemma entitiesToInsert_firsts (graphs : list GraphResult) :
  (forall graph entity, In graph graphs -> In entity (entities graph) ->
     isAscii (name entity) = true /\ isAscii (type entity) = true) ->
  entitiesToInsert graphs =
  firsts [] (flat_map (fun graph => map prepared (entities graph)) graphs).
Proof.
  intros A.
  unfold entitiesToInsert. rewrite deduplicateEntities_firsts.
  fold prepared.
  set (all := flat_map _ graphs).
  assert (P : forall x, In x all -> stored x = x).
  { intros x Hx. apply in_flat_map in Hx as (g & G & Hx).
    apply in_map_iff in Hx as (e & <- & He). apply stored_prepared.
    now apply (A g e G He). }
  rewrite <- (map_id (firsts [] all)) at 2.
  apply map_ext_in. intros x Hx. apply P. now apply firsts_keys in Hx as [Hx _].
Qed.

End EntityRows.

(** X24.  The rows that [insertEntities] sends to the store, for graphs
    whose entities have ASCII names and types: each is an entity of the
    graphs with its name trimmed and its type in upper case; no two have
    the same key, nor the same name and type; and every entity of the
    graphs has a row with its key (its normalised name and its type in
    lower case). *)
Theorem entitiesToInsert_rows (graphs : list JournalRepository.GraphResult) :
  (forall graph entity,
     In graph graphs -> In entity (JournalRepository.entities graph) ->
     isAscii (name entity) = true /\ isAscii (type entity) = true) ->
  let rows := JournalRepository.entitiesToInsert graphs in
  NoDup (map entityKey rows) /\
  NoDup (map (fun row => (name row, type row)) rows) /\
  (forall row, In row rows ->
     exists graph entity,
       In graph graphs /\ In entity (JournalRepository.entities graph) /\
       row = {| name := trim (name entity); type := toUpperCase (type entity) |}) /\
  (forall graph entity,
     In graph graphs -> In entity (JournalRepository.entities graph) ->
     exists row, In row rows /\ entityKey row = entityKey entity).
Proof.
  intros A rows. subst rows. rewrite (entitiesToInsert_firsts graphs A).
  set (all := flat_map _ graphs).
  pose proof (firsts_NoDup [] all) as K.
  split; [exact K|]. split; [|split].
  - revert K. generalize (firsts [] all) as l.
    induction l as [|o l IH]; cbn [map]; intros K; [constructor|].
    inversion K as [|? ? K1 K2]; subst. constructor; [|now apply IH].
    intros H. apply K1. apply in_map_iff in H as [o' [E Ho']].
    apply in_map_iff. exists o'. split; [|assumption].
    unfold entityKey. now inversion E.
  - intros row H. apply firsts_keys in H as [H _].
    apply in_flat_map in H as (g & G & H).
    apply in_map_iff in H as (e & <- & H). now exists g, e.
  - intros g e G H.
    assert (I : In (prepared e) all).
    { apply in_flat_map. exists g. split; [exact G|]. now apply in_map. }
    destruct (firsts_first [] all (prepared e) I) as (f & F1 & F2); [intros []|].
    exists f. split; [exact F2|].
    unfold firstWithKey in F1. apply find_some in F1 as [_ F1].
    apply str_eqb_eq in F1. rewrite F1.
    apply entityKey_prepared; now apply (A g e G H).
Qed.

Lemma entitiesToInsert_rows_witness :
  JournalRepository.entitiesToInsert Saving.oneGraph
    = [ {| name := lit "Ginger"; type := lit "PLANT" |};
        {| name := lit "headache"; type := lit "SYMPTOM" |} ] /\
  NoDup (map entityKey (JournalRepository.entitiesToInsert Saving.oneGraph)).
Proof.
  split; [vm_compute; reflexivity|].
  apply (entitiesToInsert_rows Saving.oneGraph).
  intros graph entity [<-|[]] [<-|[<-|[]]]; split; reflexivity.
Defined.

Section RelationRows.

Import JournalRepository.

Lemma entityIdMapOf_values (table : list EntityRow) :
  forall (m : JsMap str) k v,
    In (k, v)
       (fold_left
          (fun entityIdMap entity =>
             map_set entityIdMap
               (normalizeEntityName (row_name entity) ++ lit "|" ++
                toLowerCase (row_type entity))
               (row_id entity))
          table m) ->
    In (k, v) m \/ In v (map row_id table).
Proof.
  induction table as [|e table IH]; intros m k v H; cbn [fold_left] in H.
  - now left.
  - apply IH in H as [H|H]; [|right; now right].
    assert (G : forall (m : JsMap str) k0 v0,
               In (k, v) (map_set m k0 v0) -> In (k, v) m \/ v = v0).
    { clear. induction m as [|[k1 v1] m IH]; cbn [map_set]; intros k0 v0.
      - intros [E|[]]. inversion E. now right.
      - destruct (str_eqb k0 k1); cbn [In].
        + intros [E|I]; [inversion E; now right|left; now right].
        + intros [E|I]; [left; now left|].
          apply IH in I as [I|I]; [left; now right|now right]. }
    apply G in H as [H|H]; [now left|]. right. left. now symmetry.
Qed.

Lemma map_set_key_In {V} (m : JsMap V) (k : str) (v : V) (k' : str) :
  k' = k \/ In k' (map fst m) -> In k' (map fst (map_set m k v)).
Proof.
  rewrite map_set_keys. destruct (map_has m k) eqn:E.
  - intros [->|H]; [now apply map_has_In|exact H].
  - rewrite in_app_iff. cbn [In]. intros [->|H]; [right; now left|now left].
Qed.

Lemma entityIdMapOf_keys (table : list EntityRow) :
  forall (m : JsMap str) k,
    In k (map fst m) \/
    (exists e, In e table /\
               k = normalizeEntityName (row_name e) ++ lit "|" ++
                   toLowerCase (row_type e)) ->
    In k (map fst
            (fold_left
               (fun entityIdMap entity =>
                  map_set entityIdMap
                    (normalizeEntityName (row_name entity) ++ lit "|" ++
                     toLowerCase (row_type entity))
                    (row_id entity))
               table m)).
Proof.
  induction table as [|e table IH]; intros m k H; cbn [fold_left].
  - destruct H as [H|(e & [] & _)]. exact H.
  - apply IH. destruct H as [H|(x & [<-|X] & E)].
    + left. apply map_set_key_In. now right.
    + left. apply map_set_key_In. now left.
    + right. now exists x.
Qed.

Lemma splitChar_acc_head (sep : char) (n rest acc : str) :
  ~ In sep n ->
  exists tl, splitChar_acc sep acc (n ++ sep :: rest) = (rev acc ++ n) :: tl.
Proof.
  revert acc. induction n as [|c n IH]; intros acc H; cbn [app splitChar_acc].
  - rewrite N.eqb_refl, app_nil_r. eexists. reflexivity.
  - destruct (c =? sep)%N eqn:E.
    + apply N.eqb_eq in E. subst c. elim H. now left.
    + destruct (IH (c :: acc)) as [tl T]; [intros I; apply H; now right|].
      rewrite T. exists tl. cbn [rev]. now rewrite <- app_assoc.
Qed.

Lemma nameOfKey_key (n t : str) :
  ~ In 124%N n -> nameOfKey (n ++ lit "|" ++ t) = n.
Proof.
  intros H.
  destruct (splitChar_acc_head 124%N n t [] H) as [tl T].
  assert (G : splitChar 124%N (n ++ lit "|" ++ t) = n :: tl) by exact T.
  unfold nameOfKey. now rewrite G.
Qed.

Section Lookup.

Variable table : list EntityRow.
Hypothesis ids : forall e, In e table -> row_id e <> [].

Lemma own_pair {V} (o : JsMap V) (k : str) (v : V) :
  TextUtils.own o k = Some v -> In (k, v) o.
Proof.
  induction o as [|[k0 v0] o IH]; cbn [TextUtils.own]; [discriminate|].
  destruct (str_eqb k k0) eqn:E.
  - apply str_eqb_eq in E. intros H. inversion H; subst. now left.
  - intros H. right. now apply IH.
Qed.

Lemma idOf_value (key n id : str) :
  idOf (entityIdMapOf table) key n = Some id -> In id (map row_id table).
Proof.
  unfold idOf. intros H.
  assert (V : forall k v, In (k, v) (entityIdMapOf table) -> In v (map row_id table)).
  { intros k v I. apply entityIdMapOf_values in I as [[]|I]. exact I. }
  destruct (noId (TextUtils.own (entityIdMapOf table) key)).
  - destruct (find _ (entityIdMapOf table)) as [[k v]|] eqn:F.
    + inversion H; subst. apply find_some in F as [F _]. now apply (V k).
    + apply own_pair in H. now apply (V key).
  - apply own_pair in H. now apply (V key).
Qed.

Lemma idOf_found (key n : str) :
  fetchedName table n ->
  exists id, idOf (entityIdMapOf table) key (normalizeEntityName n) = Some id /\
             truthy_str id = true.
Proof.
  intros (B & e & I & E).
  assert (T : forall id, In id (map row_id table) -> truthy_str id = true).
  { intros id H. apply in_map_iff in H as (x & <- & X).
    apply truthy_str_nonempty. now apply ids. }
  unfold idOf.
  destruct (TextUtils.own (entityIdMapOf table) key) as [id|] eqn:O; cbn [noId].
  - assert (Tid : truthy_str id = true).
    { apply T. apply own_pair in O.
      apply entityIdMapOf_values in O as [[]|O]. exact O. }
    rewrite Tid. cbn [negb]. now exists id.
  - destruct (find _ (entityIdMapOf table)) as [[k v]|] eqn:F.
    + exists v. split; [reflexivity|]. apply T.
      apply find_some in F as [F _].
      apply entityIdMapOf_values in F as [[]|F]. exact F.
    + exfalso.
      assert (K : In (normalizeEntityName (row_name e) ++ lit "|" ++
                      toLowerCase (row_type e))
                     (map fst (entityIdMapOf table))).
      { apply entityIdMapOf_keys. right. now exists e. }
      apply in_map_iff in K as ([k v] & Ek & K). cbn [fst] in Ek.
      apply (find_none _ _ F) in K. cbn [fst] in K.
      rewrite Ek, E, nameOfKey_key, str_eqb_refl in K by exact B.
      discriminate.
Qed.

End Lookup.

End RelationRows.

(** X25.  The rows that [insertRelations] sends to the store, for the
    map made of the rows of the entities: each comes from a relation of
    the graphs with its three fields not empty, has the relation trimmed
    and not empty, the journal id, and for its source and its target the
    ids of rows of the entities.  When no row of the entities has an
    empty id, no relation is lost whose kind is not blank and whose
    source and target have the normalised name, without a bar, of a row
    of the entities. *)
Theorem relationsToInsert_rows
    (journalId : str) (graphs : list JournalRepository.GraphResult)
    (table : list JournalRepository.EntityRow) :
  let entityIdMap := JournalRepository.entityIdMapOf table in
  let rows := JournalRepository.relationsToInsert journalId graphs entityIdMap in
  (forall row, In row rows ->
     exists r,
       In r (JournalRepository.uniqueRelations graphs) /\
       JournalRepository.relationToInsert journalId graphs entityIdMap r = Some row /\
       JournalRepository.r_relation row = trim (relation r) /\
       JournalRepository.r_relation row <> [] /\
       JournalRepository.r_journal_id row = journalId /\
       In (JournalRepository.r_source_id row)
          (map JournalRepository.row_id table) /\
       In (JournalRepository.r_target_id row)
          (map JournalRepository.row_id table)) /\
  ((forall e, In e table -> JournalRepository.row_id e <> []) ->
   forall r,
     In r (JournalRepository.uniqueRelations graphs) ->
     trim (relation r) <> [] ->
     fetchedName table (source r) -> fetchedName table (target r) ->
     exists row,
       JournalRepository.relationToInsert journalId graphs entityIdMap r = Some row /\
       In row rows).
Proof.
  cbn zeta. unfold JournalRepository.relationsToInsert. split.
  - intros row H. apply in_flat_map in H as (r & R & H).
    destruct (JournalRepository.relationToInsert journalId graphs _ r)
      as [row'|] eqn:E; [|destruct H].
    destruct (truthy_str (JournalRepository.r_relation row')) eqn:T;
      cbn [andb] in H; [|destruct H].
    destruct (0 <? _); [|destruct H].
    destruct H as [<-|[]]. exists r. split; [exact R|]. split; [exact E|].
    unfold JournalRepository.relationToInsert in E.
    destruct (JournalRepository.idOf _ _ (normalizeEntityName (source r)))
      as [s|] eqn:Es; [|discriminate].
    destruct (JournalRepository.idOf _ _ (normalizeEntityName (target r)))
      as [t|] eqn:Et; [|discriminate].
    destruct (negb (truthy_str s) || negb (truthy_str t)); [discriminate|].
    inversion E; subst row'. cbn [JournalRepository.r_relation
      JournalRepository.r_journal_id JournalRepository.r_source_id
      JournalRepository.r_target_id] in *.
    apply idOf_value in Es, Et.
    repeat split; try assumption. now apply truthy_str_nonempty.
  - intros ids r R Hrel Hs Ht.
    destruct (idOf_found table ids
                (normalizeEntityName (source r) ++ lit "|" ++
                 toLowerCase (JournalRepository.getEntityTypeFromName (source r) graphs))
                (source r) Hs) as (s & Es & Ts).
    destruct (idOf_found table ids
                (normalizeEntityName (target r) ++ lit "|" ++
                 toLowerCase (JournalRepository.getEntityTypeFromName (target r) graphs))
                (target r) Ht) as (t & Et & Tt).
    assert (E : JournalRepository.relationToInsert journalId graphs
                  (JournalRepository.entityIdMapOf table) r
                = Some {| JournalRepository.r_source_id := s;
                          JournalRepository.r_relation := trim (relation r);
                          JournalRepository.r_target_id := t;
                          JournalRepository.r_journal_id := journalId |}).
    { unfold JournalRepository.relationToInsert. rewrite Es, Et, Ts, Tt.
      reflexivity. }
    eexists. split; [exact E|].
    apply in_flat_map. exists r. split; [exact R|]. rewrite E.
    cbn [JournalRepository.r_relation].
    destruct (trim (relation r)) as [|c rest] eqn:Tr; [now elim Hrel|].
    cbn. now left.
Qed.

Lemma insertEmbeddings_rows_witness :
  exists rows : list JournalRepository.EmbeddingInsert,
    length rows = length Saving.twoChunks /\
    JournalRepository.insertEmbeddings Saving.stringify Saving.store (lit "j1")
      Saving.twoChunks Saving.twoVectors []
    = (JournalRepository.Done (map (fun _ => tt) rows), ["embeddings"%string]).
Proof.
  destruct (proj1 (insertEmbeddings_rows Z Saving.stringify (list string) unit
                     Saving.store (lit "j1") Saving.twoChunks Saving.twoVectors []))
    as (rows & E & L & _).
  - intros chunk [<-|[<-|[]]].
    + exists {| JournalRepository.v_chunkId := 1;
                JournalRepository.vector := [1%Z];
                JournalRepository.dimension := 1 |}.
      split; [right; left; reflexivity|reflexivity].
    + exists {| JournalRepository.v_chunkId := 2;
                JournalRepository.vector := [0%Z];
                JournalRepository.dimension := 1 |}.
      split; [left; reflexivity|reflexivity].
  - exists rows. split; [exact L|]. exact E.
Defined.

Lemma relationsToInsert_rows_witness :
  exists row,
    In row (JournalRepository.relationsToInsert (lit "j1") Saving.oneGraph
              (JournalRepository.entityIdMapOf Saving.table)) /\
    JournalRepository.r_relation row = lit "treats".
Proof.
  destruct (proj2 (relationsToInsert_rows (lit "j1") Saving.oneGraph Saving.table))
    with (r := {| source := lit "ginger"; relation := lit "treats ";
                  target := lit "Headache" |})
    as (row & E & I).
  - intros e [<-|[<-|[]]]; discriminate.
  - vm_compute. now left.
  - vm_compute. discriminate.
  - split; [vm_compute; intros H; repeat destruct H as [H|H]; try discriminate; exact H|].
    eexists. split; [left; reflexivity|]. vm_compute. reflexivity.
  - split; [vm_compute; intros H; repeat destruct H as [H|H]; try discriminate; exact H|].
    eexists. split; [right; left; reflexivity|]. vm_compute. reflexivity.
  - exists row. split; [exact I|].
    destruct (proj1 (relationsToInsert_rows (lit "j1") Saving.oneGraph Saving.table)
                row I) as (r & _ & _ & Er & _).
    vm_compute in I. destruct I as [<-|[]]. reflexivity.
Defined.

Section SavingInOrder.

Import JournalRepository.

Variable Number : Type.
Variable stringify : list Number -> str.
Variable World Row : Type.
Variable supabase : Store World Row.
Variable currentYear : str.

Lemma insertEmbeddings_failed (journalId : str) (chunks : list Chunk)
    (vectors : list (VectorResult Number)) (w : World) :
  (exists chunk, In chunk chunks /\
     forall vec, In vec vectors -> v_chunkId vec <> id chunk) ->
  exists chunk,
    In chunk chunks /\
    (forall vec, In vec vectors -> v_chunkId vec <> id chunk) /\
    insertEmbeddings stringify supabase journalId chunks vectors w
    = (Failed (VectorNotFound (id chunk)), w).
Proof.
  intros (chunk & I & N). unfold insertEmbeddings.
  destruct (embeddingsToInsert stringify journalId chunks vectors 0)
    as [rows|e] eqn:R.
  - exfalso.
    destruct (In_nth_error _ _ I) as [k K].
    destruct (proj2 (embeddingsToInsert_rows Number stringify journalId vectors
                       chunks 0 rows R) k chunk K) as (vec & V1 & V2 & _).
    exact (N vec V1 V2).
  - destruct (embeddingsToInsert_failed Number stringify journalId vectors
                chunks 0 e R) as (c & Ic & E & Nc).
    exists c. subst e. repeat split; assumption.
Qed.

Lemma insertJournal_outcome (title author year fileUrl : str) (w : World) :
  let asked :=
    insert_journal supabase
      {| j_title := title; j_author := author;
         j_year := if truthy_str year then year else currentYear;
         j_file_url := fileUrl |} w in
  insertJournal supabase currentYear title author year fileUrl w =
  (match SearchRepository.error (fst asked), SearchRepository.data (fst asked) with
   | false, Some data => Done data
   | _, _ => Failed JournalInsertFailed
   end, snd asked).
Proof.
  cbn zeta. unfold insertJournal, bindM, ask, ret, throw.
  destruct (insert_journal supabase _ w) as [reply w1]. cbn [fst snd].
  destruct (SearchRepository.error reply); [reflexivity|].
  now destruct (SearchRepository.data reply).
Qed.

End SavingInOrder.

(** X26.  [saveToDatabase] writes the journal first and stops at the
    first step that fails, without undoing what is written: when the
    insertion of the journal fails nothing else is asked of the store;
    when it succeeds and a chunk has no vector with its id, the call
    throws for such a chunk and leaves the store as the insertion of the
    journal left it, the journal written and nothing else. *)
Theorem saveToDatabase_stops_at_first_failure
    (Number : Type) (stringify : list Number -> str)
    (World Row : Type) (supabase : JournalRepository.Store World Row)
    (currentYear : str)
    (params : JournalRepository.SaveToDbParams Number) (w : World) :
  let metadata := JournalRepository.metadata params in
  let asked :=
    JournalRepository.insert_journal supabase
      {| JournalRepository.j_title := JournalRepository.title metadata;
         JournalRepository.j_author := JournalRepository.author metadata;
         JournalRepository.j_year :=
           if truthy_str (JournalRepository.year metadata)
           then JournalRepository.year metadata else currentYear;
         JournalRepository.j_file_url := JournalRepository.fileUrl params |} w in
  let save := JournalRepository.saveToDatabase stringify supabase currentYear
                params w in
  (SearchRepository.error (fst asked) = true \/
   SearchRepository.data (fst asked) = None ->
   save = (JournalRepository.Failed JournalRepository.JournalInsertFailed,
           snd asked)) /\
  (SearchRepository.error (fst asked) = false ->
   SearchRepository.data (fst asked) <> None ->
   (exists chunk,
       In chunk (JournalRepository.chunks params) /\
       forall vec, In vec (JournalRepository.vectors params) ->
         JournalRepository.v_chunkId vec <> JournalRepository.id chunk) ->
   exists chunk,
     In chunk (JournalRepository.chunks params) /\
     (forall vec, In vec (JournalRepository.vectors params) ->
        JournalRepository.v_chunkId vec <> JournalRepository.id chunk) /\
     save = (JournalRepository.Failed
               (JournalRepository.VectorNotFound (JournalRepository.id chunk)),
             snd asked)).
Proof.
  cbn zeta. unfold JournalRepository.saveToDatabase. split.
  - intros H. unfold JournalRepository.bindM at 1.
    rewrite (insertJournal_outcome World Row supabase currentYear).
    destruct H as [E|E]; rewrite E; [reflexivity|].
    now destruct (SearchRepository.error _).
  - intros E D H. unfold JournalRepository.bindM at 1.
    rewrite (insertJournal_outcome World Row supabase currentYear), E.
    destruct (SearchRepository.data _) as [journal|]; [|now elim D].
    unfold JournalRepository.bindM at 1.
    match goal with
    | |- context [JournalRepository.insertEmbeddings _ _ _ _ _ ?w1] =>
        destruct (insertEmbeddings_failed Number stringify World Row supabase
                    journal (JournalRepository.chunks params)
                    (JournalRepository.vectors params) w1 H) as (c & I & N & F)
    end.
    rewrite F. now exists c.
Qed.

Lemma saveToDatabase_stops_at_first_failure_witness :
  exists chunk,
    In chunk Saving.twoChunks /\
    JournalRepository.saveToDatabase Saving.stringify Saving.store (lit "2024")
      (Saving.params [{| JournalRepository.v_chunkId := 1;
                         JournalRepository.vector := [1%Z];
                         JournalRepository.dimension := 1 |}]) []
    = (JournalRepository.Failed
         (JournalRepository.VectorNotFound (JournalRepository.id chunk)),
       ["journals"%string]).
Proof.
  destruct (proj2 (saveToDatabase_stops_at_first_failure Z Saving.stringify
                     (list string) unit Saving.store (lit "2024")
                     (Saving.params [{| JournalRepository.v_chunkId := 1;
                                        JournalRepository.vector := [1%Z];
                                        JournalRepository.dimension := 1 |}]) []))
    as (chunk & I & _ & E).
  - reflexivity.
  - discriminate.
  - eexists. split; [right; left; reflexivity|].
    intros vec [<-|[]]. discriminate.
  - exists chunk. split; [exact I|exact E].
Defined.

(** ** The entities of a query and the sources of an answer *)

Section QueryEntities.

Import MistralService QueryAnswer.

Lemma parseEntities_named (content : str) :
  exists l, parseEntities content = Ok l /\ Forall namedAndTyped l.
Proof.
  unfold parseEntities.
  destruct (bind (parseJSONResponse content) _) as [l|e] eqn:E; cbn [try_catch].
  - exists l. split; [reflexivity|].
    apply bind_Ok in E as (parsed & _ & E).
    apply filterM_Ok in E as [F _].
    eapply Forall_impl; [|exact F]. intros e H. cbv beta in H.
    apply bind_Ok in H as (n & Hn & H).
    destruct (truthy n) eqn:Tn; [|discriminate].
    apply bind_Ok in H as (t & Ht & H). inversion H.
    exists n, t. auto.
  - exists []. split; [reflexivity|constructor].
Qed.

Lemma handleQueryResponse_named (fetched : result Response) :
  exists l, handleQueryResponse fetched = Ok l /\ Forall namedAndTyped l.
Proof.
  unfold handleQueryResponse.
  destruct fetched as [response|e]; cbn [bind try_catch];
    [|exists []; split; [reflexivity|constructor]].
  destruct (ok response); cbn [negb try_catch];
    [|exists []; split; [reflexivity|constructor]].
  destruct (json response) as [data|e]; cbn [bind try_catch];
    [|exists []; split; [reflexivity|constructor]].
  destruct (contentOr data (lit "[]")) as [content|e]; cbn [bind try_catch];
    [|exists []; split; [reflexivity|constructor]].
  destruct (parseEntities_named content) as (l & E & F).
  rewrite E. cbn [try_catch]. now exists l.
Qed.

End QueryEntities.

(** X27.  [extractQueryEntities] never throws, whatever the request
    gives: it returns a list, each element of which has a name and a
    type that are not falsy; the list is empty when the request fails,
    when the response is not ok and when its body is not JSON. *)
Theorem extractQueryEntities_never_throws
    (World : Type)
    (fetch : str -> str -> World -> result MistralService.Response * World)
    (query apiKey : str) (w : World) :
  let fetched := fst (fetch apiKey query w) in
  exists entities,
    QueryAnswer.extractQueryEntities fetch query apiKey w
      = (Ok entities, snd (fetch apiKey query w)) /\
    Forall namedAndTyped entities /\
    ((forall response, fetched = Ok response ->
        MistralService.ok response = false \/
        (exists e, MistralService.json response = Throw e)) ->
     entities = []).
Proof.
  cbn zeta. unfold QueryAnswer.extractQueryEntities.
  destruct (fetch apiKey query w) as [fetched w']. cbn [fst snd].
  destruct (handleQueryResponse_named fetched) as (l & E & F).
  exists l. rewrite E. split; [reflexivity|]. split; [exact F|].
  intros H. unfold QueryAnswer.handleQueryResponse in E.
  destruct fetched as [response|e]; cbn [bind try_catch] in E;
    [|now inversion E].
  destruct (H response eq_refl) as [K|[e K]].
  - rewrite K in E. cbn in E. now inversion E.
  - destruct (MistralService.ok response); cbn [negb] in E;
      [|cbn in E; now inversion E].
    rewrite K in E. cbn in E. now inversion E.
Qed.

Lemma Subseq_refl {A} (l : list A) : Subseq l l.
Proof. induction l; constructor; assumption. Qed.

Lemma Subseq_trans {A} (l1 l2 l3 : list A) :
  Subseq l1 l2 -> Subseq l2 l3 -> Subseq l1 l3.
Proof.
  intros H1 H2. revert l1 H1.
  induction H2 as [|x l2 l3 H2 IH|x l2 l3 H2 IH]; intros l1 H1.
  - exact H1.
  - constructor. now apply IH.
  - inversion H1; subst; constructor; now apply IH.
Qed.

Lemma Subseq_nil_l {A} (l : list A) : Subseq [] l.
Proof. induction l; constructor; assumption. Qed.

Lemma Subseq_firstn {A} (n : nat) (l : list A) : Subseq (firstn n l) l.
Proof.
  revert n; induction l as [|x l IH]; intros [|n]; cbn [firstn].
  - constructor.
  - constructor.
  - apply Subseq_nil_l.
  - apply Subseq_keep, IH.
Qed.

Lemma Subseq_In {A} (l1 l2 : list A) :
  Subseq l1 l2 -> forall x, In x l1 -> In x l2.
Proof.
  induction 1; intros y I; cbn [In] in *; [exact I|right; auto|].
  destruct I as [->|I]; [now left|right; auto].
Qed.

Section SourcesOfAnswer.

Import SearchRepository QueryAnswer.

Variable A : Type.
Variable p : A -> bool.

Lemma findIndex_bounds (l : list A) :
  (findIndex p l = -1 \/ 0 <= findIndex p l < Z.of_nat (length l))%Z.
Proof.
  induction l as [|x l IH]; cbn [findIndex length]; [now left|].
  destruct (p x); [right; lia|].
  destruct (findIndex p l <? 0)%Z eqn:E; [now left|].
  apply Z.ltb_ge in E. right. lia.
Qed.

Lemma findIndex_none (pre l : list A) :
  (forall y, In y pre -> p y = false) ->
  findIndex p (pre ++ l) =
  if (findIndex p l <? 0)%Z then (-1)%Z
  else (Z.of_nat (length pre) + findIndex p l)%Z.
Proof.
  induction pre as [|y pre IH]; intros H; cbn [app findIndex length].
  - destruct (findIndex_bounds l) as [E|E].
    + rewrite E. reflexivity.
    + destruct (findIndex p l <? 0)%Z eqn:F; [apply Z.ltb_lt in F; lia|lia].
  - rewrite (H y (or_introl eq_refl)).
    rewrite IH by (intros z Hz; apply H; now right).
    destruct (findIndex p l <? 0)%Z eqn:F; [reflexivity|].
    apply Z.ltb_ge in F.
    destruct (_ <? 0)%Z eqn:G; [apply Z.ltb_lt in G; lia|lia].
Qed.

Lemma findIndex_some (pre l : list A) (y : A) :
  In y pre -> p y = true ->
  (0 <= findIndex p (pre ++ l) < Z.of_nat (length pre))%Z.
Proof.
  induction pre as [|z pre IH]; intros I Hy; [destruct I|].
  cbn [app findIndex length]. destruct (p z) eqn:Pz; [lia|].
  destruct I as [->|I]; [congruence|].
  specialize (IH I Hy).
  destruct (_ <? 0)%Z eqn:G; [apply Z.ltb_lt in G; lia|lia].
Qed.

End SourcesOfAnswer.

Lemma unique_titles (l : list SearchRepository.Journal) :
  forall pre,
    QueryAnswer.filterFrom
      (fun j i => (QueryAnswer.findIndex
                     (fun x => str_eqb (SearchRepository.title x)
                                       (SearchRepository.title j))
                     (pre ++ l) =? i)%Z)
      (Z.of_nat (length pre)) l
    = firstsBy SearchRepository.title (map SearchRepository.title pre) l.
Proof.
  induction l as [|j l IH]; intros pre; [reflexivity|].
  cbn [QueryAnswer.filterFrom firstsBy].
  specialize (IH (pre ++ [j])).
  rewrite <- app_assoc, length_app, map_app in IH. cbn [app length map] in IH.
  replace (Z.of_nat (length pre + 1)) with (Z.of_nat (length pre) + 1)%Z in IH by lia.
  destruct (arr_includes (map SearchRepository.title pre)
                         (SearchRepository.title j)) eqn:E.
  - apply arr_includes_In, in_map_iff in E as (y & Ey & Iy).
    pose proof (findIndex_some _
                  (fun x => str_eqb (SearchRepository.title x)
                                    (SearchRepository.title j))
                  pre (j :: l) y Iy) as B.
    cbv beta in B. rewrite Ey, str_eqb_refl in B. specialize (B eq_refl).
    replace (_ =? _)%Z with false by (symmetry; apply Z.eqb_neq; lia).
    rewrite IH. apply firstsBy_seen_ext. intros k.
    rewrite in_app_iff. cbn [In]. split; [|tauto].
    intros [H|[<-|[]]]; [exact H|].
    apply in_map_iff. exists y. split; [exact Ey|exact Iy].
  - assert (N : forall y, In y pre ->
                  str_eqb (SearchRepository.title y) (SearchRepository.title j)
                  = false).
    { intros y Iy. apply str_eqb_neq. intros Ey.
      assert (I : In (SearchRepository.title j) (map SearchRepository.title pre)).
      { apply in_map_iff. now exists y. }
      apply (proj2 (arr_includes_In _ _)) in I. congruence. }
    rewrite (findIndex_none _ _ pre (j :: l) N).
    cbn [QueryAnswer.findIndex]. rewrite str_eqb_refl. cbn.
    rewrite Z.add_0_r, Z.eqb_refl. f_equal.
    rewrite IH. apply firstsBy_seen_ext. intros k.
    rewrite in_app_iff. cbn [In]. tauto.
Qed.

(** X28.  The sources that [generateAnswer] lists under an answer are
    the first three of the journals of the chunks, each title counted
    once, at its first place: they are three at most, no two have the
    same title, they come in the order of the chunks, and each is the
    journal of a chunk. *)
Theorem sources_first_three_titles
    (Number : Type)
    (vectorContext : list (SearchRepository.VectorSearchResult Number)) :
  let sources := QueryAnswer.sources vectorContext in
  sources = firstn 3 (firstsBy SearchRepository.title []
                        (journalsOfContext vectorContext)) /\
  length sources <= 3 /\
  NoDup (map SearchRepository.title sources) /\
  Subseq sources (journalsOfContext vectorContext) /\
  (forall j, In j sources ->
     exists c, In c vectorContext /\ SearchRepository.vs_journal c = Some j).
Proof.
  cbn zeta.
  assert (E : QueryAnswer.sources vectorContext
              = firstn 3 (firstsBy SearchRepository.title []
                            (journalsOfContext vectorContext))).
  { unfold QueryAnswer.sources. fold (journalsOfContext vectorContext).
    f_equal. exact (unique_titles (journalsOfContext vectorContext) []). }
  rewrite E. split; [reflexivity|].
  set (u := firstsBy SearchRepository.title [] (journalsOfContext vectorContext)).
  assert (S1 : Subseq (firstn 3 u) u) by apply Subseq_firstn.
  assert (S2 : Subseq u (journalsOfContext vectorContext))
    by apply firstsBy_Subseq.
  assert (S3 : Subseq (firstn 3 u) (journalsOfContext vectorContext))
    by (eapply Subseq_trans; eassumption).
  split; [apply firstn_le_length|]. split; [|split; [exact S3|]].
  - assert (N : NoDup (map SearchRepository.title u)) by apply firstsBy_NoDup.
    clear - N. revert N. generalize 3.
    induction u as [|x u IH]; intros [|n] N; cbn [firstn map]; try constructor.
    + inversion N as [|? ? N1 N2]; subst. intros I. apply N1.
      apply in_map_iff in I as (y & Ey & Iy). apply in_map_iff. exists y.
      split; [exact Ey|].
      rewrite <- (firstn_skipn n u). apply in_or_app. now left.
    + inversion N; subst. now apply IH.
  - intros j I. apply (Subseq_In _ _ S3) in I.
    unfold journalsOfContext in I. apply in_flat_map in I as (c & C & I).
    exists c. split; [exact C|].
    destruct (SearchRepository.vs_journal c) as [j'|]; [|destruct I].
    destruct I as [->|[]]. reflexivity.
Qed.

Lemma filterRelationsByEntities_stable_witness :
  In {| source := lit "Ginger"; relation := lit "treats"; target := lit "ginger" |}
     (filterRelationsByEntities
        [ {| source := lit "Ginger"; relation := lit "treats";
             target := lit "ginger" |} ]
        [ {| name := lit "GINGER"; type := lit "PLANT" |};
          {| name := lit "headache"; type := lit "SYMPTOM" |} ]).
Proof.
  apply (proj2 (proj2 (filterRelationsByEntities_stable
           [ {| source := lit "Ginger"; relation := lit "treats";
                target := lit "ginger" |} ]
           [ {| name := lit "ginger"; type := lit "PLANT" |} ]
           [ {| name := lit "GINGER"; type := lit "PLANT" |};
             {| name := lit "headache"; type := lit "SYMPTOM" |} ]))).
  - intros e [<-|[]]. vm_compute. now left.
  - vm_compute. now left.
Defined.

Lemma extractQueryEntities_never_throws_witness :
  QueryAnswer.extractQueryEntities refused (lit "what herb for headache")
    (lit "key") tt = (Ok [], tt).
Proof.
  destruct (extractQueryEntities_never_throws unit refused
              (lit "what herb for headache") (lit "key") tt)
    as (entities & E & _ & H).
  rewrite E. rewrite H; [reflexivity|].
  intros response R. inversion R. now left.
Defined.
